(** * Sparse vectors and matrices of the autodiff package

    A shallow embedding of [vector_sparse_template.in] (both the iterator
    variant and the channel variant that the file contains) and of
    [matrix_sparse_template.in], with the properties their specification
    states about them.

    Go pointers are locations of an explicit store, [nil] is [None];
    a Go [int] is a [Z] with the 64-bit wrap-around written out; a
    [float64] is a primitive binary64 float; a Go map is a [gmap]. *)

From Stdlib Require Import ZArith List Bool String Ascii Lia.
From Stdlib Require Import Floats.PrimFloat.
From stdpp Require Import base option gmap sets list sorting.

Local Open Scope Z_scope.

(** ** Machine integers *)

Definition wrap (z : Z) : Z := (z + 2 ^ 63) mod 2 ^ 64 - 2 ^ 63.
Definition int_add (a b : Z) : Z := wrap (a + b).
Definition int_sub (a b : Z) : Z := wrap (a - b).
Definition int_mul (a b : Z) : Z := wrap (a * b).
Definition in_int (z : Z) : Prop := - 2 ^ 63 <= z < 2 ^ 63.

(** ** Results: a value, a Go panic, or an exhausted loop budget *)

Inductive Result (A : Type) : Type :=
| Ret (a : A)
| Panic (msg : string)
| Fuel.
Arguments Ret {A} a.
Arguments Panic {A} msg.
Arguments Fuel {A}.

Definition rbind {A B} (r : Result A) (k : A -> Result B) : Result B :=
  match r with
  | Ret a => k a
  | Panic msg => Panic msg
  | Fuel => Fuel
  end.

(** ** Scalars *)

(** Modelled from the spec: the differentiable scalar type (SCALAR_TYPE) is
    not part of the sources.  It holds a float64 value, an order in {0,1,2},
    a derivative sequence whose length is the number of free variables and a
    Hessian; it is cloned by deep copy. *)
Record Scalar : Type := mkScalar {
  value : float;
  order : Z;
  derivative : list float;
  hessian : list (list float)
}.

Definition fzero : float := PrimFloat.zero.

Definition NEW_SCALAR (v : float) : Scalar := mkScalar v 0 [] [].
Definition NULL_SCALAR : Scalar := NEW_SCALAR fzero.

Definition GetValue (s : Scalar) : float := value s.
Definition GetOrder (s : Scalar) : Z := order s.
Definition GetN (s : Scalar) : nat := length (derivative s).
Definition GetDerivative (s : Scalar) (i : nat) : float := nth i (derivative s) fzero.
Definition GetHessian (s : Scalar) (i j : nat) : float :=
  nth j (nth i (hessian s) []) fzero.
Definition SetValue (s : Scalar) (v : float) : Scalar :=
  mkScalar v (order s) (derivative s) (hessian s).

(** [x != 0.0] on float64 *)
Definition fnonzero (x : float) : bool := negb (PrimFloat.eqb x fzero).

(** The body of [nullScalar] on a scalar that is not nil *)
Definition isNull (s : Scalar) : bool :=
  if fnonzero (GetValue s) then false
  else if (1 <=? GetOrder s)
          && existsb (fun i => fnonzero (GetDerivative s i)) (seq 0 (GetN s))
  then false
  else if (2 <=? GetOrder s)
          && existsb (fun i =>
                existsb (fun j => fnonzero (GetHessian s i j)) (seq 0 (GetN s)))
               (seq 0 (GetN s))
  then false
  else true.

(** ** The sparse index structure of the iterator variant *)

(** Modelled from the spec: [vectorSparseIndex] and its iterator are not part
    of the sources.  The structure is a sequence of indices with a sortedness
    flag; insert appends and marks it unsorted; delete removes the index by a
    linear scan and keeps the order; an iterator sorts the sequence if needed
    and then produces the ascending indices from a start bound on; clone
    copies the sequence and the flag. *)
Record vectorSparseIndex : Type := mkIndex {
  indices : list Z;
  isSorted : bool
}.

Definition emptyIndex : vectorSparseIndex := mkIndex [] false.

Definition indexInsert (ix : vectorSparseIndex) (i : Z) : vectorSparseIndex :=
  mkIndex (indices ix ++ [i]) false.

Fixpoint remove_first (i : Z) (l : list Z) : list Z :=
  match l with
  | [] => []
  | k :: l' => if Z.eqb k i then l' else k :: remove_first i l'
  end.

Definition indexDelete (ix : vectorSparseIndex) (i : Z) : vectorSparseIndex :=
  mkIndex (remove_first i (indices ix)) (isSorted ix).

Definition indexSort (ix : vectorSparseIndex) : vectorSparseIndex :=
  if isSorted ix then ix else mkIndex (merge_sort Z.le (indices ix)) true.

Definition indexClone (ix : vectorSparseIndex) : vectorSparseIndex :=
  mkIndex (indices ix) (isSorted ix).

(** Modelled from the spec: [vectorSparseIndexIterator] is not part of the
    sources either.  It is the ascending sequence still to be produced, fixed
    when the iterator is created: Ok says that it is not empty, Get gives its
    head, Next drops the head, and deleting an index the iterator has passed
    does not disturb the positions to come. *)
Definition vectorSparseIndexIterator : Type := list Z.

Fixpoint drop_below (i : Z) (l : list Z) : list Z :=
  match l with
  | [] => []
  | k :: l' => if Z.ltb k i then drop_below i l' else l
  end.

Definition indexIteratorFrom (ix : vectorSparseIndex) (i : Z)
  : vectorSparseIndex * vectorSparseIndexIterator :=
  let ix' := indexSort ix in (ix', drop_below i (indices ix')).

Definition indexIterator (ix : vectorSparseIndex)
  : vectorSparseIndex * vectorSparseIndexIterator :=
  let ix' := indexSort ix in (ix', indices ix').

(** ** The store *)

(** Locations are positive numbers.  A pointer to a scalar (SCALAR_TYPE) or
    to a vector (VECTOR_TYPE) is a location or nil, which is [None]. *)
Abbreviation loc := positive (only parsing).
Abbreviation ptr := (option positive) (only parsing).

Record VECTOR_NAME : Type := mkVector {
  sparseIndex : vectorSparseIndex;
  values : gmap Z ptr;
  n : Z
}.

Record Heap : Type := mkHeap {
  scalars : gmap loc Scalar;
  vectors : gmap loc VECTOR_NAME
}.

Definition M (A : Type) : Type := Heap -> Result (A * Heap).

Definition ret {A} (a : A) : M A := fun h => Ret (a, h).
Definition bind {A B} (c : M A) (k : A -> M B) : M B :=
  fun h => match c h with
           | Ret (a, h') => k a h'
           | Panic msg => Panic msg
           | Fuel => Fuel
           end.
Definition panic {A} (msg : string) : M A := fun _ => Panic msg.
Definition out_of_fuel {A} : M A := fun _ => Fuel.
Definition lift {A} (r : Result A) : M A :=
  fun h => rbind r (fun a => Ret (a, h)).

Notation "x <- c ;; k" := (bind c (fun x => k))
  (at level 62, c at next level, right associativity).
Notation "c ;;; k" := (bind c (fun _ => k))
  (at level 62, right associativity).

Definition newScalar (s : Scalar) : M ptr :=
  fun h => let l := fresh (dom (scalars h)) in
           Ret (Some l, mkHeap (<[l := s]> (scalars h)) (vectors h)).

Definition loadScalar (p : ptr) : M Scalar :=
  fun h => match p with
           | None => Panic "nil pointer dereference"
           | Some l => match scalars h !! l with
                       | Some s => Ret (s, h)
                       | None => Panic "invalid pointer"
                       end
           end.

Definition storeScalar (p : ptr) (s : Scalar) : M unit :=
  fun h => match p with
           | None => Panic "nil pointer dereference"
           | Some l => match scalars h !! l with
                       | Some _ => Ret (tt, mkHeap (<[l := s]> (scalars h)) (vectors h))
                       | None => Panic "invalid pointer"
                       end
           end.

Definition newVector (o : VECTOR_NAME) : M ptr :=
  fun h => let l := fresh (dom (vectors h)) in
           Ret (Some l, mkHeap (scalars h) (<[l := o]> (vectors h))).

Definition loadVector (v : ptr) : M VECTOR_NAME :=
  fun h => match v with
           | None => Panic "nil pointer dereference"
           | Some l => match vectors h !! l with
                       | Some o => Ret (o, h)
                       | None => Panic "invalid pointer"
                       end
           end.

Definition storeVector (v : ptr) (o : VECTOR_NAME) : M unit :=
  fun h => match v with
           | None => Panic "nil pointer dereference"
           | Some l => match vectors h !! l with
                       | Some _ => Ret (tt, mkHeap (scalars h) (<[l := o]> (vectors h)))
                       | None => Panic "invalid pointer"
                       end
           end.

(** A value of interface type ConstScalar: the nil interface, a pointer to a
    stored scalar (which may be a nil pointer), or the constant
    CONST_SCALAR_TYPE(x). *)
Inductive ConstScalar : Type :=
| CNil
| CPtr (p : ptr)
| CConst (x : float).

Definition ConstScalar_load (c : ConstScalar) : M Scalar :=
  match c with
  | CNil => panic "nil pointer dereference"
  | CPtr p => loadScalar p
  | CConst x => ret (NEW_SCALAR x)
  end.

Definition ConstScalar_GetValue (c : ConstScalar) : M float :=
  s <- ConstScalar_load c ;; ret (GetValue s).

(** Scalar.Clone: a deep copy in a new location *)
Definition Scalar_Clone (p : ptr) : M ptr :=
  s <- loadScalar p ;; newScalar s.

(** ** The sparse vector, iterator variant *)

Definition NIL_VECTOR (length : Z) : M ptr :=
  newVector (mkVector emptyIndex ∅ length).

Definition NULL_VECTOR (length : Z) : M ptr :=
  v <- NIL_VECTOR length ;; ret v.

Definition Dim (obj : ptr) : M Z :=
  o <- loadVector obj ;; ret (n o).

Definition set_values (obj : ptr) (i : Z) (v : ptr) : M unit :=
  o <- loadVector obj ;;
  storeVector obj (mkVector (sparseIndex o) (<[i := v]> (values o)) (n o)).

Definition delete_values (obj : ptr) (i : Z) : M unit :=
  o <- loadVector obj ;;
  storeVector obj (mkVector (sparseIndex o) (delete i (values o)) (n o)).

Definition vector_indexInsert (obj : ptr) (i : Z) : M unit :=
  o <- loadVector obj ;;
  storeVector obj (mkVector (indexInsert (sparseIndex o) i) (values o) (n o)).

Definition vector_indexDelete (obj : ptr) (i : Z) : M unit :=
  o <- loadVector obj ;;
  storeVector obj (mkVector (indexDelete (sparseIndex o) i) (values o) (n o)).

Definition vector_indexIterator (obj : ptr) : M vectorSparseIndexIterator :=
  o <- loadVector obj ;;
  let '(ix, it) := indexIterator (sparseIndex o) in
  storeVector obj (mkVector ix (values o) (n o)) ;;;
  ret it.

Definition vector_indexIteratorFrom (obj : ptr) (i : Z) : M vectorSparseIndexIterator :=
  o <- loadVector obj ;;
  let '(ix, it) := indexIteratorFrom (sparseIndex o) i in
  storeVector obj (mkVector ix (values o) (n o)) ;;;
  ret it.

Fixpoint NEW_VECTOR_loop (r : ptr) (n_ : Z) (indices_ : list Z) (values_ : list float)
  : M unit :=
  match indices_, values_ with
  | k :: indices', x :: values' =>
      if n_ <=? k then panic "index larger than vector dimension"
      else
        o <- loadVector r ;;
        match values o !! k with
        | Some _ => panic "index appeared multiple times"
        | None =>
            (if fnonzero x
             then v <- newScalar (NEW_SCALAR x) ;;
                  set_values r k v ;;;
                  vector_indexInsert r k
             else ret tt) ;;;
            NEW_VECTOR_loop r n_ indices' values'
        end
  | _, _ => ret tt
  end.

Definition NEW_VECTOR (indices_ : list Z) (values_ : list float) (n_ : Z) : M ptr :=
  if negb (length indices_ =? length values_)%nat
  then panic "number of indices does not match number of values"
  else
    r <- NIL_VECTOR n_ ;;
    NEW_VECTOR_loop r n_ indices_ values_ ;;;
    ret r.

Fixpoint Clone_loop (r : ptr) (entries : list (Z * ptr)) : M unit :=
  match entries with
  | [] => ret tt
  | (i, v) :: entries' =>
      c <- Scalar_Clone v ;;
      set_values r i c ;;;
      Clone_loop r entries'
  end.

Definition Clone (obj : ptr) : M ptr :=
  o <- loadVector obj ;;
  r <- NIL_VECTOR (n o) ;;
  Clone_loop r (map_to_list (values o)) ;;;
  o' <- loadVector obj ;;
  ro <- loadVector r ;;
  storeVector r (mkVector (indexClone (sparseIndex o')) (values ro) (n ro)) ;;;
  ret r.

Definition out_of_bounds (i d : Z) : bool := (i <? 0) || (d <=? i).

Definition ValueAt (obj : ptr) (i : Z) : M float :=
  d <- Dim obj ;;
  if out_of_bounds i d then panic "index out of bounds"
  else
    o <- loadVector obj ;;
    match values o !! i with
    | Some v => s <- loadScalar v ;; ret (GetValue s)
    | None => ret fzero
    end.

Definition ConstAt (obj : ptr) (i : Z) : M ConstScalar :=
  d <- Dim obj ;;
  if out_of_bounds i d then panic "index out of bounds"
  else
    o <- loadVector obj ;;
    match values o !! i with
    | Some v => ret (CPtr v)
    | None => ret (CConst fzero)
    end.

Definition AT (obj : ptr) (i : Z) : M ptr :=
  d <- Dim obj ;;
  if out_of_bounds i d then panic "index out of bounds"
  else
    o <- loadVector obj ;;
    match values o !! i with
    | Some v => ret v
    | None =>
        v <- newScalar NULL_SCALAR ;;
        set_values obj i v ;;;
        vector_indexInsert obj i ;;;
        ret v
    end.

(** A map read [m[k]]: the zero value nil when the key is absent *)
Definition map_read (m : gmap Z ptr) (k : Z) : ptr := default None (m !! k).

Fixpoint Slice_loop (obj r : ptr) (i j : Z) (it : vectorSparseIndexIterator) : M unit :=
  match it with
  | [] => ret tt
  | k :: it' =>
      if j <=? k then ret tt
      else
        o <- loadVector obj ;;
        set_values r (int_sub k i) (map_read (values o) k) ;;;
        vector_indexInsert r (int_sub k i) ;;;
        Slice_loop obj r i j it'
  end.

Definition Slice (obj : ptr) (i j : Z) : M ptr :=
  r <- NIL_VECTOR (int_sub j i) ;;
  it <- vector_indexIteratorFrom obj i ;;
  Slice_loop obj r i j it ;;;
  ret r.

Definition Swap (obj : ptr) (i j : Z) : M unit :=
  o <- loadVector obj ;;
  let vi := map_read (values o) i in
  let vj := map_read (values o) j in
  storeVector obj (mkVector (sparseIndex o) (<[j := vi]> (<[i := vj]> (values o))) (n o)).

(** *** GetValues and ReverseOrder *)

(** [for i, v := range obj.values { r[i] = v.GetValue() }] on the slice
    [r]; an index outside the slice panics. *)
Fixpoint GetValues_loop (entries : list (Z * ptr)) (r : list float) : M (list float) :=
  match entries with
  | [] => ret r
  | (i, v) :: entries' =>
      s <- loadScalar v ;;
      if (i <? 0) || (Z.of_nat (length r) <=? i) then panic "index out of range"
      else GetValues_loop entries' (<[Z.to_nat i := GetValue s]> r)
  end.

Definition GetValues (obj : ptr) : M (list float) :=
  d <- Dim obj ;;
  if d <? 0 then panic "makeslice: len out of range"
  else
    o <- loadVector obj ;;
    GetValues_loop (map_to_list (values o)) (replicate (Z.to_nat d) fzero).

(** [for i, s := range obj.values] of ReverseOrder, on the new entry map and
    the new index *)
Definition ReverseOrder_step (n_ : Z) (acc : gmap Z ptr * vectorSparseIndex)
  (e : Z * ptr) : gmap Z ptr * vectorSparseIndex :=
  let j := int_sub (int_sub n_ (fst e)) 1 in
  (<[j := snd e]> (fst acc), indexInsert (snd acc) j).

Definition ReverseOrder (obj : ptr) : M unit :=
  n_ <- Dim obj ;;
  o <- loadVector obj ;;
  let r := fold_left (ReverseOrder_step n_) (map_to_list (values o)) (∅, emptyIndex) in
  storeVector obj (mkVector (snd r) (fst r) (n o)).

(** *** Permute *)

Definition Permute_elements (m : gmap Z ptr) (i p : Z) : gmap Z ptr :=
  match m !! i, m !! p with
  | Some vi, Some vp => <[i := vp]> (<[p := vi]> m)
  | Some vi, None => delete i (<[p := vi]> m)
  | None, Some vp => delete p (<[i := vp]> m)
  | None, None => m
  end.

Definition invalid_entry (n_ p : Z) : bool := (p <? 0) || (n_ <=? p).

(** The loop [for i := 0; i < obj.n; i++] of Permute on the entry map; the
    result is the map reached and the error, if one was returned. *)
Fixpoint Permute_loop (n_ : Z) (pi : list Z) (js : list nat) (m : gmap Z ptr)
  : Result (gmap Z ptr * option string) :=
  match js with
  | [] => Ret (m, None)
  | i :: js' =>
      match pi !! i with
      | None => Panic "index out of range"
      | Some p =>
          if invalid_entry n_ p then Ret (m, Some "Permute(): invalid permutation"%string)
          else
            let m' := if negb (Z.of_nat i =? p) && (Z.of_nat i <? p)
                      then Permute_elements m (Z.of_nat i) p else m in
            Permute_loop n_ pi js' m'
      end
  end.

Definition Permute (obj : ptr) (pi : list Z) : M (option string) :=
  o <- loadVector obj ;;
  if negb (Z.of_nat (length pi) =? n o)
  then ret (Some "Permute(): permutation vector has invalid length!"%string)
  else
    r <- lift (Permute_loop (n o) pi (seq 0 (Z.to_nat (n o))) (values o)) ;;
    match r with
    | (m, Some e) => storeVector obj (mkVector (sparseIndex o) m (n o)) ;;; ret (Some e)
    | (m, None) =>
        storeVector obj (mkVector (fold_left indexInsert pi emptyIndex) m (n o)) ;;;
        ret None
    end.

(** *** The iterator *)

Definition nullScalar (s : ptr) : M bool :=
  x <- loadScalar s ;; ret (isNull x).

Record VECTOR_ITERATOR : Type := mkIterator {
  it_index : vectorSparseIndexIterator;
  it_v : ptr
}.

Definition ITERATOR (obj : ptr) : M VECTOR_ITERATOR :=
  it <- vector_indexIterator obj ;; ret (mkIterator it obj).

Definition Iterator_Ok (it : VECTOR_ITERATOR) : bool :=
  match it_index it with
  | [] => false
  | _ :: _ => true
  end.

Definition Iterator_Index (it : VECTOR_ITERATOR) : M Z :=
  match it_index it with
  | [] => panic "index iterator is exhausted"
  | k :: _ => ret k
  end.

Definition Iterator_GET (it : VECTOR_ITERATOR) : M ptr :=
  k <- Iterator_Index it ;;
  o <- loadVector (it_v it) ;;
  match values o !! k with
  | Some v => ret v
  | None => ret None
  end.

Definition Iterator_GetConst (it : VECTOR_ITERATOR) : M ConstScalar :=
  k <- Iterator_Index it ;;
  o <- loadVector (it_v it) ;;
  match values o !! k with
  | Some v => ret (CPtr v)
  | None => ret CNil
  end.

Definition Iterator_GetValue (it : VECTOR_ITERATOR) : M float :=
  k <- Iterator_Index it ;;
  o <- loadVector (it_v it) ;;
  match values o !! k with
  | Some v => s <- loadScalar v ;; ret (GetValue s)
  | None => ret fzero
  end.

(** The loop of Next: while the position reached holds a structural zero,
    step over it and delete it from the entries and from the index. *)
Fixpoint Next_loop (v : ptr) (rest : vectorSparseIndexIterator)
  : M vectorSparseIndexIterator :=
  match rest with
  | [] => ret []
  | i :: rest' =>
      s <- Iterator_GET (mkIterator rest v) ;;
      b <- nullScalar s ;;
      if b then
        delete_values v i ;;;
        vector_indexDelete v i ;;;
        Next_loop v rest'
      else ret rest
  end.

Definition Iterator_Next (it : VECTOR_ITERATOR) : M VECTOR_ITERATOR :=
  rest <- Next_loop (it_v it) (tail (it_index it)) ;;
  ret (mkIterator rest (it_v it)).

(** [for it := obj.ITERATOR(); it.Ok(); it.Next() { }]: one full iteration *)
Fixpoint Iterate_loop (fuel : nat) (it : VECTOR_ITERATOR) : M unit :=
  match fuel with
  | O => out_of_fuel
  | S fuel' =>
      if Iterator_Ok it
      then it' <- Iterator_Next it ;; Iterate_loop fuel' it'
      else ret tt
  end.

Definition Iterate (obj : ptr) : M unit :=
  it <- ITERATOR obj ;;
  Iterate_loop (S (length (it_index it))) it.

(** *** Loops over an iterator *)

(** [for it := obj.ITERATOR(); it.Ok(); it.Next() { body }]: the body reads
    the iterator and assigns the local variables, whose values are the state
    [St]; Ok() and Next() are the ones of the vector iterator. *)
Section ForIterator.

Context {St : Type}.
Variable body : VECTOR_ITERATOR -> St -> M St.

Fixpoint for_iterator_loop (fuel : nat) (it : VECTOR_ITERATOR) (s : St) : M St :=
  match fuel with
  | O => out_of_fuel
  | S fuel' =>
      if Iterator_Ok it
      then s' <- body it s ;;
           it' <- Iterator_Next it ;;
           for_iterator_loop fuel' it' s'
      else ret s
  end.

Definition for_iterator (obj : ptr) (s : St) : M St :=
  it <- ITERATOR obj ;;
  for_iterator_loop (S (length (it_index it))) it s.

End ForIterator.

(** *** Append *)

(** The body of the loop of Append:
    [i := obj.n+it.Index(); r.values[i] = it.GET(); r.indexInsert(i)] *)
Definition Append_body (obj r : ptr) (it : VECTOR_ITERATOR) (_ : unit) : M unit :=
  o <- loadVector obj ;;
  k <- Iterator_Index it ;;
  let i := int_add (n o) k in
  p <- Iterator_GET it ;;
  set_values r i p ;;;
  vector_indexInsert r i.

Definition Append (obj w : ptr) : M ptr :=
  r <- Clone obj ;;
  o <- loadVector obj ;;
  d <- Dim w ;;
  ro <- loadVector r ;;
  storeVector r (mkVector (sparseIndex ro) (values ro) (int_add (n o) d)) ;;;
  for_iterator (Append_body obj r) w tt ;;;
  ret r.

(** *** The joint iterator *)

Record VECTOR_JOINT_ITERATOR : Type := mkJoint {
  it1 : VECTOR_ITERATOR;
  it2 : VECTOR_ITERATOR;
  idx : Z;
  s1 : ptr;
  s2 : ConstScalar
}.

Definition is_nil (c : ConstScalar) : bool :=
  match c with
  | CNil => true
  | _ => false
  end.

Definition Joint_Index (jt : VECTOR_JOINT_ITERATOR) : Z := idx jt.

Definition Joint_Ok (jt : VECTOR_JOINT_ITERATOR) : M bool :=
  b1 <- match s1 jt with
        | None => ret false
        | Some _ => s <- loadScalar (s1 jt) ;; ret (fnonzero (GetValue s))
        end ;;
  if b1 then ret true
  else if is_nil (s2 jt) then ret false
  else x <- ConstScalar_GetValue (s2 jt) ;; ret (fnonzero x).

Definition Joint_Next (jt : VECTOR_JOINT_ITERATOR) : M VECTOR_JOINT_ITERATOR :=
  let ok1 := Iterator_Ok (it1 jt) in
  let ok2 := Iterator_Ok (it2 jt) in
  r1 <- (if ok1
         then i <- Iterator_Index (it1 jt) ;;
              s <- Iterator_GET (it1 jt) ;; ret (i, s)
         else ret (idx jt, None)) ;;
  let '(idx1, s1a) := r1 in
  r2 <- (if ok2
                   then i2 <- Iterator_Index (it2 jt) ;;
                        if (i2 <? idx1) || negb ok1
                        then c <- Iterator_GetConst (it2 jt) ;; ret (i2, None, c)
                        else if idx1 =? i2
                        then c <- Iterator_GetConst (it2 jt) ;; ret (idx1, s1a, c)
                        else ret (idx1, s1a, CNil)
                   else ret (idx1, s1a, CNil)) ;;
  let '(idx2, s1b, s2b) := r2 in
  it1' <- match s1b with
          | Some _ => Iterator_Next (it1 jt)
          | None => ret (it1 jt)
          end ;;
  if is_nil s2b
  then ret (mkJoint it1' (it2 jt) idx2 s1b (CConst fzero))
  else it2' <- Iterator_Next (it2 jt) ;;
       ret (mkJoint it1' it2' idx2 s1b s2b).

Definition JOINT_ITERATOR (obj b : ptr) : M VECTOR_JOINT_ITERATOR :=
  i1 <- ITERATOR obj ;;
  i2 <- ITERATOR b ;;
  Joint_Next (mkJoint i1 i2 (-1) None CNil).

Definition Joint_Get (jt : VECTOR_JOINT_ITERATOR) : ptr * ConstScalar :=
  (s1 jt, s2 jt).

Definition Joint_GetValue (jt : VECTOR_JOINT_ITERATOR) : M (float * float) :=
  v1 <- match s1 jt with
        | None => ret fzero
        | Some _ => s <- loadScalar (s1 jt) ;; ret (GetValue s)
        end ;;
  v2 <- (if is_nil (s2 jt) then ret fzero else ConstScalar_GetValue (s2 jt)) ;;
  ret (v1, v2).

(** What one step of a joint iteration shows: the index, the two scalars
    of Get and the two floats of GetValue. *)
Record JointEntry : Type := mkEntry {
  e_index : Z;
  e_s1 : ptr;
  e_s2 : ConstScalar;
  e_v1 : float;
  e_v2 : float
}.

(** [for it := a.JointIterator(b); it.Ok(); it.Next() { ... }] *)
Fixpoint Joint_loop (fuel : nat) (jt : VECTOR_JOINT_ITERATOR) : M (list JointEntry) :=
  match fuel with
  | O => out_of_fuel
  | S fuel' =>
      ok <- Joint_Ok jt ;;
      if ok then
        v <- Joint_GetValue jt ;;
        let e := mkEntry (Joint_Index jt) (fst (Joint_Get jt)) (snd (Joint_Get jt))
                   (fst v) (snd v) in
        jt' <- Joint_Next jt ;;
        es <- Joint_loop fuel' jt' ;;
        ret (e :: es)
      else ret []
  end.

Definition JointIterate (a b : ptr) : M (list JointEntry) :=
  jt <- JOINT_ITERATOR a b ;;
  Joint_loop (S (S (length (it_index (it1 jt)) + length (it_index (it2 jt))))) jt.

(** *** Import *)

(** strings.Fields and strings.Split(s, ":") on ASCII text *)
Definition isSpace (c : ascii) : bool :=
  let k := nat_of_ascii c in
  ((9 <=? k) && (k <=? 13) || (k =? 32))%nat.

Definition flush (cur : string) : list string :=
  match cur with
  | EmptyString => []
  | _ => [cur]
  end.

Fixpoint Fields_from (cur s : string) : list string :=
  match s with
  | EmptyString => flush cur
  | String c s' =>
      if isSpace c then flush cur ++ Fields_from EmptyString s'
      else Fields_from (String.append cur (String c EmptyString)) s'
  end.

Definition Fields (s : string) : list string := Fields_from EmptyString s.

Fixpoint Split_from (cur s : string) : list string :=
  match s with
  | EmptyString => [cur]
  | String c s' =>
      if Ascii.eqb c ":"%char then cur :: Split_from EmptyString s'
      else Split_from (String.append cur (String c EmptyString)) s'
  end.

Definition Split_colon (s : string) : list string := Split_from EmptyString s.

Definition invalid_sparse_table : string := "invalid sparse table"%string.

(** The local variables [indices], [values] and [n] of Import *)
Record ImportState : Type := mkImport {
  imp_indices : list Z;
  imp_values : list float;
  imp_n : Z
}.

Section VectorImport.

(** strconv.ParseInt(s, 10, 64) and strconv.ParseFloat(s, 64): [None] is a
    returned error *)
Variable ParseInt : string -> option Z.
Variable ParseFloat : string -> option float.

(** [for i := 0; i < len(fields); i++] *)
Fixpoint Import_fields (fields : list string) (st : ImportState)
  : ImportState + string :=
  match fields with
  | [] => inl st
  | f :: fields' =>
      match Split_colon f with
      | [a; b] =>
          match ParseInt a with
          | None => inr invalid_sparse_table
          | Some k =>
              let n' := if imp_n st <? int_add k 1 then int_add k 1 else imp_n st in
              match ParseFloat b with
              | None => inr invalid_sparse_table
              | Some x =>
                  Import_fields fields'
                    (mkImport (imp_indices st ++ [k]) (imp_values st ++ [x]) n')
              end
          end
      | _ => inr invalid_sparse_table
      end
  end.

(** [for scanner.Scan()] over the lines of the file *)
Fixpoint Import_lines (obj : ptr) (lines : list string) (st : ImportState)
  : M (ImportState + string) :=
  match lines with
  | [] => ret (inl st)
  | line :: lines' =>
      let fields := Fields line in
      if (length fields =? 0)%nat then Import_lines obj lines' st
      else
        o <- loadVector obj ;;
        if negb (size (values o) =? 0)%nat then ret (inr invalid_sparse_table)
        else
          match Import_fields fields st with
          | inr e => ret (inr e)
          | inl st' => Import_lines obj lines' st'
          end
  end.

(** Import on the lines the scanner delivers; opening the file and the gzip
    test come first and return their error before [obj] is read. *)
Definition Import (obj : ptr) (lines : list string) : M (option string) :=
  r <- Import_lines obj lines (mkImport [] [] 0) ;;
  match r with
  | inr e => ret (Some e)
  | inl st =>
      v <- NEW_VECTOR (imp_indices st) (imp_values st) (imp_n st) ;;
      o <- loadVector v ;;
      storeVector obj o ;;;
      ret None
  end.

End VectorImport.

(** ** The sparse vector, channel variant *)

Module Chan.

Record INDEX_SLICE : Type := mkIndexSlice {
  values : list Z;
  isSorted : bool
}.

(** [sort] has a value receiver: the shared backing array is sorted, the
    flag is set on the copy only. *)
Definition sort (obj : INDEX_SLICE) : INDEX_SLICE :=
  if negb (isSorted obj)
  then mkIndexSlice (merge_sort Z.le (values obj)) (isSorted obj)
  else obj.



Record VECTOR_TYPE : Type := mkVector {
  indices : INDEX_SLICE;
  entries : gmap Z ptr;
  n : Z
}.

Definition NIL_VECTOR (length : Z) : VECTOR_TYPE :=
  mkVector (mkIndexSlice [] false) ∅ length.

(** [for k, v := range obj.values] of Slice *)
Definition Slice_step (i j : Z) (r : VECTOR_TYPE) (kv : Z * ptr) : VECTOR_TYPE :=
  if (i <=? fst kv) && (fst kv <? j)
  then mkVector (indices r) (<[int_sub (fst kv) i := snd kv]> (entries r)) (n r)
  else r.

Definition Slice (obj : VECTOR_TYPE) (i j : Z) : VECTOR_TYPE :=
  fold_left (Slice_step i j) (map_to_list (entries obj)) (NIL_VECTOR (int_sub j i)).

Definition Permute (obj : VECTOR_TYPE) (pi : list Z)
  : Result (VECTOR_TYPE * option string) :=
  if negb (Z.of_nat (length pi) =? n obj)
  then Ret (obj, Some "Permute(): permutation vector has invalid length!"%string)
  else
    rbind (Permute_loop (n obj) pi (seq 0 (Z.to_nat (n obj))) (entries obj))
      (fun r => Ret (mkVector (indices obj) (fst r) (n obj), snd r)).

(** RANGE, Range and ConstRange: the vector as [sort] leaves it, and the
    entries the goroutine sends on the channel before it closes it.  [sort]
    has a value receiver: it sorts the shared values in place and sets the
    flag on its copy only. *)
Definition RANGE (obj : VECTOR_TYPE) : VECTOR_TYPE * list (Z * ptr) :=
  let ix := sort (indices obj) in
  (mkVector ix (entries obj) (n obj),
   map (fun i => (i, map_read (entries obj) i)) (values ix)).

Record JOINT_RANGE_TYPE : Type := mkJointRange {
  Index : Z;
  Value1 : ptr;
  Value2 : ConstScalar
}.

(** The body of the loop of JOINT_RANGE up to the send: the entry it builds
    from what was received from the two channels, [None] when that channel
    was closed *)
Definition JOINT_RANGE_entry (r1 r2 : option (Z * ptr)) : JOINT_RANGE_TYPE :=
  let r := mkJointRange 0 None (CConst fzero) in
  let r := match r1 with
           | Some (i1, v1) => mkJointRange i1 v1 (Value2 r)
           | None => r
           end in
  match r2 with
  | Some (i2, v2) =>
      if i2 <? Index r then mkJointRange i2 None (CPtr v2)
      else if Index r =? i2 then mkJointRange (Index r) (Value1 r) (CPtr v2)
      else r
  | None => r
  end.

(** [for ok1 || ok2 { ...; channel <- r }; close(channel)]: the entries sent
    in [fuel] rounds of the loop, and whether the channel was closed.  The
    body receives nothing, so [r1], [ok1], [r2] and [ok2] stay what the two
    receives before the loop made them. *)
Fixpoint JOINT_RANGE_loop (fuel : nat) (r1 r2 : option (Z * ptr))
  : list JOINT_RANGE_TYPE * bool :=
  match fuel with
  | O => ([], false)
  | S fuel' =>
      if bool_decide (is_Some r1) || bool_decide (is_Some r2)
      then (JOINT_RANGE_entry r1 r2 :: fst (JOINT_RANGE_loop fuel' r1 r2),
            snd (JOINT_RANGE_loop fuel' r1 r2))
      else ([], true)
  end.

Definition JOINT_RANGE (fuel : nat) (obj b : VECTOR_TYPE) : list JOINT_RANGE_TYPE * bool :=
  JOINT_RANGE_loop fuel (head (snd (RANGE obj))) (head (snd (RANGE b))).

(** Append: the new vector, and [w] as RANGE leaves it.  The first loop is
    [for i, v := range obj.values], the second [for entry := range
    w.RANGE()]. *)
Definition Append (obj w : VECTOR_TYPE) : VECTOR_TYPE * VECTOR_TYPE :=
  let r := NIL_VECTOR (int_add (n obj) (n w)) in
  let r := fold_left (fun r kv => mkVector (indices r) (<[fst kv := snd kv]> (entries r)) (n r))
             (map_to_list (entries obj)) r in
  (fold_left (fun r kv => mkVector (indices r)
                            (<[int_add (n obj) (fst kv) := snd kv]> (entries r)) (n r))
     (snd (RANGE w)) r,
   fst (RANGE w)).

Section ChanSort.

(** sort.Sort, or sort.Sort on sort.Reverse when the flag is set, on the
    first [len] elements, where [len] is what Len() returns: a function of
    the library *)
Variable sort_Sort : bool -> nat -> list ptr -> M (list ptr).

(** [for i := 0; i < len(r.Value); i++] of Sort, on the new vector *)
Fixpoint Sort_loop (rValue : list ptr) (rIndex : list Z) (ip in_ : Z) (js : list nat)
  (new : VECTOR_TYPE) : M VECTOR_TYPE :=
  match js with
  | [] => ret new
  | i :: js' =>
      match rValue !! i with
      | None => panic "index out of range"
      | Some v =>
          s <- loadScalar v ;;
          let k := if PrimFloat.ltb fzero (GetValue s)
                   then int_add (Z.of_nat i) ip else int_add (Z.of_nat i) in_ in
          let new1 := mkVector (indices new) (<[k := v]> (entries new)) (n new) in
          match rIndex !! i with
          | None => panic "index out of range"
          | Some x =>
              if (length (values (indices new1)) <=? i)%nat
              then panic "index out of range"
              else Sort_loop rValue rIndex ip in_ js'
                     (mkVector (mkIndexSlice (<[i := x]> (values (indices new1)))
                                  (isSorted (indices new1)))
                        (entries new1) (n new1))
          end
      end
  end.

(** Sort.  [r.Index] is never appended to, and Len() is [len(r.Index)].
    The receiver variable is assigned the new vector before anything is
    written, so the vector of the caller is not changed; what is returned
    here is the new vector. *)
Definition Sort (obj : VECTOR_TYPE) (reverse : bool) : M VECTOR_TYPE :=
  let rValue := map snd (map_to_list (entries obj)) in
  let rIndex : list Z := [] in
  rValue <- sort_Sort reverse (length rIndex) rValue ;;
  let new := NIL_VECTOR (n obj) in
  let in_ := if reverse then int_sub (n new) (Z.of_nat (size (entries new))) else 0 in
  let ip := if reverse then 0 else int_sub (n new) (Z.of_nat (size (entries new))) in
  Sort_loop rValue rIndex ip in_ (seq 0 (length rValue)) new.

End ChanSort.

Section ChanImport.

Variable ParseInt : string -> option Z.
Variable ParseFloat : string -> option float.

Fixpoint Import_fields (fields : list string) (obj : VECTOR_TYPE)
  : M (VECTOR_TYPE * option string) :=
  match fields with
  | [] => ret (obj, None)
  | f :: fields' =>
      match Split_colon f with
      | [a; b] =>
          match ParseInt a with
          | None => ret (obj, Some invalid_sparse_table)
          | Some k =>
              match ParseFloat b with
              | None => ret (obj, Some invalid_sparse_table)
              | Some x =>
                  v <- newScalar (NEW_SCALAR x) ;;
                  let n' := if n obj <? int_add k 1 then int_add k 1 else n obj in
                  Import_fields fields'
                    (mkVector (indices obj) (<[k := v]> (entries obj)) n')
              end
          end
      | _ => ret (obj, Some invalid_sparse_table)
      end
  end.

Fixpoint Import_lines (lines : list string) (obj : VECTOR_TYPE)
  : M (VECTOR_TYPE * option string) :=
  match lines with
  | [] => ret (obj, None)
  | line :: lines' =>
      let fields := Fields line in
      if (length fields =? 0)%nat then Import_lines lines' obj
      else if negb (size (entries obj) =? 0)%nat
      then ret (obj, Some invalid_sparse_table)
      else
        r <- Import_fields fields obj ;;
        match snd r with
        | Some e => ret r
        | None => Import_lines lines' (fst r)
        end
  end.

(** Import: the vector [obj] points to after the call, and the error *)
Definition Import (obj : VECTOR_TYPE) (lines : list string)
  : M (VECTOR_TYPE * option string) :=
  Import_lines lines (NIL_VECTOR 0).

End ChanImport.

End Chan.

(** ** The sparse matrix *)

Record MATRIX_NAME : Type := mkMatrix {
  mvalues : ptr;
  rows : Z;
  cols : Z;
  rowOffset : Z;
  rowMax : Z;
  colOffset : Z;
  colMax : Z;
  transposed : bool;
  tmp1 : ptr;
  tmp2 : ptr
}.

Definition initTmp_one (tmp : ptr) (k : Z) : M ptr :=
  match tmp with
  | None => NULL_VECTOR k
  | Some _ =>
      d <- Dim tmp ;;
      if d <? k then NULL_VECTOR k else Slice tmp 0 k
  end.

Definition initTmp (matrix : MATRIX_NAME) : M MATRIX_NAME :=
  t1 <- initTmp_one (tmp1 matrix) (rows matrix) ;;
  t2 <- initTmp_one (tmp2 matrix) (cols matrix) ;;
  ret (mkMatrix (mvalues matrix) (rows matrix) (cols matrix)
         (rowOffset matrix) (rowMax matrix) (colOffset matrix) (colMax matrix)
         (transposed matrix) t1 t2).

Definition NULL_MATRIX (rows_ cols_ : Z) : M MATRIX_NAME :=
  v <- NULL_VECTOR (int_mul rows_ cols_) ;;
  initTmp (mkMatrix v rows_ cols_ 0 rows_ 0 cols_ false None None).

Definition NIL_MATRIX (rows_ cols_ : Z) : M MATRIX_NAME :=
  v <- NIL_VECTOR (int_mul rows_ cols_) ;;
  ret (mkMatrix v rows_ cols_ 0 rows_ 0 cols_ false None None).

Definition Matrix_Clone (matrix : MATRIX_NAME) : M MATRIX_NAME :=
  v <- Clone (mvalues matrix) ;;
  t1 <- Clone (tmp1 matrix) ;;
  t2 <- Clone (tmp2 matrix) ;;
  ret (mkMatrix v (rows matrix) (cols matrix)
         (rowOffset matrix) (rowMax matrix) (colOffset matrix) (colMax matrix)
         (transposed matrix) t1 t2).

Definition index (matrix : MATRIX_NAME) (i j : Z) : Result Z :=
  if (i <? 0) || (j <? 0) || (rows matrix <=? i) || (cols matrix <=? j)
  then Panic "index out of bounds for matrix"
  else if transposed matrix
  then Ret (int_add (int_mul (int_add (colOffset matrix) j) (rowMax matrix))
                    (int_add (rowOffset matrix) i))
  else Ret (int_add (int_mul (int_add (rowOffset matrix) i) (colMax matrix))
                    (int_add (colOffset matrix) j)).

(** Go's [/] and [%] truncate towards zero and panic on a zero divisor *)
Definition int_quot (a b : Z) : Result Z :=
  if b =? 0 then Panic "integer divide by zero" else Ret (wrap (Z.quot a b)).
Definition int_rem (a b : Z) : Result Z :=
  if b =? 0 then Panic "integer divide by zero" else Ret (Z.rem a b).

Definition ij (matrix : MATRIX_NAME) (k : Z) : Result (Z * Z) :=
  if transposed matrix then
    rbind (int_rem k (colMax matrix)) (fun r =>
    rbind (int_quot k (colMax matrix)) (fun q =>
    Ret (int_sub r (colOffset matrix), int_sub q (rowOffset matrix))))
  else
    rbind (int_rem k (rowMax matrix)) (fun r =>
    rbind (int_quot k (rowMax matrix)) (fun q =>
    Ret (int_sub r (rowOffset matrix), int_sub q (colOffset matrix)))).

Definition Dims (matrix : MATRIX_NAME) : Z * Z := (rows matrix, cols matrix).

Definition T (matrix : MATRIX_NAME) : MATRIX_NAME :=
  mkMatrix (mvalues matrix) (cols matrix) (rows matrix)
    (colOffset matrix) (colMax matrix) (rowOffset matrix) (rowMax matrix)
    (negb (transposed matrix)) (tmp2 matrix) (tmp1 matrix).

Definition Matrix_ValueAt (matrix : MATRIX_NAME) (i j : Z) : M float :=
  k <- lift (index matrix i j) ;;
  c <- ConstAt (mvalues matrix) k ;;
  ConstScalar_GetValue c.

Definition Matrix_ConstAt (matrix : MATRIX_NAME) (i j : Z) : M ConstScalar :=
  k <- lift (index matrix i j) ;;
  ConstAt (mvalues matrix) k.

Definition Matrix_AT (matrix : MATRIX_NAME) (i j : Z) : M ptr :=
  k <- lift (index matrix i j) ;;
  AT (mvalues matrix) k.

(** *** Slice, Swap and the row and column permutations *)

Definition Matrix_Slice (matrix : MATRIX_NAME) (rfrom rto cfrom cto : Z) : M MATRIX_NAME :=
  initTmp (mkMatrix (mvalues matrix)
             (int_sub rto rfrom) (int_sub cto cfrom)
             (int_add (rowOffset matrix) rfrom) (rowMax matrix)
             (int_add (colOffset matrix) cfrom) (colMax matrix)
             (transposed matrix) (tmp1 matrix) (tmp2 matrix)).

Definition Matrix_Swap (matrix : MATRIX_NAME) (i1 j1 i2 j2 : Z) : M unit :=
  k1 <- lift (index matrix i1 j1) ;;
  k2 <- lift (index matrix i2 j2) ;;
  Swap (mvalues matrix) k1 k2.

Definition not_square : string :=
  "SymmetricPermutation(): matrix is not a square matrix"%string.
Definition invalid_permutation : string :=
  "SymmetricPermutation(): invalid permutation"%string.

(** The values of [k] in [for k := 0; k < n; k++] *)
Definition upto (n_ : Z) : list Z := map Z.of_nat (seq 0 (Z.to_nat n_)).

Fixpoint SwapRows_loop (matrix : MATRIX_NAME) (i j : Z) (ks : list Z) : M unit :=
  match ks with
  | [] => ret tt
  | k :: ks' => Matrix_Swap matrix i k j k ;;; SwapRows_loop matrix i j ks'
  end.

Definition SwapRows (matrix : MATRIX_NAME) (i j : Z) : M (option string) :=
  if negb (fst (Dims matrix) =? snd (Dims matrix)) then ret (Some not_square)
  else SwapRows_loop matrix i j (upto (snd (Dims matrix))) ;;; ret None.

Fixpoint SwapColumns_loop (matrix : MATRIX_NAME) (i j : Z) (ks : list Z) : M unit :=
  match ks with
  | [] => ret tt
  | k :: ks' => Matrix_Swap matrix k i k j ;;; SwapColumns_loop matrix i j ks'
  end.

Definition SwapColumns (matrix : MATRIX_NAME) (i j : Z) : M (option string) :=
  if negb (fst (Dims matrix) =? snd (Dims matrix)) then ret (Some not_square)
  else SwapColumns_loop matrix i j (upto (fst (Dims matrix))) ;;; ret None.

(** The loop of PermuteRows, PermuteColumns and SymmetricPermutation: the
    three differ in the test they make at a position [i] and in what they
    exchange when it holds. *)
Fixpoint Permute_matrix_loop (test : Z -> Z -> bool) (swap : Z -> Z -> M unit)
  (n_ : Z) (pi : list Z) (js : list nat) : M (option string) :=
  match js with
  | [] => ret None
  | i :: js' =>
      match pi !! i with
      | None => panic "index out of range"
      | Some p =>
          if (p <? 0) || (n_ <? p) then ret (Some invalid_permutation)
          else
            (if test (Z.of_nat i) p then swap (Z.of_nat i) p else ret tt) ;;;
            Permute_matrix_loop test swap n_ pi js'
      end
  end.

Definition PermuteRows (matrix : MATRIX_NAME) (pi : list Z) : M (option string) :=
  if negb (fst (Dims matrix) =? snd (Dims matrix)) then ret (Some not_square)
  else Permute_matrix_loop (fun i p => negb (i =? p) && (i <? p))
         (fun i p => SwapRows matrix i p ;;; ret tt)
         (fst (Dims matrix)) pi (seq 0 (Z.to_nat (fst (Dims matrix)))).

Definition PermuteColumns (matrix : MATRIX_NAME) (pi : list Z) : M (option string) :=
  if negb (fst (Dims matrix) =? snd (Dims matrix)) then ret (Some not_square)
  else Permute_matrix_loop (fun i p => negb (i =? p) && (i <? p))
         (fun i p => SwapColumns matrix i p ;;; ret tt)
         (fst (Dims matrix)) pi (seq 0 (Z.to_nat (snd (Dims matrix)))).

Definition SymmetricPermutation (matrix : MATRIX_NAME) (pi : list Z) : M (option string) :=
  if negb (fst (Dims matrix) =? snd (Dims matrix)) then ret (Some not_square)
  else Permute_matrix_loop (fun i p => i <? p)
         (fun i p => SwapRows matrix i p ;;; SwapColumns matrix i p ;;; ret tt)
         (fst (Dims matrix)) pi (seq 0 (Z.to_nat (fst (Dims matrix)))).

(** *** Tip *)

Definition visited_set (visited : list bool) (k : Z) : Result (list bool) :=
  if (k <? 0) || (Z.of_nat (length visited) <=? k)
  then Panic "index out of range"
  else Ret (<[Z.to_nat k := true]> visited).

Definition visited_get (visited : list bool) (k : Z) : Result bool :=
  if (k <? 0) || (Z.of_nat (length visited) <=? k)
  then Panic "index out of range"
  else Ret (default false (visited !! Z.to_nat k)).

(** The inner [for { ... }] of Tip, which follows one cycle *)
Fixpoint Tip_cycle (fuel : nat) (matrix : MATRIX_NAME) (mn cycle k : Z)
  (visited : list bool) : M (list bool) :=
  match fuel with
  | O => out_of_fuel
  | S fuel' =>
      k' <- (if negb (k =? int_sub mn 1)
             then lift (int_rem (int_mul (rows matrix) k) (int_sub mn 1))
             else ret k) ;;
      visited' <- lift (visited_set visited k') ;;
      Swap (mvalues matrix) k' cycle ;;;
      if k' =? cycle then ret visited'
      else Tip_cycle fuel' matrix mn cycle k' visited'
  end.

(** [for cycle := 1; cycle < mn; cycle++] *)
Fixpoint Tip_loop (matrix : MATRIX_NAME) (mn : Z) (cycles : list Z)
  (visited : list bool) : M unit :=
  match cycles with
  | [] => ret tt
  | cycle :: cycles' =>
      b <- lift (visited_get visited cycle) ;;
      if b then Tip_loop matrix mn cycles' visited
      else
        visited' <- Tip_cycle (Z.to_nat mn) matrix mn cycle cycle visited ;;
        Tip_loop matrix mn cycles' visited'
  end.

Definition Tip (matrix : MATRIX_NAME) : M MATRIX_NAME :=
  mn <- Dim (mvalues matrix) ;;
  if mn <? 0 then panic "makeslice: len out of range"
  else
    Tip_loop matrix mn (map Z.of_nat (seq 1 (Z.to_nat mn - 1)))
      (replicate (Z.to_nat mn) false) ;;;
    ret (mkMatrix (mvalues matrix) (cols matrix) (rows matrix)
           (colOffset matrix) (colMax matrix) (rowOffset matrix) (rowMax matrix)
           (transposed matrix) (tmp2 matrix) (tmp1 matrix)).

(** *** The matrix iterator and IsSymmetric *)

Record MATRIX_ITERATOR : Type := mkMatrixIterator {
  vit : VECTOR_ITERATOR;
  it_m : MATRIX_NAME
}.

Definition Matrix_ITERATOR (obj : MATRIX_NAME) : M MATRIX_ITERATOR :=
  it <- ITERATOR (mvalues obj) ;; ret (mkMatrixIterator it obj).

Definition MatrixIterator_Index (obj : MATRIX_ITERATOR) : M (Z * Z) :=
  k <- Iterator_Index (vit obj) ;; lift (ij (it_m obj) k).

Definition MatrixIterator_Next (obj : MATRIX_ITERATOR) : M MATRIX_ITERATOR :=
  it <- Iterator_Next (vit obj) ;; ret (mkMatrixIterator it (it_m obj)).

(** The literal 1e-12 as a float64 *)
Definition tolerance : float := 0x1.19799812dea11p-40%float.

Section IsSymmetric.

(** Scalar.Equals(b, epsilon) belongs to the scalar type, which is not part
    of the sources: it is a parameter here. *)
Variable Equals : Scalar -> Scalar -> float -> bool.

Fixpoint IsSymmetric_loop (fuel : nat) (matrix : MATRIX_NAME) (it : MATRIX_ITERATOR)
  : M bool :=
  match fuel with
  | O => out_of_fuel
  | S fuel' =>
      if Iterator_Ok (vit it) then
        p <- MatrixIterator_Index it ;;
        a <- Matrix_ConstAt matrix (fst p) (snd p) ;;
        b <- Matrix_ConstAt matrix (snd p) (fst p) ;;
        sa <- ConstScalar_load a ;;
        sb <- ConstScalar_load b ;;
        if negb (Equals sa sb tolerance) then ret false
        else it' <- MatrixIterator_Next it ;; IsSymmetric_loop fuel' matrix it'
      else ret true
  end.

Definition IsSymmetric (matrix : MATRIX_NAME) (epsilon : float) : M bool :=
  if negb (fst (Dims matrix) =? snd (Dims matrix)) then ret false
  else
    it <- Matrix_ITERATOR matrix ;;
    IsSymmetric_loop (S (length (it_index (vit it)))) matrix it.

End IsSymmetric.

(** *** GetValues *)

(** The body of the loop of GetValues:
    [i, j := it.Index(); s[i*m+j] = matrix.ConstAt(i,j).GetValue()] *)
Definition Matrix_GetValues_body (matrix : MATRIX_NAME) (it : VECTOR_ITERATOR)
  (s : list float) : M (list float) :=
  p <- MatrixIterator_Index (mkMatrixIterator it matrix) ;;
  c <- Matrix_ConstAt matrix (fst p) (snd p) ;;
  x <- ConstScalar_GetValue c ;;
  let k := int_add (int_mul (fst p) (snd (Dims matrix))) (snd p) in
  if (k <? 0) || (Z.of_nat (length s) <=? k) then panic "index out of range"
  else ret (<[Z.to_nat k := x]> s).

Definition Matrix_GetValues (matrix : MATRIX_NAME) : M (list float) :=
  let len := int_mul (fst (Dims matrix)) (snd (Dims matrix)) in
  if len <? 0 then panic "makeslice: len out of range"
  else for_iterator (Matrix_GetValues_body matrix) (mvalues matrix)
         (replicate (Z.to_nat len) fzero).

(** *** Map *)

Section MatrixMap.

(** The function Map is given; it receives the scalar At(i, j) returns *)
Variable f : ptr -> M unit.

(** [for j := 0; j < m; j++ { f(matrix.At(i, j)) }] *)
Fixpoint Map_row (matrix : MATRIX_NAME) (i : Z) (js : list Z) : M unit :=
  match js with
  | [] => ret tt
  | j :: js' => p <- Matrix_AT matrix i j ;; f p ;;; Map_row matrix i js'
  end.

(** [for i := 0; i < n; i++ { ... }] *)
Fixpoint Map_rows (matrix : MATRIX_NAME) (is_ js : list Z) : M unit :=
  match is_ with
  | [] => ret tt
  | i :: is' => Map_row matrix i js ;;; Map_rows matrix is' js
  end.

Definition Matrix_Map (matrix : MATRIX_NAME) : M unit :=
  Map_rows matrix (upto (fst (Dims matrix))) (upto (snd (Dims matrix))).

End MatrixMap.

(** *** NEW_MATRIX and Import *)

Fixpoint NEW_MATRIX_loop (mat : MATRIX_NAME) (rowIndices colIndices : list Z)
  (values_ : list float) : M unit :=
  match colIndices with
  | [] => ret tt
  | j2 :: colIndices' =>
      match rowIndices, values_ with
      | j1 :: rowIndices', x :: values' =>
          (if fnonzero x
           then p <- Matrix_AT mat j1 j2 ;;
                s <- loadScalar p ;;
                storeScalar p (SetValue s x)
           else ret tt) ;;;
          NEW_MATRIX_loop mat rowIndices' colIndices' values'
      | _, _ => panic "index out of range"
      end
  end.

Definition NEW_MATRIX (rows_ cols_ : Z) (rowIndices colIndices : list Z)
  (values_ : list float) : M MATRIX_NAME :=
  mat <- NULL_MATRIX rows_ cols_ ;;
  if negb (length rowIndices =? length colIndices)%nat
     || negb (length colIndices =? length values_)%nat
  then panic "number of row/col-indices does not match number of values"
  else NEW_MATRIX_loop mat rowIndices colIndices values_ ;;; ret mat.

Definition invalid_sparse_matrix : string := "invalid sparse matrix format"%string.
Definition strconv_error : string := "strconv: invalid syntax"%string.

Record MatrixImportState : Type := mkMatrixImport {
  imp_rowIndices : list Z;
  imp_colIndices : list Z;
  imp_mvalues : list float
}.

Section MatrixImport.

Variable ParseInt : string -> option Z.
Variable ParseFloat : string -> option float.

(** The header line: [rows cols] *)
Definition Import_header (line : string) : (Z * Z) + string :=
  match Fields line with
  | [a; b] =>
      match ParseInt a with
      | None => inr strconv_error
      | Some r =>
          match ParseInt b with
          | None => inr strconv_error
          | Some c => inl (r, c)
          end
      end
  | _ => inr invalid_sparse_matrix
  end.

(** The entry lines: [row col value] *)
Fixpoint Import_entries (lines : list string) (st : MatrixImportState)
  : MatrixImportState + string :=
  match lines with
  | [] => inl st
  | line :: lines' =>
      match Fields line with
      | [a; b; c] =>
          match ParseInt a with
          | None => inr strconv_error
          | Some r =>
              match ParseInt b with
              | None => inr strconv_error
              | Some cl =>
                  match ParseFloat c with
                  | None => inr strconv_error
                  | Some x =>
                      Import_entries lines'
                        (mkMatrixImport (imp_rowIndices st ++ [r])
                           (imp_colIndices st ++ [cl]) (imp_mvalues st ++ [x]))
                  end
              end
          end
      | _ => inr invalid_sparse_matrix
      end
  end.

Definition Matrix_parse (lines : list string)
  : (Z * Z * MatrixImportState) + string :=
  let st0 := mkMatrixImport [] [] [] in
  match lines with
  | [] => inl (0, 0, st0)
  | header :: lines' =>
      match Import_header header with
      | inr e => inr e
      | inl rc =>
          match Import_entries lines' st0 with
          | inr e => inr e
          | inl st => inl (rc, st)
          end
      end
  end.

(** Import: the matrix [mat] points to after the call, and the error *)
Definition Matrix_Import (mat : MATRIX_NAME) (lines : list string)
  : M (MATRIX_NAME * option string) :=
  match Matrix_parse lines with
  | inr e => ret (mat, Some e)
  | inl (r, c, st) =>
      mat' <- NEW_MATRIX r c (imp_rowIndices st) (imp_colIndices st) (imp_mvalues st) ;;
      ret (mat', None)
  end.

End MatrixImport.

(** ** Observations *)

(** The value a computation returns, without the store *)
Definition result_of {A} (r : Result (A * Heap)) : Result A :=
  rbind r (fun p => Ret (fst p)).

Definition empty_heap : Heap := mkHeap ∅ ∅.

(** * Vocabulary of the properties, and inputs to run the code on *)

Section TableFormat.

Variable ParseInt : string -> option Z.
Variable ParseFloat : string -> option float.

(** What the spec calls a malformed sparse table: some whitespace-separated
    token is not of the form [index:value] with an integer index and a float
    value. *)
Definition bad_field (f : string) : bool :=
  match Split_colon f with
  | [a; b] =>
      match ParseInt a, ParseFloat b with
      | Some _, Some _ => false
      | _, _ => true
      end
  | _ => true
  end.

Definition malformed_table (lines : list string) : bool :=
  existsb bad_field (flat_map Fields lines).

(** A malformed sparse matrix table: the header is not [rows cols], or some
    later line is not [row col value]. *)
Definition bad_header (line : string) : bool :=
  match Fields line with
  | [a; b] =>
      match ParseInt a, ParseInt b with
      | Some _, Some _ => false
      | _, _ => true
      end
  | _ => true
  end.

Definition bad_entry (line : string) : bool :=
  match Fields line with
  | [a; b; c] =>
      match ParseInt a, ParseInt b, ParseFloat c with
      | Some _, Some _, Some _ => false
      | _, _, _ => true
      end
  | _ => true
  end.

Definition malformed_matrix_table (lines : list string) : bool :=
  match lines with
  | [] => false
  | header :: lines' => bad_header header || existsb bad_entry lines'
  end.

End TableFormat.

(** Every entry of a channel-variant vector is a scalar that is not
    allocated in the store [h0]. *)
Definition all_new (h0 : Heap) (obj : Chan.VECTOR_TYPE) : Prop :=
  forall k p, Chan.entries obj !! k = Some p ->
              exists l, p = Some l /\ l ∉ dom (scalars h0).

(** The shape the lists have when the first one leads *)
Definition leads (x : Z) (l : list Z) : Prop :=
  match l with
  | [] => True
  | y :: _ => x < y
  end.

(** A 2x3 matrix, not transposed, not sliced *)
Definition matrix_2x3 (v : ptr) : MATRIX_NAME :=
  mkMatrix v 2 3 0 2 0 3 false None None.

(** The 2x3 matrix whose only entry is 5.0 at (0,1) *)
Definition sparse_2x3 : M MATRIX_NAME :=
  NEW_MATRIX 2 3 [0] [1] [5%float].

(** A vector of dimension 2 with a structural zero stored at index 0 and
    3.0 at index 1 *)
Definition zero_first_vector : VECTOR_NAME :=
  mkVector (mkIndex [0; 1] true)
    (<[0 := Some 1%positive]> (<[1 := Some 2%positive]> ∅)) 2.

Definition zero_first : Heap :=
  mkHeap (<[1%positive := NULL_SCALAR]> (<[2%positive := NEW_SCALAR 3%float]> ∅))
         (<[1%positive := zero_first_vector]> ∅).

(** The same vector in a store that holds 3.0 at index 0 and the structural
    zero at index 1 *)
Definition zero_second : Heap :=
  mkHeap (<[1%positive := NEW_SCALAR 3%float]> (<[2%positive := NULL_SCALAR]> ∅))
         (<[1%positive := zero_first_vector]> ∅).

(** An absolute-difference comparison, to run IsSymmetric on *)
Definition Equals_abs (a b : Scalar) (epsilon : float) : bool :=
  PrimFloat.ltb (PrimFloat.abs (PrimFloat.sub (GetValue a) (GetValue b))) epsilon.

(** The 2x2 matrix with 5.0 at (0,1) and 7.0 at (1,0), and its store *)
Definition asymmetric_2x2 : MATRIX_NAME * Heap :=
  Eval vm_compute in
    match NEW_MATRIX 2 2 [0; 1] [1; 0] [5%float; 7%float] empty_heap with
    | Ret r => r
    | _ => (mkMatrix None 0 0 0 0 0 0 false None None, empty_heap)
    end.

(** The exchange of two indices *)
Definition swap_key (i p k : Z) : Z :=
  if Z.eqb k i then p else if Z.eqb k p then i else k.

(** The pairwise swaps of Permute, read backwards: the index at which the
    entry found at [k], after the loop has gone through the positions [js],
    was stored before.  At a position [i] with [pi[i] > i] the loop exchanges
    the indices [i] and [pi[i]]. *)
Fixpoint swapped_from (pi : list Z) (js : list nat) (k : Z) : Z :=
  match js with
  | [] => k
  | i :: js' =>
      let k' := swapped_from pi js' k in
      match pi !! i with
      | Some p => if Z.of_nat i <? p then swap_key (Z.of_nat i) p k' else k'
      | None => k'
      end
  end.

(** The swaps of a whole run, at the positions 0, 1, ... of [pi] *)
Definition swaps (pi : list Z) (k : Z) : Z := swapped_from pi (seq 0 (length pi)) k.

(** [f] is a bijection of the indices *)
Definition index_bijection (f : Z -> Z) : Prop :=
  exists g : Z -> Z, forall k, f (g k) = k /\ g (f k) = k.

(** The test the loop makes over all of [pi] *)
Definition rejected (n_ : Z) (pi : list Z) : bool :=
  negb (Z.of_nat (length pi) =? n_) || existsb (invalid_entry n_) pi.

(** The channel-variant vector of dimension 2 with the entries of
    [zero_first] *)
Definition chan_two : Chan.VECTOR_TYPE :=
  Chan.mkVector (Chan.mkIndexSlice [0; 1] false)
    (<[0 := Some 1%positive]> (<[1 := Some 2%positive]> ∅)) 2.

(** Decimal parsers for unsigned integers, to run Import on *)
Fixpoint digits (acc : Z) (s : string) : option Z :=
  match s with
  | EmptyString => Some acc
  | String c s' =>
      let k := nat_of_ascii c in
      if ((48 <=? k) && (k <=? 57))%nat
      then digits (10 * acc + Z.of_nat (k - 48)) s'
      else None
  end.

Definition decimal (s : string) : option Z :=
  match s with
  | EmptyString => None
  | _ => digits 0 s
  end.

Definition decimal_float (s : string) : option float :=
  option_map (fun z => Z.iter z (PrimFloat.add 1%float) fzero) (decimal s).

(** The store with the vector at [v] replaced *)
Definition set_vector (h : Heap) (v : loc) (o : VECTOR_NAME) : Heap :=
  mkHeap (scalars h) (<[v := o]> (vectors h)).

(** The index lists exactly the keys of the entry map, and a structure that
    is marked sorted is sorted. *)
Definition index_mirrors (o : VECTOR_NAME) : Prop :=
  (forall k, k ∈ indices (sparseIndex o) <-> is_Some (values o !! k))
  /\ (isSorted (sparseIndex o) = true -> StronglySorted Z.le (indices (sparseIndex o))).

(** The scalar a pointer leads to *)
Definition deref (h : Heap) (p : ptr) : option Scalar :=
  match p with
  | Some l => scalars h !! l
  | None => None
  end.

(** What a vector holds: its dimension, its index structure and the scalar
    stored at each occupied index.  Every read of the vector is a function
    of this. *)
Definition contents (h : Heap) (v : ptr)
  : option (Z * vectorSparseIndex * gmap Z (option Scalar)) :=
  match v with
  | Some u =>
      match vectors h !! u with
      | Some o => Some (n o, sparseIndex o, deref h <$> values o)
      | None => None
      end
  | None => None
  end.

(** The scalar locations a vector stores *)
Definition owned (h : Heap) (v : ptr) (l : loc) : Prop :=
  exists u o k, v = Some u /\ vectors h !! u = Some o /\ values o !! k = Some (Some l).

(** The vector is allocated and each of its entries is an allocated scalar *)
Definition valid_vector (h : Heap) (v : ptr) : Prop :=
  exists u o, v = Some u /\ vectors h !! u = Some o
              /\ forall k p, values o !! k = Some p ->
                             exists l, p = Some l /\ is_Some (scalars h !! l).

Definition extends (h h' : Heap) : Prop :=
  vectors h ⊆ vectors h' /\ scalars h ⊆ scalars h'.

(** [h2] differs from [h] on what [h] has allocated only at the vectors
    [vs] and the scalars [ss]; it may have allocated more. *)
Definition changed_only_at (h h2 : Heap) (vs : ptr -> Prop) (ss : loc -> Prop) : Prop :=
  (forall u, is_Some (vectors h !! u) -> ~ vs (Some u) -> vectors h2 !! u = vectors h !! u)
  /\ (forall l, is_Some (scalars h !! l) -> ~ ss l -> scalars h2 !! l = scalars h !! l).

(** The vector [y] and the scalars it stores in [h] are not allocated in
    [h0]. *)
Definition newer (h0 h : Heap) (y : ptr) : Prop :=
  exists r, y = Some r /\ vectors h0 !! r = None
            /\ forall l, owned h y l -> scalars h0 !! l = None.

(** What a matrix holds: its shape and the contents of its backing vector
    and of its two scratch vectors *)
Definition mcontents (h : Heap) (mat : MATRIX_NAME) :=
  (rows mat, cols mat, rowOffset mat, rowMax mat, colOffset mat, colMax mat,
   transposed mat,
   contents h (mvalues mat), contents h (tmp1 mat), contents h (tmp2 mat)).

Definition valid_matrix (h : Heap) (mat : MATRIX_NAME) : Prop :=
  valid_vector h (mvalues mat) /\ valid_vector h (tmp1 mat) /\ valid_vector h (tmp2 mat).

Definition mvectors (mat : MATRIX_NAME) (v : ptr) : Prop :=
  v = mvalues mat \/ v = tmp1 mat \/ v = tmp2 mat.

Definition mowned (h : Heap) (mat : MATRIX_NAME) (l : loc) : Prop :=
  owned h (mvalues mat) l \/ owned h (tmp1 mat) l \/ owned h (tmp2 mat) l.

(** A test of [valid_vector] that computes *)
Definition valid_vectorb (h : Heap) (v : ptr) : bool :=
  match v with
  | Some u =>
      match vectors h !! u with
      | Some o =>
          forallb (fun kp => match snd kp with
                             | Some l => bool_decide (is_Some (scalars h !! l))
                             | None => false
                             end)
            (map_to_list (values o))
      | None => false
      end
  | None => false
  end.

(** Every entry of the vector is an allocated scalar whose value is not
    zero. *)
Definition nonzero_entries (h : Heap) (o : VECTOR_NAME) : Prop :=
  forall k p, values o !! k = Some p ->
    exists l s, p = Some l /\ scalars h !! l = Some s /\ fnonzero (GetValue s) = true.

(** The float a vector holds at an index; 0.0 where it stores nothing *)
Definition value_at (h : Heap) (o : VECTOR_NAME) (k : Z) : float :=
  match values o !! k with
  | Some (Some l) =>
      match scalars h !! l with
      | Some s => GetValue s
      | None => fzero
      end
  | _ => fzero
  end.

(** What a joint iteration over the index lists [la] and [lb] shows at
    index [k] *)
Definition entry_at (h : Heap) (A B : VECTOR_NAME) (la lb : list Z) (k : Z) : JointEntry :=
  mkEntry k
    (if decide (k ∈ la) then map_read (values A) k else None)
    (if decide (k ∈ lb) then CPtr (map_read (values B) k) else CConst fzero)
    (if decide (k ∈ la) then value_at h A k else fzero)
    (if decide (k ∈ lb) then value_at h B k else fzero).

(** The vector with its index sorted, as an iterator leaves it *)
Definition sorted_obj (o : VECTOR_NAME) : VECTOR_NAME :=
  mkVector (indexSort (sparseIndex o)) (values o) (n o).

(** What a joint iteration has to show at each index it yields: the stored
    pointer of the first vector or nil, the stored scalar of the second
    vector or the constant zero, and the two values, 0.0 for a side that
    stores nothing. *)
Definition shows (h : Heap) (oa ob : VECTOR_NAME) (e : JointEntry) : Prop :=
  e_s1 e = map_read (values oa) (e_index e)
  /\ e_s2 e = match values ob !! e_index e with
              | Some p => CPtr p
              | None => CConst fzero
              end
  /\ e_v1 e = value_at h oa (e_index e)
  /\ e_v2 e = value_at h ob (e_index e).

(** Tests of [index_mirrors] and [nonzero_entries] that compute *)
Definition index_mirrorsb (o : VECTOR_NAME) : bool :=
  forallb (fun k => bool_decide (is_Some (values o !! k))) (indices (sparseIndex o))
  && forallb (fun kp => bool_decide (fst kp ∈ indices (sparseIndex o)))
       (map_to_list (values o))
  && (if isSorted (sparseIndex o)
      then bool_decide (StronglySorted Z.le (indices (sparseIndex o)))
      else true).

Definition nonzero_entriesb (h : Heap) (o : VECTOR_NAME) : bool :=
  forallb (fun kp => match snd kp with
                     | Some l =>
                         match scalars h !! l with
                         | Some s => fnonzero (GetValue s)
                         | None => false
                         end
                     | None => false
                     end)
    (map_to_list (values o)).

(** Two vectors of dimension 4: the first holds 2.0 at 0 and 1.0 at 2, the
    second 5.0 at 1 and 3.0 at 2. *)
Definition joint_first : VECTOR_NAME :=
  mkVector (mkIndex [2; 0] false)
    (<[0 := Some 1%positive]> (<[2 := Some 2%positive]> ∅)) 4.

Definition joint_second : VECTOR_NAME :=
  mkVector (mkIndex [1; 2] true)
    (<[1 := Some 3%positive]> (<[2 := Some 4%positive]> ∅)) 4.

Definition joint_heap : Heap :=
  mkHeap (<[1%positive := NEW_SCALAR 2%float]>
            (<[2%positive := NEW_SCALAR 1%float]>
               (<[3%positive := NEW_SCALAR 5%float]>
                  (<[4%positive := NEW_SCALAR 3%float]> ∅))))
         (<[1%positive := joint_first]> (<[2%positive := joint_second]> ∅)).

(** A vector of dimension 3 that stores 2.0 at index 0, a scalar of value
    0.0 with derivative 1.0 at index 1 (no structural zero) and 3.0 at
    index 2, next to an empty vector of dimension 3 *)
Definition zero_value_pair : Heap :=
  mkHeap (<[1%positive := NEW_SCALAR 2%float]>
            (<[2%positive := mkScalar fzero 1 [1%float] []]>
               (<[3%positive := NEW_SCALAR 3%float]> ∅)))
         (<[1%positive := mkVector (mkIndex [0; 1; 2] true)
                            (<[0 := Some 1%positive]>
                               (<[1 := Some 2%positive]>
                                  (<[2 := Some 3%positive]> ∅))) 3]>
            (<[2%positive := mkVector emptyIndex ∅ 3]> ∅)).

(** A run of the joint loop in the store [H] that starts with Next on the
    lists [la] and [lb]: the iterator [jt] that Next leaves, and the
    indices [ks] the loop then yields. *)
Definition joint_yields (H : Heap) (A B : VECTOR_NAME) (la lb : list Z) (jt : VECTOR_JOINT_ITERATOR) (ks : list Z) : Prop :=
  (forall fuel, (length ks < fuel)%nat ->
     Joint_loop fuel jt H = Ret (map (entry_at H A B la lb) ks, H))
  /\ StronglySorted Z.lt ks
  /\ (forall k, k ∈ ks <-> k ∈ la \/ k ∈ lb)
  /\ (length ks <= length la + length lb)%nat
  /\ (length ks <= 1 + length (it_index (it1 jt)) + length (it_index (it2 jt)))%nat.

(** The entry at index [k] is a stored structural zero *)
Definition null_at (h : Heap) (o : VECTOR_NAME) (k : Z) : bool :=
  match values o !! k with
  | Some (Some l) =>
      match scalars h !! l with
      | Some s => isNull s
      | None => false
      end
  | _ => false
  end.

(** The vector after the entries at the indices [ks] were deleted from its
    entry map and from its index, one after the other *)
Definition without (o : VECTOR_NAME) (ks : list Z) : VECTOR_NAME :=
  mkVector
    (mkIndex (fold_left (fun l k => remove_first k l) ks (indices (sparseIndex o)))
       (isSorted (sparseIndex o)))
    (fold_left (fun mp k => delete k mp) ks (values o))
    (n o).

(** The entries at the indices of [ks] are allocated scalars *)
Definition stored (h : Heap) (o : VECTOR_NAME) (ks : list Z) : Prop :=
  forall k, k ∈ ks -> exists l s, values o !! k = Some (Some l) /\ scalars h !! l = Some s.

(** The indices a full iteration prunes: the structural zeros among the
    indices after the first one *)
Definition pruned (h : Heap) (o : VECTOR_NAME) : list Z :=
  List.filter (null_at h o) (tail (indices (indexSort (sparseIndex o)))).

(** A matrix whose window lies inside its storage: the offsets are not
    negative, the window ends before the storage does, and the sides of the
    storage and its size are ints. *)
Definition well_shaped (m : MATRIX_NAME) : Prop :=
  0 <= rowOffset m /\ 0 <= rows m /\ rowOffset m + rows m <= rowMax m
  /\ 0 <= colOffset m /\ 0 <= cols m /\ colOffset m + cols m <= colMax m
  /\ rowMax m < 2 ^ 63 /\ colMax m < 2 ^ 63
  /\ rowMax m * colMax m < 2 ^ 63.

(** A matrix that is no slice of a larger one *)
Definition unsliced (m : MATRIX_NAME) : Prop :=
  rowOffset m = 0 /\ colOffset m = 0 /\ rowMax m = rows m /\ colMax m = cols m.

(** Every stored entry lies inside the dimension *)
Definition keys_in_range (o : VECTOR_NAME) : Prop :=
  forall k, is_Some (values o !! k) -> 0 <= k < n o.

Definition keys_in_rangeb (o : VECTOR_NAME) : bool :=
  forallb (fun kp => (0 <=? fst kp) && (fst kp <? n o)) (map_to_list (values o)).

(** A vector of dimension 3 that stores 2.0 at index 0 and 3.0 at index 2,
    with an index that is not sorted *)
Definition gap_vector : VECTOR_NAME :=
  mkVector (mkIndex [2; 0] false)
    (<[0 := Some 1%positive]> (<[2 := Some 2%positive]> ∅)) 3.

Definition gap_heap : Heap :=
  mkHeap (<[1%positive := NEW_SCALAR 2%float]> (<[2%positive := NEW_SCALAR 3%float]> ∅))
         (<[1%positive := gap_vector]> ∅).

(** The index a permutation slice sends [k] to; [k] itself outside the
    slice *)
Definition pi_at (pi : list Z) (k : Z) : Z :=
  if 0 <=? k then default k (pi !! Z.to_nat k) else k.

(** The slice is its own inverse: [pi[pi[i]] = i] at every position *)
Definition involution (pi : list Z) : Prop :=
  forall (i : nat) (p : Z),
    pi !! i = Some p -> 0 <= p /\ pi !! Z.to_nat p = Some (Z.of_nat i).

Definition involutionb (pi : list Z) : bool :=
  forallb (fun i => match pi !! i with
                    | Some p => (0 <=? p)
                                && bool_decide (pi !! Z.to_nat p = Some (Z.of_nat i))
                    | None => true
                    end)
    (seq 0 (length pi)).

(** No two indices of the vector store the same scalar *)
Definition distinct_entries (o : VECTOR_NAME) : Prop :=
  forall k k' l, values o !! k = Some (Some l) -> values o !! k' = Some (Some l) -> k = k'.

Definition distinct_entriesb (o : VECTOR_NAME) : bool :=
  bool_decide (NoDup (map snd (map_to_list (values o)))).

(** The backing vector of [asymmetric_2x2] *)
Definition stored_2x2 : VECTOR_NAME :=
  Eval vm_compute in
    default (mkVector emptyIndex ∅ 0) (vectors (snd asymmetric_2x2) !! 1%positive).

(** The scratch vectors of the matrix are allocated *)
Definition scratch_allocated (h : Heap) (m : MATRIX_NAME) : Prop :=
  forall t, tmp1 m = Some t \/ tmp2 m = Some t -> is_Some (vectors h !! t).

(** What NEW_MATRIX leaves at position (i, j): the last value different from
    0.0 that the three slices give for the position, [acc] when they give
    none *)
Fixpoint given_at (rowIndices colIndices : list Z) (values_ : list float) (i j : Z)
  (acc : float) : float :=
  match rowIndices, colIndices, values_ with
  | j1 :: rowIndices', j2 :: colIndices', x :: values' =>
      given_at rowIndices' colIndices' values' i j
        (if fnonzero x && (j1 =? i) && (j2 =? j) then x else acc)
  | _, _, _ => acc
  end.

(** The storage index of position (i, j), where [index] returns one *)
Definition position (m : MATRIX_NAME) (i j : Z) : Z :=
  match index m i j with
  | Ret k => k
  | _ => 0
  end.

(** The indices a loop over an iterator visits when the iterator starts with
    the sequence [it]: the first one, and of the others those that do not
    hold a structural zero *)
Definition visited (h : Heap) (o : VECTOR_NAME) (it : list Z) : list Z :=
  match it with
  | [] => []
  | k :: rest => k :: List.filter (fun k => negb (null_at h o k)) rest
  end.

(** The entries of [o] are those of [o0], except for structural zeros that
    were deleted *)
Definition agrees (h : Heap) (o0 o : VECTOR_NAME) : Prop :=
  n o = n o0
  /\ forall k, values o !! k = values o0 !! k
               \/ (values o !! k = None /\ null_at h o0 k = true).

(** The result vector of Append after the loop has visited the indices
    [vis] of the second operand [ob]: each visit stores at the shifted index
    what the entry map of [ob] holds, and appends the shifted index to the
    index structure *)
Definition appended (on : Z) (ob ro : VECTOR_NAME) (vis : list Z) : VECTOR_NAME :=
  fold_left
    (fun ro k => mkVector (indexInsert (sparseIndex ro) (int_add on k))
                   (<[int_add on k := map_read (values ob) k]> (values ro)) (n ro))
    vis ro.

(** The store while the loop of Append runs, from the store [hs] it starts
    in: the result vector [r] has received the visited entries, and only [r]
    and the second operand [b] have changed *)
Definition Append_inv (hs : Heap) (r b : loc) (on : Z) (ob ro1 : VECTOR_NAME)
  (vis : list Z) (_ : unit) (h : Heap) : Prop :=
  vectors h !! r = Some (appended on ob ro1 vis)
  /\ forall u, u <> r -> u <> b -> vectors h !! u = vectors hs !! u.

(** The storage index whose visit makes GetValues write the slot of position
    (i, j): the one of the position itself on a transposed matrix, and the
    one of the mirrored position otherwise *)
Definition source_of (m : MATRIX_NAME) (i j : Z) : Z :=
  if transposed m then position m i j else position m j i.

(** The slice of GetValues after the loop has visited the storage indices
    [vis], in a store that differs from [hs] at the backing vector only *)
Definition GetValues_inv (hs : Heap) (m : MATRIX_NAME) (v : loc) (o : VECTOR_NAME)
  (vis : list Z) (s : list float) (h : Heap) : Prop :=
  (exists ov, h = set_vector hs v ov)
  /\ length s = Z.to_nat (rows m * cols m)
  /\ forall i j, 0 <= i < rows m -> 0 <= j < cols m ->
       s !! Z.to_nat (i * cols m + j)
       = Some (if bool_decide (source_of m i j ∈ vis)
               then value_at hs o (position m i j) else fzero).

(** The 2 x 2 matrix that stores 5.0 at (0,1) and nothing else, the store
    it lives in and its backing vector *)
Definition upper_2x2 : MATRIX_NAME * Heap :=
  Eval vm_compute in
    match NEW_MATRIX 2 2 [0] [1] [5%float] empty_heap with
    | Ret r => r
    | _ => (mkMatrix None 0 0 0 0 0 0 false None None, empty_heap)
    end.

Definition upper_stored : VECTOR_NAME :=
  Eval vm_compute in
    default (mkVector emptyIndex ∅ 0) (vectors (snd upper_2x2) !! 1%positive).

(** No entry of [o] is a structural zero, as a test *)
Definition no_nullb (h : Heap) (o : VECTOR_NAME) : bool :=
  forallb (fun kp => negb (null_at h o (fst kp))) (map_to_list (values o)).

(** The vector [o'] has the dimension of [o] and every entry of [o] *)
Definition grows (o o' : VECTOR_NAME) : Prop :=
  n o' = n o /\ forall k p, values o !! k = Some p -> values o' !! k = Some p.

(** What is asked of the function given to Map: called on an allocated
    scalar it returns, leaves the vectors as they are and frees no scalar *)
Definition keeps_vectors (f : ptr -> M unit) : Prop :=
  forall l h, is_Some (scalars h !! l) ->
    exists h', f (Some l) h = Ret (tt, h')
               /\ vectors h' = vectors h
               /\ forall l', is_Some (scalars h !! l') -> is_Some (scalars h' !! l').


(** * Properties *)

Lemma wrap_id z : in_int z -> wrap z = z.
Proof.
  unfold in_int, wrap. intros Hz.
  rewrite Z.mod_small; lia.
Qed.

(** ** The index structure of the channel variant *)





(** ** The inverse of the index map *)

(** C9 at a 2x3 matrix: the element (0,1) lies at backing index 1, and [ij]
    reports backing index 1 as (1,0). *)
Theorem ij_index_2x3 (v : ptr) :
  index (matrix_2x3 v) 0 1 = Ret 1
  /\ rbind (index (matrix_2x3 v) 0 1) (ij (matrix_2x3 v)) = Ret (1, 0).
Proof.
  split; reflexivity.
Qed.

(** ** Tip *)

(** C3 at that matrix: the view T() reads 0.0 at (0,1) and 5.0 at (1,0);
    after Tip() the matrix is 3x2 and reads 5.0 at (1,0), but the read at
    (0,1) panics, because Swap stored a nil pointer there. *)
Theorem Tip_sparse_2x3 :
  result_of ((mat <- sparse_2x3 ;; Matrix_ValueAt (T mat) 0 1) empty_heap)
    = Ret fzero
  /\ result_of ((mat <- sparse_2x3 ;; Matrix_ValueAt (T mat) 1 0) empty_heap)
    = Ret 5%float
  /\ result_of ((mat <- sparse_2x3 ;; mat' <- Tip mat ;; ret (Dims mat')) empty_heap)
    = Ret (3, 2)
  /\ result_of ((mat <- sparse_2x3 ;; mat' <- Tip mat ;; Matrix_ValueAt mat' 1 0) empty_heap)
    = Ret 5%float
  /\ result_of ((mat <- sparse_2x3 ;; mat' <- Tip mat ;; Matrix_ValueAt mat' 0 1) empty_heap)
    = Panic "nil pointer dereference".
Proof.
  repeat split; vm_compute; reflexivity.
Qed.

(** ** Pruning of structural zeros *)

(** C4 at that vector: the entry at index 0 is occupied and a structural
    zero, and one full iteration leaves the store as it was: the entry is
    still there and the occupancy is still 2. *)
Theorem Iterate_keeps_first_zero :
  result_of (nullScalar (Some 1%positive) zero_first) = Ret true
  /\ Iterate (Some 1%positive) zero_first = Ret (tt, zero_first)
  /\ (o <- loadVector (Some 1%positive) ;; ret (size (values o), values o !! 0))
       zero_first = Ret ((2%nat, Some (Some 1%positive)), zero_first).
Proof.
  repeat split; vm_compute; reflexivity.
Qed.

(** A run with the structural zero at the second occupied index: there the
    full iteration does delete it from the entries and from the index. *)
Example Iterate_prunes_later_zero :
  (storeScalar (Some 1%positive) (NEW_SCALAR 3%float) ;;;
   storeScalar (Some 2%positive) NULL_SCALAR ;;;
   Iterate (Some 1%positive) ;;;
   o <- loadVector (Some 1%positive) ;;
   x <- ValueAt (Some 1%positive) 1 ;;
   ret (map fst (map_to_list (values o)), indices (sparseIndex o), n o, x)) zero_first
  = Ret (([0], [0], 2, fzero),
         mkHeap (<[1%positive := NEW_SCALAR 3%float]> (<[2%positive := NULL_SCALAR]> ∅))
                (<[1%positive := mkVector (mkIndex [0] true)
                                   (<[0 := Some 1%positive]> ∅) 2]> ∅)).
Proof.
  vm_compute. reflexivity.
Qed.

(** ** IsSymmetric *)

Lemma IsSymmetric_loop_tolerance (E1 E2 : Scalar -> Scalar -> float -> bool)
  (matrix : MATRIX_NAME) :
  (forall a b, E1 a b tolerance = E2 a b tolerance) ->
  forall fuel it h,
    IsSymmetric_loop E1 fuel matrix it h = IsSymmetric_loop E2 fuel matrix it h.
Proof.
  intros HE. induction fuel as [|fuel IH]; intros it h; [reflexivity|].
  simpl. destruct (Iterator_Ok (vit it)); [|reflexivity].
  unfold bind.
  destruct (MatrixIterator_Index it h) as [[p h1]| |]; try reflexivity.
  destruct (Matrix_ConstAt matrix (fst p) (snd p) h1) as [[a h2]| |]; try reflexivity.
  destruct (Matrix_ConstAt matrix (snd p) (fst p) h2) as [[b h3]| |]; try reflexivity.
  destruct (ConstScalar_load a h3) as [[sa h4]| |]; try reflexivity.
  destruct (ConstScalar_load b h4) as [[sb h5]| |]; try reflexivity.
  rewrite HE. destruct (negb (E2 sa sb tolerance)); [reflexivity|].
  destruct (MatrixIterator_Next it h5) as [[it' h6]| |]; try reflexivity.
  apply IH.
Qed.

(** C10: the result of IsSymmetric does not depend on its epsilon argument;
    it depends on Equals only through the comparisons at the fixed tolerance
    1e-12; and a matrix that is not square yields false. *)
Theorem IsSymmetric_ignores_epsilon (E1 E2 : Scalar -> Scalar -> float -> bool)
  (matrix : MATRIX_NAME) (e1 e2 : float) (h : Heap) :
  (forall a b, E1 a b tolerance = E2 a b tolerance) ->
  IsSymmetric E1 matrix e1 h = IsSymmetric E2 matrix e2 h
  /\ (rows matrix <> cols matrix -> IsSymmetric E1 matrix e1 h = Ret (false, h)).
Proof.
  intros HE. unfold IsSymmetric, Dims. cbn [fst snd]. split.
  - destruct (negb (rows matrix =? cols matrix)); [reflexivity|].
    unfold bind.
    destruct (Matrix_ITERATOR matrix h) as [[it h1]| |]; try reflexivity.
    apply IsSymmetric_loop_tolerance, HE.
  - intros Hne. apply Z.eqb_neq in Hne. rewrite Hne. reflexivity.
Qed.

Lemma IsSymmetric_ignores_epsilon_witness :
  IsSymmetric Equals_abs (fst asymmetric_2x2) 1%float (snd asymmetric_2x2)
  = IsSymmetric Equals_abs (fst asymmetric_2x2) 1000%float (snd asymmetric_2x2)
  /\ (rows (fst asymmetric_2x2) <> cols (fst asymmetric_2x2) ->
      IsSymmetric Equals_abs (fst asymmetric_2x2) 1%float (snd asymmetric_2x2)
      = Ret (false, snd asymmetric_2x2)).
Proof.
  apply (IsSymmetric_ignores_epsilon Equals_abs Equals_abs).
  intros a b. reflexivity.
Defined.

(** ** Stepping through computations *)

Lemma bind_Ret {A B} (c : M A) (k : A -> M B) h a h' :
  c h = Ret (a, h') -> bind c k h = k a h'.
Proof. intros Hc. unfold bind. rewrite Hc. reflexivity. Qed.

Lemma loadVector_Some h v o :
  vectors h !! v = Some o -> loadVector (Some v) h = Ret (o, h).
Proof. intros Hv. unfold loadVector. rewrite Hv. reflexivity. Qed.

Lemma storeVector_Some h v o o' :
  vectors h !! v = Some o ->
  storeVector (Some v) o' h = Ret (tt, mkHeap (scalars h) (<[v := o']> (vectors h))).
Proof. intros Hv. unfold storeVector. rewrite Hv. reflexivity. Qed.

Lemma loadScalar_Some h l s :
  scalars h !! l = Some s -> loadScalar (Some l) h = Ret (s, h).
Proof. intros Hl. unfold loadScalar. rewrite Hl. reflexivity. Qed.

(** ** Permute *)

Lemma swap_key_involutive i p k : swap_key i p (swap_key i p k) = k.
Proof.
  unfold swap_key.
  destruct (Z.eqb_spec k i); destruct (Z.eqb_spec k p); subst;
    repeat (match goal with |- context [Z.eqb ?a ?b] => destruct (Z.eqb_spec a b) end;
            subst; try congruence).
Qed.

Lemma Permute_elements_lookup (mp : gmap Z ptr) (i p k : Z) :
  i <> p -> Permute_elements mp i p !! k = mp !! swap_key i p k.
Proof.
  intros Hip. unfold Permute_elements, swap_key.
  destruct (mp !! i) as [vi|] eqn:Hi; destruct (mp !! p) as [vp|] eqn:Hp;
    destruct (Z.eqb_spec k i) as [->|Hki];
    try destruct (Z.eqb_spec k p) as [->|Hkp];
    simplify_map_eq; try congruence; reflexivity.
Qed.

Lemma swapped_from_bijection (pi : list Z) (js : list nat) :
  index_bijection (swapped_from pi js).
Proof.
  induction js as [|i js IH].
  - exists (fun k => k). intros k. split; reflexivity.
  - destruct IH as [g Hg]. cbn [swapped_from].
    destruct (pi !! i) as [p|]; [|exists g; exact Hg].
    destruct (Z.of_nat i <? p); [|exists g; exact Hg].
    exists (fun k => g (swap_key (Z.of_nat i) p k)). intros k. split.
    + rewrite (proj1 (Hg _)). apply swap_key_involutive.
    + rewrite swap_key_involutive. apply Hg.
Qed.

Lemma Permute_loop_spec (n_ : Z) (pi : list Z) :
  forall js mp,
    Forall (fun i => (i < length pi)%nat) js ->
    exists m1 e,
      Permute_loop n_ pi js mp = Ret (m1, e)
      /\ (e = None -> forall k, m1 !! k = mp !! swapped_from pi js k)
      /\ (is_Some e <->
          exists i p, i ∈ js /\ pi !! i = Some p /\ invalid_entry n_ p = true).
Proof.
  induction js as [|i js IH]; intros mp Hjs.
  - exists mp, None. split; [reflexivity|]. split; [reflexivity|].
    split; [intros [? ?]; discriminate|].
    intros (i & p & Hi & _). inversion Hi.
  - apply Forall_cons in Hjs as [Hi Hjs]. cbn [Permute_loop swapped_from].
    destruct (pi !! i) as [p|] eqn:Hp.
    2:{ apply lookup_ge_None in Hp. lia. }
    destruct (invalid_entry n_ p) eqn:Hbad.
    + exists mp, (Some "Permute(): invalid permutation"%string).
      split; [reflexivity|]. split; [discriminate|].
      split; [|eauto].
      intros _. exists i, p. split; [left|auto].
    + destruct (IH (if negb (Z.of_nat i =? p) && (Z.of_nat i <? p)
                    then Permute_elements mp (Z.of_nat i) p else mp) Hjs)
        as (m1 & e & Hrun & Hmoved & He).
      exists m1, e. split; [exact Hrun|].
      split.
      { intros Hnone k. rewrite (Hmoved Hnone k).
        destruct (Z.ltb_spec (Z.of_nat i) p) as [Hlt|Hge].
        - destruct (Z.eqb_spec (Z.of_nat i) p) as [Heq|Hne]; [lia|]. cbn [negb andb].
          apply Permute_elements_lookup. exact Hne.
        - rewrite andb_false_r. reflexivity. }
      rewrite He. split.
      * intros (i' & p' & Hi' & Hp' & Hb'). exists i', p'. split; [right|]; auto.
      * intros (i' & p' & Hi' & Hp' & Hb').
        apply elem_of_cons in Hi' as [->|Hi'].
        -- congruence.
        -- eauto.
Qed.

Lemma Permute_loop_full (n_ : Z) (pi : list Z) (mp : gmap Z ptr) :
  Z.of_nat (length pi) = n_ ->
  exists m1 e,
    Permute_loop n_ pi (seq 0 (Z.to_nat n_)) mp = Ret (m1, e)
    /\ (e = None -> forall k, m1 !! k = mp !! swaps pi k)
    /\ (is_Some e <-> existsb (invalid_entry n_) pi = true).
Proof.
  intros Hlen.
  destruct (Permute_loop_spec n_ pi (seq 0 (Z.to_nat n_)) mp) as (m1 & e & Hrun & Hmv & He).
  { apply Forall_forall. intros i Hi. apply elem_of_seq in Hi. lia. }
  exists m1, e. split; [exact Hrun|]. split.
  { unfold swaps. replace (length pi) with (Z.to_nat n_) by lia. exact Hmv. }
  rewrite He, existsb_exists. split.
  - intros (i & p & _ & Hp & Hb). exists p. split; [|exact Hb].
    apply list_elem_of_In, list_elem_of_lookup. eauto.
  - intros (p & Hin & Hb).
    apply list_elem_of_In, list_elem_of_lookup in Hin as [i Hi].
    exists i, p. split; [|auto].
    apply elem_of_seq. apply lookup_lt_Some in Hi. lia.
Qed.

Lemma fold_indexInsert (pi : list Z) :
  forall ix, fold_left indexInsert pi ix
             = mkIndex (indices ix ++ pi)
                 (match pi with [] => isSorted ix | _ => false end).
Proof.
  induction pi as [|p pi IH]; intros [l b]; simpl.
  - rewrite app_nil_r. reflexivity.
  - rewrite IH. simpl. rewrite <- app_assoc. simpl.
    destruct pi; reflexivity.
Qed.

Lemma Permute_vector_spec (h : Heap) (v : loc) (o : VECTOR_NAME) (pi : list Z) :
  vectors h !! v = Some o ->
  exists e h' o',
    Permute (Some v) pi h = Ret (e, h')
    /\ vectors h' !! v = Some o'
    /\ scalars h' = scalars h
    /\ n o' = n o
    /\ (is_Some e <-> rejected (n o) pi = true)
    /\ (e = None -> forall k, values o' !! k = values o !! swaps pi k)
    /\ (e = None -> sparseIndex o' = mkIndex pi false).
Proof.
  intros Hv. unfold Permute, rejected.
  rewrite (bind_Ret _ _ _ _ _ (loadVector_Some _ _ _ Hv)).
  destruct (Z.eqb_spec (Z.of_nat (length pi)) (n o)) as [Hlen|Hlen]; simpl.
  - destruct (Permute_loop_full (n o) pi (values o) Hlen) as (m1 & e & Hrun & Hmv & He).
    unfold bind at 1, lift. rewrite Hrun. simpl.
    destruct e as [e|].
    + rewrite (bind_Ret _ _ _ _ _ (storeVector_Some _ _ _ _ Hv)).
      eexists _, _, _. split; [reflexivity|]. simpl.
      rewrite lookup_insert_eq.
      repeat split; auto; try apply He; try discriminate.
    + rewrite (bind_Ret _ _ _ _ _ (storeVector_Some _ _ _ _ Hv)).
      eexists _, _, _. split; [reflexivity|]. simpl.
      rewrite lookup_insert_eq.
      repeat split; auto; try apply He.
      rewrite fold_indexInsert. simpl. destruct pi; reflexivity.
  - eexists _, h, o. split; [reflexivity|].
    repeat split; auto; try discriminate; eauto.
Qed.

Lemma Permute_chan_spec (co : Chan.VECTOR_TYPE) (pi : list Z) :
  exists e co',
    Chan.Permute co pi = Ret (co', e)
    /\ Chan.n co' = Chan.n co
    /\ Chan.indices co' = Chan.indices co
    /\ (is_Some e <-> rejected (Chan.n co) pi = true)
    /\ (e = None -> forall k, Chan.entries co' !! k = Chan.entries co !! swaps pi k).
Proof.
  unfold Chan.Permute, rejected.
  destruct (Z.eqb_spec (Z.of_nat (length pi)) (Chan.n co)) as [Hlen|Hlen]; simpl.
  - destruct (Permute_loop_full (Chan.n co) pi (Chan.entries co) Hlen)
      as (m1 & e & Hrun & Hmv & He).
    rewrite Hrun. simpl. exists e, (Chan.mkVector (Chan.indices co) m1 (Chan.n co)).
    repeat split; auto; apply He.
  - eexists _, co. split; [reflexivity|].
    repeat split; auto; try discriminate; eauto.
Qed.

Lemma pi_at_involution (pi : list Z) (k : Z) :
  involution pi -> 0 <= k < Z.of_nat (length pi) ->
  pi !! Z.to_nat k = Some (pi_at pi k)
  /\ 0 <= pi_at pi k < Z.of_nat (length pi)
  /\ pi_at pi (pi_at pi k) = k.
Proof.
  intros Hinv Hk.
  destruct (pi !! Z.to_nat k) as [p|] eqn:Hp.
  2:{ apply lookup_ge_None in Hp. lia. }
  assert (Hat : pi_at pi k = p).
  { unfold pi_at. destruct (Z.leb_spec 0 k); [|lia]. rewrite Hp. reflexivity. }
  rewrite Hat. destruct (Hinv _ _ Hp) as [Hp0 Hback].
  split; [reflexivity|]. split.
  - apply lookup_lt_Some in Hback. lia.
  - unfold pi_at. destruct (Z.leb_spec 0 p); [|lia].
    rewrite Hback. simpl. lia.
Qed.

Lemma pi_at_outside (pi : list Z) (k : Z) :
  ~ 0 <= k < Z.of_nat (length pi) -> pi_at pi k = k.
Proof.
  intros Hk. unfold pi_at. destruct (Z.leb_spec 0 k); [|reflexivity].
  destruct (pi !! Z.to_nat k) eqn:Hp; [|reflexivity].
  apply lookup_lt_Some in Hp. lia.
Qed.

Lemma Permute_loop_involution (n_ : Z) (pi : list Z) (m0 : gmap Z ptr) :
  involution pi -> Z.of_nat (length pi) = n_ ->
  forall (cnt a : nat) (m : gmap Z ptr),
    (a + cnt = length pi)%nat ->
    (forall k, (0 <= k < n_ /\ (k < Z.of_nat a \/ pi_at pi k < Z.of_nat a)
                -> m !! k = m0 !! pi_at pi k)
               /\ (~ (0 <= k < n_ /\ (k < Z.of_nat a \/ pi_at pi k < Z.of_nat a))
                   -> m !! k = m0 !! k)) ->
    exists m1,
      Permute_loop n_ pi (seq a cnt) m = Ret (m1, None)
      /\ forall k, m1 !! k = m0 !! pi_at pi k.
Proof.
  intros Hinv Hlen. induction cnt as [|cnt IH]; intros a m Ha Hm.
  - exists m. split; [reflexivity|]. intros k.
    destruct (decide (0 <= k < n_)) as [Hk|Hk].
    + apply Hm. split; [exact Hk|]. lia.
    + rewrite pi_at_outside by lia. apply Hm. tauto.
  - cbn [seq Permute_loop].
    assert (Hain : 0 <= Z.of_nat a < Z.of_nat (length pi)) by lia.
    destruct (pi_at_involution pi (Z.of_nat a) Hinv Hain) as (Hp & Hprange & Hpback).
    rewrite Nat2Z.id in Hp. rewrite Hp.
    set (p := pi_at pi (Z.of_nat a)) in *.
    unfold invalid_entry.
    destruct (Z.ltb_spec p 0); [lia|]. destruct (Z.leb_spec n_ p); [lia|]. cbn [orb].
    apply IH; [lia|].
    intros k.
    assert (Hkinv : 0 <= k < n_ ->
              0 <= pi_at pi k < n_ /\ pi_at pi (pi_at pi k) = k).
    { intros Hk. destruct (pi_at_involution pi k Hinv ltac:(lia)) as (_ & ? & ?).
      split; [lia|assumption]. }
    destruct (Z.eqb_spec (Z.of_nat a) p) as [Hap|Hap]; cbn [negb andb].
    + (* a fixed point: nothing is exchanged *)
      destruct (Hm k) as [Hin Hout]. split.
      * intros [Hk Hor].
        destruct (decide (k < Z.of_nat a \/ pi_at pi k < Z.of_nat a)) as [Hd|Hd];
          [apply Hin; tauto|].
        assert (Hka : k = Z.of_nat a).
        { destruct (Hkinv Hk) as [_ Hback].
          destruct Hor as [?|?]; [lia|].
          assert (pi_at pi k = Z.of_nat a) by lia. congruence. }
        rewrite Hout by tauto. f_equal. rewrite Hka. fold p. lia.
      * intros Hno. apply Hout. intros [Hk Hor]. apply Hno. split; [exact Hk|]. lia.
    + destruct (Z.ltb_spec (Z.of_nat a) p) as [Hlt|Hge].
      * (* the entries at a and p are exchanged *)
        rewrite (Permute_elements_lookup m (Z.of_nat a) p k Hap). unfold swap_key.
        destruct (Z.eqb_spec k (Z.of_nat a)) as [->|Hka].
        -- split; [|intros Hno; exfalso; apply Hno; lia].
           intros _. fold p. apply (Hm p). intros [_ Hor]. lia.
        -- destruct (Z.eqb_spec k p) as [->|Hkp].
           ++ split; [|intros Hno; exfalso; apply Hno; lia].
              intros _. rewrite Hpback. apply (Hm (Z.of_nat a)). intros [_ Hor].
              fold p in Hor. lia.
           ++ destruct (Hm k) as [Hin Hout]. split.
              ** intros [Hk Hor]. apply Hin. split; [exact Hk|].
                 destruct (Hkinv Hk) as [_ Hback].
                 destruct Hor as [?|?]; [lia|].
                 destruct (decide (pi_at pi k = Z.of_nat a)) as [Heq|?]; [|lia].
                 exfalso. apply Hkp. rewrite <- Hback, Heq. reflexivity.
              ** intros Hno. apply Hout. intros [Hk Hor]. apply Hno.
                 split; [exact Hk|]. lia.
      * (* p < a: the pair was exchanged when the loop was at p *)
        destruct (Hm k) as [Hin Hout]. split.
        -- intros [Hk Hor]. apply Hin. split; [exact Hk|].
           destruct (Hkinv Hk) as [_ Hback].
           destruct (decide (k = Z.of_nat a)) as [->|Hka]; [fold p; lia|].
           destruct Hor as [?|?]; [lia|].
           destruct (decide (pi_at pi k = Z.of_nat a)) as [Heq|?]; [|lia].
           left. rewrite <- Hback, Heq. fold p. lia.
        -- intros Hno. apply Hout. intros [Hk Hor]. apply Hno.
           split; [exact Hk|]. lia.
Qed.

Lemma Permute_loop_applies (n_ : Z) (pi : list Z) (m0 : gmap Z ptr) :
  involution pi -> Z.of_nat (length pi) = n_ ->
  exists m1,
    Permute_loop n_ pi (seq 0 (Z.to_nat n_)) m0 = Ret (m1, None)
    /\ forall k, m1 !! k = m0 !! pi_at pi k.
Proof.
  intros Hinv Hlen.
  apply (Permute_loop_involution n_ pi m0 Hinv Hlen (Z.to_nat n_) 0%nat m0); [lia|].
  intros k. split; [|reflexivity]. intros [Hk Hor].
  destruct (pi_at_involution pi k Hinv ltac:(lia)) as (_ & ? & _). lia.
Qed.

Lemma Permute_vector_involution (h : Heap) (v : loc) (o : VECTOR_NAME) (pi : list Z) :
  vectors h !! v = Some o ->
  involution pi -> Z.of_nat (length pi) = n o ->
  exists h' o',
    Permute (Some v) pi h = Ret (None, h')
    /\ vectors h' !! v = Some o'
    /\ forall k, values o' !! k = values o !! pi_at pi k.
Proof.
  intros Hv Hinv Hlen.
  destruct (Permute_loop_applies (n o) pi (values o) Hinv Hlen) as (m1 & Hrun & Hm1).
  unfold Permute.
  rewrite (bind_Ret _ _ _ _ _ (loadVector_Some _ _ _ Hv)).
  rewrite Hlen, Z.eqb_refl. cbn [negb].
  unfold bind at 1, lift. rewrite Hrun. cbn [rbind].
  rewrite (bind_Ret _ _ _ _ _ (storeVector_Some _ _ _ _ Hv)).
  eexists _, _. split; [reflexivity|]. simpl. rewrite lookup_insert_eq.
  split; [reflexivity|]. exact Hm1.
Qed.

Lemma Permute_chan_involution (co : Chan.VECTOR_TYPE) (pi : list Z) :
  involution pi -> Z.of_nat (length pi) = Chan.n co ->
  exists co',
    Chan.Permute co pi = Ret (co', None)
    /\ forall k, Chan.entries co' !! k = Chan.entries co !! pi_at pi k.
Proof.
  intros Hinv Hclen.
  destruct (Permute_loop_applies (Chan.n co) pi (Chan.entries co) Hinv Hclen)
    as (m1 & Hrun & Hm1).
  unfold Chan.Permute. rewrite Hclen, Z.eqb_refl. cbn [negb].
  rewrite Hrun. cbn [rbind fst snd].
  eexists. split; [reflexivity|]. exact Hm1.
Qed.

(** C5, as the code has it, for both variants: Permute returns an error
    exactly when the length of [pi] differs from the dimension or some
    [pi[i]] lies outside [0, dim()); it makes no test that [pi] is a
    bijection.  It never panics and the dimension is kept.  On success the
    vector holds the permuted entries in place: they are moved by the
    pairwise swaps of i and [pi[i]], made for ascending i wherever
    [pi[i] > i], which is a bijection of the indices; and for a [pi] that is
    its own inverse, index k then holds the entry that was at [pi[k]]. *)
Theorem Permute_rejects_length_and_range_only
  (h : Heap) (v : loc) (o : VECTOR_NAME) (co : Chan.VECTOR_TYPE) (pi : list Z) :
  vectors h !! v = Some o ->
  index_bijection (swaps pi)
  /\ (exists e h' o',
      Permute (Some v) pi h = Ret (e, h')
      /\ vectors h' !! v = Some o'
      /\ scalars h' = scalars h
      /\ n o' = n o
      /\ (is_Some e <-> rejected (n o) pi = true)
      /\ (e = None -> forall k, values o' !! k = values o !! swaps pi k)
      /\ (involution pi -> Z.of_nat (length pi) = n o ->
          e = None /\ forall k, values o' !! k = values o !! pi_at pi k))
  /\ (exists e co',
      Chan.Permute co pi = Ret (co', e)
      /\ Chan.n co' = Chan.n co
      /\ (is_Some e <-> rejected (Chan.n co) pi = true)
      /\ (e = None -> forall k, Chan.entries co' !! k = Chan.entries co !! swaps pi k)
      /\ (involution pi -> Z.of_nat (length pi) = Chan.n co ->
          e = None /\ forall k, Chan.entries co' !! k = Chan.entries co !! pi_at pi k)).
Proof.
  intros Hv. split; [apply swapped_from_bijection|]. split.
  - destruct (Permute_vector_spec h v o pi Hv)
      as (e & h' & o' & Hrun & Hv' & Hs & Hn & He & Hsw & _).
    exists e, h', o'. split; [exact Hrun|]. split; [exact Hv'|]. split; [exact Hs|].
    split; [exact Hn|]. split; [exact He|]. split; [exact Hsw|].
    intros Hinv Hlen.
    destruct (Permute_vector_involution h v o pi Hv Hinv Hlen) as (h2 & o2 & Hrun2 & Hv2 & Hm).
    rewrite Hrun in Hrun2. injection Hrun2 as -> ->.
    rewrite Hv' in Hv2. injection Hv2 as ->.
    split; [reflexivity|exact Hm].
  - destruct (Permute_chan_spec co pi) as (e & co' & Hrun & Hn & _ & He & Hsw).
    exists e, co'. split; [exact Hrun|]. split; [exact Hn|]. split; [exact He|].
    split; [exact Hsw|].
    intros Hinv Hlen.
    destruct (Permute_chan_involution co pi Hinv Hlen) as (co2 & Hrun2 & Hm).
    rewrite Hrun in Hrun2. injection Hrun2 as -> ->.
    split; [reflexivity|exact Hm].
Qed.

Lemma Permute_rejects_length_and_range_only_witness :
  index_bijection (swaps [1; 0])
  /\ (exists e h' o',
      Permute (Some 1%positive) [1; 0] zero_first = Ret (e, h')
      /\ vectors h' !! 1%positive = Some o'
      /\ scalars h' = scalars zero_first
      /\ n o' = n zero_first_vector
      /\ (is_Some e <-> rejected (n zero_first_vector) [1; 0] = true)
      /\ (e = None ->
          forall k, values o' !! k = values zero_first_vector !! swaps [1; 0] k)
      /\ (involution [1; 0] -> Z.of_nat (length ([1; 0] : list Z)) = n zero_first_vector ->
          e = None
          /\ forall k, values o' !! k = values zero_first_vector !! pi_at [1; 0] k))
  /\ (exists e co',
      Chan.Permute chan_two [1; 0] = Ret (co', e)
      /\ Chan.n co' = Chan.n chan_two
      /\ (is_Some e <-> rejected (Chan.n chan_two) [1; 0] = true)
      /\ (e = None ->
          forall k, Chan.entries co' !! k = Chan.entries chan_two !! swaps [1; 0] k)
      /\ (involution [1; 0] -> Z.of_nat (length ([1; 0] : list Z)) = Chan.n chan_two ->
          e = None
          /\ forall k, Chan.entries co' !! k = Chan.entries chan_two !! pi_at [1; 0] k)).
Proof.
  apply (Permute_rejects_length_and_range_only zero_first 1%positive
           zero_first_vector chan_two [1; 0]).
  reflexivity.
Defined.

(** C5, counterexample: [pi = [1; 1]] repeats the in-range value 1, so it is
    no bijection of [0, 2), and both variants accept it. *)
Lemma Permute_accepts_repeated_value :
  n zero_first_vector = 2
  /\ ([1; 1] : list Z) !! 0%nat = ([1; 1] : list Z) !! 1%nat
  /\ result_of (Permute (Some 1%positive) [1; 1] zero_first) = Ret None
  /\ rbind (Chan.Permute chan_two [1; 1]) (fun r => Ret (snd r)) = Ret None.
Proof.
  repeat split; vm_compute; reflexivity.
Qed.

(** Two runs of the swaps on the vector that stores its entries 1, 2, 3 at
    the indices 0, 1, 2.  With the cycle [pi = [1; 2; 0]] index k ends with
    the entry that was at [pi[k]]; with its inverse [pi = [2; 0; 1]] only
    the indices 0 and 2 are exchanged. *)
Example Permute_swaps_run :
  map (swaps [1; 2; 0]) [0; 1; 2] = [1; 2; 0]
  /\ map (swaps [2; 0; 1]) [0; 1; 2] = [2; 1; 0]
  /\ map (swaps [1; 1]) [0; 1] = [1; 0].
Proof.
  repeat split.
Qed.

(** ** Import of a malformed table *)

Section MalformedTables.

Variable ParseInt : string -> option Z.
Variable ParseFloat : string -> option float.

Lemma Import_fields_result (fields : list string) :
  forall st,
    if existsb (bad_field ParseInt ParseFloat) fields
    then Import_fields ParseInt ParseFloat fields st = inr invalid_sparse_table
    else exists st', Import_fields ParseInt ParseFloat fields st = inl st'.
Proof.
  induction fields as [|f fields IH]; intros st; simpl.
  - eauto.
  - unfold bad_field at 1.
    destruct (Split_colon f) as [|a [|b [|c l]]]; simpl; try reflexivity.
    destruct (ParseInt a) as [k|]; simpl; [|reflexivity].
    destruct (ParseFloat b) as [x|]; simpl; [|reflexivity].
    apply IH.
Qed.

Lemma Import_lines_malformed (v : loc) (o : VECTOR_NAME) (lines : list string) :
  forall st h,
    vectors h !! v = Some o ->
    malformed_table ParseInt ParseFloat lines = true ->
    Import_lines ParseInt ParseFloat (Some v) lines st h
    = Ret (inr invalid_sparse_table, h).
Proof.
  unfold malformed_table.
  induction lines as [|line lines IH]; intros st h Hv Hbad; simpl in *.
  - discriminate.
  - rewrite existsb_app in Hbad.
    destruct (Fields line) as [|f fields] eqn:Hf; simpl in Hbad |- *.
    + apply IH; assumption.
    + rewrite (bind_Ret _ _ _ _ _ (loadVector_Some _ _ _ Hv)).
      destruct (negb (size (values o) =? 0)%nat); [reflexivity|].
      pose proof (Import_fields_result (f :: fields) st) as Hres.
      simpl in Hres.
      destruct ((bad_field ParseInt ParseFloat) f || existsb (bad_field ParseInt ParseFloat) fields) eqn:Hb.
      * simpl in Hres. rewrite Hres. reflexivity.
      * destruct Hres as [st' Hst']. simpl in Hst'. rewrite Hst'.
        apply IH; assumption.
Qed.

Lemma Import_entries_malformed (lines : list string) :
  forall st,
    existsb (bad_entry ParseInt ParseFloat) lines = true ->
    exists e, Import_entries ParseInt ParseFloat lines st = inr e.
Proof.
  induction lines as [|line lines IH]; intros st Hbad; simpl in *.
  - discriminate.
  - unfold bad_entry at 1 in Hbad.
    destruct (Fields line) as [|a [|b [|c [|d l]]]]; simpl; eauto.
    destruct (ParseInt a); simpl in *; eauto.
    destruct (ParseInt b); simpl in *; eauto.
    destruct (ParseFloat c); simpl in *; eauto.
Qed.

Lemma Matrix_parse_malformed (lines : list string) :
  malformed_matrix_table ParseInt ParseFloat lines = true ->
  exists e, Matrix_parse ParseInt ParseFloat lines = inr e.
Proof.
  destruct lines as [|header lines]; simpl; [discriminate|].
  unfold bad_header, Import_header.
  destruct (Fields header) as [|a [|b [|c l]]]; simpl; eauto.
  destruct (ParseInt a); simpl; eauto.
  destruct (ParseInt b); simpl; eauto.
  intros Hbad.
  destruct (Import_entries_malformed lines (mkMatrixImport [] [] []) Hbad) as [e He].
  rewrite He. eauto.
Qed.

Lemma Chan_Import_fields_result (h0 : Heap) (fields : list string) :
  forall obj h,
    all_new h0 obj ->
    dom (scalars h0) ⊆ dom (scalars h) ->
    exists obj' e h',
      Chan.Import_fields ParseInt ParseFloat fields obj h = Ret ((obj', e), h')
      /\ all_new h0 obj'
      /\ dom (scalars h0) ⊆ dom (scalars h')
      /\ e = (if existsb (bad_field ParseInt ParseFloat) fields then Some invalid_sparse_table else None).
Proof.
  induction fields as [|f fields IH]; intros obj h Hnew Hdom; simpl.
  - exists obj, None, h. auto.
  - unfold bad_field at 1.
    destruct (Split_colon f) as [|a [|b [|c l]]]; simpl;
      try (exists obj, (Some invalid_sparse_table), h; auto; fail).
    destruct (ParseInt a) as [k|]; simpl;
      [|exists obj, (Some invalid_sparse_table), h; auto].
    destruct (ParseFloat b) as [x|]; simpl;
      [|exists obj, (Some invalid_sparse_table), h; auto].
    unfold bind at 1, newScalar.
    apply IH.
    + intros k' p. simpl. intros Hk'.
      apply lookup_insert_Some in Hk' as [[_ <-]|[_ Hk']].
      * eexists. split; [reflexivity|].
        intros Hin. apply Hdom in Hin. revert Hin. apply is_fresh.
      * apply Hnew in Hk'. exact Hk'.
    + simpl. rewrite dom_insert_L. set_solver.
Qed.

Lemma Chan_Import_lines_malformed (h0 : Heap) (lines : list string) :
  forall obj h,
    all_new h0 obj ->
    dom (scalars h0) ⊆ dom (scalars h) ->
    malformed_table ParseInt ParseFloat lines = true ->
    exists obj' h',
      Chan.Import_lines ParseInt ParseFloat lines obj h
      = Ret ((obj', Some invalid_sparse_table), h')
      /\ all_new h0 obj'.
Proof.
  unfold malformed_table.
  induction lines as [|line lines IH]; intros obj h Hnew Hdom Hbad; simpl in *.
  - discriminate.
  - rewrite existsb_app in Hbad.
    destruct (Fields line) as [|f fields] eqn:Hf; simpl in Hbad |- *.
    + apply IH; assumption.
    + destruct (negb (size (Chan.entries obj) =? 0)%nat); [eauto|].
      destruct (Chan_Import_fields_result h0 (f :: fields) obj h Hnew Hdom)
        as (obj' & e & h' & Hrun & Hnew' & Hdom' & He).
      simpl in Hrun, He. unfold bind at 1. rewrite Hrun. simpl.
      destruct ((bad_field ParseInt ParseFloat) f || existsb (bad_field ParseInt ParseFloat) fields); subst e; simpl.
      * eauto.
      * apply IH; assumption.
Qed.

End MalformedTables.

(** C2, as the code has it.  On a malformed table Import returns an error.
    The iterator variant and the matrix assign their target only after the
    whole file is parsed, so the failed call leaves the target and the store
    exactly as they were: the target keeps its prior contents.  The channel
    variant resets its target before it parses, so after the failure the
    target holds none of its prior scalars. *)
Theorem failed_Import_target
  (ParseInt : string -> option Z) (ParseFloat : string -> option float)
  (h : Heap) (v : loc) (o : VECTOR_NAME) (mat : MATRIX_NAME)
  (cobj : Chan.VECTOR_TYPE) (lines mlines : list string) :
  vectors h !! v = Some o ->
  malformed_table ParseInt ParseFloat lines = true ->
  malformed_matrix_table ParseInt ParseFloat mlines = true ->
  Import ParseInt ParseFloat (Some v) lines h = Ret (Some invalid_sparse_table, h)
  /\ (exists e, Matrix_Import ParseInt ParseFloat mat mlines h = Ret ((mat, Some e), h))
  /\ (exists cobj' h',
        Chan.Import ParseInt ParseFloat cobj lines h
        = Ret ((cobj', Some invalid_sparse_table), h')
        /\ all_new h cobj').
Proof.
  intros Hv Hbad Hmbad. split; [|split].
  - unfold Import.
    rewrite (bind_Ret _ _ _ _ _
               (Import_lines_malformed ParseInt ParseFloat v o lines _ h Hv Hbad)).
    reflexivity.
  - destruct (Matrix_parse_malformed ParseInt ParseFloat mlines Hmbad) as [e He].
    exists e. unfold Matrix_Import. rewrite He. reflexivity.
  - unfold Chan.Import.
    apply Chan_Import_lines_malformed; [|reflexivity|exact Hbad].
    intros k p Hk. simpl in Hk. rewrite lookup_empty in Hk. discriminate.
Qed.

Lemma failed_Import_target_witness :
  Import decimal decimal_float (Some 1%positive) ["0:7 x"%string] zero_first
  = Ret (Some invalid_sparse_table, zero_first)
  /\ (exists e, Matrix_Import decimal decimal_float (matrix_2x3 (Some 1%positive))
                  ["2 2"%string; "0 1"%string] zero_first
                = Ret ((matrix_2x3 (Some 1%positive), Some e), zero_first))
  /\ (exists cobj' h',
        Chan.Import decimal decimal_float chan_two ["0:7 x"%string] zero_first
        = Ret ((cobj', Some invalid_sparse_table), h')
        /\ all_new zero_first cobj').
Proof.
  apply (failed_Import_target decimal decimal_float zero_first 1%positive
           zero_first_vector (matrix_2x3 (Some 1%positive)) chan_two
           ["0:7 x"%string] ["2 2"%string; "0 1"%string]);
    reflexivity.
Defined.

(** C2, counterexample.  The table ["0:7 x"] is malformed.  The iterator
    variant returns the error and its target still holds its two prior
    entries: it is not reset to empty.  The channel variant returns the error
    with the entry parsed before the bad token in its target: it is not
    empty either. *)
Lemma failed_Import_not_reset :
  malformed_table decimal decimal_float ["0:7 x"%string] = true
  /\ (e <- Import decimal decimal_float (Some 1%positive) ["0:7 x"%string] ;;
      o <- loadVector (Some 1%positive) ;;
      ret (e, size (values o))) zero_first
     = Ret ((Some invalid_sparse_table, 2%nat), zero_first)
  /\ result_of
       ((r <- Chan.Import decimal decimal_float chan_two ["0:7 x"%string] ;;
         ret (snd r, size (Chan.entries (fst r)), Chan.n (fst r))) zero_first)
     = Ret (Some invalid_sparse_table, 1%nat, 1).
Proof.
  repeat split; vm_compute; reflexivity.
Qed.

(** ** Slice *)

Lemma set_vector_lookup h v o : vectors (set_vector h v o) !! v = Some o.
Proof. apply lookup_insert_eq. Qed.

Lemma set_vector_lookup_ne h v o u :
  u <> v -> vectors (set_vector h v o) !! u = vectors h !! u.
Proof. intros Hne. simpl. apply lookup_insert_ne. congruence. Qed.

Lemma set_vector_twice h v o o' :
  set_vector (set_vector h v o) v o' = set_vector h v o'.
Proof. unfold set_vector. simpl. rewrite insert_insert_eq. reflexivity. Qed.

Lemma set_vector_same h v o : vectors h !! v = Some o -> set_vector h v o = h.
Proof.
  intros Hv. destruct h as [ss vs]. unfold set_vector. simpl in *.
  rewrite insert_id by exact Hv. reflexivity.
Qed.

Lemma set_values_run h r ro i p :
  vectors h !! r = Some ro ->
  set_values (Some r) i p h
  = Ret (tt, set_vector h r (mkVector (sparseIndex ro) (<[i := p]> (values ro)) (n ro))).
Proof.
  intros Hr. unfold set_values.
  rewrite (bind_Ret _ _ _ _ _ (loadVector_Some _ _ _ Hr)).
  apply storeVector_Some with (o := ro). exact Hr.
Qed.

Lemma vector_indexInsert_run h r ro i :
  vectors h !! r = Some ro ->
  vector_indexInsert (Some r) i h
  = Ret (tt, set_vector h r (mkVector (indexInsert (sparseIndex ro) i) (values ro) (n ro))).
Proof.
  intros Hr. unfold vector_indexInsert.
  rewrite (bind_Ret _ _ _ _ _ (loadVector_Some _ _ _ Hr)).
  apply storeVector_Some with (o := ro). exact Hr.
Qed.

Lemma indexSort_sorted ix :
  (isSorted ix = true -> StronglySorted Z.le (indices ix)) ->
  StronglySorted Z.le (indices (indexSort ix))
  /\ forall k, k ∈ indices (indexSort ix) <-> k ∈ indices ix.
Proof.
  intros Hs. unfold indexSort. destruct (isSorted ix) eqn:Hb.
  - split; [auto|reflexivity].
  - simpl. split.
    + apply StronglySorted_merge_sort; apply _.
    + intros k. rewrite merge_sort_Permutation. reflexivity.
Qed.

Lemma drop_below_elem i l :
  StronglySorted Z.le l ->
  forall x, x ∈ drop_below i l <-> x ∈ l /\ i <= x.
Proof.
  induction 1 as [|k l Hl IH Hk]; intros x; simpl.
  - split; [intros Hx; inversion Hx|intros [Hx _]; inversion Hx].
  - destruct (Z.ltb_spec k i) as [Hlt|Hge].
    + rewrite IH, elem_of_cons. split; [tauto|].
      intros [[->|Hx] Hix]; [lia|tauto].
    + split; [|tauto]. intros Hx. split; [exact Hx|].
      apply elem_of_cons in Hx as [->|Hx]; [lia|].
      rewrite Forall_forall in Hk. specialize (Hk x Hx). lia.
Qed.

Lemma drop_below_sorted i l :
  StronglySorted Z.le l -> StronglySorted Z.le (drop_below i l).
Proof.
  induction 1 as [|k l Hl IH Hk]; simpl; [constructor|].
  destruct (k <? i); [exact IH|constructor; assumption].
Qed.

Lemma Slice_loop_spec (v r : loc) (o : VECTOR_NAME) (i j : Z) :
  r <> v -> 0 <= i -> j < 2 ^ 63 ->
  forall it h ro,
    vectors h !! v = Some o ->
    vectors h !! r = Some ro ->
    StronglySorted Z.le it ->
    (forall k, k ∈ it -> i <= k) ->
    exists ro',
      Slice_loop (Some v) (Some r) i j it h = Ret (tt, set_vector h r ro')
      /\ n ro' = n ro
      /\ (forall k, k ∈ it -> k < j ->
                    values ro' !! (k - i) = Some (map_read (values o) k))
      /\ (forall t, ~ (t + i ∈ it /\ t + i < j) -> values ro' !! t = values ro !! t).
Proof.
  intros Hrv Hi Hj.
  induction it as [|k it IH]; intros h ro Hv Hr Hsorted Hge; simpl.
  - exists ro. rewrite set_vector_same by exact Hr.
    split; [reflexivity|]. split; [reflexivity|].
    split; [intros k Hk; inversion Hk|auto].
  - apply StronglySorted_cons in Hsorted as [Hk Hsorted].
    destruct (Z.leb_spec j k) as [Hjk|Hkj].
    + exists ro. rewrite set_vector_same by exact Hr.
      split; [reflexivity|]. split; [reflexivity|].
      split; [|auto].
      intros k' Hk' Hlt. apply elem_of_cons in Hk' as [->|Hk']; [lia|].
      rewrite Forall_forall in Hk. specialize (Hk k' Hk'). lia.
    + assert (Hsub : int_sub k i = k - i).
      { unfold int_sub. apply wrap_id. unfold in_int.
        assert (i <= k) by (apply Hge; left). lia. }
      rewrite Hsub.
      rewrite (bind_Ret _ _ _ _ _ (loadVector_Some _ _ _ Hv)).
      rewrite (bind_Ret _ _ _ _ _ (set_values_run _ _ _ _ _ Hr)).
      rewrite (bind_Ret _ _ _ _ _
                 (vector_indexInsert_run _ _ _ _ (set_vector_lookup _ _ _))).
      rewrite set_vector_twice. simpl.
      set (ro1 := mkVector (indexInsert (sparseIndex ro) (k - i))
                    (<[k - i := map_read (values o) k]> (values ro)) (n ro)).
      destruct (IH (set_vector h r ro1) ro1) as (ro' & Hrun & Hn & Ha & Hb).
      { rewrite set_vector_lookup_ne by congruence. exact Hv. }
      { apply set_vector_lookup. }
      { exact Hsorted. }
      { intros k' Hk'. apply Hge. right. exact Hk'. }
      exists ro'. rewrite Hrun, set_vector_twice.
      split; [reflexivity|]. split; [exact Hn|]. split.
      * intros k' Hk' Hlt. apply elem_of_cons in Hk' as [->|Hk']; [|auto].
        destruct (decide (k ∈ it)) as [Hin|Hnin]; [auto|].
        rewrite Hb.
        -- subst ro1. simpl. apply lookup_insert_eq.
        -- replace (k - i + i) with k by lia. tauto.
      * intros t Hnot. rewrite Hb.
        -- subst ro1. simpl. apply lookup_insert_ne.
           intros Heq. apply Hnot. subst t.
           replace (k - i + i) with k by lia. split; [left|lia].
        -- intros [Hin Hlt]. apply Hnot. split; [right; exact Hin|exact Hlt].
Qed.

Lemma Slice_vector_spec (h : Heap) (v : loc) (o : VECTOR_NAME) (from to : Z) :
  vectors h !! v = Some o ->
  index_mirrors o ->
  0 <= from <= to -> to < 2 ^ 63 ->
  exists r h' ro o',
    Slice (Some v) from to h = Ret (Some r, h')
    /\ vectors h !! r = None
    /\ vectors h' !! r = Some ro
    /\ vectors h' !! v = Some o'
    /\ scalars h' = scalars h
    /\ values o' = values o /\ n o' = n o
    /\ n ro = to - from
    /\ forall t, values ro !! t
                 = if (0 <=? t) && (t <? to - from) then values o !! (t + from) else None.
Proof.
  intros Hv [Hkeys Hsorted] Hft Hto.
  set (r := fresh (dom (vectors h))).
  assert (Hfresh : vectors h !! r = None).
  { apply not_elem_of_dom. apply is_fresh. }
  assert (Hrv : r <> v) by (intros ->; congruence).
  assert (Hlen : int_sub to from = to - from).
  { unfold int_sub. apply wrap_id. unfold in_int. lia. }
  set (ro0 := mkVector emptyIndex ∅ (to - from)).
  destruct (indexSort_sorted (sparseIndex o) Hsorted) as [Hss Hsame].
  set (os := mkVector (indexSort (sparseIndex o)) (values o) (n o)).
  set (h2 := set_vector (set_vector h r ro0) v os).
  destruct (Slice_loop_spec v r os from to Hrv (proj1 Hft) Hto
              (drop_below from (indices (indexSort (sparseIndex o)))) h2 ro0)
    as (ro' & Hrun & Hn & Ha & Hb).
  { apply set_vector_lookup. }
  { unfold h2. rewrite set_vector_lookup_ne by exact Hrv. apply set_vector_lookup. }
  { apply drop_below_sorted, Hss. }
  { intros k Hk. apply drop_below_elem in Hk; [tauto|exact Hss]. }
  exists r, (set_vector h2 r ro'), ro', os.
  split.
  - unfold Slice, NIL_VECTOR. rewrite Hlen.
    unfold bind at 1, newVector. fold r. fold ro0.
    change (mkHeap (scalars h) (<[r := ro0]> (vectors h))) with (set_vector h r ro0).
    unfold vector_indexIteratorFrom, indexIteratorFrom.
    assert (Hv1 : vectors (set_vector h r ro0) !! v = Some o).
    { rewrite set_vector_lookup_ne by congruence. exact Hv. }
    unfold bind at 1.
    rewrite (bind_Ret _ _ _ _ _ (loadVector_Some _ _ _ Hv1)).
    rewrite (bind_Ret _ _ _ _ _ (storeVector_Some _ _ _ _ Hv1)).
    unfold ret at 1.
    change (mkHeap (scalars (set_vector h r ro0))
              (<[v := mkVector (indexSort (sparseIndex o)) (values o) (n o)]>
                 (vectors (set_vector h r ro0)))) with h2.
    rewrite (bind_Ret _ _ _ _ _ Hrun). reflexivity.
  - split; [exact Hfresh|]. split; [apply set_vector_lookup|].
    split.
    { rewrite set_vector_lookup_ne by congruence. apply set_vector_lookup. }
    split; [reflexivity|]. split; [reflexivity|]. split; [reflexivity|].
    split; [exact Hn|].
    intros t.
    assert (Hin : forall k, k ∈ drop_below from (indices (indexSort (sparseIndex o)))
                            <-> is_Some (values o !! k) /\ from <= k).
    { intros k. rewrite (drop_below_elem _ _ Hss), Hsame, Hkeys. reflexivity. }
    destruct (Z.leb_spec 0 t) as [H0|H0]; simpl.
    + destruct (Z.ltb_spec t (to - from)) as [H1|H1].
      * destruct (values o !! (t + from)) as [p|] eqn:Hp.
        -- replace t with (t + from - from) at 1 by lia.
           rewrite Ha; [|apply Hin; split; [rewrite Hp; eauto|lia]|lia].
           unfold map_read. change (values os) with (values o).
           rewrite Hp. reflexivity.
        -- rewrite Hb; [reflexivity|].
           intros [Hk _]. apply Hin in Hk as [[p' Hp'] _]. congruence.
      * rewrite Hb; [reflexivity|]. intros [_ Hlt]. lia.
    + rewrite Hb; [reflexivity|].
      intros [Hk _]. apply Hin in Hk as [_ Hk]. lia.
Qed.

Lemma Chan_Slice_fold (i j : Z) :
  0 <= i -> j < 2 ^ 63 ->
  forall (l : list (Z * option positive)) (r0 : Chan.VECTOR_TYPE),
    NoDup (l.*1) ->
    Chan.n (fold_left (Chan.Slice_step i j) l r0) = Chan.n r0
    /\ (forall k p, (k, p) ∈ l -> i <= k < j ->
                    Chan.entries (fold_left (Chan.Slice_step i j) l r0) !! (k - i) = Some p)
    /\ (forall t, (forall k p, (k, p) ∈ l -> i <= k < j -> k - i <> t) ->
                  Chan.entries (fold_left (Chan.Slice_step i j) l r0) !! t
                  = Chan.entries r0 !! t).
Proof.
  intros Hi Hj. induction l as [|[k p] l IH]; intros r0 Hnd; simpl.
  - split; [reflexivity|]. split; [|auto].
    intros k p Hin. inversion Hin.
  - apply NoDup_cons in Hnd as [Hk Hnd].
    destruct (IH (Chan.Slice_step i j r0 (k, p)) Hnd) as (Hn & Ha & Hb).
    assert (Hstep_n : Chan.n (Chan.Slice_step i j r0 (k, p)) = Chan.n r0).
    { unfold Chan.Slice_step. destruct (_ && _); reflexivity. }
    split; [congruence|]. split.
    + intros k' p' Hin Hrange.
      apply elem_of_cons in Hin as [Heq|Hin]; [|auto].
      injection Heq as -> ->.
      rewrite Hb.
      * unfold Chan.Slice_step. simpl.
        destruct (Z.leb_spec i k); [|lia]. destruct (Z.ltb_spec k j); [|lia]. simpl.
        unfold int_sub. rewrite wrap_id by (unfold in_int; lia).
        apply lookup_insert_eq.
      * intros k' p' Hin _ Heq. apply Hk.
        replace k with k' by lia.
        apply list_elem_of_fmap. exists (k', p'). auto.
    + intros t Hnot. rewrite Hb.
      * unfold Chan.Slice_step. simpl.
        destruct (Z.leb_spec i k); [|reflexivity].
        destruct (Z.ltb_spec k j); [|reflexivity]. simpl.
        unfold int_sub. rewrite wrap_id by (unfold in_int; lia).
        apply lookup_insert_ne. apply (Hnot k p); [left|lia].
      * intros k' p' Hin. apply (Hnot k' p'). right. exact Hin.
Qed.

Lemma Slice_chan_spec (co : Chan.VECTOR_TYPE) (from to : Z) :
  0 <= from <= to -> to < 2 ^ 63 ->
  Chan.n (Chan.Slice co from to) = to - from
  /\ forall t, Chan.entries (Chan.Slice co from to) !! t
               = if (0 <=? t) && (t <? to - from)
                 then Chan.entries co !! (t + from) else None.
Proof.
  intros Hft Hto. unfold Chan.Slice.
  destruct (Chan_Slice_fold from to (proj1 Hft) Hto (map_to_list (Chan.entries co))
              (Chan.NIL_VECTOR (int_sub to from)))
    as (Hn & Ha & Hb).
  { apply NoDup_fst_map_to_list. }
  split.
  - rewrite Hn. simpl. unfold int_sub. apply wrap_id. unfold in_int. lia.
  - intros t.
    destruct (Z.leb_spec 0 t) as [H0|H0]; simpl.
    + destruct (Z.ltb_spec t (to - from)) as [H1|H1].
      * destruct (Chan.entries co !! (t + from)) as [p|] eqn:Hp.
        -- replace t with (t + from - from) at 1 by lia.
           apply Ha; [|lia]. apply elem_of_map_to_list. exact Hp.
        -- rewrite Hb; [apply lookup_empty|].
           intros k p Hin _ Heq. apply elem_of_map_to_list in Hin.
           replace (t + from) with k in Hp by lia. congruence.
      * rewrite Hb; [apply lookup_empty|]. intros k p _ Hr. lia.
    + rewrite Hb; [apply lookup_empty|]. intros k p _ Hr. lia.
Qed.

(** C6, as the code has it, for both variants.  For 0 <= from <= to <= dim(),
    Slice returns a new vector of length to-from whose entry at k-from, for
    each occupied index k of the vector with from <= k < to, is the very
    pointer the vector stores at k: the scalar is shared, not copied.  The
    slice has no other entries, and the entries of the vector are kept. *)
Theorem Slice_shares_the_scalars
  (h : Heap) (v : loc) (o : VECTOR_NAME) (co : Chan.VECTOR_TYPE) (from to : Z) :
  vectors h !! v = Some o ->
  index_mirrors o ->
  0 <= from <= to ->
  to <= n o -> n o < 2 ^ 63 ->
  to <= Chan.n co -> Chan.n co < 2 ^ 63 ->
  (exists r h' ro o',
      Slice (Some v) from to h = Ret (Some r, h')
      /\ vectors h !! r = None
      /\ vectors h' !! r = Some ro
      /\ vectors h' !! v = Some o'
      /\ scalars h' = scalars h
      /\ values o' = values o /\ n o' = n o
      /\ n ro = to - from
      /\ forall t, values ro !! t
                   = if (0 <=? t) && (t <? to - from)
                     then values o !! (t + from) else None)
  /\ Chan.n (Chan.Slice co from to) = to - from
  /\ forall t, Chan.entries (Chan.Slice co from to) !! t
               = if (0 <=? t) && (t <? to - from)
                 then Chan.entries co !! (t + from) else None.
Proof.
  intros Hv Hmirror Hft Hto Hn Hcto Hcn. split.
  - apply Slice_vector_spec; try assumption. lia.
  - apply Slice_chan_spec; [assumption|lia].
Qed.

Lemma zero_first_mirrors : index_mirrors zero_first_vector.
Proof.
  split.
  - intros k. unfold zero_first_vector. simpl.
    rewrite !elem_of_cons, elem_of_nil.
    destruct (decide (k = 0)) as [->|H0]; [split; [eauto|tauto]|].
    destruct (decide (k = 1)) as [->|H1]; [split; [eauto|tauto]|].
    rewrite !lookup_insert_ne, lookup_empty by congruence.
    split; [tauto|intros [? ?]; discriminate].
  - intros _. simpl. repeat constructor; lia.
Defined.

Lemma Slice_shares_the_scalars_witness :
  (exists r h' ro o',
      Slice (Some 1%positive) 1 2 zero_first = Ret (Some r, h')
      /\ vectors zero_first !! r = None
      /\ vectors h' !! r = Some ro
      /\ vectors h' !! 1%positive = Some o'
      /\ scalars h' = scalars zero_first
      /\ values o' = values zero_first_vector /\ n o' = n zero_first_vector
      /\ n ro = 2 - 1
      /\ forall t, values ro !! t
                   = if (0 <=? t) && (t <? 2 - 1)
                     then values zero_first_vector !! (t + 1) else None)
  /\ Chan.n (Chan.Slice chan_two 1 2) = 2 - 1
  /\ forall t, Chan.entries (Chan.Slice chan_two 1 2) !! t
               = if (0 <=? t) && (t <? 2 - 1)
                 then Chan.entries chan_two !! (t + 1) else None.
Proof.
  apply (Slice_shares_the_scalars zero_first 1%positive zero_first_vector chan_two 1 2).
  - reflexivity.
  - exact zero_first_mirrors.
  - lia.
  - simpl. lia.
  - simpl. lia.
  - simpl. lia.
  - simpl. lia.
Defined.

(** C6, counterexample: the scalar at index 0 of the slice [1, 2) of
    [zero_first] is the scalar at index 1 of the vector, so writing 9.0
    through the slice changes what the vector reads at index 1 from 3.0 to
    9.0. *)
Lemma Slice_write_reaches_original :
  result_of (ValueAt (Some 1%positive) 1 zero_first) = Ret 3%float
  /\ result_of
       ((r <- Slice (Some 1%positive) 1 2 ;;
         p <- AT r 0 ;;
         storeScalar p (NEW_SCALAR 9%float) ;;;
         ValueAt (Some 1%positive) 1) zero_first)
     = Ret 9%float.
Proof.
  split; vm_compute; reflexivity.
Qed.

(** ** Clone *)

Lemma extends_refl h : extends h h.
Proof. split; reflexivity. Qed.

Lemma extends_trans h1 h2 h3 : extends h1 h2 -> extends h2 h3 -> extends h1 h3.
Proof. intros [Ha Hb] [Hc Hd]. split; etransitivity; eassumption. Qed.

Lemma contents_same (h h2 : Heap) (u : loc) (o : VECTOR_NAME) :
  vectors h !! u = Some o ->
  vectors h2 !! u = Some o ->
  (forall k l, values o !! k = Some (Some l) -> scalars h2 !! l = scalars h !! l) ->
  contents h2 (Some u) = contents h (Some u).
Proof.
  intros Hu Hu2 Hs. unfold contents. rewrite Hu, Hu2.
  f_equal. f_equal. apply map_eq. intros k. rewrite !lookup_fmap.
  destruct (values o !! k) as [[l|]|] eqn:Hk; simpl; try reflexivity.
  f_equal. apply (Hs k l Hk).
Qed.

Lemma contents_extends (h h' : Heap) (v : ptr) :
  extends h h' -> valid_vector h v ->
  contents h' v = contents h v
  /\ valid_vector h' v
  /\ forall l, owned h' v l <-> owned h v l.
Proof.
  intros [Hvs Hss] (u & o & -> & Hu & Hvalid).
  assert (Hu' : vectors h' !! u = Some o).
  { eapply lookup_weaken; eassumption. }
  split; [|split].
  - apply (contents_same h h' u o Hu Hu').
    intros k l Hk. destruct (Hvalid k _ Hk) as (l' & Heq & [s Hs]).
    injection Heq as <-. rewrite Hs. eapply lookup_weaken; eassumption.
  - exists u, o. split; [reflexivity|]. split; [exact Hu'|].
    intros k p Hk. destruct (Hvalid k p Hk) as (l & -> & [s Hs]).
    exists l. split; [reflexivity|]. exists s. eapply lookup_weaken; eassumption.
  - intros l. split.
    + intros (u' & o' & k & Heq & Ho' & Hk). injection Heq as <-.
      exists u, o, k. rewrite Hu' in Ho'. injection Ho' as <-. auto.
    + intros (u' & o' & k & Heq & Ho' & Hk). injection Heq as <-.
      exists u, o, k. rewrite Hu in Ho'. injection Ho' as <-. auto.
Qed.

Lemma contents_frame (h h2 : Heap) (v : ptr) (vs : ptr -> Prop) (ss : loc -> Prop) :
  valid_vector h v ->
  changed_only_at h h2 vs ss ->
  ~ vs v -> (forall l, owned h v l -> ~ ss l) ->
  contents h2 v = contents h v.
Proof.
  intros (u & o & -> & Hu & Hvalid) [Hvs Hss] Hv Hl.
  apply (contents_same h h2 u o Hu).
  - rewrite Hvs; [exact Hu|eauto|exact Hv].
  - intros k l Hk. destruct (Hvalid k _ Hk) as (l' & Heq & Hsome).
    injection Heq as <-. apply Hss; [exact Hsome|].
    apply Hl. exists u, o, k. auto.
Qed.

Lemma indexClone_id ix : indexClone ix = ix.
Proof. destruct ix; reflexivity. Qed.

Lemma Clone_loop_spec (r : loc) :
  forall (entries0 : list (Z * option positive)) (h : Heap) (ro : VECTOR_NAME),
    vectors h !! r = Some ro ->
    NoDup (entries0.*1) ->
    (forall k p, (k, p) ∈ entries0 -> exists l, p = Some l /\ is_Some (scalars h !! l)) ->
    exists ss' ro',
      Clone_loop (Some r) entries0 h = Ret (tt, mkHeap ss' (<[r := ro']> (vectors h)))
      /\ scalars h ⊆ ss'
      /\ n ro' = n ro /\ sparseIndex ro' = sparseIndex ro
      /\ (forall k p, (k, p) ∈ entries0 ->
            exists l', values ro' !! k = Some (Some l')
                       /\ scalars h !! l' = None
                       /\ ss' !! l' = deref h p /\ is_Some (ss' !! l'))
      /\ (forall k, k ∉ entries0.*1 -> values ro' !! k = values ro !! k).
Proof.
  induction entries0 as [|[k p] entries0 IH]; intros h ro Hr Hnd Hvalid; simpl.
  - exists (scalars h), ro. rewrite insert_id by exact Hr.
    destruct h as [ss vs]. simpl.
    split; [reflexivity|]. split; [reflexivity|]. split; [reflexivity|].
    split; [reflexivity|]. split; [|auto].
    intros k p Hin. inversion Hin.
  - apply NoDup_cons in Hnd as [Hk Hnd].
    destruct (Hvalid k p (list_elem_of_here _ _)) as (l & -> & [s Hs]).
    unfold Scalar_Clone.
    unfold bind at 1. unfold bind at 1. rewrite (loadScalar_Some _ _ _ Hs).
    unfold newScalar.
    set (l' := fresh (dom (scalars h))).
    assert (Hl' : scalars h !! l' = None) by (apply not_elem_of_dom, is_fresh).
    set (h1 := mkHeap (<[l' := s]> (scalars h)) (vectors h)).
    assert (Hsub : scalars h ⊆ scalars h1) by (apply insert_subseteq, Hl').
    rewrite (bind_Ret _ _ _ _ _ (set_values_run h1 r ro k (Some l') Hr)).
    set (ro1 := mkVector (sparseIndex ro) (<[k := Some l']> (values ro)) (n ro)).
    destruct (IH (set_vector h1 r ro1) ro1) as (ss' & ro' & Hrun & Hss & Hn & Hix & Ha & Hb).
    { apply set_vector_lookup. }
    { exact Hnd. }
    { intros k' p' Hin. destruct (Hvalid k' p' (list_elem_of_further _ _ _ Hin))
        as (l0 & -> & [s0 Hs0]).
      exists l0. split; [reflexivity|]. exists s0.
      simpl. eapply lookup_weaken; eassumption. }
    exists ss', ro'. rewrite Hrun. simpl. rewrite insert_insert_eq.
    split; [reflexivity|].
    split; [etransitivity; eassumption|].
    split; [exact Hn|]. split; [exact Hix|]. split.
    + intros k' p' Hin. apply elem_of_cons in Hin as [Heq|Hin].
      * injection Heq as -> ->. exists l'.
        rewrite (Hb k Hk). subst ro1. simpl. rewrite lookup_insert_eq.
        assert (Hl1 : ss' !! l' = Some s).
        { eapply lookup_weaken; [|exact Hss]. simpl. apply lookup_insert_eq. }
        rewrite Hl1, Hs. eauto.
      * destruct (Ha k' p' Hin) as (l0 & Hk0 & Hfresh & Hd & Hsome).
        exists l0. split; [exact Hk0|]. split.
        -- simpl in Hfresh. destruct (scalars h !! l0) as [s0|] eqn:Hl0; [|reflexivity].
           assert (<[l' := s]> (scalars h) !! l0 = Some s0)
             by (eapply lookup_weaken; eassumption).
           congruence.
        -- split; [|exact Hsome]. rewrite Hd.
           destruct (Hvalid k' p' (list_elem_of_further _ _ _ Hin)) as (l1 & -> & [s1 Hs1]).
           simpl. rewrite Hs1. eapply lookup_weaken; eassumption.
    + intros k' Hnin. apply not_elem_of_cons in Hnin as [Hne Hnin].
      rewrite (Hb k' Hnin). subst ro1. simpl. apply lookup_insert_ne. congruence.
Qed.

Lemma Clone_vector_spec (h : Heap) (v : ptr) :
  valid_vector h v ->
  exists r h',
    Clone v h = Ret (Some r, h')
    /\ vectors h !! r = None
    /\ extends h h'
    /\ valid_vector h' (Some r)
    /\ contents h' (Some r) = contents h v
    /\ (forall l, owned h' (Some r) l -> scalars h !! l = None).
Proof.
  intros (u & o & -> & Hu & Hvalid).
  set (r := fresh (dom (vectors h))).
  assert (Hfresh : vectors h !! r = None) by (apply not_elem_of_dom, is_fresh).
  assert (Hru : r <> u) by (intros ->; congruence).
  set (ro0 := mkVector emptyIndex ∅ (n o)).
  destruct (Clone_loop_spec r (map_to_list (values o)) (set_vector h r ro0) ro0)
    as (ss' & ro' & Hrun & Hss & Hn & Hix & Ha & Hb).
  { apply set_vector_lookup. }
  { apply NoDup_fst_map_to_list. }
  { intros k p Hin. apply elem_of_map_to_list in Hin. exact (Hvalid k p Hin). }
  simpl in Hrun, Hss, Ha. rewrite insert_insert_eq in Hrun.
  set (rf := mkVector (indexClone (sparseIndex o)) (values ro') (n ro')).
  set (h' := mkHeap ss' (<[r := rf]> (vectors h))).
  assert (Hkeys : forall k, values ro' !! k
                            = match values o !! k with
                              | Some p => values ro' !! k
                              | None => None
                              end).
  { intros k. destruct (values o !! k) as [p|] eqn:Hk; [reflexivity|].
    rewrite Hb; [apply lookup_empty|].
    intros Hin. apply list_elem_of_fmap in Hin as ([k' p'] & -> & Hin).
    apply elem_of_map_to_list in Hin. simpl in Hk. congruence. }
  exists r, h'. split; [|split; [exact Hfresh|split; [|split; [|split]]]].
  - unfold Clone.
    rewrite (bind_Ret _ _ _ _ _ (loadVector_Some _ _ _ Hu)).
    unfold NIL_VECTOR. unfold bind at 1, newVector. fold r. fold ro0.
    change (mkHeap (scalars h) (<[r := ro0]> (vectors h))) with (set_vector h r ro0).
    rewrite (bind_Ret _ _ _ _ _ Hrun).
    assert (Hu2 : vectors (mkHeap ss' (<[r := ro']> (vectors h))) !! u = Some o).
    { simpl. rewrite lookup_insert_ne by congruence. exact Hu. }
    rewrite (bind_Ret _ _ _ _ _ (loadVector_Some _ _ _ Hu2)).
    assert (Hr2 : vectors (mkHeap ss' (<[r := ro']> (vectors h))) !! r = Some ro').
    { simpl. apply lookup_insert_eq. }
    rewrite (bind_Ret _ _ _ _ _ (loadVector_Some _ _ _ Hr2)).
    rewrite (bind_Ret _ _ _ _ _ (storeVector_Some _ _ _ _ Hr2)).
    unfold ret, h', rf. simpl. rewrite insert_insert_eq. reflexivity.
  - split; simpl; [apply insert_subseteq, Hfresh|exact Hss].
  - exists r, rf. split; [reflexivity|]. split; [apply lookup_insert_eq|].
    intros k p Hk. simpl in Hk. rewrite Hkeys in Hk.
    destruct (values o !! k) as [p0|] eqn:Hk0; [|discriminate].
    destruct (Ha k p0) as (l' & Hk' & _ & _ & Hsome).
    { apply elem_of_map_to_list, Hk0. }
    rewrite Hk' in Hk. injection Hk as <-. eauto.
  - unfold contents, h'. simpl. rewrite lookup_insert_eq, Hu. simpl.
    rewrite Hn, indexClone_id. f_equal. f_equal.
    apply map_eq. intros k. rewrite !lookup_fmap.
    destruct (values o !! k) as [p0|] eqn:Hk0.
    + destruct (Ha k p0) as (l' & Hk' & _ & Hd & _).
      { apply elem_of_map_to_list, Hk0. }
      rewrite Hk'. simpl. rewrite Hd. reflexivity.
    + rewrite Hkeys, Hk0. reflexivity.
  - intros l (u' & o' & k & Heq & Ho' & Hk). injection Heq as <-.
    unfold h' in Ho'. simpl in Ho'. rewrite lookup_insert_eq in Ho'.
    injection Ho' as <-. simpl in Hk. rewrite Hkeys in Hk.
    destruct (values o !! k) as [p0|] eqn:Hk0; [|discriminate].
    destruct (Ha k p0) as (l' & Hk' & Hnew & _).
    { apply elem_of_map_to_list, Hk0. }
    rewrite Hk' in Hk. injection Hk as <-. exact Hnew.
Qed.

(** Reads are functions of the contents *)
Lemma ValueAt_contents (h h2 : Heap) (v v2 : ptr) (i : Z) :
  valid_vector h v -> valid_vector h2 v2 ->
  contents h v = contents h2 v2 ->
  result_of (ValueAt v i h) = result_of (ValueAt v2 i h2)
  /\ result_of (Dim v h) = result_of (Dim v2 h2).
Proof.
  intros (u & o & -> & Hu & Hvalid) (u2 & o2 & -> & Hu2 & Hvalid2).
  unfold contents. rewrite Hu, Hu2. intros Heq.
  injection Heq as Hn Hix Hmap.
  assert (Hk : forall k, deref h <$> (values o !! k) = deref h2 <$> (values o2 !! k)).
  { intros k. rewrite <- !lookup_fmap, Hmap. reflexivity. }
  split.
  - unfold ValueAt, Dim.
    rewrite (bind_Ret _ _ _ _ _ (bind_Ret _ _ _ _ _ (loadVector_Some _ _ _ Hu))).
    rewrite (bind_Ret _ _ _ _ _ (bind_Ret _ _ _ _ _ (loadVector_Some _ _ _ Hu2))).
    unfold ret at 1 3. rewrite Hn.
    destruct (out_of_bounds i (n o2)); [reflexivity|].
    rewrite (bind_Ret _ _ _ _ _ (loadVector_Some _ _ _ Hu)).
    rewrite (bind_Ret _ _ _ _ _ (loadVector_Some _ _ _ Hu2)).
    specialize (Hk i).
    destruct (values o !! i) as [p|] eqn:Hp; destruct (values o2 !! i) as [p2|] eqn:Hp2;
      simpl in Hk; try discriminate; [|reflexivity].
    destruct (Hvalid i p Hp) as (l & -> & [s Hs]).
    destruct (Hvalid2 i p2 Hp2) as (l2 & -> & [s2 Hs2]).
    simpl in Hk. rewrite Hs, Hs2 in Hk. injection Hk as ->.
    rewrite (bind_Ret _ _ _ _ _ (loadScalar_Some _ _ _ Hs)).
    rewrite (bind_Ret _ _ _ _ _ (loadScalar_Some _ _ _ Hs2)).
    reflexivity.
  - unfold Dim.
    rewrite (bind_Ret _ _ _ _ _ (loadVector_Some _ _ _ Hu)).
    rewrite (bind_Ret _ _ _ _ _ (loadVector_Some _ _ _ Hu2)).
    unfold ret, result_of. simpl. rewrite Hn. reflexivity.
Qed.

Lemma newer_weaken h0 h1 h y : extends h0 h1 -> newer h1 h y -> newer h0 h y.
Proof.
  intros [Hvs Hss] (r & -> & Hr & Hl). exists r. split; [reflexivity|]. split.
  - destruct (vectors h0 !! r) as [o|] eqn:Ho; [|reflexivity].
    assert (vectors h1 !! r = Some o) by (eapply lookup_weaken; eassumption).
    congruence.
  - intros l Hown. specialize (Hl l Hown).
    destruct (scalars h0 !! l) as [s|] eqn:Hs; [|reflexivity].
    assert (scalars h1 !! l = Some s) by (eapply lookup_weaken; eassumption).
    congruence.
Qed.

Lemma newer_extends h0 h h' y :
  valid_vector h y -> extends h h' -> newer h0 h y -> newer h0 h' y.
Proof.
  intros Hvalid Hext (r & -> & Hr & Hl). exists r. split; [reflexivity|].
  split; [exact Hr|]. intros l Hown. apply Hl.
  apply (contents_extends h h' (Some r) Hext Hvalid). exact Hown.
Qed.

Lemma separate h0 h x y :
  valid_vector h0 x -> extends h0 h -> newer h0 h y ->
  x <> y /\ forall l, owned h x l -> ~ owned h y l.
Proof.
  intros Hvalid Hext (r & -> & Hr & Hl).
  destruct (contents_extends h0 h x Hext Hvalid) as (_ & _ & Hown).
  destruct Hvalid as (u & o & -> & Hu & Hvalid).
  split.
  - intros Heq. injection Heq as ->. congruence.
  - intros l Hx Hy. apply Hown in Hx.
    destruct Hx as (u' & o' & k & Heq & Ho' & Hk). injection Heq as <-.
    rewrite Hu in Ho'. injection Ho' as <-.
    destruct (Hvalid k _ Hk) as (l' & Heq & [s Hs]). injection Heq as <-.
    rewrite (Hl l Hy) in Hs. discriminate.
Qed.

Lemma Clone_newer (h : Heap) (v : ptr) :
  valid_vector h v ->
  exists r h',
    Clone v h = Ret (Some r, h')
    /\ extends h h'
    /\ valid_vector h' (Some r)
    /\ contents h' (Some r) = contents h v
    /\ newer h h' (Some r).
Proof.
  intros Hvalid.
  destruct (Clone_vector_spec h v Hvalid) as (r & h' & Hrun & Hfresh & Hext & Hv & Hc & Hown).
  exists r, h'. repeat split; try assumption; try apply Hext.
  exists r. auto.
Qed.

Lemma frame_between h0 h h2 x y :
  valid_vector h0 x -> extends h0 h -> valid_vector h y -> newer h0 h y ->
  (changed_only_at h h2 (eq y) (owned h y) -> contents h2 x = contents h0 x)
  /\ (changed_only_at h h2 (eq x) (owned h x) -> contents h2 y = contents h y).
Proof.
  intros Hx Hext Hy Hnew.
  destruct (separate h0 h x y Hx Hext Hnew) as [Hne Hdisj].
  destruct (contents_extends h0 h x Hext Hx) as (Hc & Hx' & _).
  split; intros Hch.
  - rewrite <- Hc. apply (contents_frame h h2 x _ _ Hx' Hch); [congruence|exact Hdisj].
  - apply (contents_frame h h2 y _ _ Hy Hch); [congruence|].
    intros l Hl Hl'. exact (Hdisj l Hl' Hl).
Qed.

Lemma Matrix_Clone_spec (h : Heap) (mat : MATRIX_NAME) :
  valid_matrix h mat ->
  exists mat' h',
    Matrix_Clone mat h = Ret (mat', h')
    /\ extends h h'
    /\ valid_matrix h' mat'
    /\ mcontents h' mat' = mcontents h mat
    /\ newer h h' (mvalues mat') /\ newer h h' (tmp1 mat') /\ newer h h' (tmp2 mat').
Proof.
  intros (Ha & Hb & Hc).
  destruct (Clone_newer h (mvalues mat) Ha) as (ra & h1 & Hrun1 & He1 & Hva & Hca & Hna).
  destruct (contents_extends h h1 (tmp1 mat) He1 Hb) as (Hcb1 & Hb1 & _).
  destruct (Clone_newer h1 (tmp1 mat) Hb1) as (rb & h2 & Hrun2 & He2 & Hvb & Hcb & Hnb).
  assert (He12 : extends h h2) by (eapply extends_trans; eassumption).
  destruct (contents_extends h h2 (tmp2 mat) He12 Hc) as (Hcc2 & Hc2 & _).
  destruct (Clone_newer h2 (tmp2 mat) Hc2) as (rc & h3 & Hrun3 & He3 & Hvc & Hcc & Hnc).
  assert (He23 : extends h1 h3) by (eapply extends_trans; eassumption).
  destruct (contents_extends h1 h3 (Some ra) He23 Hva) as (Hca3 & Hva3 & _).
  destruct (contents_extends h2 h3 (Some rb) He3 Hvb) as (Hcb3 & Hvb3 & _).
  eexists _, h3. split.
  { unfold Matrix_Clone.
    rewrite (bind_Ret _ _ _ _ _ Hrun1).
    rewrite (bind_Ret _ _ _ _ _ Hrun2).
    rewrite (bind_Ret _ _ _ _ _ Hrun3). reflexivity. }
  split; [eapply extends_trans; eassumption|].
  split; [repeat split; assumption|].
  split.
  { unfold mcontents.
    cbn [mvalues tmp1 tmp2 rows cols rowOffset rowMax colOffset colMax transposed].
    rewrite Hca3, Hca, Hcb3, Hcb, Hcb1, Hcc, Hcc2. reflexivity. }
  cbn [mvalues tmp1 tmp2]. split; [|split].
  - apply (newer_extends h h1 h3 _ Hva He23 Hna).
  - apply (newer_weaken h h1 h3 _ He1). apply (newer_extends h1 h2 h3 _ Hvb He3 Hnb).
  - apply (newer_weaken h h2 h3 _ He12 Hnc).
Qed.

Lemma mcontents_frame (h0 h h2 : Heap) (mat mat' : MATRIX_NAME) :
  valid_matrix h0 mat -> extends h0 h -> valid_matrix h mat' ->
  newer h0 h (mvalues mat') -> newer h0 h (tmp1 mat') -> newer h0 h (tmp2 mat') ->
  (changed_only_at h h2 (mvectors mat') (mowned h mat') ->
   mcontents h2 mat = mcontents h0 mat)
  /\ (changed_only_at h h2 (mvectors mat) (mowned h mat) ->
      mcontents h2 mat' = mcontents h mat').
Proof.
  intros (Ha & Hb & Hc) Hext (Ha' & Hb' & Hc') Hna Hnb Hnc.
  assert (Hsep : forall x y, mvectors mat x -> mvectors mat' y ->
                             valid_vector h0 x /\ valid_vector h y /\ newer h0 h y).
  { intros x y [-> | [-> | ->]] [-> | [-> | ->]]; auto. }
  split; intros Hch; unfold mcontents.
  - assert (Hx : forall x, mvectors mat x -> contents h2 x = contents h0 x).
    { intros x Hx.
      assert (Hvx : valid_vector h0 x) by (destruct Hx as [-> | [-> | ->]]; assumption).
      destruct (contents_extends h0 h x Hext Hvx) as (Hcx & Hvx' & _).
      rewrite <- Hcx. apply (contents_frame h h2 x _ _ Hvx' Hch).
      - intros Hy. destruct (Hsep x x Hx Hy) as (_ & _ & Hn).
        destruct (separate h0 h x x Hvx Hext Hn) as [Hne _]. congruence.
      - intros l Hl [Hy|[Hy|Hy]].
        + destruct (Hsep x _ Hx (or_introl eq_refl)) as (_ & _ & Hn).
          destruct (separate h0 h x _ Hvx Hext Hn) as [_ Hd]. exact (Hd l Hl Hy).
        + destruct (Hsep x _ Hx (or_intror (or_introl eq_refl))) as (_ & _ & Hn).
          destruct (separate h0 h x _ Hvx Hext Hn) as [_ Hd]. exact (Hd l Hl Hy).
        + destruct (Hsep x _ Hx (or_intror (or_intror eq_refl))) as (_ & _ & Hn).
          destruct (separate h0 h x _ Hvx Hext Hn) as [_ Hd]. exact (Hd l Hl Hy). }
    rewrite (Hx (mvalues mat)), (Hx (tmp1 mat)), (Hx (tmp2 mat));
      unfold mvectors; auto.
  - assert (Hy : forall y, mvectors mat' y -> contents h2 y = contents h y).
    { intros y Hy.
      assert (Hvy : valid_vector h y) by (destruct Hy as [-> | [-> | ->]]; assumption).
      assert (Hny : newer h0 h y) by (destruct Hy as [-> | [-> | ->]]; assumption).
      apply (contents_frame h h2 y _ _ Hvy Hch).
      - intros Hx.
        assert (Hvx : valid_vector h0 y) by (destruct Hx as [-> | [-> | ->]]; assumption).
        destruct (separate h0 h y y Hvx Hext Hny) as [Hne _]. congruence.
      - intros l Hl [Hx|[Hx|Hx]].
        + destruct (separate h0 h _ y Ha Hext Hny) as [_ Hd]. exact (Hd l Hx Hl).
        + destruct (separate h0 h _ y Hb Hext Hny) as [_ Hd]. exact (Hd l Hx Hl).
        + destruct (separate h0 h _ y Hc Hext Hny) as [_ Hd]. exact (Hd l Hx Hl). }
    rewrite (Hy (mvalues mat')), (Hy (tmp1 mat')), (Hy (tmp2 mat'));
      unfold mvectors; auto.
Qed.

(** X30: Clone is a deep copy, for a sparse vector whose entries are
    allocated and for a sparse matrix whose backing vector and two scratch
    vectors are allocated.  The clone holds what the original holds, the
    original is left as it was, and the two share nothing: whatever later
    changes the store only at the vectors and scalars of the clone (or
    allocates) leaves the contents of the original unchanged, and whatever
    changes it only at those of the original leaves the contents of the
    clone unchanged. *)
Theorem Clone_is_a_deep_copy (h : Heap) (v : ptr) (mat : MATRIX_NAME) :
  valid_vector h v ->
  valid_matrix h mat ->
  (exists r h',
      Clone v h = Ret (r, h')
      /\ contents h' r = contents h v
      /\ contents h' v = contents h v
      /\ forall h2,
          (changed_only_at h' h2 (eq r) (owned h' r) -> contents h2 v = contents h v)
          /\ (changed_only_at h' h2 (eq v) (owned h' v) -> contents h2 r = contents h' r))
  /\ (exists mat' h',
      Matrix_Clone mat h = Ret (mat', h')
      /\ mcontents h' mat' = mcontents h mat
      /\ mcontents h' mat = mcontents h mat
      /\ forall h2,
          (changed_only_at h' h2 (mvectors mat') (mowned h' mat') ->
           mcontents h2 mat = mcontents h mat)
          /\ (changed_only_at h' h2 (mvectors mat) (mowned h' mat) ->
              mcontents h2 mat' = mcontents h' mat')).
Proof.
  intros Hv Hm. split.
  - destruct (Clone_newer h v Hv) as (r & h' & Hrun & Hext & Hvr & Hc & Hnew).
    exists (Some r), h'. split; [exact Hrun|]. split; [exact Hc|].
    split; [apply (contents_extends h h' v Hext Hv)|].
    intros h2. apply frame_between; assumption.
  - destruct (Matrix_Clone_spec h mat Hm)
      as (mat' & h' & Hrun & Hext & Hvm & Hc & Hna & Hnb & Hnc).
    exists mat', h'. split; [exact Hrun|]. split; [exact Hc|].
    destruct Hm as (Ha & Hb & Hc0).
    split.
    + unfold mcontents.
      rewrite (proj1 (contents_extends h h' _ Hext Ha)),
        (proj1 (contents_extends h h' _ Hext Hb)),
        (proj1 (contents_extends h h' _ Hext Hc0)).
      reflexivity.
    + intros h2. apply mcontents_frame; try assumption. repeat split; assumption.
Qed.

Lemma valid_vectorb_true (h : Heap) (v : ptr) :
  valid_vectorb h v = true -> valid_vector h v.
Proof.
  destruct v as [u|]; simpl; [|discriminate].
  destruct (vectors h !! u) as [o|] eqn:Hu; [|discriminate].
  intros Hall. exists u, o. split; [reflexivity|]. split; [exact Hu|].
  intros k p Hk. rewrite forallb_forall in Hall.
  specialize (Hall (k, p)). simpl in Hall.
  destruct p as [l|].
  - exists l. split; [reflexivity|].
    eapply bool_decide_eq_true_1. apply Hall.
    apply list_elem_of_In, elem_of_map_to_list. exact Hk.
  - assert (false = true); [|discriminate].
    apply Hall. apply list_elem_of_In, elem_of_map_to_list. exact Hk.
Defined.

Lemma Clone_is_a_deep_copy_witness :
  (exists r h',
      Clone (Some 1%positive) (snd asymmetric_2x2) = Ret (r, h')
      /\ contents h' r = contents (snd asymmetric_2x2) (Some 1%positive)
      /\ contents h' (Some 1%positive) = contents (snd asymmetric_2x2) (Some 1%positive)
      /\ forall h2,
          (changed_only_at h' h2 (eq r) (owned h' r) ->
           contents h2 (Some 1%positive) = contents (snd asymmetric_2x2) (Some 1%positive))
          /\ (changed_only_at h' h2 (eq (Some 1%positive)) (owned h' (Some 1%positive)) ->
              contents h2 r = contents h' r))
  /\ (exists mat' h',
      Matrix_Clone (fst asymmetric_2x2) (snd asymmetric_2x2) = Ret (mat', h')
      /\ mcontents h' mat' = mcontents (snd asymmetric_2x2) (fst asymmetric_2x2)
      /\ mcontents h' (fst asymmetric_2x2)
         = mcontents (snd asymmetric_2x2) (fst asymmetric_2x2)
      /\ forall h2,
          (changed_only_at h' h2 (mvectors mat') (mowned h' mat') ->
           mcontents h2 (fst asymmetric_2x2)
           = mcontents (snd asymmetric_2x2) (fst asymmetric_2x2))
          /\ (changed_only_at h' h2 (mvectors (fst asymmetric_2x2))
                (mowned h' (fst asymmetric_2x2)) ->
              mcontents h2 mat' = mcontents h' mat')).
Proof.
  apply (Clone_is_a_deep_copy (snd asymmetric_2x2) (Some 1%positive) (fst asymmetric_2x2)).
  - apply valid_vectorb_true. vm_compute. reflexivity.
  - repeat split; apply valid_vectorb_true; vm_compute; reflexivity.
Defined.

(** C7 at the matrix that NIL_MATRIX builds: the constructor leaves the two
    scratch vectors nil, and Clone calls Clone on each of them, so Clone of
    such a matrix panics with a nil pointer dereference, whatever the
    dimensions and the store.  The matrix itself is in order: its backing
    vector is allocated, and the 2x2 one reads 0.0 at (0,1). *)
Theorem Clone_of_a_NIL_MATRIX_panics (rows_ cols_ : Z) (h : Heap) :
  (exists mat h',
      NIL_MATRIX rows_ cols_ h = Ret (mat, h')
      /\ Dims mat = (rows_, cols_)
      /\ valid_vector h' (mvalues mat)
      /\ tmp1 mat = None /\ tmp2 mat = None
      /\ result_of (Matrix_Clone mat h') = Panic "nil pointer dereference")
  /\ result_of ((m <- NIL_MATRIX 2 2 ;; Matrix_ValueAt m 0 1) empty_heap) = Ret fzero
  /\ result_of ((m <- NIL_MATRIX 2 2 ;; Matrix_Clone m) empty_heap)
     = Panic "nil pointer dereference".
Proof.
  split; [|split; vm_compute; reflexivity].
  unfold NIL_MATRIX, NIL_VECTOR, newVector. unfold bind at 1, ret at 1.
  set (l := fresh (dom (vectors h))).
  set (h' := mkHeap (scalars h) (<[l := mkVector emptyIndex ∅ (int_mul rows_ cols_)]> (vectors h))).
  assert (Hv : valid_vector h' (Some l)).
  { exists l, (mkVector emptyIndex ∅ (int_mul rows_ cols_)).
    split; [reflexivity|]. split; [apply lookup_insert_eq|].
    intros k p Hk. cbn [values] in Hk. rewrite lookup_empty in Hk. discriminate. }
  eexists _, h'. split; [reflexivity|]. cbn [Dims rows cols mvalues tmp1 tmp2].
  split; [reflexivity|]. split; [exact Hv|]. split; [reflexivity|]. split; [reflexivity|].
  destruct (Clone_newer h' (Some l) Hv) as (r & h2 & Hrun & _).
  unfold Matrix_Clone. cbn [mvalues tmp1 tmp2].
  rewrite (bind_Ret _ _ _ _ _ Hrun).
  reflexivity.
Qed.

(** A run: a write through the clone of [zero_first] does not reach the
    vector. *)
Example Clone_then_write :
  result_of
    ((r <- Clone (Some 1%positive) ;;
      p <- AT r 1 ;;
      storeScalar p (NEW_SCALAR 9%float) ;;;
      x <- ValueAt (Some 1%positive) 1 ;;
      y <- ValueAt r 1 ;;
      ret (x, y)) zero_first)
  = Ret (3%float, 9%float).
Proof.
  vm_compute. reflexivity.
Qed.

Lemma NULL_VECTOR_valid (k : Z) (h : Heap) :
  exists r h',
    NULL_VECTOR k h = Ret (Some r, h')
    /\ extends h h' /\ valid_vector h' (Some r).
Proof.
  unfold NULL_VECTOR, NIL_VECTOR, bind, newVector, ret.
  eexists _, _. split; [reflexivity|]. split.
  - split; simpl; [|reflexivity].
    apply insert_subseteq, not_elem_of_dom, is_fresh.
  - eexists _, _. split; [reflexivity|]. split; [apply lookup_insert_eq|].
    intros i p Hi. simpl in Hi. rewrite lookup_empty in Hi. discriminate.
Qed.

Lemma NULL_MATRIX_valid (rows_ cols_ : Z) (h : Heap) :
  exists mat h', NULL_MATRIX rows_ cols_ h = Ret (mat, h') /\ valid_matrix h' mat.
Proof.
  destruct (NULL_VECTOR_valid (int_mul rows_ cols_) h) as (v & h1 & Hv & He1 & Hv1).
  destruct (NULL_VECTOR_valid rows_ h1) as (t1 & h2 & Ht1 & He2 & Hv2).
  destruct (NULL_VECTOR_valid cols_ h2) as (t2 & h3 & Ht2 & He3 & Hv3).
  eexists _, h3. split.
  - unfold NULL_MATRIX. rewrite (bind_Ret _ _ _ _ _ Hv).
    unfold initTmp, initTmp_one.
    cbn [tmp1 tmp2 rows cols].
    rewrite (bind_Ret _ _ _ _ _ Ht1), (bind_Ret _ _ _ _ _ Ht2). reflexivity.
  - split; [|split]; cbn [mvalues tmp1 tmp2].
    + apply (contents_extends h1 h3); [eapply extends_trans; eassumption|exact Hv1].
    + apply (contents_extends h2 h3); assumption.
    + exact Hv3.
Qed.

(** ** Joint iteration *)

Lemma entry_at_ext h A B la lb la2 lb2 k :
  (k ∈ la <-> k ∈ la2) -> (k ∈ lb <-> k ∈ lb2) ->
  entry_at h A B la lb k = entry_at h A B la2 lb2 k.
Proof.
  intros Ha Hb. unfold entry_at.
  destruct (decide (k ∈ la)), (decide (k ∈ la2)),
    (decide (k ∈ lb)), (decide (k ∈ lb2)); tauto || reflexivity.
Qed.

Lemma entry_at_first h A B la lb k :
  k ∈ la -> k ∉ lb ->
  entry_at h A B la lb k
  = mkEntry k (map_read (values A) k) (CConst fzero) (value_at h A k) fzero.
Proof.
  intros Ha Hb. unfold entry_at.
  destruct (decide (k ∈ la)); [|contradiction].
  destruct (decide (k ∈ lb)); [contradiction|reflexivity].
Qed.

Lemma entry_at_second h A B la lb k :
  k ∉ la -> k ∈ lb ->
  entry_at h A B la lb k
  = mkEntry k None (CPtr (map_read (values B) k)) fzero (value_at h B k).
Proof.
  intros Ha Hb. unfold entry_at.
  destruct (decide (k ∈ la)); [contradiction|].
  destruct (decide (k ∈ lb)); [reflexivity|contradiction].
Qed.

Lemma entry_at_both h A B la lb k :
  k ∈ la -> k ∈ lb ->
  entry_at h A B la lb k
  = mkEntry k (map_read (values A) k) (CPtr (map_read (values B) k))
      (value_at h A k) (value_at h B k).
Proof.
  intros Ha Hb. unfold entry_at.
  destruct (decide (k ∈ la)); [|contradiction].
  destruct (decide (k ∈ lb)); [reflexivity|contradiction].
Qed.

Lemma isNull_nonzero s : fnonzero (GetValue s) = true -> isNull s = false.
Proof. intros Hs. unfold isNull. rewrite Hs. reflexivity. Qed.

Section FixedStore.

Variable H : Heap.

Lemma Iterator_GET_run (u : loc) (O : VECTOR_NAME) (k : Z) (rest : list Z) (p : ptr) :
  vectors H !! u = Some O ->
  values O !! k = Some p ->
  Iterator_GET (mkIterator (k :: rest) (Some u)) H = Ret (p, H).
Proof.
  intros HO Hk. unfold Iterator_GET, Iterator_Index. cbn [it_index it_v].
  unfold bind at 1, ret at 1.
  rewrite (bind_Ret _ _ _ _ _ (loadVector_Some _ _ _ HO)).
  rewrite Hk. reflexivity.
Qed.

Lemma Iterator_GetConst_run (u : loc) (O : VECTOR_NAME) (k : Z) (rest : list Z) (p : ptr) :
  vectors H !! u = Some O ->
  values O !! k = Some p ->
  Iterator_GetConst (mkIterator (k :: rest) (Some u)) H = Ret (CPtr p, H).
Proof.
  intros HO Hk. unfold Iterator_GetConst, Iterator_Index. cbn [it_index it_v].
  unfold bind at 1, ret at 1.
  rewrite (bind_Ret _ _ _ _ _ (loadVector_Some _ _ _ HO)).
  rewrite Hk. reflexivity.
Qed.

Lemma Next_loop_keep (u : loc) (O : VECTOR_NAME) (rest : list Z) :
  vectors H !! u = Some O ->
  nonzero_entries H O ->
  (forall k, k ∈ rest -> is_Some (values O !! k)) ->
  Next_loop (Some u) rest H = Ret (rest, H).
Proof.
  intros HO Hnz Hrest. destruct rest as [|k rest]; [reflexivity|].
  destruct (Hrest k (list_elem_of_here _ _)) as [p Hp].
  destruct (Hnz k p Hp) as (l & s & -> & Hl & Hs).
  cbn [Next_loop].
  rewrite (bind_Ret _ _ _ _ _ (Iterator_GET_run u O k rest _ HO Hp)).
  unfold nullScalar.
  rewrite (bind_Ret _ _ _ _ _ (bind_Ret _ _ _ _ _ (loadScalar_Some _ _ _ Hl))).
  unfold ret at 1. rewrite (isNull_nonzero s Hs). reflexivity.
Qed.

Lemma Iterator_Next_keep (u : loc) (O : VECTOR_NAME) (k : Z) (rest : list Z) :
  vectors H !! u = Some O ->
  nonzero_entries H O ->
  (forall k', k' ∈ rest -> is_Some (values O !! k')) ->
  Iterator_Next (mkIterator (k :: rest) (Some u)) H
  = Ret (mkIterator rest (Some u), H).
Proof.
  intros HO Hnz Hrest. unfold Iterator_Next. cbn [it_index it_v tail].
  rewrite (bind_Ret _ _ _ _ _ (Next_loop_keep u O rest HO Hnz Hrest)).
  reflexivity.
Qed.

Lemma Joint_loop_step (fuel : nat) (jt jt' : VECTOR_JOINT_ITERATOR)
  (v : float * float) (es : list JointEntry) :
  Joint_Ok jt H = Ret (true, H) ->
  Joint_GetValue jt H = Ret (v, H) ->
  Joint_Next jt H = Ret (jt', H) ->
  Joint_loop fuel jt' H = Ret (es, H) ->
  Joint_loop (S fuel) jt H
  = Ret (mkEntry (idx jt) (s1 jt) (s2 jt) (fst v) (snd v) :: es, H).
Proof.
  intros Hok Hv Hnext Hloop. cbn [Joint_loop].
  rewrite (bind_Ret _ _ _ _ _ Hok).
  rewrite (bind_Ret _ _ _ _ _ Hv).
  rewrite (bind_Ret _ _ _ _ _ Hnext).
  rewrite (bind_Ret _ _ _ _ _ Hloop).
  reflexivity.
Qed.

Lemma Joint_loop_stop (fuel : nat) (jt : VECTOR_JOINT_ITERATOR) :
  Joint_Ok jt H = Ret (false, H) ->
  Joint_loop (S fuel) jt H = Ret ([], H).
Proof.
  intros Hok. cbn [Joint_loop]. rewrite (bind_Ret _ _ _ _ _ Hok). reflexivity.
Qed.

End FixedStore.

Section JointRun.

Variable H : Heap.
Variables ua ub : loc.
Variables A B : VECTOR_NAME.
Hypothesis HA : vectors H !! ua = Some A.
Hypothesis HB : vectors H !! ub = Some B.
Hypothesis HnzA : nonzero_entries H A.
Hypothesis HnzB : nonzero_entries H B.

Lemma ConstScalar_GetValue_ptr (l : loc) (s : Scalar) :
  scalars H !! l = Some s ->
  ConstScalar_GetValue (CPtr (Some l)) H = Ret (GetValue s, H).
Proof.
  intros Hl. unfold ConstScalar_GetValue, ConstScalar_load.
  rewrite (bind_Ret _ _ _ _ _ (loadScalar_Some _ _ _ Hl)). reflexivity.
Qed.

Lemma Joint_Ok_left i1 i2 x (l : loc) (s : Scalar) (c : ConstScalar) :
  scalars H !! l = Some s -> fnonzero (GetValue s) = true ->
  Joint_Ok (mkJoint i1 i2 x (Some l) c) H = Ret (true, H).
Proof.
  intros Hl Hs. unfold Joint_Ok. cbn [s1 s2].
  rewrite (bind_Ret _ _ _ _ _ (bind_Ret _ _ _ _ _ (loadScalar_Some _ _ _ Hl))).
  unfold ret at 1. rewrite Hs. reflexivity.
Qed.

Lemma Joint_Ok_right i1 i2 x (l : loc) (s : Scalar) :
  scalars H !! l = Some s -> fnonzero (GetValue s) = true ->
  Joint_Ok (mkJoint i1 i2 x None (CPtr (Some l))) H = Ret (true, H).
Proof.
  intros Hl Hs. unfold Joint_Ok. cbn [s1 s2 is_nil].
  unfold bind at 1, ret at 1.
  rewrite (bind_Ret _ _ _ _ _ (ConstScalar_GetValue_ptr l s Hl)).
  rewrite Hs. reflexivity.
Qed.

Lemma Joint_Next_left (x : Z) (la lb : list Z) (l : loc) idx0 s10 s20 :
  values A !! x = Some (Some l) ->
  (forall k, k ∈ la -> is_Some (values A !! k)) ->
  leads x lb ->
  Joint_Next (mkJoint (mkIterator (x :: la) (Some ua)) (mkIterator lb (Some ub))
                idx0 s10 s20) H
  = Ret (mkJoint (mkIterator la (Some ua)) (mkIterator lb (Some ub))
           x (Some l) (CConst fzero), H).
Proof.
  intros Hx Hla Hlead. unfold Joint_Next.
  cbn [it1 it2 idx Iterator_Ok it_index].
  unfold Iterator_Index at 1. cbn [it_index].
  unfold bind at 2, ret at 1.
  rewrite (bind_Ret _ _ _ _ _ (bind_Ret _ _ _ _ _ (Iterator_GET_run H ua A x la _ HA Hx))).
  unfold ret at 1. cbv beta iota.
  destruct lb as [|y lb]; cbn [Iterator_Ok it_index].
  - unfold bind at 1, ret at 1. cbv beta iota.
    rewrite (bind_Ret _ _ _ _ _ (Iterator_Next_keep H ua A x la HA HnzA Hla)).
    reflexivity.
  - simpl in Hlead. unfold Iterator_Index. cbn [it_index].
    unfold bind at 2, ret at 1.
    destruct (Z.ltb_spec y x) as [Hlt|Hge]; [lia|]. cbn [negb orb].
    destruct (Z.eqb_spec x y) as [Heq|Hne]; [lia|].
    unfold bind at 1, ret at 1. cbv beta iota.
    rewrite (bind_Ret _ _ _ _ _ (Iterator_Next_keep H ua A x la HA HnzA Hla)).
    reflexivity.
Qed.

Lemma Joint_Next_right (y : Z) (la lb : list Z) (l : loc) idx0 s10 s20 :
  values B !! y = Some (Some l) ->
  (forall k, k ∈ la -> is_Some (values A !! k)) ->
  (forall k, k ∈ lb -> is_Some (values B !! k)) ->
  leads y la ->
  Joint_Next (mkJoint (mkIterator la (Some ua)) (mkIterator (y :: lb) (Some ub))
                idx0 s10 s20) H
  = Ret (mkJoint (mkIterator la (Some ua)) (mkIterator lb (Some ub))
           y None (CPtr (Some l)), H).
Proof.
  intros Hy Hla Hlb Hlead. unfold Joint_Next.
  cbn [it1 it2 idx Iterator_Ok it_index].
  destruct la as [|x la]; cbn [Iterator_Ok it_index].
  - unfold bind at 1, ret at 1. cbv beta iota.
    unfold Iterator_Index at 1. cbn [it_index].
    unfold bind at 2, ret at 1. rewrite orb_true_r.
    rewrite (bind_Ret _ _ _ _ _
               (bind_Ret _ _ _ _ _ (Iterator_GetConst_run H ub B y lb _ HB Hy))).
    unfold ret at 1. cbv beta iota. unfold bind at 1, ret at 1. cbn [is_nil].
    rewrite (bind_Ret _ _ _ _ _ (Iterator_Next_keep H ub B y lb HB HnzB Hlb)).
    reflexivity.
  - simpl in Hlead.
    destruct (Hla x (list_elem_of_here _ _)) as [p Hp].
    unfold Iterator_Index at 1. cbn [it_index].
    unfold bind at 2, ret at 1.
    rewrite (bind_Ret _ _ _ _ _ (bind_Ret _ _ _ _ _ (Iterator_GET_run H ua A x la _ HA Hp))).
    unfold ret at 1. cbv beta iota.
    unfold Iterator_Index at 1. cbn [it_index].
    unfold bind at 2, ret at 1.
    destruct (Z.ltb_spec y x) as [Hlt|Hge]; [|lia]. cbn [orb].
    rewrite (bind_Ret _ _ _ _ _
               (bind_Ret _ _ _ _ _ (Iterator_GetConst_run H ub B y lb _ HB Hy))).
    unfold ret at 1. cbv beta iota. unfold bind at 1, ret at 1. cbn [is_nil].
    rewrite (bind_Ret _ _ _ _ _ (Iterator_Next_keep H ub B y lb HB HnzB Hlb)).
    reflexivity.
Qed.

Lemma Joint_Next_both (x : Z) (la lb : list Z) (l l2 : loc) idx0 s10 s20 :
  values A !! x = Some (Some l) ->
  values B !! x = Some (Some l2) ->
  (forall k, k ∈ la -> is_Some (values A !! k)) ->
  (forall k, k ∈ lb -> is_Some (values B !! k)) ->
  Joint_Next (mkJoint (mkIterator (x :: la) (Some ua)) (mkIterator (x :: lb) (Some ub))
                idx0 s10 s20) H
  = Ret (mkJoint (mkIterator la (Some ua)) (mkIterator lb (Some ub))
           x (Some l) (CPtr (Some l2)), H).
Proof.
  intros Hx Hx2 Hla Hlb. unfold Joint_Next.
  cbn [it1 it2 idx Iterator_Ok it_index].
  unfold Iterator_Index at 1. cbn [it_index].
  unfold bind at 2, ret at 1.
  rewrite (bind_Ret _ _ _ _ _ (bind_Ret _ _ _ _ _ (Iterator_GET_run H ua A x la _ HA Hx))).
  unfold ret at 1. cbv beta iota.
  unfold Iterator_Index at 1. cbn [it_index].
  unfold bind at 2, ret at 1.
  rewrite Z.ltb_irrefl, Z.eqb_refl. cbn [negb orb].
  rewrite (bind_Ret _ _ _ _ _
             (bind_Ret _ _ _ _ _ (Iterator_GetConst_run H ub B x lb _ HB Hx2))).
  unfold ret at 1. cbv beta iota.
  rewrite (bind_Ret _ _ _ _ _ (Iterator_Next_keep H ua A x la HA HnzA Hla)).
  cbn [is_nil].
  rewrite (bind_Ret _ _ _ _ _ (Iterator_Next_keep H ub B x lb HB HnzB Hlb)).
  reflexivity.
Qed.

End JointRun.

Section JointLoop.

Variable H : Heap.
Variables ua ub : loc.
Variables A B : VECTOR_NAME.
Hypothesis HA : vectors H !! ua = Some A.
Hypothesis HB : vectors H !! ub = Some B.
Hypothesis HnzA : nonzero_entries H A.
Hypothesis HnzB : nonzero_entries H B.

Lemma joint_yields_cons (x : Z) (la lb la' lb' : list Z)
  (jt jt' : VECTOR_JOINT_ITERATOR) (ks : list Z) (v : float * float) :
  Joint_Ok jt H = Ret (true, H) ->
  Joint_GetValue jt H = Ret (v, H) ->
  Joint_Next jt H = Ret (jt', H) ->
  it_index (it1 jt) = la' -> it_index (it2 jt) = lb' ->
  mkEntry (idx jt) (s1 jt) (s2 jt) (fst v) (snd v) = entry_at H A B la lb x ->
  (forall k, k ∈ la \/ k ∈ lb <-> k = x \/ k ∈ la' \/ k ∈ lb') ->
  (forall k, k ∈ la' \/ k ∈ lb' -> x < k) ->
  (forall k, x < k -> (k ∈ la <-> k ∈ la') /\ (k ∈ lb <-> k ∈ lb')) ->
  (1 + length la' + length lb' <= length la + length lb)%nat ->
  joint_yields H A B la' lb' jt' ks ->
  joint_yields H A B la lb jt (x :: ks).
Proof.
  intros Hok Hv Hnext Hl1 Hl2 Hentry Hmem Hgt Hsame Hlen (Hloop & Hsorted & Hin & Hlen1 & _).
  assert (Hks : forall k, k ∈ ks -> x < k).
  { intros k Hk. apply Hgt, Hin, Hk. }
  split; [|split; [|split; [|split]]].
  - intros [|fuel] Hfuel; [simpl in Hfuel; lia|].
    rewrite (Joint_loop_step H fuel jt jt' v _ Hok Hv Hnext (Hloop fuel ltac:(simpl in Hfuel; lia))).
    rewrite Hentry. cbn [map]. do 3 f_equal.
    apply map_ext_in. intros k Hk. apply list_elem_of_In in Hk.
    destruct (Hsame k (Hks k Hk)) as [Ha Hb].
    apply entry_at_ext; symmetry; assumption.
  - constructor; [exact Hsorted|]. apply Forall_forall. exact Hks.
  - intros k. rewrite elem_of_cons, Hin, Hmem. reflexivity.
  - simpl. lia.
  - rewrite Hl1, Hl2. simpl. lia.
Qed.

Lemma joint_run :
  forall (N : nat) (la lb : list Z),
    (length la + length lb <= N)%nat ->
    StronglySorted Z.lt la -> StronglySorted Z.lt lb ->
    (forall k, k ∈ la -> is_Some (values A !! k)) ->
    (forall k, k ∈ lb -> is_Some (values B !! k)) ->
    forall idx0 s10 s20,
    exists jt ks,
      Joint_Next (mkJoint (mkIterator la (Some ua)) (mkIterator lb (Some ub))
                    idx0 s10 s20) H = Ret (jt, H)
      /\ joint_yields H A B la lb jt ks.
Proof.
  induction N as [|N IH]; intros la lb Hlen Hsa Hsb Hla Hlb idx0 s10 s20.
  - destruct la; [|simpl in Hlen; lia]. destruct lb; [|simpl in Hlen; lia].
    eexists _, []. split; [reflexivity|].
    split; [|split; [constructor|split; [|split; simpl; lia]]].
    + intros [|fuel] Hfuel; [simpl in Hfuel; lia|]. reflexivity.
    + intros k. rewrite !elem_of_nil. tauto.
  - destruct la as [|x la].
    + destruct lb as [|y lb].
      * eexists _, []. split; [reflexivity|].
        split; [|split; [constructor|split; [|split; simpl; lia]]].
        -- intros [|fuel] Hfuel; [simpl in Hfuel; lia|]. reflexivity.
        -- intros k. rewrite !elem_of_nil. tauto.
      * (* only the second vector is left *)
        apply StronglySorted_cons in Hsb as [Hy Hsb]. rewrite Forall_forall in Hy.
        destruct (Hlb y (list_elem_of_here _ _)) as [p Hp].
        destruct (HnzB y p Hp) as (l & s & -> & Hl & Hs).
        assert (Hlb' : forall k, k ∈ lb -> is_Some (values B !! k)).
        { intros k Hk. apply Hlb. right. exact Hk. }
        destruct (IH [] lb ltac:(simpl in *; lia) Hsa Hsb Hla Hlb' y None (CPtr (Some l)))
          as (jt' & ks & Hnext & Hy').
        eexists _, (y :: ks). split.
        { apply (Joint_Next_right H ua ub A B HA HB HnzB y [] lb l); auto. exact I. }
        eapply (joint_yields_cons y [] (y :: lb) [] lb); try eassumption; try reflexivity; try (simpl; lia).
        -- apply (Joint_Ok_right H _ _ _ l s Hl Hs).
        -- unfold Joint_GetValue. cbn [s1 s2 is_nil]. unfold bind at 1, ret at 1.
           rewrite (bind_Ret _ _ _ _ _ (ConstScalar_GetValue_ptr H l s Hl)). reflexivity.
        -- rewrite entry_at_second by (apply not_elem_of_nil || left).
           unfold map_read, value_at. rewrite Hp, Hl. reflexivity.
        -- intros k. rewrite elem_of_cons, !elem_of_nil. tauto.
        -- intros k [Hk|Hk]; [inversion Hk|auto].
        -- intros k Hk. split; [reflexivity|]. rewrite elem_of_cons. split; [|tauto].
           intros [->|?]; [lia|assumption].
    + apply StronglySorted_cons in Hsa as [Hx Hsa]. rewrite Forall_forall in Hx.
      destruct (Hla x (list_elem_of_here _ _)) as [p Hp].
      destruct (HnzA x p Hp) as (l & s & -> & Hl & Hs).
      assert (Hla' : forall k, k ∈ la -> is_Some (values A !! k)).
      { intros k Hk. apply Hla. right. exact Hk. }
      destruct lb as [|y lb].
      * (* only the first vector is left *)
        destruct (IH la [] ltac:(simpl in *; lia) Hsa Hsb Hla' Hlb x (Some l) (CConst fzero))
          as (jt' & ks & Hnext & Hy').
        eexists _, (x :: ks). split.
        { apply (Joint_Next_left H ua ub A HA HnzA x la [] l); auto. exact I. }
        eapply (joint_yields_cons x (x :: la) [] la []); try eassumption; try reflexivity; try (simpl; lia).
        -- apply (Joint_Ok_left H _ _ _ l s _ Hl Hs).
        -- unfold Joint_GetValue. cbn [s1 s2 is_nil].
           rewrite (bind_Ret _ _ _ _ _ (bind_Ret _ _ _ _ _ (loadScalar_Some _ _ _ Hl))).
           reflexivity.
        -- rewrite entry_at_first by (apply not_elem_of_nil || left).
           unfold map_read, value_at. rewrite Hp, Hl. reflexivity.
        -- intros k. rewrite elem_of_cons, !elem_of_nil. tauto.
        -- intros k [Hk|Hk]; [auto|inversion Hk].
        -- intros k Hk. split; [|reflexivity]. rewrite elem_of_cons. split; [|tauto].
           intros [->|?]; [lia|assumption].
      * apply StronglySorted_cons in Hsb as [Hy Hsb]. rewrite Forall_forall in Hy.
        destruct (Hlb y (list_elem_of_here _ _)) as [p2 Hp2].
        destruct (HnzB y p2 Hp2) as (l2 & s2' & -> & Hl2 & Hs2).
        assert (Hlb' : forall k, k ∈ lb -> is_Some (values B !! k)).
        { intros k Hk. apply Hlb. right. exact Hk. }
        destruct (Z.lt_total x y) as [Hxy|[Hxy|Hxy]].
        -- (* the first vector leads *)
           destruct (IH la (y :: lb) ltac:(simpl in *; lia) Hsa
                       ltac:(constructor; [exact Hsb|apply Forall_forall; exact Hy])
                       Hla' Hlb x (Some l) (CConst fzero))
             as (jt' & ks & Hnext & Hy').
           eexists _, (x :: ks). split.
           { apply (Joint_Next_left H ua ub A HA HnzA x la (y :: lb) l); auto. }
           eapply (joint_yields_cons x (x :: la) (y :: lb) la (y :: lb));
             try eassumption; try reflexivity; try (simpl; lia).
           ++ apply (Joint_Ok_left H _ _ _ l s _ Hl Hs).
           ++ unfold Joint_GetValue. cbn [s1 s2 is_nil].
              rewrite (bind_Ret _ _ _ _ _ (bind_Ret _ _ _ _ _ (loadScalar_Some _ _ _ Hl))).
              reflexivity.
           ++ rewrite entry_at_first.
              2:{ left. }
              2:{ rewrite elem_of_cons. intros [->|Hin]; [lia|]. specialize (Hy x Hin). lia. }
              unfold map_read, value_at. rewrite Hp, Hl. reflexivity.
           ++ intros k. rewrite !elem_of_cons. tauto.
           ++ intros k [Hk|Hk]; [auto|].
              apply elem_of_cons in Hk as [->|Hk]; [lia|]. specialize (Hy k Hk). lia.
           ++ intros k Hk. split; [|reflexivity]. rewrite elem_of_cons. split; [|tauto].
              intros [->|?]; [lia|assumption].
        -- (* both vectors hold the index *)
           subst y.
           destruct (IH la lb ltac:(simpl in *; lia) Hsa Hsb Hla' Hlb'
                       x (Some l) (CPtr (Some l2)))
             as (jt' & ks & Hnext & Hy').
           eexists _, (x :: ks). split.
           { apply (Joint_Next_both H ua ub A B HA HB HnzA HnzB x la lb l l2); auto. }
           eapply (joint_yields_cons x (x :: la) (x :: lb) la lb);
             try eassumption; try reflexivity; try (simpl; lia).
           ++ apply (Joint_Ok_left H _ _ _ l s _ Hl Hs).
           ++ unfold Joint_GetValue. cbn [s1 s2 is_nil].
              rewrite (bind_Ret _ _ _ _ _ (bind_Ret _ _ _ _ _ (loadScalar_Some _ _ _ Hl))).
              unfold ret at 1.
              rewrite (bind_Ret _ _ _ _ _ (ConstScalar_GetValue_ptr H l2 s2' Hl2)).
              reflexivity.
           ++ rewrite entry_at_both by left.
              unfold map_read, value_at. rewrite Hp, Hl, Hp2, Hl2. reflexivity.
           ++ intros k. rewrite !elem_of_cons. tauto.
           ++ intros k [Hk|Hk]; auto.
           ++ intros k Hk. rewrite !elem_of_cons. split; (split; [|tauto]);
                (intros [->|?]; [lia|assumption]).
        -- (* the second vector leads *)
           destruct (IH (x :: la) lb ltac:(simpl in *; lia)
                       ltac:(constructor; [exact Hsa|apply Forall_forall; exact Hx])
                       Hsb Hla Hlb' y None (CPtr (Some l2)))
             as (jt' & ks & Hnext & Hy').
           eexists _, (y :: ks). split.
           { apply (Joint_Next_right H ua ub A B HA HB HnzB y (x :: la) lb l2); auto. }
           eapply (joint_yields_cons y (x :: la) (y :: lb) (x :: la) lb);
             try eassumption; try reflexivity; try (simpl; lia).
           ++ apply (Joint_Ok_right H _ _ _ l2 s2' Hl2 Hs2).
           ++ unfold Joint_GetValue. cbn [s1 s2 is_nil]. unfold bind at 1, ret at 1.
              rewrite (bind_Ret _ _ _ _ _ (ConstScalar_GetValue_ptr H l2 s2' Hl2)).
              reflexivity.
           ++ rewrite entry_at_second.
              2:{ rewrite elem_of_cons. intros [->|Hin]; [lia|]. specialize (Hx y Hin). lia. }
              2:{ left. }
              unfold map_read, value_at. rewrite Hp2, Hl2. reflexivity.
           ++ intros k. rewrite !elem_of_cons. tauto.
           ++ intros k [Hk|Hk]; [|auto].
              apply elem_of_cons in Hk as [->|Hk]; [lia|]. specialize (Hx k Hk). lia.
           ++ intros k Hk. split; [reflexivity|]. rewrite elem_of_cons. split; [|tauto].
              intros [->|?]; [lia|assumption].
Qed.

End JointLoop.

Lemma indexSort_idempotent ix : indexSort (indexSort ix) = indexSort ix.
Proof. unfold indexSort. destruct (isSorted ix) eqn:Hs; simpl; rewrite ?Hs; reflexivity. Qed.

Lemma sorted_obj_idempotent o : sorted_obj (sorted_obj o) = sorted_obj o.
Proof. unfold sorted_obj. simpl. rewrite indexSort_idempotent. reflexivity. Qed.

Lemma ITERATOR_run (h : Heap) (u : loc) (o : VECTOR_NAME) :
  vectors h !! u = Some o ->
  ITERATOR (Some u) h
  = Ret (mkIterator (indices (indexSort (sparseIndex o))) (Some u),
         set_vector h u (sorted_obj o)).
Proof.
  intros Hu. unfold ITERATOR, vector_indexIterator, indexIterator.
  unfold bind at 1.
  rewrite (bind_Ret _ _ _ _ _ (loadVector_Some _ _ _ Hu)).
  rewrite (bind_Ret _ _ _ _ _ (storeVector_Some _ _ _ _ Hu)).
  reflexivity.
Qed.

Lemma sorted_le_NoDup_lt (l : list Z) :
  StronglySorted Z.le l -> NoDup l -> StronglySorted Z.lt l.
Proof.
  induction 1 as [|x l Hl IH Hx]; intros Hnd; [constructor|].
  apply NoDup_cons in Hnd as [Hnin Hnd].
  constructor; [auto|].
  rewrite Forall_forall in Hx |- *. intros y Hy.
  specialize (Hx y Hy). assert (x <> y) by (intros ->; contradiction). lia.
Qed.

Lemma indexSort_strict (o : VECTOR_NAME) :
  index_mirrors o -> NoDup (indices (sparseIndex o)) ->
  StronglySorted Z.lt (indices (indexSort (sparseIndex o)))
  /\ forall k, k ∈ indices (indexSort (sparseIndex o)) <-> is_Some (values o !! k).
Proof.
  intros [Hkeys Hsorted] Hnd.
  destruct (indexSort_sorted (sparseIndex o) Hsorted) as [Hs Hsame].
  split.
  - apply sorted_le_NoDup_lt; [exact Hs|].
    unfold indexSort. destruct (isSorted (sparseIndex o)); [exact Hnd|].
    simpl. rewrite merge_sort_Permutation. exact Hnd.
  - intros k. rewrite Hsame. apply Hkeys.
Qed.

(** X29: for two sparse vectors whose stored entries all have a value that
    is not zero (whatever their dimensions), and whose index structures list
    the occupied indices once each, iterating a.JointIterator(b) until Ok()
    is false returns, yields exactly the union of the occupied indices of a
    and b, each once, in strictly ascending order, and shows at each index
    the entries of both sides: a side with no stored entry shows the value
    0.0, as the nil scalar on the first side and as the constant zero scalar
    on the second.  The iteration only sorts the two index structures. *)
Theorem JointIterator_yields_union (h : Heap) (ua ub : loc) (oa ob : VECTOR_NAME) :
  vectors h !! ua = Some oa ->
  vectors h !! ub = Some ob ->
  index_mirrors oa -> index_mirrors ob ->
  NoDup (indices (sparseIndex oa)) -> NoDup (indices (sparseIndex ob)) ->
  nonzero_entries h oa -> nonzero_entries h ob ->
  exists es,
    JointIterate (Some ua) (Some ub) h
    = Ret (es, set_vector (set_vector h ua (sorted_obj oa)) ub (sorted_obj ob))
    /\ StronglySorted Z.lt (map e_index es)
    /\ (forall k, k ∈ map e_index es
                  <-> is_Some (values oa !! k) \/ is_Some (values ob !! k))
    /\ Forall (shows h oa ob) es.
Proof.
  intros Hua Hub Hma Hmb Hnda Hndb Hnza Hnzb.
  destruct (indexSort_strict oa Hma Hnda) as [Hsa Hina].
  destruct (indexSort_strict ob Hmb Hndb) as [Hsb Hinb].
  set (la := indices (indexSort (sparseIndex oa))) in *.
  set (lb := indices (indexSort (sparseIndex ob))) in *.
  set (h1 := set_vector h ua (sorted_obj oa)).
  set (H := set_vector h1 ub (sorted_obj ob)).
  (* the second iterator *)
  assert (Hit2 : ITERATOR (Some ub) h1 = Ret (mkIterator lb (Some ub), H)).
  { destruct (decide (ub = ua)) as [->|Hne].
    - assert (ob = oa) by congruence. subst ob.
      rewrite (ITERATOR_run h1 ua (sorted_obj oa) (set_vector_lookup _ _ _)).
      rewrite sorted_obj_idempotent. simpl. rewrite indexSort_idempotent. reflexivity.
    - apply ITERATOR_run. unfold h1. rewrite set_vector_lookup_ne by exact Hne. exact Hub. }
  assert (HB : vectors H !! ub = Some (sorted_obj ob)) by apply set_vector_lookup.
  assert (HA : vectors H !! ua = Some (sorted_obj oa)).
  { destruct (decide (ua = ub)) as [->|Hne].
    - assert (ob = oa) by congruence. subst ob. exact HB.
    - unfold H. rewrite set_vector_lookup_ne by exact Hne. apply set_vector_lookup. }
  destruct (joint_run H ua ub (sorted_obj oa) (sorted_obj ob) HA HB Hnza Hnzb
              (length la + length lb) la lb (le_n _) Hsa Hsb
              (fun k Hk => proj1 (Hina k) Hk) (fun k Hk => proj1 (Hinb k) Hk)
              (-1) None CNil)
    as (jt & ks & Hnext & Hloop & Hsorted & Hmem & _ & Hfuel).
  exists (map (entry_at H (sorted_obj oa) (sorted_obj ob) la lb) ks).
  assert (Hidx : map e_index (map (entry_at H (sorted_obj oa) (sorted_obj ob) la lb) ks) = ks).
  { rewrite map_map. simpl. apply map_id. }
  split; [|split; [|split]].
  - unfold JointIterate, JOINT_ITERATOR.
    unfold bind at 1.
    rewrite (bind_Ret _ _ _ _ _ (ITERATOR_run h ua oa Hua)). fold la. fold h1.
    rewrite (bind_Ret _ _ _ _ _ Hit2).
    rewrite Hnext. apply Hloop. lia.
  - rewrite Hidx. exact Hsorted.
  - intros k. rewrite Hidx, Hmem, Hina, Hinb. reflexivity.
  - apply Forall_forall. intros e He.
    apply list_elem_of_fmap in He as (k & -> & Hk).
    unfold shows, entry_at. cbn [e_index e_s1 e_s2 e_v1 e_v2].
    change (values (sorted_obj oa)) with (values oa).
    change (values (sorted_obj ob)) with (values ob).
    assert (Hva : value_at H (sorted_obj oa) k = value_at h oa k) by reflexivity.
    assert (Hvb : value_at H (sorted_obj ob) k = value_at h ob k) by reflexivity.
    rewrite Hva, Hvb. clear Hva Hvb.
    split; [|split; [|split]].
    + destruct (decide (k ∈ la)) as [Hin|Hnin]; [reflexivity|].
      rewrite Hina in Hnin. unfold map_read.
      destruct (values oa !! k); [exfalso; eauto|reflexivity].
    + destruct (decide (k ∈ lb)) as [Hin|Hnin].
      * apply Hinb in Hin as [p Hp]. unfold map_read. rewrite Hp. reflexivity.
      * rewrite Hinb in Hnin.
        destruct (values ob !! k); [exfalso; eauto|reflexivity].
    + destruct (decide (k ∈ la)) as [Hin|Hnin]; [reflexivity|].
      rewrite Hina in Hnin. unfold value_at.
      destruct (values oa !! k); [exfalso; eauto|reflexivity].
    + destruct (decide (k ∈ lb)) as [Hin|Hnin]; [reflexivity|].
      rewrite Hinb in Hnin. unfold value_at.
      destruct (values ob !! k); [exfalso; eauto|reflexivity].
Qed.

Lemma index_mirrorsb_true (o : VECTOR_NAME) :
  index_mirrorsb o = true -> index_mirrors o.
Proof.
  unfold index_mirrorsb. rewrite !andb_true_iff, !forallb_forall.
  intros [[Hl Hm] Hs]. split.
  - intros k. split.
    + intros Hk. apply list_elem_of_In in Hk.
      eapply bool_decide_eq_true_1. apply Hl. exact Hk.
    + intros [p Hp].
      assert (Hin : In (k, p) (map_to_list (values o))).
      { apply list_elem_of_In, elem_of_map_to_list. exact Hp. }
      eapply bool_decide_eq_true_1. apply (Hm (k, p) Hin).
  - intros Hsorted. rewrite Hsorted in Hs.
    eapply bool_decide_eq_true_1. exact Hs.
Defined.

Lemma nonzero_entriesb_true (h : Heap) (o : VECTOR_NAME) :
  nonzero_entriesb h o = true -> nonzero_entries h o.
Proof.
  unfold nonzero_entriesb. rewrite forallb_forall.
  intros Hall k p Hk.
  assert (Hin : In (k, p) (map_to_list (values o))).
  { apply list_elem_of_In, elem_of_map_to_list. exact Hk. }
  specialize (Hall (k, p) Hin). simpl in Hall.
  destruct p as [l|]; [|discriminate].
  destruct (scalars h !! l) as [s|] eqn:Hs; [|discriminate].
  exists l, s. auto.
Defined.

Lemma JointIterator_yields_union_witness :
  exists es,
    JointIterate (Some 1%positive) (Some 2%positive) joint_heap
    = Ret (es, set_vector (set_vector joint_heap 1%positive (sorted_obj joint_first))
                 2%positive (sorted_obj joint_second))
    /\ StronglySorted Z.lt (map e_index es)
    /\ (forall k, k ∈ map e_index es
                  <-> is_Some (values joint_first !! k) \/ is_Some (values joint_second !! k))
    /\ Forall (shows joint_heap joint_first joint_second) es.
Proof.
  apply (JointIterator_yields_union joint_heap 1%positive 2%positive
           joint_first joint_second).
  - reflexivity.
  - reflexivity.
  - apply index_mirrorsb_true. vm_compute. reflexivity.
  - apply index_mirrorsb_true. vm_compute. reflexivity.
  - apply (bool_decide_eq_true_1 (NoDup (indices (sparseIndex joint_first)))).
    vm_compute. reflexivity.
  - apply (bool_decide_eq_true_1 (NoDup (indices (sparseIndex joint_second)))).
    vm_compute. reflexivity.
  - apply nonzero_entriesb_true. vm_compute. reflexivity.
  - apply nonzero_entriesb_true. vm_compute. reflexivity.
Defined.

(** A run of that iteration: the indices 0, 1, 2 with the values of both
    sides. *)
Example JointIterate_run :
  result_of (JointIterate (Some 1%positive) (Some 2%positive) joint_heap)
  = Ret [mkEntry 0 (Some 1%positive) (CConst fzero) 2%float fzero;
         mkEntry 1 None (CPtr (Some 3%positive)) fzero 5%float;
         mkEntry 2 (Some 2%positive) (CPtr (Some 4%positive)) 1%float 3%float].
Proof.
  vm_compute. reflexivity.
Qed.

(** C1 at a vector that stores the value 0.0: the first vector, of
    dimension 3, stores entries at the indices 0, 1 and 2, none of them a
    structural zero, and the second, of dimension 3, stores nothing.  The
    entry at index 1 has the value 0.0, and Ok() takes that for the end of
    the iteration: index 0 is yielded, and the occupied indices 1 and 2 are
    never yielded. *)
Lemma JointIterate_stops_at_zero :
  (o <- loadVector (Some 1%positive) ;;
   d1 <- Dim (Some 1%positive) ;;
   d2 <- Dim (Some 2%positive) ;;
   z <- nullScalar (Some 2%positive) ;;
   ret (d1, d2, values o !! 1, values o !! 2, z)) zero_value_pair
  = Ret ((3, 3, Some (Some 2%positive), Some (Some 3%positive), false),
         zero_value_pair)
  /\ result_of (JointIterate (Some 1%positive) (Some 2%positive) zero_value_pair)
     = Ret [mkEntry 0 (Some 1%positive) (CConst fzero) 2%float fzero].
Proof.
  split; vm_compute; reflexivity.
Qed.

(** ** Pruning, in general *)

Lemma without_nil o : without o [] = o.
Proof. destruct o as [[l b] mp k]. reflexivity. Qed.

Lemma without_cons o k ks :
  without o (k :: ks)
  = without (mkVector (indexDelete (sparseIndex o) k) (delete k (values o)) (n o)) ks.
Proof. reflexivity. Qed.

Lemma without_app o ks ks' : without (without o ks) ks' = without o (ks ++ ks').
Proof.
  unfold without. simpl. rewrite !fold_left_app. reflexivity.
Qed.

Lemma without_lookup ks : forall o k,
  values (without o ks) !! k = if decide (k ∈ ks) then None else values o !! k.
Proof.
  induction ks as [|x ks IH]; intros o k.
  - rewrite without_nil. rewrite decide_False by apply not_elem_of_nil. reflexivity.
  - rewrite without_cons, IH. simpl.
    destruct (decide (k ∈ ks)) as [Hin|Hnin].
    + rewrite decide_True by (right; exact Hin). reflexivity.
    + destruct (decide (k = x)) as [->|Hne].
      * rewrite decide_True by left. apply lookup_delete_eq.
      * rewrite decide_False by (rewrite elem_of_cons; tauto).
        apply lookup_delete_ne. congruence.
Qed.

Lemma remove_first_elem (x : Z) (l : list Z) :
  NoDup l -> NoDup (remove_first x l) /\ forall k, k ∈ remove_first x l <-> k ∈ l /\ k <> x.
Proof.
  induction l as [|y l IH]; intros Hnd; simpl.
  - split; [constructor|]. intros k. rewrite elem_of_nil. tauto.
  - apply NoDup_cons in Hnd as [Hy Hnd]. destruct (IH Hnd) as [IH1 IH2].
    destruct (Z.eqb_spec y x) as [->|Hne].
    + split; [exact Hnd|]. intros k. rewrite elem_of_cons. split.
      * intros Hk. split; [tauto|]. intros ->. contradiction.
      * tauto.
    + split.
      * apply NoDup_cons. split; [|exact IH1]. rewrite IH2. tauto.
      * intros k. rewrite !elem_of_cons, IH2. split; [|tauto].
        intros [->|[? ?]]; tauto.
Qed.

Lemma without_index ks : forall o,
  NoDup (indices (sparseIndex o)) ->
  NoDup (indices (sparseIndex (without o ks)))
  /\ forall k, k ∈ indices (sparseIndex (without o ks))
               <-> k ∈ indices (sparseIndex o) /\ k ∉ ks.
Proof.
  induction ks as [|x ks IH]; intros o Hnd.
  - rewrite without_nil. split; [exact Hnd|].
    intros k. rewrite elem_of_nil. tauto.
  - rewrite without_cons.
    destruct (remove_first_elem x _ Hnd) as [Hnd' Hin'].
    destruct (IH (mkVector (indexDelete (sparseIndex o) x) (delete x (values o)) (n o)) Hnd')
      as [IH1 IH2].
    split; [exact IH1|].
    intros k. rewrite IH2. simpl. rewrite Hin', elem_of_cons. tauto.
Qed.

Lemma without_size ks : forall o,
  NoDup ks -> (forall k, k ∈ ks -> is_Some (values o !! k)) ->
  (size (values (without o ks)) + length ks = size (values o))%nat.
Proof.
  induction ks as [|x ks IH]; intros o Hnd Hin.
  - rewrite without_nil. simpl. lia.
  - apply NoDup_cons in Hnd as [Hx Hnd]. rewrite without_cons.
    set (o1 := mkVector (indexDelete (sparseIndex o) x) (delete x (values o)) (n o)).
    assert (Hin1 : forall k, k ∈ ks -> is_Some (values o1 !! k)).
    { intros k Hk. subst o1. simpl.
      rewrite lookup_delete_ne by (intros ->; contradiction).
      apply Hin. right. exact Hk. }
    specialize (IH o1 Hnd Hin1).
    assert (Hsize : size (values o1) = pred (size (values o))).
    { subst o1. simpl. apply map_size_delete_Some. apply Hin. left. }
    assert (size (values o) <> 0%nat).
    { intros H0. apply map_size_empty_inv in H0.
      destruct (Hin x (list_elem_of_here _ _)) as [p Hp].
      rewrite H0, lookup_empty in Hp. discriminate. }
    cbn [length]. lia.
Qed.

Lemma null_at_without h v o P k :
  k ∉ P -> null_at (set_vector h v (without o P)) (without o P) k = null_at h o k.
Proof.
  intros Hk. unfold null_at. rewrite without_lookup, decide_False by exact Hk.
  reflexivity.
Qed.

Lemma delete_values_run h r ro i :
  vectors h !! r = Some ro ->
  delete_values (Some r) i h
  = Ret (tt, set_vector h r (mkVector (sparseIndex ro) (delete i (values ro)) (n ro))).
Proof.
  intros Hr. unfold delete_values.
  rewrite (bind_Ret _ _ _ _ _ (loadVector_Some _ _ _ Hr)).
  apply storeVector_Some with (o := ro). exact Hr.
Qed.

Lemma vector_indexDelete_run h r ro i :
  vectors h !! r = Some ro ->
  vector_indexDelete (Some r) i h
  = Ret (tt, set_vector h r (mkVector (indexDelete (sparseIndex ro) i) (values ro) (n ro))).
Proof.
  intros Hr. unfold vector_indexDelete.
  rewrite (bind_Ret _ _ _ _ _ (loadVector_Some _ _ _ Hr)).
  apply storeVector_Some with (o := ro). exact Hr.
Qed.

Lemma Next_loop_spec (v : loc) :
  forall rest h o,
    vectors h !! v = Some o ->
    stored h o rest -> NoDup rest ->
    exists P rest',
      rest = P ++ rest'
      /\ Forall (fun k => null_at h o k = true) P
      /\ match rest' with [] => True | y :: _ => null_at h o y = false end
      /\ Next_loop (Some v) rest h = Ret (rest', set_vector h v (without o P)).
Proof.
  induction rest as [|i rest IH]; intros h o Hv Hst Hnd.
  - exists [], []. rewrite without_nil, set_vector_same by exact Hv.
    repeat split. constructor.
  - apply NoDup_cons in Hnd as [Hi Hnd].
    destruct (Hst i (list_elem_of_here _ _)) as (l & s & Hl & Hs).
    cbn [Next_loop].
    rewrite (bind_Ret _ _ _ _ _ (Iterator_GET_run h v o i rest _ Hv Hl)).
    unfold nullScalar.
    rewrite (bind_Ret _ _ _ _ _ (bind_Ret _ _ _ _ _ (loadScalar_Some _ _ _ Hs))).
    unfold ret at 1.
    assert (Hnull : null_at h o i = isNull s).
    { unfold null_at. rewrite Hl, Hs. reflexivity. }
    destruct (isNull s) eqn:Hz.
    + set (o1 := mkVector (indexDelete (sparseIndex o) i) (delete i (values o)) (n o)).
      assert (Hrun1 : (delete_values (Some v) i ;;; vector_indexDelete (Some v) i ;;;
                       Next_loop (Some v) rest) h
                      = Next_loop (Some v) rest (set_vector h v o1)).
      { rewrite (bind_Ret _ _ _ _ _ (delete_values_run _ _ _ _ Hv)).
        rewrite (bind_Ret _ _ _ _ _
                   (vector_indexDelete_run _ _ _ _ (set_vector_lookup _ _ _))).
        rewrite set_vector_twice. reflexivity. }
      rewrite Hrun1.
      destruct (IH (set_vector h v o1) o1) as (P & rest' & Heq & HP & Hhead & Hrun).
      { apply set_vector_lookup. }
      { intros k Hk. destruct (Hst k (list_elem_of_further _ _ _ Hk)) as (l' & s' & Hl' & Hs').
        exists l', s'. split; [|exact Hs'].
        subst o1. simpl. rewrite lookup_delete_ne by (intros ->; contradiction).
        exact Hl'. }
      { exact Hnd. }
      assert (Hsame : forall k, k ∈ rest -> null_at (set_vector h v o1) o1 k = null_at h o k).
      { intros k Hk. unfold null_at. subst o1. simpl.
        rewrite lookup_delete_ne by (intros ->; contradiction). reflexivity. }
      exists (i :: P), rest'. split; [simpl; congruence|]. split; [|split].
      * constructor; [congruence|].
        rewrite Forall_forall in HP |- *. intros k Hk.
        rewrite <- Hsame; [auto|]. rewrite Heq. apply elem_of_app. left. exact Hk.
      * destruct rest' as [|y rest']; [exact I|].
        rewrite <- Hsame; [exact Hhead|]. rewrite Heq.
        apply elem_of_app. right. left.
      * rewrite Hrun, set_vector_twice, without_cons. reflexivity.
    + exists [], (i :: rest). rewrite without_nil, set_vector_same by exact Hv.
      split; [reflexivity|]. split; [constructor|]. split; [congruence|reflexivity].
Qed.

Lemma filter_all (f : Z -> bool) (l : list Z) :
  Forall (fun k => f k = true) l -> List.filter f l = l.
Proof.
  induction 1 as [|k l Hk Hl IH]; simpl; [reflexivity|].
  rewrite Hk, IH. reflexivity.
Qed.

Lemma filter_skip_head (f : Z -> bool) (l : list Z) :
  match l with [] => True | y :: _ => f y = false end ->
  List.filter f l = List.filter f (tail l).
Proof.
  destruct l as [|y l]; simpl; [reflexivity|]. intros ->. reflexivity.
Qed.

Lemma Iterate_loop_spec (v : loc) :
  forall (N : nat) (it : list Z) (h : Heap) (o : VECTOR_NAME) (fuel : nat),
    (length it <= N)%nat ->
    vectors h !! v = Some o ->
    stored h o it -> NoDup it ->
    (length it < fuel)%nat ->
    Iterate_loop fuel (mkIterator it (Some v)) h
    = Ret (tt, set_vector h v (without o (List.filter (null_at h o) (tail it)))).
Proof.
  induction N as [|N IH]; intros it h o fuel Hlen Hv Hst Hnd Hfuel.
  - destruct it; [|simpl in Hlen; lia].
    destruct fuel; [simpl in Hfuel; lia|].
    simpl. rewrite without_nil, set_vector_same by exact Hv. reflexivity.
  - destruct it as [|x rest].
    + destruct fuel; [simpl in Hfuel; lia|].
      simpl. rewrite without_nil, set_vector_same by exact Hv. reflexivity.
    + destruct fuel as [|fuel]; [simpl in Hfuel; lia|].
      apply NoDup_cons in Hnd as [Hx Hnd].
      destruct (Next_loop_spec v rest h o Hv) as (P & rest' & Heq & HP & Hhead & Hrun).
      { intros k Hk. apply Hst. right. exact Hk. }
      { exact Hnd. }
      assert (HndP : forall k, k ∈ rest' -> k ∉ P).
      { intros k Hk HkP. rewrite Heq in Hnd. apply NoDup_app in Hnd as (_ & Hdisj & _).
        exact (Hdisj k HkP Hk). }
      cbn [Iterate_loop Iterator_Ok it_index].
      unfold Iterator_Next. cbn [it_index it_v tail].
      rewrite (bind_Ret _ _ _ _ _ (bind_Ret _ _ _ _ _ Hrun)).
      cbv beta.
      rewrite (IH rest' (set_vector h v (without o P)) (without o P) fuel).
      * rewrite set_vector_twice, without_app.
        replace (List.filter (null_at h o) rest)
          with (P ++ List.filter (null_at (set_vector h v (without o P)) (without o P))
                       (tail rest')); [reflexivity|].
        rewrite Heq, List.filter_app, (filter_all _ P HP).
        rewrite (filter_skip_head _ rest' Hhead). apply (f_equal (app P)).
        apply List.filter_ext_in. intros k Hk. apply null_at_without.
        apply HndP. apply list_elem_of_In in Hk.
        destruct rest' as [|y rest']; [inversion Hk|]. right. exact Hk.
      * assert (length rest = length P + length rest')%nat
          by (rewrite Heq; apply length_app).
        simpl in Hlen. lia.
      * apply set_vector_lookup.
      * intros k Hk.
        destruct (Hst k) as (l & s & Hl & Hs).
        { right. rewrite Heq. apply elem_of_app. right. exact Hk. }
        exists l, s. split; [|exact Hs].
        rewrite without_lookup, decide_False by (apply HndP, Hk). exact Hl.
      * rewrite Heq in Hnd. apply NoDup_app in Hnd. tauto.
      * assert (length rest = length P + length rest')%nat
          by (rewrite Heq; apply length_app).
        simpl in Hfuel. lia.
Qed.

Lemma tail_filter_elem (f : Z -> bool) (la : list Z) (k : Z) :
  NoDup la ->
  k ∈ List.filter f (tail la) <-> k ∈ la /\ f k = true /\ head la <> Some k.
Proof.
  intros Hnd. rewrite list_elem_of_In, List.filter_In, <- list_elem_of_In.
  destruct la as [|x t]; simpl.
  - rewrite elem_of_nil. tauto.
  - apply NoDup_cons in Hnd as [Hx _]. rewrite elem_of_cons. split.
    + intros [Hk Hn]. split; [tauto|]. split; [exact Hn|].
      intros Heq. injection Heq as ->. contradiction.
    + intros [[->|Hk] [Hn Hne]]; [congruence|tauto].
Qed.

(** X1: What one full iteration prunes.  For a sparse vector whose index lists
    the keys of its entry map once each, the iteration returns and deletes,
    from the entry map and from the index alike, exactly the structural
    zeros stored at indices other than the smallest occupied one.  Every
    other entry is kept, the dimension is kept, the occupancy drops by the
    number of deleted entries, and a read at a deleted index gives 0.0. *)
Theorem Iterate_prunes_all_but_first (h : Heap) (v : loc) (o : VECTOR_NAME) :
  vectors h !! v = Some o ->
  valid_vector h (Some v) ->
  index_mirrors o ->
  NoDup (indices (sparseIndex o)) ->
  Iterate (Some v) h = Ret (tt, set_vector h v (without (sorted_obj o) (pruned h o)))
  /\ (forall k, k ∈ pruned h o
                <-> is_Some (values o !! k) /\ null_at h o k = true
                    /\ head (indices (indexSort (sparseIndex o))) <> Some k)
  /\ (forall k, values (without (sorted_obj o) (pruned h o)) !! k
                = if decide (k ∈ pruned h o) then None else values o !! k)
  /\ (forall k, k ∈ indices (sparseIndex (without (sorted_obj o) (pruned h o)))
                <-> is_Some (values (without (sorted_obj o) (pruned h o)) !! k))
  /\ n (without (sorted_obj o) (pruned h o)) = n o
  /\ (size (values (without (sorted_obj o) (pruned h o))) + length (pruned h o)
      = size (values o))%nat
  /\ (forall k, k ∈ pruned h o -> 0 <= k < n o ->
        result_of (ValueAt (Some v) k
                     (set_vector h v (without (sorted_obj o) (pruned h o))))
        = Ret fzero).
Proof.
  intros Hv (u & o0 & Heq & Hu & Hvalid) Hm Hnd.
  injection Heq as <-. rewrite Hv in Hu. injection Hu as <-.
  destruct (indexSort_strict o Hm Hnd) as [Hsorted Hin].
  assert (Hndla : NoDup (indices (indexSort (sparseIndex o)))).
  { unfold indexSort. destruct (isSorted (sparseIndex o)); [exact Hnd|].
    simpl. rewrite merge_sort_Permutation. exact Hnd. }
  assert (Hstored : stored (set_vector h v (sorted_obj o)) (sorted_obj o)
                      (indices (indexSort (sparseIndex o)))).
  { intros k Hk. apply Hin in Hk as [p Hp].
    destruct (Hvalid k p Hp) as (l & -> & [s Hs]). exists l, s. auto. }
  assert (Hmem : forall k, k ∈ pruned h o
                   <-> is_Some (values o !! k) /\ null_at h o k = true
                       /\ head (indices (indexSort (sparseIndex o))) <> Some k).
  { intros k. unfold pruned. rewrite (tail_filter_elem _ _ k Hndla), Hin. reflexivity. }
  assert (Hlook : forall k, values (without (sorted_obj o) (pruned h o)) !! k
                            = if decide (k ∈ pruned h o) then None else values o !! k).
  { intros k. rewrite without_lookup. reflexivity. }
  assert (Hndp : NoDup (pruned h o)).
  { unfold pruned. apply NoDup_ListNoDup, List.NoDup_filter, NoDup_ListNoDup.
    destruct (indices (indexSort (sparseIndex o))); [constructor|].
    apply NoDup_cons in Hndla. tauto. }
  split; [|split; [exact Hmem|split; [exact Hlook|split; [|split; [reflexivity|split]]]]].
  - unfold Iterate.
    rewrite (bind_Ret _ _ _ _ _ (ITERATOR_run h v o Hv)). cbn [it_index].
    rewrite (Iterate_loop_spec v _ _ _ (sorted_obj o) _ (le_n _)
               (set_vector_lookup _ _ _) Hstored Hndla (Nat.lt_succ_diag_r _)).
    rewrite set_vector_twice. reflexivity.
  - intros k.
    destruct (without_index (pruned h o) (sorted_obj o) Hndla) as [_ Hix].
    rewrite Hix, Hlook.
    change (indices (sparseIndex (sorted_obj o)))
      with (indices (indexSort (sparseIndex o))).
    rewrite Hin.
    destruct (decide (k ∈ pruned h o)) as [Hk|Hk].
    + split; [tauto|]. intros [? ?]. discriminate.
    + tauto.
  - apply (without_size (pruned h o) (sorted_obj o) Hndp).
    intros k Hk. apply Hmem in Hk. tauto.
  - intros k Hk Hrange.
    unfold ValueAt, Dim.
    rewrite (bind_Ret _ _ _ _ _
               (bind_Ret _ _ _ _ _ (loadVector_Some _ _ _ (set_vector_lookup _ _ _)))).
    cbv beta. cbn [n without sorted_obj].
    unfold out_of_bounds.
    destruct (Z.ltb_spec k 0); [lia|]. destruct (Z.leb_spec (n o) k); [lia|].
    cbn [orb].
    rewrite (bind_Ret _ _ _ _ _ (loadVector_Some _ _ _ (set_vector_lookup _ _ _))).
    rewrite Hlook, decide_True by exact Hk. reflexivity.
Qed.

Lemma Iterate_prunes_all_but_first_witness :
  Iterate (Some 1%positive) zero_second
  = Ret (tt, set_vector zero_second 1%positive
               (without (sorted_obj zero_first_vector)
                  (pruned zero_second zero_first_vector))).
Proof.
  apply (Iterate_prunes_all_but_first zero_second 1%positive zero_first_vector).
  - reflexivity.
  - apply valid_vectorb_true. vm_compute. reflexivity.
  - apply index_mirrorsb_true. vm_compute. reflexivity.
  - apply (bool_decide_eq_true_1 (NoDup (indices (sparseIndex zero_first_vector)))).
    vm_compute. reflexivity.
Defined.

(** In that run the index 1 is the one pruned. *)
Example pruned_zero_second : pruned zero_second zero_first_vector = [1].
Proof. vm_compute. reflexivity. Qed.

(** ** The matrix as a window on its backing vector *)

Lemma index_T (m : MATRIX_NAME) (i j : Z) : index (T m) i j = index m j i.
Proof.
  unfold index, T. cbn [rows cols rowOffset rowMax colOffset colMax transposed].
  replace ((i <? 0) || (j <? 0) || (cols m <=? i) || (rows m <=? j))
    with ((j <? 0) || (i <? 0) || (rows m <=? j) || (cols m <=? i))
    by (destruct (i <? 0), (j <? 0), (cols m <=? i), (rows m <=? j); reflexivity).
  destruct ((j <? 0) || (i <? 0) || (rows m <=? j) || (cols m <=? i)); [reflexivity|].
  destruct (transposed m); reflexivity.
Qed.

(** X2: T() is a view.  The transposed matrix shares the backing vector, its
    dimensions are exchanged, and position (i,j) of the view is position
    (j,i) of the matrix: reads and writes through the view reach the same
    stored scalar, and fail on the same indices.  Transposing twice gives the
    matrix back. *)
Theorem T_is_a_view (m : MATRIX_NAME) (i j : Z) (h : Heap) :
  T (T m) = m
  /\ mvalues (T m) = mvalues m
  /\ Dims (T m) = (snd (Dims m), fst (Dims m))
  /\ index (T m) i j = index m j i
  /\ Matrix_ValueAt (T m) i j h = Matrix_ValueAt m j i h
  /\ Matrix_ConstAt (T m) i j h = Matrix_ConstAt m j i h
  /\ Matrix_AT (T m) i j h = Matrix_AT m j i h.
Proof.
  pose proof (index_T m i j) as Hidx.
  split; [destruct m; unfold T; simpl; rewrite negb_involutive; reflexivity|].
  split; [reflexivity|]. split; [reflexivity|]. split; [exact Hidx|].
  unfold Matrix_ValueAt, Matrix_ConstAt, Matrix_AT. rewrite Hidx.
  repeat split; reflexivity.
Qed.

Lemma wrap_small (z : Z) : - 2 ^ 63 <= z < 2 ^ 63 -> wrap z = z.
Proof. apply wrap_id. Qed.

(** Where [index] puts position (i,j) of a well-shaped matrix *)
Lemma index_position (m : MATRIX_NAME) (i j : Z) :
  well_shaped m -> 0 <= i < rows m -> 0 <= j < cols m ->
  index m i j
  = Ret (if transposed m
         then (colOffset m + j) * rowMax m + (rowOffset m + i)
         else (rowOffset m + i) * colMax m + (colOffset m + j))
  /\ 0 <= (colOffset m + j) * rowMax m + (rowOffset m + i) < rowMax m * colMax m
  /\ 0 <= (rowOffset m + i) * colMax m + (colOffset m + j) < rowMax m * colMax m.
Proof.
  intros (Hro & Hr & Hrm & Hco & Hc & Hcm & Hrmax & Hcmax & Hsize) Hi Hj.
  assert (Hb1 : 0 <= (colOffset m + j) * rowMax m + (rowOffset m + i)
                < rowMax m * colMax m) by nia.
  assert (Hb2 : 0 <= (rowOffset m + i) * colMax m + (colOffset m + j)
                < rowMax m * colMax m) by nia.
  split; [|split; assumption].
  unfold index.
  destruct (Z.ltb_spec i 0); [lia|]. destruct (Z.ltb_spec j 0); [lia|].
  destruct (Z.leb_spec (rows m) i); [lia|]. destruct (Z.leb_spec (cols m) j); [lia|].
  cbn [orb]. unfold int_add, int_mul.
  destruct (transposed m); f_equal.
  - rewrite (wrap_small (colOffset m + j)) by nia.
    rewrite (wrap_small (rowOffset m + i)) by nia.
    rewrite (wrap_small ((colOffset m + j) * rowMax m)) by nia.
    apply wrap_small. nia.
  - rewrite (wrap_small (rowOffset m + i)) by nia.
    rewrite (wrap_small (colOffset m + j)) by nia.
    rewrite (wrap_small ((rowOffset m + i) * colMax m)) by nia.
    apply wrap_small. nia.
Qed.

Lemma index_storage (m : MATRIX_NAME) (i j i' j' : Z) :
  well_shaped m ->
  0 <= i < rows m -> 0 <= j < cols m ->
  0 <= i' < rows m -> 0 <= j' < cols m ->
  (exists k, index m i j = Ret k /\ 0 <= k < rowMax m * colMax m)
  /\ (index m i j = index m i' j' -> i = i' /\ j = j').
Proof.
  intros Hm Hi Hj Hi' Hj'.
  destruct (index_position m i j Hm Hi Hj) as (Hk & Hb1 & Hb2).
  destruct (index_position m i' j' Hm Hi' Hj') as (Hk' & _ & _).
  destruct Hm as (Hro & Hr & Hrm & Hco & Hc & Hcm & Hrmax & Hcmax & Hsize).
  split.
  - eexists. split; [exact Hk|]. destruct (transposed m); assumption.
  - rewrite Hk, Hk'. intros Heq. injection Heq as Heq.
    destruct (transposed m).
    + assert (colOffset m + j = colOffset m + j') by nia.
      assert (rowOffset m + i = rowOffset m + i') by nia. lia.
    + assert (rowOffset m + i = rowOffset m + i') by nia.
      assert (colOffset m + j = colOffset m + j') by nia. lia.
Qed.

(** X3: [index] on a well-shaped matrix, in either orientation and for any
    slice: every position inside the dimensions gets a storage index inside
    the storage, and two different positions never get the same one. *)
Theorem index_is_injective (m : MATRIX_NAME) (i j i' j' : Z) :
  well_shaped m ->
  0 <= i < rows m -> 0 <= j < cols m ->
  0 <= i' < rows m -> 0 <= j' < cols m ->
  (exists k, index m i j = Ret k /\ 0 <= k < rowMax m * colMax m)
  /\ (index m i j = index m i' j' -> i = i' /\ j = j').
Proof. apply index_storage. Qed.

Lemma index_is_injective_witness :
  (exists k, index (matrix_2x3 None) 1 2 = Ret k /\ 0 <= k < 2 * 3)
  /\ (index (matrix_2x3 None) 1 2 = index (matrix_2x3 None) 1 2 -> 1 = 1 /\ 2 = 2).
Proof.
  apply (index_is_injective (matrix_2x3 None) 1 2 1 2);
    unfold well_shaped; simpl; lia.
Defined.

Lemma ij_after_index (m : MATRIX_NAME) (i j : Z) :
  unsliced m -> rows m = cols m -> rows m * rows m < 2 ^ 63 ->
  0 <= i < rows m -> 0 <= j < rows m ->
  rbind (index m i j) (ij m) = Ret (if transposed m then (i, j) else (j, i)).
Proof.
  intros (Hro & Hco & Hrm & Hcm) Hsq Hsize Hi Hj.
  assert (Hm : well_shaped m) by (unfold well_shaped; nia).
  destruct (index_position m i j Hm Hi ltac:(lia)) as (Hk & _ & _).
  rewrite Hk. cbn [rbind]. unfold ij, int_rem, int_quot, int_sub.
  rewrite Hro, Hco, Hrm, Hcm, <- Hsq.
  destruct (Z.eqb_spec (rows m) 0) as [H0|H0]; [lia|].
  assert (Hrows : rows m < 2 ^ 63) by nia.
  destruct (transposed m); cbn [rbind].
  + rewrite !Z.add_0_l, !Z.sub_0_r.
    assert (0 <= j * rows m + i) by nia.
    rewrite Z.rem_mod_nonneg, Z.quot_div_nonneg by lia.
    replace (j * rows m + i) with (i + j * rows m) by lia.
    rewrite Z.mod_add, Z.div_add, Z.mod_small, Z.div_small by lia.
    rewrite ?Z.add_0_l. rewrite !(wrap_small j), !(wrap_small i) by lia.
    reflexivity.
  + rewrite !Z.add_0_l, !Z.sub_0_r.
    assert (0 <= i * rows m + j) by nia.
    rewrite Z.rem_mod_nonneg, Z.quot_div_nonneg by lia.
    replace (i * rows m + j) with (j + i * rows m) by lia.
    rewrite Z.mod_add, Z.div_add, Z.mod_small, Z.div_small by lia.
    rewrite ?Z.add_0_l. rewrite !(wrap_small j), !(wrap_small i) by lia.
    reflexivity.
Qed.

(** X4: The coordinates [ij] reports.  It is blind to the orientation: a
    transposed view gets the same coordinates for a storage index as the
    matrix it views.  On a square unsliced matrix it is the inverse of
    [index] when the matrix is transposed, and gives the coordinates
    exchanged when it is not. *)
Theorem ij_on_square_matrices (m : MATRIX_NAME) (i j k : Z) :
  unsliced m -> rows m = cols m -> rows m * rows m < 2 ^ 63 ->
  0 <= i < rows m -> 0 <= j < rows m ->
  ij (T m) k = ij m k
  /\ rbind (index m i j) (ij m) = Ret (if transposed m then (i, j) else (j, i)).
Proof.
  intros Hun Hsq Hsize Hi Hj. split.
  - unfold ij, T. cbn [rowOffset rowMax colOffset colMax transposed].
    destruct (transposed m); reflexivity.
  - exact (ij_after_index m i j Hun Hsq Hsize Hi Hj).
Qed.

Lemma ij_on_square_matrices_witness :
  ij (T (mkMatrix None 2 2 0 2 0 2 false None None)) 1
  = ij (mkMatrix None 2 2 0 2 0 2 false None None) 1
  /\ rbind (index (mkMatrix None 2 2 0 2 0 2 false None None) 0 1)
       (ij (mkMatrix None 2 2 0 2 0 2 false None None))
     = Ret (1, 0).
Proof.
  apply (ij_on_square_matrices (mkMatrix None 2 2 0 2 0 2 false None None) 0 1 1);
    unfold unsliced; simpl; lia.
Defined.

(** ** Reads, writes and Swap on a vector *)

Lemma ValueAt_run (h : Heap) (v : loc) (o : VECTOR_NAME) (k : Z) :
  vectors h !! v = Some o ->
  valid_vector h (Some v) ->
  0 <= k < n o ->
  ValueAt (Some v) k h = Ret (value_at h o k, h).
Proof.
  intros Hv (u & o0 & Heq & Hu & Hvalid) Hk.
  injection Heq as <-. rewrite Hv in Hu. injection Hu as <-.
  unfold ValueAt, Dim.
  rewrite (bind_Ret _ _ _ _ _ (bind_Ret _ _ _ _ _ (loadVector_Some _ _ _ Hv))).
  cbv beta. unfold ret at 1. unfold out_of_bounds.
  destruct (Z.ltb_spec k 0); [lia|]. destruct (Z.leb_spec (n o) k); [lia|].
  cbn [orb].
  rewrite (bind_Ret _ _ _ _ _ (loadVector_Some _ _ _ Hv)).
  unfold value_at.
  destruct (values o !! k) as [p|] eqn:Hp; [|reflexivity].
  destruct (Hvalid k p Hp) as (l & -> & [s Hs]).
  rewrite (bind_Ret _ _ _ _ _ (loadScalar_Some _ _ _ Hs)), Hs. reflexivity.
Qed.

Lemma AT_run_present (h : Heap) (v : loc) (o : VECTOR_NAME) (i : Z) (p : ptr) :
  vectors h !! v = Some o -> 0 <= i < n o -> values o !! i = Some p ->
  AT (Some v) i h = Ret (p, h).
Proof.
  intros Hv Hi Hp. unfold AT, Dim.
  rewrite (bind_Ret _ _ _ _ _ (bind_Ret _ _ _ _ _ (loadVector_Some _ _ _ Hv))).
  cbv beta. unfold ret at 1. unfold out_of_bounds.
  destruct (Z.ltb_spec i 0); [lia|]. destruct (Z.leb_spec (n o) i); [lia|].
  cbn [orb].
  rewrite (bind_Ret _ _ _ _ _ (loadVector_Some _ _ _ Hv)), Hp. reflexivity.
Qed.

Lemma AT_run_absent (h : Heap) (v : loc) (o : VECTOR_NAME) (i : Z) :
  vectors h !! v = Some o -> 0 <= i < n o -> values o !! i = None ->
  AT (Some v) i h
  = Ret (Some (fresh (dom (scalars h))),
         mkHeap (<[fresh (dom (scalars h)) := NULL_SCALAR]> (scalars h))
           (<[v := mkVector (indexInsert (sparseIndex o) i)
                     (<[i := Some (fresh (dom (scalars h)))]> (values o)) (n o)]>
              (vectors h))).
Proof.
  intros Hv Hi Hp. unfold AT, Dim.
  rewrite (bind_Ret _ _ _ _ _ (bind_Ret _ _ _ _ _ (loadVector_Some _ _ _ Hv))).
  cbv beta. unfold ret at 1. unfold out_of_bounds.
  destruct (Z.ltb_spec i 0); [lia|]. destruct (Z.leb_spec (n o) i); [lia|].
  cbn [orb].
  rewrite (bind_Ret _ _ _ _ _ (loadVector_Some _ _ _ Hv)), Hp.
  unfold bind at 1, newScalar.
  set (l := fresh (dom (scalars h))).
  set (h1 := mkHeap (<[l := NULL_SCALAR]> (scalars h)) (vectors h)).
  assert (Hv1 : vectors h1 !! v = Some o) by exact Hv.
  unfold bind at 1. rewrite (set_values_run h1 v o i (Some l) Hv1).
  unfold bind at 1.
  rewrite (vector_indexInsert_run _ v _ i (set_vector_lookup _ _ _)).
  rewrite set_vector_twice. reflexivity.
Qed.

Lemma value_at_ext (h h' : Heap) (o o' : VECTOR_NAME) (k : Z) :
  values o' !! k = values o !! k ->
  (forall l, values o !! k = Some (Some l) -> scalars h' !! l = scalars h !! l) ->
  value_at h' o' k = value_at h o k.
Proof.
  intros Hk Hl. unfold value_at. rewrite Hk.
  destruct (values o !! k) as [[l|]|]; try reflexivity.
  rewrite (Hl l eq_refl). reflexivity.
Qed.

(** X5: AT on an index inside the dimension.  On an occupied index it returns
    the stored scalar and changes nothing.  On an unoccupied index it stores
    a new structural zero there and enters the index into the index
    structure, so the occupancy grows by one.  Either way the index
    structure keeps listing exactly the occupied indices, each once, and no
    read of the vector changes its value.  Outside the dimension AT
    panics. *)
Theorem AT_keeps_reads (h : Heap) (v : loc) (o : VECTOR_NAME) (i : Z) :
  vectors h !! v = Some o ->
  valid_vector h (Some v) ->
  index_mirrors o -> NoDup (indices (sparseIndex o)) ->
  (out_of_bounds i (n o) = true -> AT (Some v) i h = Panic "index out of bounds")
  /\ (0 <= i < n o ->
      exists l h' o',
        AT (Some v) i h = Ret (Some l, h')
        /\ vectors h' !! v = Some o'
        /\ values o' !! i = Some (Some l)
        /\ n o' = n o
        /\ (forall k, k <> i -> values o' !! k = values o !! k)
        /\ (is_Some (values o !! i) -> h' = h)
        /\ (values o !! i = None ->
            scalars h !! l = None /\ scalars h' !! l = Some NULL_SCALAR
            /\ size (values o') = S (size (values o)))
        /\ valid_vector h' (Some v)
        /\ index_mirrors o' /\ NoDup (indices (sparseIndex o'))
        /\ forall k, 0 <= k < n o ->
             ValueAt (Some v) k h' = Ret (value_at h o k, h')).
Proof.
  intros Hv Hvalid Hm Hnd. split.
  - intros Hout. unfold AT, Dim.
    rewrite (bind_Ret _ _ _ _ _ (bind_Ret _ _ _ _ _ (loadVector_Some _ _ _ Hv))).
    cbv beta. unfold ret at 1. rewrite Hout. reflexivity.
  - intros Hi.
    pose proof Hvalid as (u & o0 & Heq & Hu & Hval).
    injection Heq as <-. rewrite Hv in Hu. injection Hu as <-.
    destruct (values o !! i) as [p|] eqn:Hp.
    + destruct (Hval i p Hp) as (l & -> & Hl).
      exists l, h, o. rewrite (AT_run_present h v o i (Some l) Hv Hi Hp).
      repeat split; auto; try discriminate; try apply Hm.
      intros k Hk. apply ValueAt_run; assumption.
    + rewrite (AT_run_absent h v o i Hv Hi Hp).
      set (l := fresh (dom (scalars h))).
      assert (Hl : scalars h !! l = None).
      { apply not_elem_of_dom. apply is_fresh. }
      set (o' := mkVector (indexInsert (sparseIndex o) i)
                   (<[i := Some l]> (values o)) (n o)).
      set (h' := mkHeap (<[l := NULL_SCALAR]> (scalars h)) (<[v := o']> (vectors h))).
      assert (Hv' : vectors h' !! v = Some o') by apply lookup_insert_eq.
      assert (Hvalid' : valid_vector h' (Some v)).
      { exists v, o'. split; [reflexivity|]. split; [exact Hv'|].
        intros k p. simpl. intros Hk.
        apply lookup_insert_Some in Hk as [[_ <-]|[_ Hk]].
        - exists l. split; [reflexivity|]. rewrite lookup_insert_eq. eauto.
        - destruct (Hval k p Hk) as (l0 & -> & [s Hs]). exists l0.
          split; [reflexivity|].
          rewrite lookup_insert_ne by congruence. eauto. }
      exists l, h', o'.
      split; [reflexivity|]. split; [exact Hv'|].
      split; [apply lookup_insert_eq|]. split; [reflexivity|].
      split; [intros k Hk; simpl; apply lookup_insert_ne; congruence|].
      split; [intros [? ?]; discriminate|].
      split.
      { intros _. split; [exact Hl|]. split; [apply lookup_insert_eq|].
        simpl. apply map_size_insert_None. exact Hp. }
      split; [exact Hvalid'|].
      destruct Hm as [Hkeys Hsorted].
      split; [split|split].
      * intros k. simpl. rewrite elem_of_app, list_elem_of_singleton, Hkeys.
        destruct (decide (k = i)) as [->|Hne].
        -- rewrite lookup_insert_eq. split; eauto.
        -- rewrite lookup_insert_ne by congruence. tauto.
      * simpl. discriminate.
      * simpl. apply NoDup_app. split; [exact Hnd|]. split.
        -- intros k Hk Hk'. apply list_elem_of_singleton in Hk' as ->.
           apply Hkeys in Hk. rewrite Hp in Hk. destruct Hk; discriminate.
        -- apply NoDup_singleton.
      * intros k Hk.
        rewrite (ValueAt_run h' v o' k Hv' Hvalid' Hk). do 2 f_equal.
        unfold value_at. simpl.
        destruct (decide (k = i)) as [->|Hne].
        -- rewrite lookup_insert_eq, lookup_insert_eq, Hp. reflexivity.
        -- rewrite lookup_insert_ne by congruence.
           destruct (values o !! k) as [[l0|]|] eqn:Hk0; try reflexivity.
           rewrite lookup_insert_ne; [reflexivity|].
           intros <-. destruct (Hval k _ Hk0) as (l1 & Hl1 & [s Hs]).
           injection Hl1 as <-. congruence.
Qed.

Lemma AT_keeps_reads_witness :
  (out_of_bounds 1 (n gap_vector) = true ->
   AT (Some 1%positive) 1 gap_heap = Panic "index out of bounds")
  /\ (0 <= 1 < n gap_vector ->
      exists l h' o',
        AT (Some 1%positive) 1 gap_heap = Ret (Some l, h')
        /\ vectors h' !! 1%positive = Some o'
        /\ values o' !! 1 = Some (Some l)
        /\ n o' = n gap_vector
        /\ (forall k, k <> 1 -> values o' !! k = values gap_vector !! k)
        /\ (is_Some (values gap_vector !! 1) -> h' = gap_heap)
        /\ (values gap_vector !! 1 = None ->
            scalars gap_heap !! l = None /\ scalars h' !! l = Some NULL_SCALAR
            /\ size (values o') = S (size (values gap_vector)))
        /\ valid_vector h' (Some 1%positive)
        /\ index_mirrors o' /\ NoDup (indices (sparseIndex o'))
        /\ forall k, 0 <= k < n gap_vector ->
             ValueAt (Some 1%positive) k h' = Ret (value_at gap_heap gap_vector k, h')).
Proof.
  apply (AT_keeps_reads gap_heap 1%positive gap_vector 1).
  - reflexivity.
  - apply valid_vectorb_true. vm_compute. reflexivity.
  - apply index_mirrorsb_true. vm_compute. reflexivity.
  - apply (bool_decide_eq_true_1 (NoDup (indices (sparseIndex gap_vector)))).
    vm_compute. reflexivity.
Defined.

Lemma storeScalar_Some (h : Heap) (l : loc) (s s' : Scalar) :
  scalars h !! l = Some s ->
  storeScalar (Some l) s' h = Ret (tt, mkHeap (<[l := s']> (scalars h)) (vectors h)).
Proof. intros Hl. unfold storeScalar. rewrite Hl. reflexivity. Qed.

Lemma AT_store_spec (h : Heap) (v : loc) (o : VECTOR_NAME) (i : Z) (s' : Scalar) :
  vectors h !! v = Some o ->
  valid_vector h (Some v) ->
  0 <= i < n o ->
  exists l h2 o2,
    (p <- AT (Some v) i ;; storeScalar p s' ;;; ret p) h = Ret (Some l, h2)
    /\ vectors h2 !! v = Some o2
    /\ (forall u, u <> v -> vectors h2 !! u = vectors h !! u)
    /\ n o2 = n o
    /\ values o2 = <[i := Some l]> (values o)
    /\ (values o !! i = None -> scalars h !! l = None)
    /\ (forall p, values o !! i = Some p -> p = Some l)
    /\ scalars h2 = <[l := s']> (scalars h)
    /\ valid_vector h2 (Some v).
Proof.
  intros Hv Hvalid Hi.
  pose proof Hvalid as (u & o0 & Heq & Hu & Hval).
  injection Heq as <-. rewrite Hv in Hu. injection Hu as <-.
  destruct (values o !! i) as [p|] eqn:Hp.
  - destruct (Hval i p Hp) as (l & -> & [s Hs]).
    exists l, (mkHeap (<[l := s']> (scalars h)) (vectors h)), o.
    unfold bind at 1. rewrite (AT_run_present h v o i (Some l) Hv Hi Hp).
    unfold bind at 1. rewrite (storeScalar_Some h l s s' Hs).
    split; [reflexivity|]. split; [exact Hv|]. split; [reflexivity|].
    split; [reflexivity|].
    split; [symmetry; apply insert_id; exact Hp|].
    split; [discriminate|]. split; [intros p' Hp'; congruence|].
    split; [reflexivity|].
    exists v, o. split; [reflexivity|]. split; [exact Hv|].
    intros k p Hk. destruct (Hval k p Hk) as (l0 & -> & [s0 Hs0]).
    exists l0. split; [reflexivity|]. simpl.
    destruct (decide (l0 = l)) as [->|Hne].
    + rewrite lookup_insert_eq. eauto.
    + rewrite lookup_insert_ne by congruence. eauto.
  - set (l := fresh (dom (scalars h))).
    assert (Hl : scalars h !! l = None).
    { apply not_elem_of_dom. apply is_fresh. }
    set (o1 := mkVector (indexInsert (sparseIndex o) i)
                 (<[i := Some l]> (values o)) (n o)).
    set (h1 := mkHeap (<[l := NULL_SCALAR]> (scalars h)) (<[v := o1]> (vectors h))).
    exists l, (mkHeap (<[l := s']> (scalars h1)) (vectors h1)), o1.
    unfold bind at 1. rewrite (AT_run_absent h v o i Hv Hi Hp). fold l o1 h1.
    unfold bind at 1.
    rewrite (storeScalar_Some h1 l NULL_SCALAR s' (lookup_insert_eq _ _ _)).
    split; [reflexivity|]. split; [apply lookup_insert_eq|].
    split; [intros u Hu; simpl; apply lookup_insert_ne; congruence|].
    split; [reflexivity|]. split; [reflexivity|].
    split; [intros _; exact Hl|]. split; [discriminate|].
    split; [simpl; apply insert_insert_eq|].
    exists v, o1. split; [reflexivity|]. split; [apply lookup_insert_eq|].
    intros k p. simpl. intros Hk.
    apply lookup_insert_Some in Hk as [[_ <-]|[_ Hk]].
    + exists l. split; [reflexivity|]. rewrite lookup_insert_eq. eauto.
    + destruct (Hval k p Hk) as (l0 & -> & [s0 Hs0]). exists l0.
      split; [reflexivity|].
      rewrite !lookup_insert_ne by congruence. eauto.
Qed.

Lemma value_at_after_store (h h2 : Heap) (o o2 : VECTOR_NAME) (i : Z) (l : loc)
  (s' : Scalar) :
  values o2 = <[i := Some l]> (values o) ->
  scalars h2 = <[l := s']> (scalars h) ->
  value_at h2 o2 i = GetValue s'
  /\ forall k, k <> i -> values o !! k <> Some (Some l) ->
       value_at h2 o2 k = value_at h o k.
Proof.
  intros Hvals Hscal. unfold value_at. rewrite Hvals, Hscal. split.
  - rewrite !lookup_insert_eq. reflexivity.
  - intros k Hk Hne. rewrite lookup_insert_ne by congruence.
    destruct (values o !! k) as [[l0|]|]; try reflexivity.
    rewrite lookup_insert_ne by congruence. reflexivity.
Qed.

(** X6: Writing through AT and reading back.  For a vector whose entries are
    allocated scalars and an index inside the dimension, storing a scalar at
    the pointer AT returns makes ValueAt at that index return the value
    stored; a read at any other index whose entry is not that same pointer
    returns what it returned before. *)
Theorem write_then_read (h : Heap) (v : loc) (o : VECTOR_NAME) (i : Z) (s' : Scalar) :
  vectors h !! v = Some o ->
  valid_vector h (Some v) ->
  0 <= i < n o ->
  exists p h2 o2,
    (p <- AT (Some v) i ;; storeScalar p s' ;;; ret p) h = Ret (p, h2)
    /\ vectors h2 !! v = Some o2 /\ values o2 !! i = Some p
    /\ ValueAt (Some v) i h2 = Ret (GetValue s', h2)
    /\ forall k, 0 <= k < n o -> k <> i -> values o !! k <> Some p ->
         ValueAt (Some v) k h2 = Ret (value_at h o k, h2).
Proof.
  intros Hv Hvalid Hi.
  destruct (AT_store_spec h v o i s' Hv Hvalid Hi)
    as (l & h2 & o2 & Hrun & Hv2 & _ & Hn & Hvals & _ & _ & Hscal & Hvalid2).
  destruct (value_at_after_store h h2 o o2 i l s' Hvals Hscal) as [Hread Hother].
  exists (Some l), h2, o2. split; [exact Hrun|]. split; [exact Hv2|].
  split; [rewrite Hvals; apply lookup_insert_eq|].
  split.
  - rewrite (ValueAt_run h2 v o2 i Hv2 Hvalid2) by lia. rewrite Hread. reflexivity.
  - intros k Hk Hki Hne.
    rewrite (ValueAt_run h2 v o2 k Hv2 Hvalid2) by lia.
    rewrite (Hother k Hki Hne). reflexivity.
Qed.

Lemma write_then_read_witness :
  exists p h2 o2,
    (p <- AT (Some 1%positive) 1 ;; storeScalar p (NEW_SCALAR 7%float) ;;; ret p) gap_heap
    = Ret (p, h2)
    /\ vectors h2 !! 1%positive = Some o2 /\ values o2 !! 1 = Some p
    /\ ValueAt (Some 1%positive) 1 h2 = Ret (GetValue (NEW_SCALAR 7%float), h2)
    /\ forall k, 0 <= k < n gap_vector -> k <> 1 -> values gap_vector !! k <> Some p ->
         ValueAt (Some 1%positive) k h2 = Ret (value_at gap_heap gap_vector k, h2).
Proof.
  apply (write_then_read gap_heap 1%positive gap_vector 1 (NEW_SCALAR 7%float)).
  - reflexivity.
  - apply valid_vectorb_true. vm_compute. reflexivity.
  - simpl. lia.
Defined.
Lemma Swap_run (h : Heap) (v : loc) (o : VECTOR_NAME) (i j : Z) :
  vectors h !! v = Some o ->
  Swap (Some v) i j h
  = Ret (tt, set_vector h v
               (mkVector (sparseIndex o)
                  (<[j := map_read (values o) i]> (<[i := map_read (values o) j]> (values o)))
                  (n o))).
Proof.
  intros Hv. unfold Swap.
  rewrite (bind_Ret _ _ _ _ _ (loadVector_Some _ _ _ Hv)).
  apply storeVector_Some with (o := o). exact Hv.
Qed.

(** X7: Swap never deletes.  After Swap(i, j) both indices are keys of the
    entry map: each holds what a read of the other gave before, which is nil
    for an index that was not occupied; the index structure is not touched.
    So exchanging an occupied index with an unoccupied one inside the
    dimension leaves a nil entry behind: the occupancy grows by one, the
    index structure no longer lists the occupied indices, and reading the
    index that was occupied panics. *)
Theorem Swap_leaves_nil_entries (h : Heap) (v : loc) (o : VECTOR_NAME) (i j : Z) :
  vectors h !! v = Some o ->
  exists o',
    Swap (Some v) i j h = Ret (tt, set_vector h v o')
    /\ sparseIndex o' = sparseIndex o /\ n o' = n o
    /\ (forall k, values o' !! k
                  = if decide (k = j) then Some (map_read (values o) i)
                    else if decide (k = i) then Some (map_read (values o) j)
                    else values o !! k)
    /\ (i <> j -> is_Some (values o !! i) -> values o !! j = None ->
        values o' !! i = Some None
        /\ size (values o') = S (size (values o))
        /\ (index_mirrors o -> ~ index_mirrors o')
        /\ (0 <= i < n o ->
            ValueAt (Some v) i (set_vector h v o') = Panic "nil pointer dereference")).
Proof.
  intros Hv.
  set (o' := mkVector (sparseIndex o)
               (<[j := map_read (values o) i]> (<[i := map_read (values o) j]> (values o)))
               (n o)).
  exists o'. split; [apply Swap_run; exact Hv|].
  split; [reflexivity|]. split; [reflexivity|].
  assert (Hlook : forall k, values o' !! k
                  = if decide (k = j) then Some (map_read (values o) i)
                    else if decide (k = i) then Some (map_read (values o) j)
                    else values o !! k).
  { intros k. simpl. destruct (decide (k = j)) as [->|Hj].
    - apply lookup_insert_eq.
    - rewrite lookup_insert_ne by congruence.
      destruct (decide (k = i)) as [->|Hi].
      + apply lookup_insert_eq.
      + apply lookup_insert_ne. congruence. }
  split; [exact Hlook|].
  intros Hij [p Hp] Hj.
  assert (Hi' : values o' !! i = Some None).
  { rewrite Hlook, decide_False, decide_True by congruence.
    unfold map_read. rewrite Hj. reflexivity. }
  split; [exact Hi'|]. split; [|split].
  - simpl. rewrite map_size_insert_None.
    + rewrite map_size_insert_Some; [reflexivity|]. rewrite Hp. eauto.
    + rewrite lookup_insert_ne by congruence. exact Hj.
  - intros [Hkeys _] [Hkeys' _].
    assert (Hin : j ∈ indices (sparseIndex o)).
    { apply Hkeys'. rewrite Hlook, decide_True by reflexivity. eauto. }
    apply Hkeys in Hin. rewrite Hj in Hin. destruct Hin; discriminate.
  - intros Hi. unfold ValueAt, Dim.
    rewrite (bind_Ret _ _ _ _ _
               (bind_Ret _ _ _ _ _ (loadVector_Some _ _ _ (set_vector_lookup _ _ _)))).
    cbv beta. unfold ret at 1. unfold out_of_bounds. cbn [n o'].
    destruct (Z.ltb_spec i 0); [lia|]. destruct (Z.leb_spec (n o) i); [lia|].
    cbn [orb].
    rewrite (bind_Ret _ _ _ _ _ (loadVector_Some _ _ _ (set_vector_lookup _ _ _))).
    rewrite Hi'. reflexivity.
Qed.

Lemma Swap_leaves_nil_entries_witness :
  exists o',
    Swap (Some 1%positive) 0 1 gap_heap = Ret (tt, set_vector gap_heap 1%positive o')
    /\ sparseIndex o' = sparseIndex gap_vector /\ n o' = n gap_vector
    /\ (forall k, values o' !! k
                  = if decide (k = 1) then Some (map_read (values gap_vector) 0)
                    else if decide (k = 0) then Some (map_read (values gap_vector) 1)
                    else values gap_vector !! k)
    /\ (0 <> 1 -> is_Some (values gap_vector !! 0) -> values gap_vector !! 1 = None ->
        values o' !! 0 = Some None
        /\ size (values o') = S (size (values gap_vector))
        /\ (index_mirrors gap_vector -> ~ index_mirrors o')
        /\ (0 <= 0 < n gap_vector ->
            ValueAt (Some 1%positive) 0 (set_vector gap_heap 1%positive o')
            = Panic "nil pointer dereference")).
Proof.
  apply (Swap_leaves_nil_entries gap_heap 1%positive gap_vector 0 1).
  reflexivity.
Defined.
(** ** GetValues *)

Lemma GetValues_loop_spec (h : Heap) :
  forall (entries : list (Z * ptr)) (r : list float),
    NoDup (map fst entries) ->
    (forall k p, (k, p) ∈ entries ->
       0 <= k < Z.of_nat (length r)
       /\ exists l s, p = Some l /\ scalars h !! l = Some s) ->
    exists r',
      GetValues_loop entries r h = Ret (r', h)
      /\ length r' = length r
      /\ forall k, 0 <= k < Z.of_nat (length r) ->
           r' !! Z.to_nat k
           = Some (match (list_to_map entries : gmap Z ptr) !! k with
                   | Some (Some l) =>
                       match scalars h !! l with
                       | Some s => GetValue s
                       | None => fzero
                       end
                   | _ => default fzero (r !! Z.to_nat k)
                   end).
Proof.
  induction entries as [|[i p] entries IH]; intros r Hnd Hall.
  - exists r. split; [reflexivity|]. split; [reflexivity|].
    intros k Hk. simpl. rewrite lookup_empty.
    destruct (r !! Z.to_nat k) eqn:Hr; [reflexivity|].
    apply lookup_ge_None in Hr. lia.
  - simpl in Hnd. apply NoDup_cons in Hnd as [Hi Hnd].
    destruct (Hall i p ltac:(left)) as (Hrange & l & s & -> & Hs).
    cbn [GetValues_loop].
    rewrite (bind_Ret _ _ _ _ _ (loadScalar_Some _ _ _ Hs)).
    destruct (Z.ltb_spec i 0); [lia|].
    destruct (Z.leb_spec (Z.of_nat (length r)) i); [lia|]. cbn [orb].
    destruct (IH (<[Z.to_nat i := GetValue s]> r) Hnd) as (r' & Hrun & Hlen & Hread).
    { intros k p Hk. rewrite length_insert. apply Hall. right. exact Hk. }
    rewrite length_insert in Hlen, Hread.
    exists r'. split; [exact Hrun|]. split; [exact Hlen|].
    intros k Hk. rewrite (Hread k Hk). f_equal. cbn [list_to_map foldr fst snd].
    destruct (decide (k = i)) as [->|Hne].
    + rewrite lookup_insert_eq, Hs.
      rewrite (not_elem_of_list_to_map_1 entries i Hi).
      rewrite list_lookup_insert_eq by lia. reflexivity.
    + rewrite lookup_insert_ne by congruence.
      rewrite list_lookup_insert_ne by lia. reflexivity.
Qed.

Lemma GetValues_loop_panics (h : Heap) :
  forall (entries : list (Z * ptr)) (r : list float),
    (forall k p, (k, p) ∈ entries -> exists l s, p = Some l /\ scalars h !! l = Some s) ->
    Exists (fun kp => ~ 0 <= fst kp < Z.of_nat (length r)) entries ->
    exists msg, GetValues_loop entries r h = Panic msg.
Proof.
  induction entries as [|[i p] entries IH]; intros r Hall Hex.
  - inversion Hex.
  - destruct (Hall i p ltac:(left)) as (l & s & -> & Hs).
    cbn [GetValues_loop].
    rewrite (bind_Ret _ _ _ _ _ (loadScalar_Some _ _ _ Hs)).
    destruct ((i <? 0) || (Z.of_nat (length r) <=? i)) eqn:Hout; [eauto|].
    apply orb_false_iff in Hout as [H1 H2].
    apply Z.ltb_ge in H1. apply Z.leb_gt in H2.
    apply IH.
    + intros k p Hk. apply (Hall k). right. exact Hk.
    + rewrite length_insert. apply Exists_cons in Hex as [Hex|Hex]; [|exact Hex].
      simpl in Hex. lia.
Qed.

(** X8: GetValues on a vector whose entries are allocated scalars.  When every
    stored index lies inside the dimension it returns, without changing the
    store, a slice as long as the dimension that holds at each position what
    ValueAt reads there: the stored value, or 0.0 where nothing is stored.
    When some stored index lies outside the dimension it panics. *)
Theorem GetValues_reads_every_index (h : Heap) (v : loc) (o : VECTOR_NAME) :
  vectors h !! v = Some o ->
  valid_vector h (Some v) ->
  0 <= n o ->
  (keys_in_range o ->
   exists r,
     GetValues (Some v) h = Ret (r, h)
     /\ length r = Z.to_nat (n o)
     /\ forall k, 0 <= k < n o ->
          r !! Z.to_nat k = Some (value_at h o k)
          /\ ValueAt (Some v) k h = Ret (value_at h o k, h))
  /\ (forall k, is_Some (values o !! k) -> ~ 0 <= k < n o ->
      exists msg, GetValues (Some v) h = Panic msg).
Proof.
  intros Hv Hvalid Hn.
  pose proof Hvalid as (u & o0 & Heq & Hu & Hval).
  injection Heq as <-. rewrite Hv in Hu. injection Hu as <-.
  assert (Hptr : forall k p, (k, p) ∈ map_to_list (values o) ->
                   exists l s, p = Some l /\ scalars h !! l = Some s).
  { intros k p Hk. apply elem_of_map_to_list in Hk.
    destruct (Hval k p Hk) as (l & -> & [s Hs]). eauto. }
  assert (Hstart : GetValues (Some v) h
                   = GetValues_loop (map_to_list (values o))
                       (replicate (Z.to_nat (n o)) fzero) h).
  { unfold GetValues, Dim.
    rewrite (bind_Ret _ _ _ _ _ (bind_Ret _ _ _ _ _ (loadVector_Some _ _ _ Hv))).
    cbv beta.
    destruct (Z.ltb_spec (n o) 0); [lia|].
    rewrite (bind_Ret _ _ _ _ _ (loadVector_Some _ _ _ Hv)). reflexivity. }
  split.
  - intros Hkeys.
    destruct (GetValues_loop_spec h (map_to_list (values o))
                (replicate (Z.to_nat (n o)) fzero))
      as (r & Hrun & Hlen & Hread).
    { apply NoDup_fst_map_to_list. }
    { intros k p Hk. split; [|apply Hptr with k; exact Hk].
      apply elem_of_map_to_list in Hk. rewrite length_replicate.
      specialize (Hkeys k ltac:(eauto)). lia. }
    rewrite length_replicate in Hlen, Hread.
    exists r. split; [rewrite Hstart; exact Hrun|]. split; [exact Hlen|].
    intros k Hk. split; [|apply ValueAt_run; assumption].
    rewrite (Hread k) by lia. f_equal.
    rewrite list_to_map_to_list. unfold value_at.
    destruct (values o !! k) as [[l|]|]; try reflexivity;
      rewrite lookup_replicate_2 by lia; reflexivity.
  - intros k [p Hp] Hout. rewrite Hstart.
    apply GetValues_loop_panics; [exact Hptr|].
    apply List.Exists_exists. exists (k, p). split.
    + change (In (k, p) (map_to_list (values o))).
      apply list_elem_of_In, elem_of_map_to_list. exact Hp.
    + simpl. rewrite length_replicate. lia.
Qed.
Lemma GetValues_reads_every_index_witness :
  (keys_in_range gap_vector ->
   exists r,
     GetValues (Some 1%positive) gap_heap = Ret (r, gap_heap)
     /\ length r = Z.to_nat (n gap_vector)
     /\ forall k, 0 <= k < n gap_vector ->
          r !! Z.to_nat k = Some (value_at gap_heap gap_vector k)
          /\ ValueAt (Some 1%positive) k gap_heap
             = Ret (value_at gap_heap gap_vector k, gap_heap))
  /\ (forall k, is_Some (values gap_vector !! k) -> ~ 0 <= k < n gap_vector ->
      exists msg, GetValues (Some 1%positive) gap_heap = Panic msg).
Proof.
  apply (GetValues_reads_every_index gap_heap 1%positive gap_vector).
  - reflexivity.
  - apply valid_vectorb_true. vm_compute. reflexivity.
  - simpl. lia.
Defined.

(** A run of GetValues *)
Example GetValues_run :
  result_of (GetValues (Some 1%positive) gap_heap) = Ret [2%float; fzero; 3%float].
Proof. vm_compute. reflexivity. Qed.

(** ** ReverseOrder *)

Lemma keys_in_rangeb_true (o : VECTOR_NAME) :
  keys_in_rangeb o = true -> keys_in_range o.
Proof.
  unfold keys_in_rangeb. rewrite forallb_forall. intros Hall k [p Hp].
  specialize (Hall (k, p)). simpl in Hall.
  assert (Hin : In (k, p) (map_to_list (values o))).
  { apply list_elem_of_In, elem_of_map_to_list. exact Hp. }
  apply Hall in Hin. apply andb_true_iff in Hin as [H1 H2].
  apply Z.leb_le in H1. apply Z.ltb_lt in H2. lia.
Defined.

Lemma ReverseOrder_fold (n_ : Z) :
  n_ < 2 ^ 63 ->
  forall (l : list (Z * ptr)) (m0 : gmap Z ptr) (ix0 : vectorSparseIndex),
    NoDup (map fst l) ->
    (forall e, e ∈ l -> 0 <= fst e < n_) ->
    indices (snd (fold_left (ReverseOrder_step n_) l (m0, ix0)))
    = indices ix0 ++ map (fun e => n_ - 1 - fst e) l
    /\ (isSorted ix0 = false ->
        isSorted (snd (fold_left (ReverseOrder_step n_) l (m0, ix0))) = false)
    /\ forall k, fst (fold_left (ReverseOrder_step n_) l (m0, ix0)) !! k
                 = match (list_to_map l : gmap Z ptr) !! (n_ - 1 - k) with
                   | Some q => Some q
                   | None => m0 !! k
                   end.
Proof.
  intros Hn. induction l as [|[i q] l IH]; intros m0 ix0 Hnd Hrange.
  - simpl. rewrite app_nil_r. split; [reflexivity|]. split; [auto|].
    intros k. rewrite lookup_empty. reflexivity.
  - simpl in Hnd. apply NoDup_cons in Hnd as [Hi Hnd].
    assert (Hir : 0 <= i < n_) by (apply (Hrange (i, q)); left).
    assert (Hj : int_sub (int_sub n_ i) 1 = n_ - 1 - i).
    { unfold int_sub. rewrite (wrap_id (n_ - i)) by (unfold in_int; lia).
      rewrite wrap_id by (unfold in_int; lia). lia. }
    cbn [fold_left]. unfold ReverseOrder_step at 2 4 6. cbn [fst snd]. rewrite Hj.
    destruct (IH (<[n_ - 1 - i := q]> m0) (indexInsert ix0 (n_ - 1 - i)) Hnd)
      as (Hix & Hsorted & Hlook).
    { intros e He. apply Hrange. right. exact He. }
    split; [|split].
    + rewrite Hix. simpl. rewrite <- app_assoc. reflexivity.
    + intros _. apply Hsorted. reflexivity.
    + intros k. rewrite Hlook. cbn [list_to_map foldr fst snd].
      destruct (decide (n_ - 1 - k = i)) as [Heq|Hne].
      * rewrite Heq, lookup_insert_eq.
        rewrite (not_elem_of_list_to_map_1 l i Hi).
        replace k with (n_ - 1 - i) by lia. apply lookup_insert_eq.
      * rewrite (lookup_insert_ne _ i) by congruence.
        destruct (list_to_map l !! (n_ - 1 - k)); [reflexivity|].
        apply lookup_insert_ne. lia.
Qed.

Lemma ReverseOrder_spec (h : Heap) (v : loc) (o : VECTOR_NAME) :
  vectors h !! v = Some o ->
  keys_in_range o -> n o < 2 ^ 63 ->
  exists o',
    ReverseOrder (Some v) h = Ret (tt, set_vector h v o')
    /\ n o' = n o
    /\ (forall k, values o' !! k = values o !! (n o - 1 - k))
    /\ (forall k, k ∈ indices (sparseIndex o') <-> is_Some (values o' !! k))
    /\ isSorted (sparseIndex o') = false
    /\ NoDup (indices (sparseIndex o')).
Proof.
  intros Hv Hkeys Hn.
  destruct (ReverseOrder_fold (n o) Hn (map_to_list (values o)) ∅ emptyIndex)
    as (Hix & Hsorted & Hlook).
  { apply NoDup_fst_map_to_list. }
  { intros [k p] He. apply elem_of_map_to_list in He. apply Hkeys. simpl. eauto. }
  set (r := fold_left (ReverseOrder_step (n o)) (map_to_list (values o)) (∅, emptyIndex))
    in *.
  exists (mkVector (snd r) (fst r) (n o)).
  assert (Hval : forall k, fst r !! k = values o !! (n o - 1 - k)).
  { intros k. rewrite Hlook, list_to_map_to_list, lookup_empty.
    destruct (values o !! (n o - 1 - k)); reflexivity. }
  split.
  { unfold ReverseOrder, Dim.
    rewrite (bind_Ret _ _ _ _ _ (bind_Ret _ _ _ _ _ (loadVector_Some _ _ _ Hv))).
    cbv beta.
    rewrite (bind_Ret _ _ _ _ _ (loadVector_Some _ _ _ Hv)).
    apply storeVector_Some with (o := o). exact Hv. }
  split; [reflexivity|]. split; [exact Hval|]. cbn [sparseIndex values].
  split; [|split].
  - intros k. rewrite Hix, Hval. simpl. rewrite list_elem_of_fmap. split.
    + intros ([i p] & -> & He). apply elem_of_map_to_list in He. simpl.
      replace (n o - 1 - (n o - 1 - i)) with i by lia. eauto.
    + intros [p Hp]. exists (n o - 1 - k, p). split; [simpl; lia|].
      apply elem_of_map_to_list. exact Hp.
  - apply Hsorted. reflexivity.
  - rewrite Hix. simpl.
    replace (map (fun e : Z * option positive => n o - 1 - fst e) (map_to_list (values o)))
      with ((fun i => n o - 1 - i) <$> (map fst (map_to_list (values o))))
      by (rewrite <- list_fmap_compose; reflexivity).
    apply NoDup_fmap_2; [|apply NoDup_fst_map_to_list].
    intros a b Hab. lia.
Qed.

(** X9: ReverseOrder on a vector whose stored indices lie inside the dimension.
    The entry at index i moves to index n-1-i, so a read at k afterwards
    finds what was stored at n-1-k; the dimension and the occupancy are
    kept; the index structure is rebuilt and lists exactly the new occupied
    indices, each once.  Reversing twice restores the entry map. *)
Theorem ReverseOrder_mirrors_the_entries (h : Heap) (v : loc) (o : VECTOR_NAME) :
  vectors h !! v = Some o ->
  keys_in_range o -> n o < 2 ^ 63 ->
  exists o',
    ReverseOrder (Some v) h = Ret (tt, set_vector h v o')
    /\ n o' = n o
    /\ (forall k, values o' !! k = values o !! (n o - 1 - k))
    /\ size (values o') = size (values o)
    /\ index_mirrors o' /\ NoDup (indices (sparseIndex o'))
    /\ exists o'',
         ReverseOrder (Some v) (set_vector h v o') = Ret (tt, set_vector h v o'')
         /\ values o'' = values o.
Proof.
  intros Hv Hkeys Hn.
  destruct (ReverseOrder_spec h v o Hv Hkeys Hn)
    as (o' & Hrun & Hn' & Hval & Hix & Hsorted & Hnd).
  exists o'. split; [exact Hrun|]. split; [exact Hn'|]. split; [exact Hval|].
  split; [|split; [|split; [exact Hnd|]]].
  - assert (Hinj : Inj (=) (=) (fun k : Z => n o - 1 - k)).
    { intros a b Hab. lia. }
    assert (Hk : values o' = kmap (fun k : Z => n o - 1 - k) (values o)).
    { apply map_eq. intros k. rewrite Hval.
      replace k with (n o - 1 - (n o - 1 - k)) at 2 by lia.
      symmetry. apply (lookup_kmap (fun k : Z => n o - 1 - k)). }
    rewrite Hk, <- !length_map_to_list.
    rewrite (Permutation_length (map_to_list_kmap (fun k : Z => n o - 1 - k) (values o))).
    apply length_fmap.
  - split; [exact Hix|]. rewrite Hsorted. discriminate.
  - assert (Hkeys' : keys_in_range o').
    { intros k Hk. rewrite Hval in Hk. apply Hkeys in Hk. lia. }
    destruct (ReverseOrder_spec (set_vector h v o') v o' (set_vector_lookup _ _ _)
                Hkeys' ltac:(lia))
      as (o'' & Hrun2 & _ & Hval2 & _).
    exists o''. rewrite set_vector_twice in Hrun2. split; [exact Hrun2|].
    apply map_eq. intros k. rewrite Hval2, Hval, Hn'. f_equal. lia.
Qed.

Lemma ReverseOrder_mirrors_the_entries_witness :
  exists o',
    ReverseOrder (Some 1%positive) gap_heap = Ret (tt, set_vector gap_heap 1%positive o')
    /\ n o' = n gap_vector
    /\ (forall k, values o' !! k = values gap_vector !! (n gap_vector - 1 - k))
    /\ size (values o') = size (values gap_vector)
    /\ index_mirrors o' /\ NoDup (indices (sparseIndex o'))
    /\ exists o'',
         ReverseOrder (Some 1%positive) (set_vector gap_heap 1%positive o')
         = Ret (tt, set_vector gap_heap 1%positive o'')
         /\ values o'' = values gap_vector.
Proof.
  apply (ReverseOrder_mirrors_the_entries gap_heap 1%positive gap_vector).
  - reflexivity.
  - apply keys_in_rangeb_true. vm_compute. reflexivity.
  - simpl. lia.
Defined.

(** ** NEW_VECTOR *)

Lemma zip_elem_of_l {A B} (ks : list A) (xs : list B) (k : A) :
  length ks = length xs -> k ∈ ks -> exists x, (k, x) ∈ zip ks xs.
Proof.
  revert xs. induction ks as [|k0 ks IH]; intros [|x0 xs] Hlen Hk;
    simpl in Hlen; try discriminate.
  - inversion Hk.
  - apply elem_of_cons in Hk as [->|Hk].
    + exists x0. left.
    + destruct (IH xs ltac:(lia) Hk) as [x Hx]. exists x. right. exact Hx.
Qed.

Lemma zip_elem_of_fst {A B} (ks : list A) (xs : list B) (k : A) (x : B) :
  (k, x) ∈ zip ks xs -> k ∈ ks.
Proof.
  revert xs. induction ks as [|k0 ks IH]; intros [|x0 xs] Hk; simpl in Hk;
    try (inversion Hk; fail).
  apply elem_of_cons in Hk as [Heq|Hk].
  - injection Heq as -> ->. left.
  - right. apply (IH xs). exact Hk.
Qed.

Lemma zip_NoDup_functional {A B} (ks : list A) (xs : list B) (k : A) (x x' : B) :
  NoDup ks -> (k, x) ∈ zip ks xs -> (k, x') ∈ zip ks xs -> x = x'.
Proof.
  revert xs. induction ks as [|k0 ks IH]; intros [|x0 xs] Hnd Hx Hx'; simpl in *;
    try (inversion Hx; fail).
  apply NoDup_cons in Hnd as [Hk0 Hnd].
  apply elem_of_cons in Hx as [Heq|Hx]; apply elem_of_cons in Hx' as [Heq'|Hx'].
  - congruence.
  - injection Heq as -> ->. apply zip_elem_of_fst in Hx'. contradiction.
  - injection Heq' as -> ->. apply zip_elem_of_fst in Hx. contradiction.
  - eapply IH; eassumption.
Qed.

Lemma NEW_VECTOR_loop_spec (r : loc) (n_ : Z) :
  forall (ks : list Z) (xs : list float) (h : Heap) (ro : VECTOR_NAME),
    length ks = length xs -> NoDup ks -> Forall (fun k => k < n_) ks ->
    vectors h !! r = Some ro ->
    (forall k, k ∈ ks -> values ro !! k = None) ->
    exists h' o,
      NEW_VECTOR_loop (Some r) n_ ks xs h = Ret (tt, h')
      /\ vectors h' !! r = Some o
      /\ (forall u, u <> r -> vectors h' !! u = vectors h !! u)
      /\ scalars h ⊆ scalars h'
      /\ n o = n ro
      /\ (isSorted (sparseIndex ro) = false -> isSorted (sparseIndex o) = false)
      /\ (forall k, k ∈ indices (sparseIndex o)
                    <-> k ∈ indices (sparseIndex ro)
                        \/ exists x, (k, x) ∈ zip ks xs /\ fnonzero x = true)
      /\ (NoDup (indices (sparseIndex ro)) ->
          (forall k, k ∈ ks -> k ∉ indices (sparseIndex ro)) ->
          NoDup (indices (sparseIndex o)))
      /\ (forall k, k ∉ ks -> values o !! k = values ro !! k)
      /\ (forall k x, (k, x) ∈ zip ks xs ->
            if fnonzero x
            then exists l, values o !! k = Some (Some l)
                           /\ scalars h' !! l = Some (NEW_SCALAR x)
                           /\ scalars h !! l = None
            else values o !! k = None).
Proof.
  induction ks as [|k ks IH]; intros [|x xs] h ro Hlen Hnd Hlt Hr Hfree;
    simpl in Hlen; try discriminate.
  - exists h, ro. simpl. repeat split; auto.
    + intros [? | (x & Hx & _)]; [assumption|inversion Hx].
    + intros k x Hk. inversion Hk.
  - apply NoDup_cons in Hnd as [Hk Hnd].
    apply Forall_cons in Hlt as [Hkn Hlt].
    cbn [NEW_VECTOR_loop].
    destruct (Z.leb_spec n_ k); [lia|].
    rewrite (bind_Ret _ _ _ _ _ (loadVector_Some _ _ _ Hr)).
    rewrite (Hfree k) by left.
    destruct (fnonzero x) eqn:Hx.
    + set (l := fresh (dom (scalars h))).
      assert (Hl : scalars h !! l = None).
      { apply not_elem_of_dom. apply is_fresh. }
      set (h1 := mkHeap (<[l := NEW_SCALAR x]> (scalars h)) (vectors h)).
      set (ro1 := mkVector (sparseIndex ro) (<[k := Some l]> (values ro)) (n ro)).
      set (ro2 := mkVector (indexInsert (sparseIndex ro) k) (values ro1) (n ro1)).
      assert (Hstep : (v <- newScalar (NEW_SCALAR x) ;;
                       set_values (Some r) k v ;;; vector_indexInsert (Some r) k) h
                      = Ret (tt, set_vector h1 r ro2)).
      { unfold bind at 1, newScalar. fold l h1.
        unfold bind at 1. rewrite (set_values_run h1 r ro k (Some l) Hr). fold ro1.
        rewrite (vector_indexInsert_run _ r ro1 k (set_vector_lookup _ _ _)).
        rewrite set_vector_twice. reflexivity. }
      rewrite (bind_Ret _ _ _ _ _ Hstep).
      destruct (IH xs (set_vector h1 r ro2) ro2 ltac:(lia) Hnd Hlt
                  (set_vector_lookup _ _ _))
        as (h' & o & Hrun & Ho & Hother & Hsub & Hn & Hsorted & Hix & Hnodup
            & Hkeep & Hnew).
      { intros k' Hk'. simpl. rewrite lookup_insert_ne by congruence.
        apply Hfree. right. exact Hk'. }
      assert (Hsub0 : scalars h ⊆ scalars h').
      { etrans; [|exact Hsub]. simpl. apply insert_subseteq. exact Hl. }
      exists h', o. split; [exact Hrun|]. split; [exact Ho|].
      split.
      { intros u Hu. rewrite (Hother u Hu), set_vector_lookup_ne by exact Hu.
        reflexivity. }
      split; [exact Hsub0|]. split; [exact Hn|].
      split; [intros _; apply Hsorted; reflexivity|].
      split; [|split; [|split]].
      * intros k'. rewrite Hix. simpl.
        rewrite elem_of_app, list_elem_of_singleton. split.
        -- intros [[? | ->] | (x' & Hx' & Hnz)]; [tauto| |].
           ++ right. exists x. split; [left|exact Hx].
           ++ right. exists x'. split; [right; exact Hx'|exact Hnz].
        -- intros [? | (x' & Hx' & Hnz)]; [tauto|].
           apply elem_of_cons in Hx' as [Heq|Hx'].
           ++ injection Heq as -> ->. tauto.
           ++ right. eauto.
      * intros Hnd0 Hdisj. apply Hnodup.
        -- simpl. apply NoDup_app. split; [exact Hnd0|]. split.
           ++ intros k' Hk' Hk''. apply list_elem_of_singleton in Hk'' as ->.
              apply (Hdisj k); [left|exact Hk'].
           ++ apply NoDup_singleton.
        -- intros k' Hk'. simpl. rewrite elem_of_app, list_elem_of_singleton.
           intros [Hin | ->]; [|contradiction].
           apply (Hdisj k'); [right; exact Hk'|exact Hin].
      * intros k' Hk'. rewrite Hkeep by (intros ?; apply Hk'; right; assumption).
        simpl. apply lookup_insert_ne. intros ->. apply Hk'. left.
      * intros k' x' Hk'. apply elem_of_cons in Hk' as [Heq|Hk'].
        -- injection Heq as -> ->. rewrite Hx. exists l.
           rewrite (Hkeep k Hk). simpl. rewrite lookup_insert_eq.
           split; [reflexivity|]. split; [|exact Hl].
           apply (lookup_weaken _ _ _ _ (lookup_insert_eq _ _ _) Hsub).
        -- specialize (Hnew k' x' Hk'). destruct (fnonzero x'); [|exact Hnew].
           destruct Hnew as (l' & Hl1 & Hl2 & Hl3). exists l'.
           split; [exact Hl1|]. split; [exact Hl2|].
           simpl in Hl3. apply lookup_insert_None in Hl3. tauto.
    + unfold bind at 1. unfold ret at 1.
      destruct (IH xs h ro ltac:(lia) Hnd Hlt Hr)
        as (h' & o & Hrun & Ho & Hother & Hsub & Hn & Hsorted & Hix & Hnodup
            & Hkeep & Hnew).
      { intros k' Hk'. apply Hfree. right. exact Hk'. }
      exists h', o. split; [exact Hrun|]. split; [exact Ho|].
      split; [exact Hother|]. split; [exact Hsub|]. split; [exact Hn|].
      split; [exact Hsorted|].
      split; [|split; [|split]].
      * intros k'. rewrite Hix. split.
        -- intros [? | (x' & Hx' & Hnz)]; [tauto|].
           right. exists x'. split; [right; exact Hx'|exact Hnz].
        -- intros [? | (x' & Hx' & Hnz)]; [tauto|].
           apply elem_of_cons in Hx' as [Heq|Hx'].
           ++ injection Heq as -> ->. congruence.
           ++ right. eauto.
      * intros Hnd0 Hdisj. apply Hnodup; [exact Hnd0|].
        intros k' Hk'. apply Hdisj. right. exact Hk'.
      * intros k' Hk'. apply Hkeep. intros ?. apply Hk'. right. assumption.
      * intros k' x' Hk'. apply elem_of_cons in Hk' as [Heq|Hk'].
        -- injection Heq as -> ->. rewrite Hx, (Hkeep k Hk). apply Hfree. left.
        -- apply Hnew. exact Hk'.
Qed.

Lemma NEW_VECTOR_spec
  (ks : list Z) (xs : list float) (n_ : Z) (h : Heap) :
  length ks = length xs -> NoDup ks -> Forall (fun k => k < n_) ks ->
  exists r h' o,
    NEW_VECTOR ks xs n_ h = Ret (Some r, h')
    /\ vectors h !! r = None /\ vectors h' !! r = Some o
    /\ (forall u, u <> r -> vectors h' !! u = vectors h !! u)
    /\ scalars h ⊆ scalars h'
    /\ n o = n_
    /\ valid_vector h' (Some r)
    /\ index_mirrors o /\ NoDup (indices (sparseIndex o))
    /\ (forall k, k ∉ ks -> values o !! k = None)
    /\ (forall k x, (k, x) ∈ zip ks xs ->
          (is_Some (values o !! k) <-> fnonzero x = true)
          /\ (forall l, values o !! k = Some (Some l) -> scalars h !! l = None)
          /\ value_at h' o k = if fnonzero x then x else fzero).
Proof.
  intros Hlen Hnd Hlt.
  set (r := fresh (dom (vectors h))).
  assert (Hr : vectors h !! r = None).
  { apply not_elem_of_dom. apply is_fresh. }
  set (ro := mkVector emptyIndex ∅ n_).
  set (h0 := mkHeap (scalars h) (<[r := ro]> (vectors h))).
  destruct (NEW_VECTOR_loop_spec r n_ ks xs h0 ro Hlen Hnd Hlt (lookup_insert_eq _ _ _))
    as (h' & o & Hrun & Ho & Hother & Hsub & Hn & Hsorted & Hix & Hnodup & Hkeep & Hnew).
  { intros k _. apply lookup_empty. }
  assert (Hkeys : forall k, is_Some (values o !! k)
                            <-> exists x, (k, x) ∈ zip ks xs /\ fnonzero x = true).
  { intros k. split.
    - intros Hk. destruct (decide (k ∈ ks)) as [Hin|Hout].
      + destruct (zip_elem_of_l ks xs k Hlen Hin) as [x Hx].
        exists x. split; [exact Hx|].
        specialize (Hnew k x Hx). destruct (fnonzero x); [reflexivity|].
        rewrite Hnew in Hk. destruct Hk; discriminate.
      + rewrite (Hkeep k Hout) in Hk. simpl in Hk. rewrite lookup_empty in Hk.
        destruct Hk; discriminate.
    - intros (x & Hx & Hnz). specialize (Hnew k x Hx). rewrite Hnz in Hnew.
      destruct Hnew as (l & Hl & _). rewrite Hl. eauto. }
  exists r, h', o. split.
  { unfold NEW_VECTOR. rewrite Hlen, Nat.eqb_refl. cbn [negb].
    unfold bind at 1, NIL_VECTOR, newVector. fold r ro h0.
    unfold bind at 1. rewrite Hrun. reflexivity. }
  split; [exact Hr|]. split; [exact Ho|].
  split.
  { intros u Hu. rewrite (Hother u Hu). simpl. apply lookup_insert_ne.
    intros Heq. apply Hu. symmetry. exact Heq. }
  split; [exact Hsub|]. split; [exact Hn|].
  split.
  { exists r, o. split; [reflexivity|]. split; [exact Ho|].
    intros k p Hp. destruct (proj1 (Hkeys k) ltac:(eauto)) as (x & Hx & Hnz).
    specialize (Hnew k x Hx). rewrite Hnz in Hnew.
    destruct Hnew as (l & Hl & Hs & _). rewrite Hl in Hp. injection Hp as <-.
    exists l. split; [reflexivity|]. rewrite Hs. eauto. }
  split.
  { split.
    - intros k. rewrite Hix, Hkeys. simpl. rewrite elem_of_nil. tauto.
    - rewrite Hsorted by reflexivity. discriminate. }
  split.
  { apply Hnodup; [constructor|]. intros k _. simpl. apply not_elem_of_nil. }
  split.
  { intros k Hk. rewrite (Hkeep k Hk). apply lookup_empty. }
  intros k x Hx. split; [|split].
  - rewrite Hkeys. split.
    + intros (x' & Hx' & Hnz).
      rewrite (zip_NoDup_functional ks xs k x x' Hnd Hx Hx'). exact Hnz.
    + eauto.
  - intros l Hl. specialize (Hnew k x Hx). destruct (fnonzero x).
    + destruct Hnew as (l' & Hl' & _ & Hfresh).
      rewrite Hl' in Hl. injection Hl as <-. exact Hfresh.
    + congruence.
  - specialize (Hnew k x Hx). unfold value_at. destruct (fnonzero x).
    + destruct Hnew as (l & -> & -> & _). reflexivity.
    + rewrite Hnew. reflexivity.
Qed.

(** X10: NEW_VECTOR on index and value slices of equal length, with indices that
    are distinct and below the dimension (there is no test that an index is
    not negative).  It returns a new vector of the dimension given that
    stores, in new scalars, exactly the values different from 0.0, each at
    its index; the index structure lists exactly those indices, each once.
    Nothing that was allocated before is changed. *)
Theorem NEW_VECTOR_stores_the_nonzero_values
  (ks : list Z) (xs : list float) (n_ : Z) (h : Heap) :
  length ks = length xs -> NoDup ks -> Forall (fun k => k < n_) ks ->
  exists r h' o,
    NEW_VECTOR ks xs n_ h = Ret (Some r, h')
    /\ vectors h !! r = None /\ vectors h' !! r = Some o
    /\ (forall u, u <> r -> vectors h' !! u = vectors h !! u)
    /\ scalars h ⊆ scalars h'
    /\ n o = n_
    /\ valid_vector h' (Some r)
    /\ index_mirrors o /\ NoDup (indices (sparseIndex o))
    /\ (forall k, k ∉ ks -> values o !! k = None)
    /\ (forall k x, (k, x) ∈ zip ks xs ->
          (is_Some (values o !! k) <-> fnonzero x = true)
          /\ (forall l, values o !! k = Some (Some l) -> scalars h !! l = None)
          /\ value_at h' o k = if fnonzero x then x else fzero).
Proof. apply NEW_VECTOR_spec. Qed.

Lemma NEW_VECTOR_stores_the_nonzero_values_witness :
  exists r h' o,
    NEW_VECTOR [2; -1; 0] [3%float; 5%float; fzero] 3 empty_heap = Ret (Some r, h')
    /\ vectors empty_heap !! r = None /\ vectors h' !! r = Some o
    /\ (forall u, u <> r -> vectors h' !! u = vectors empty_heap !! u)
    /\ scalars empty_heap ⊆ scalars h'
    /\ n o = 3
    /\ valid_vector h' (Some r)
    /\ index_mirrors o /\ NoDup (indices (sparseIndex o))
    /\ (forall k, k ∉ [2; -1; 0] -> values o !! k = None)
    /\ (forall k x, (k, x) ∈ zip [2; -1; 0] [3%float; 5%float; fzero] ->
          (is_Some (values o !! k) <-> fnonzero x = true)
          /\ (forall l, values o !! k = Some (Some l) -> scalars empty_heap !! l = None)
          /\ value_at h' o k = if fnonzero x then x else fzero).
Proof.
  apply (NEW_VECTOR_stores_the_nonzero_values [2; -1; 0] [3%float; 5%float; fzero] 3
           empty_heap).
  - reflexivity.
  - apply (bool_decide_eq_true_1 (NoDup [2; -1; 0])). vm_compute. reflexivity.
  - repeat constructor.
Defined.

Lemma NEW_VECTOR_loop_panics (r : loc) (n_ : Z) :
  forall (ks : list Z) (xs : list float) (h : Heap) (ro : VECTOR_NAME),
    length ks = length xs ->
    vectors h !! r = Some ro ->
    Exists (fun k => n_ <= k) ks
    \/ Exists (fun k => is_Some (values ro !! k)) ks
    \/ (exists (i j : nat) k x,
          (i < j)%nat /\ ks !! i = Some k /\ ks !! j = Some k
          /\ xs !! i = Some x /\ fnonzero x = true) ->
    exists msg, NEW_VECTOR_loop (Some r) n_ ks xs h = Panic msg.
Proof.
  induction ks as [|k ks IH]; intros [|x xs] h ro Hlen Hr Hbad;
    simpl in Hlen; try discriminate.
  - destruct Hbad as [Hbad|[Hbad|(i & j & k & x & _ & Hi & _)]];
      [inversion Hbad|inversion Hbad|].
    rewrite lookup_nil in Hi. discriminate.
  - cbn [NEW_VECTOR_loop].
    destruct (Z.leb_spec n_ k) as [Hge|Hlt]; [eauto|].
    rewrite (bind_Ret _ _ _ _ _ (loadVector_Some _ _ _ Hr)).
    destruct (values ro !! k) as [p|] eqn:Hk; [eauto|].
    assert (Hstep : exists h1 ro1,
               (if fnonzero x
                then v <- newScalar (NEW_SCALAR x) ;;
                     set_values (Some r) k v ;;; vector_indexInsert (Some r) k
                else ret tt) h = Ret (tt, h1)
               /\ vectors h1 !! r = Some ro1
               /\ (forall k', is_Some (values ro !! k') -> is_Some (values ro1 !! k'))
               /\ (fnonzero x = true -> is_Some (values ro1 !! k))).
    { destruct (fnonzero x).
      - eexists _, _. split.
        + unfold bind at 1, newScalar.
          unfold bind at 1. erewrite set_values_run by exact Hr.
          erewrite vector_indexInsert_run by apply set_vector_lookup.
          rewrite set_vector_twice. reflexivity.
        + split; [apply set_vector_lookup|]. simpl. split.
          * intros k' [p Hp]. destruct (decide (k' = k)) as [->|Hne].
            -- rewrite lookup_insert_eq. eauto.
            -- rewrite lookup_insert_ne by congruence. eauto.
          * intros _. rewrite lookup_insert_eq. eauto.
      - exists h, ro. split; [reflexivity|]. split; [exact Hr|].
        split; [auto|discriminate]. }
    destruct Hstep as (h1 & ro1 & Hstep & Hr1 & Hmono & Hstored).
    rewrite (bind_Ret _ _ _ _ _ Hstep).
    apply (IH xs h1 ro1 ltac:(lia) Hr1).
    destruct Hbad as [Hbad|[Hbad|(i & j & k0 & x0 & Hij & Hi & Hj & Hxi & Hnz)]].
    + apply Exists_cons in Hbad as [Hbad|Hbad]; [lia|]. left. exact Hbad.
    + apply Exists_cons in Hbad as [Hbad|Hbad].
      * rewrite Hk in Hbad. destruct Hbad; discriminate.
      * right. left. eapply Exists_impl; [exact Hbad|]. exact Hmono.
    + destruct i as [|i].
      * simpl in Hi, Hxi. injection Hi as ->. injection Hxi as ->.
        destruct j as [|j]; [lia|]. simpl in Hj.
        right. left. apply Exists_exists. exists k0.
        split; [apply list_elem_of_lookup; eauto|]. apply Hstored. exact Hnz.
      * destruct j as [|j]; [lia|]. simpl in Hi, Hj, Hxi.
        right. right. exists i, j, k0, x0. repeat split; auto. lia.
Qed.

(** X11: When NEW_VECTOR panics.  It panics when the two slices differ in
    length, when some index is not below the dimension, and when an index
    that was given a value different from 0.0 is given again later, whatever
    the later value is. *)
Theorem NEW_VECTOR_panics (ks : list Z) (xs : list float) (n_ : Z) (h : Heap) :
  (length ks <> length xs ->
   NEW_VECTOR ks xs n_ h = Panic "number of indices does not match number of values")
  /\ (length ks = length xs ->
      Exists (fun k => n_ <= k) ks
      \/ (exists (i j : nat) k x,
            (i < j)%nat /\ ks !! i = Some k /\ ks !! j = Some k
            /\ xs !! i = Some x /\ fnonzero x = true) ->
      exists msg, NEW_VECTOR ks xs n_ h = Panic msg).
Proof.
  split.
  - intros Hlen. unfold NEW_VECTOR.
    destruct (Nat.eqb_spec (length ks) (length xs)); [contradiction|]. reflexivity.
  - intros Hlen Hbad. unfold NEW_VECTOR. rewrite Hlen, Nat.eqb_refl. cbn [negb].
    unfold bind at 1, NIL_VECTOR, newVector.
    destruct (NEW_VECTOR_loop_panics (fresh (dom (vectors h))) n_ ks xs
                (mkHeap (scalars h)
                   (<[fresh (dom (vectors h)) := mkVector emptyIndex ∅ n_]> (vectors h)))
                (mkVector emptyIndex ∅ n_) Hlen (lookup_insert_eq _ _ _)) as [msg Hmsg].
    { destruct Hbad as [Hbad|Hbad]; [left; exact Hbad|right; right; exact Hbad]. }
    exists msg. unfold bind at 1. rewrite Hmsg. reflexivity.
Qed.

(** Two runs: an index given twice with a stored value panics, while an
    index first given 0.0 and then another value is accepted. *)
Example NEW_VECTOR_repeated_index :
  result_of (NEW_VECTOR [1; 1] [2%float; fzero] 3 empty_heap)
  = Panic "index appeared multiple times"
  /\ result_of ((v <- NEW_VECTOR [1; 1] [fzero; 2%float] 3 ;; ValueAt v 1) empty_heap)
     = Ret 2%float.
Proof. split; vm_compute; reflexivity. Qed.

Lemma NEW_VECTOR_panics_witness :
  exists msg, NEW_VECTOR [5] [1%float] 3 empty_heap = Panic msg.
Proof.
  apply (proj2 (NEW_VECTOR_panics [5] [1%float] 3 empty_heap) eq_refl).
  left. constructor. lia.
Defined.

(** ** Permute, when the slice is an involution *)

Lemma involutionb_true (pi : list Z) : involutionb pi = true -> involution pi.
Proof.
  unfold involutionb. rewrite forallb_forall. intros Hall i p Hi.
  specialize (Hall i). rewrite Hi in Hall.
  assert (Hin : In i (seq 0 (length pi))).
  { apply in_seq. apply lookup_lt_Some in Hi. lia. }
  apply Hall in Hin. apply andb_true_iff in Hin as [H1 H2].
  apply Z.leb_le in H1. split; [exact H1|].
  eapply bool_decide_eq_true_1. exact H2.
Defined.

(** X12: Permute with a slice that is an involution of [0, dim()), in both
    variants: it returns no error and applies the permutation, so that
    afterwards index k holds the entry that was at pi[k] (and the entry that
    was at k is at pi[k]); indices outside the dimension are not touched. *)
Theorem Permute_applies_an_involution
  (h : Heap) (v : loc) (o : VECTOR_NAME) (co : Chan.VECTOR_TYPE) (pi : list Z) :
  vectors h !! v = Some o ->
  involution pi ->
  Z.of_nat (length pi) = n o -> Z.of_nat (length pi) = Chan.n co ->
  (exists h' o',
      Permute (Some v) pi h = Ret (None, h')
      /\ vectors h' !! v = Some o'
      /\ forall k, values o' !! k = values o !! pi_at pi k)
  /\ (exists co',
      Chan.Permute co pi = Ret (co', None)
      /\ forall k, Chan.entries co' !! k = Chan.entries co !! pi_at pi k).
Proof.
  intros Hv Hinv Hlen Hclen. split.
  - exact (Permute_vector_involution h v o pi Hv Hinv Hlen).
  - exact (Permute_chan_involution co pi Hinv Hclen).
Qed.

Lemma Permute_applies_an_involution_witness :
  (exists h' o',
      Permute (Some 1%positive) [2; 1; 0] gap_heap = Ret (None, h')
      /\ vectors h' !! 1%positive = Some o'
      /\ forall k, values o' !! k = values gap_vector !! pi_at [2; 1; 0] k)
  /\ (exists co',
      Chan.Permute chan_two [1; 0] = Ret (co', None)
      /\ forall k, Chan.entries co' !! k = Chan.entries chan_two !! pi_at [1; 0] k).
Proof.
  split.
  - apply (Permute_applies_an_involution gap_heap 1%positive gap_vector
             (Chan.mkVector (Chan.mkIndexSlice [] false) ∅ 3) [2; 1; 0]).
    + reflexivity.
    + apply involutionb_true. vm_compute. reflexivity.
    + reflexivity.
    + reflexivity.
  - apply (Permute_applies_an_involution
             (set_vector gap_heap 1%positive zero_first_vector) 1%positive
             zero_first_vector chan_two [1; 0]).
    + reflexivity.
    + apply involutionb_true. vm_compute. reflexivity.
    + reflexivity.
    + reflexivity.
Defined.

(** A run with a bijection that is no involution: [pi = [2; 0; 1]] on the
    vector that stores its entries 1, 2, 3 at the indices 0, 1, 2.  The
    entries end at the indices 2, 1, 0, which is neither [pi] nor its
    inverse applied. *)
Example Permute_with_a_cycle :
  rbind (Chan.Permute
           (Chan.mkVector (Chan.mkIndexSlice [0; 1; 2] false)
              (<[0 := Some 1%positive]>
                 (<[1 := Some 2%positive]> (<[2 := Some 3%positive]> ∅))) 3)
           [2; 0; 1])
    (fun r => Ret (snd r, Chan.entries (fst r) !! 0, Chan.entries (fst r) !! 1,
                   Chan.entries (fst r) !! 2))
  = Ret (None, Some (Some 3%positive), Some (Some 2%positive), Some (Some 1%positive)).
Proof. vm_compute. reflexivity. Qed.
(** ** Iterating after Permute *)

Lemma seqZ_sorted (m : Z) (k : nat) : StronglySorted Z.le (seqZ m (Z.of_nat k)).
Proof.
  revert m. induction k as [|k IH]; intros m.
  - rewrite seqZ_nil by lia. constructor.
  - rewrite seqZ_cons by lia.
    replace (Z.pred (Z.of_nat (S k))) with (Z.of_nat k) by lia.
    constructor; [apply IH|].
    apply Forall_forall. intros x Hx. apply elem_of_seqZ in Hx. lia.
Qed.

Lemma merge_sort_permutation_of_range (pi : list Z) (n_ : Z) :
  0 <= n_ -> pi ≡ₚ seqZ 0 n_ -> merge_sort Z.le pi = seqZ 0 n_.
Proof.
  intros Hn Hperm.
  apply (StronglySorted_unique Z.le).
  - apply StronglySorted_merge_sort; apply _.
  - rewrite <- (Z2Nat.id n_) by lia. apply seqZ_sorted.
  - rewrite merge_sort_Permutation. exact Hperm.
Qed.

(** X13: What a successful Permute does to the index structure.  The index is
    rebuilt from the whole of [pi], so with a permutation of [0, dim()) it
    lists every index of the vector, occupied or not.  An iteration then
    visits unoccupied indices: for a vector of dimension two or more whose
    index 1 is unoccupied after the permutation, the first Next() of a
    traversal tests the nil scalar it finds there and panics. *)
Theorem Iterate_after_Permute_panics (h : Heap) (v : loc) (o : VECTOR_NAME) (pi : list Z) :
  vectors h !! v = Some o ->
  pi ≡ₚ seqZ 0 (n o) -> 2 <= n o ->
  exists h' o',
    Permute (Some v) pi h = Ret (None, h')
    /\ vectors h' !! v = Some o'
    /\ sparseIndex o' = mkIndex pi false
    /\ (forall k, 0 <= k < n o -> k ∈ indices (sparseIndex o'))
    /\ (values o' !! 1 = None ->
        Iterate (Some v) h' = Panic "nil pointer dereference").
Proof.
  intros Hv Hperm Hn.
  destruct (Permute_vector_spec h v o pi Hv)
    as (e & h' & o' & Hrun & Hv' & _ & _ & He & _ & Hix).
  assert (Hlen : Z.of_nat (length pi) = n o).
  { rewrite (Permutation_length Hperm), length_seqZ. lia. }
  assert (Hok : rejected (n o) pi = false).
  { unfold rejected. rewrite Hlen, Z.eqb_refl. cbn [negb orb].
    apply not_true_is_false. intros Hex. apply existsb_exists in Hex as (p & Hp & Hbad).
    apply list_elem_of_In in Hp. rewrite Hperm in Hp. apply elem_of_seqZ in Hp.
    unfold invalid_entry in Hbad. apply orb_true_iff in Hbad as [Hbad|Hbad].
    - apply Z.ltb_lt in Hbad. lia.
    - apply Z.leb_le in Hbad. lia. }
  destruct e as [e|].
  { assert (Habs : rejected (n o) pi = true) by (apply He; eauto). congruence. }
  specialize (Hix eq_refl).
  exists h', o'. split; [exact Hrun|]. split; [exact Hv'|]. split; [exact Hix|].
  split.
  { intros k Hk. rewrite Hix. simpl. rewrite Hperm. apply elem_of_seqZ. lia. }
  intros Hnone. unfold Iterate.
  rewrite (bind_Ret _ _ _ _ _ (ITERATOR_run h' v o' Hv')).
  assert (Hsorted : indices (indexSort (sparseIndex o')) = 0 :: 1 :: seqZ 2 (n o - 2)).
  { rewrite Hix. unfold indexSort. simpl.
    rewrite (merge_sort_permutation_of_range pi (n o)) by (lia || exact Hperm).
    rewrite seqZ_cons by lia. rewrite seqZ_cons by lia.
    do 2 f_equal. f_equal; lia. }
  cbn [it_index]. rewrite Hsorted.
  cbn [length Iterate_loop Iterator_Ok it_index].
  unfold Iterator_Next. cbn [it_index it_v tail Next_loop].
  unfold Iterator_GET at 1. cbn [it_index it_v]. unfold Iterator_Index. cbn [it_index].
  unfold bind, ret, loadVector, nullScalar, loadScalar. simpl.
  rewrite lookup_insert_eq. simpl. rewrite Hnone. reflexivity.
Qed.

Lemma Iterate_after_Permute_panics_witness :
  exists h' o',
    Permute (Some 1%positive) [2; 1; 0] gap_heap = Ret (None, h')
    /\ vectors h' !! 1%positive = Some o'
    /\ sparseIndex o' = mkIndex [2; 1; 0] false
    /\ (forall k, 0 <= k < n gap_vector -> k ∈ indices (sparseIndex o'))
    /\ (values o' !! 1 = None ->
        Iterate (Some 1%positive) h' = Panic "nil pointer dereference").
Proof.
  apply (Iterate_after_Permute_panics gap_heap 1%positive gap_vector [2; 1; 0]).
  - reflexivity.
  - apply (bool_decide_eq_true_1 ([2; 1; 0] ≡ₚ seqZ 0 (n gap_vector))).
    vm_compute. reflexivity.
  - simpl. lia.
Defined.

(** That run: the permuted vector stores nothing at index 1, and the
    traversal panics. *)
Example Iterate_after_Permute_run :
  result_of ((Permute (Some 1%positive) [2; 1; 0] ;;; Iterate (Some 1%positive)) gap_heap)
  = Panic "nil pointer dereference".
Proof. vm_compute. reflexivity. Qed.

(** ** Import, beyond malformed tables *)

Section ImportRuns.

Variable ParseInt : string -> option Z.
Variable ParseFloat : string -> option float.

Lemma Import_lines_occupied (h : Heap) (v : loc) (o : VECTOR_NAME) :
  vectors h !! v = Some o -> size (values o) <> 0%nat ->
  forall lines st,
    Exists (fun line => Fields line <> []) lines ->
    Import_lines ParseInt ParseFloat (Some v) lines st h
    = Ret (inr invalid_sparse_table, h).
Proof.
  intros Hv Hsize. induction lines as [|line lines IH]; intros st Hex.
  - inversion Hex.
  - cbn [Import_lines]. destruct (Fields line) as [|f fields] eqn:Hf.
    + simpl. apply IH. apply Exists_cons in Hex as [Hex|Hex]; [congruence|exact Hex].
    + cbn [length Nat.eqb].
      rewrite (bind_Ret _ _ _ _ _ (loadVector_Some _ _ _ Hv)).
      destruct (Nat.eqb_spec (size (values o)) 0); [contradiction|]. reflexivity.
Qed.

Lemma Import_lines_blank (obj : ptr) (h : Heap) :
  forall lines st,
    Forall (fun line => Fields line = []) lines ->
    Import_lines ParseInt ParseFloat obj lines st h = Ret (inl st, h).
Proof.
  induction lines as [|line lines IH]; intros st Hall; [reflexivity|].
  apply Forall_cons in Hall as [Hline Hall].
  cbn [Import_lines]. rewrite Hline. simpl. apply IH. exact Hall.
Qed.

Lemma Import_fields_app (fs gs : list string) :
  forall st,
    Import_fields ParseInt ParseFloat (fs ++ gs) st
    = match Import_fields ParseInt ParseFloat fs st with
      | inl st' => Import_fields ParseInt ParseFloat gs st'
      | inr e => inr e
      end.
Proof.
  induction fs as [|f fs IH]; intros st; [reflexivity|].
  simpl. destruct (Split_colon f) as [|a [|b [|c l]]]; try reflexivity.
  destruct (ParseInt a); [|reflexivity].
  destruct (ParseFloat b); [|reflexivity]. apply IH.
Qed.

Lemma Import_lines_empty_target (h : Heap) (v : loc) (o : VECTOR_NAME) :
  vectors h !! v = Some o -> values o = ∅ ->
  forall lines st,
    Import_lines ParseInt ParseFloat (Some v) lines st h
    = Ret (Import_fields ParseInt ParseFloat (flat_map Fields lines) st, h).
Proof.
  intros Hv Hempty. induction lines as [|line lines IH]; intros st; [reflexivity|].
  cbn [Import_lines flat_map]. rewrite Import_fields_app.
  destruct (Fields line) as [|f fields] eqn:Hf.
  - simpl. apply IH.
  - cbn [length Nat.eqb].
    rewrite (bind_Ret _ _ _ _ _ (loadVector_Some _ _ _ Hv)).
    rewrite Hempty, map_size_empty. cbn [Nat.eqb negb].
    destruct (Import_fields ParseInt ParseFloat (f :: fields) st) as [st'|e];
      [apply IH|reflexivity].
Qed.

(** What [Import_fields] collects: one index and one value for each field,
    and as [n] the larger of the [n] it started with and one more than
    every index. *)
Lemma Import_fields_collects (fields : list string) :
  forall st st',
    Import_fields ParseInt ParseFloat fields st = inl st' ->
    exists ks xs,
      imp_indices st' = imp_indices st ++ ks
      /\ imp_values st' = imp_values st ++ xs
      /\ length ks = length fields /\ length xs = length fields
      /\ imp_n st <= imp_n st'
      /\ (Forall (fun k => - 2 ^ 63 <= k < 2 ^ 63 - 1) ks ->
          Forall (fun k => k < imp_n st') ks
          /\ (imp_n st' = imp_n st \/ imp_n st' - 1 ∈ ks)).
Proof.
  induction fields as [|f fields IH]; intros st st' Hrun.
  - simpl in Hrun. injection Hrun as <-. exists [], [].
    rewrite !app_nil_r. repeat split; auto; lia.
  - simpl in Hrun.
    destruct (Split_colon f) as [|a [|b [|c l]]]; try discriminate.
    destruct (ParseInt a) as [k|]; [|discriminate].
    destruct (ParseFloat b) as [x|]; [|discriminate].
    destruct (IH _ _ Hrun) as (ks & xs & Hks & Hxs & Hlk & Hlx & Hle & Hmax).
    simpl in Hks, Hxs, Hle.
    exists (k :: ks), (x :: xs).
    rewrite Hks, Hxs, <- !app_assoc. simpl.
    split; [reflexivity|]. split; [reflexivity|].
    split; [lia|]. split; [lia|].
    assert (Hn : imp_n st <= (if imp_n st <? int_add k 1 then int_add k 1 else imp_n st)).
    { destruct (Z.ltb_spec (imp_n st) (int_add k 1)); lia. }
    split; [lia|]. clear Hn.
    intros Hall. apply Forall_cons in Hall as [Hk Hall].
    destruct (Hmax Hall) as [Hlt Hlast]. cbn [imp_n] in Hlast.
    assert (Hk1 : int_add k 1 = k + 1).
    { unfold int_add. apply wrap_id. unfold in_int. lia. }
    rewrite Hk1 in Hle, Hlast.
    destruct (Z.ltb_spec (imp_n st) (k + 1)) as [Hgrow|Hkeep].
    + split.
      * constructor; [lia|exact Hlt].
      * destruct Hlast as [Heq|Hin]; [|right; right; exact Hin].
        right. rewrite Heq. replace (k + 1 - 1) with k by lia. left.
    + split.
      * constructor; [lia|exact Hlt].
      * destruct Hlast as [Heq|Hin]; [left; exact Heq|right; right; exact Hin].
Qed.

End ImportRuns.

Section ImportTables.

Variable ParseInt : string -> option Z.
Variable ParseFloat : string -> option float.

Lemma Chan_Import_fields_grows (fields : list string) :
  forall obj h obj' h',
    Chan.Import_fields ParseInt ParseFloat fields obj h = Ret ((obj', None), h') ->
    fields <> [] \/ Chan.entries obj <> ∅ ->
    Chan.entries obj' <> ∅.
Proof.
  induction fields as [|f fields IH]; intros obj h obj' h' Hrun Hne.
  - simpl in Hrun. injection Hrun as <- <-. destruct Hne; congruence.
  - simpl in Hrun.
    destruct (Split_colon f) as [|a [|b [|c l]]]; try discriminate.
    destruct (ParseInt a) as [k|]; [|discriminate].
    destruct (ParseFloat b) as [x|]; [|discriminate].
    unfold bind at 1, newScalar in Hrun.
    apply (IH _ _ _ _ Hrun). right. simpl. apply insert_non_empty.
Qed.

Lemma Chan_Import_lines_occupied (lines : list string) :
  forall obj h,
    Chan.entries obj <> ∅ ->
    Exists (fun line => Fields line <> []) lines ->
    Chan.Import_lines ParseInt ParseFloat lines obj h
    = Ret ((obj, Some invalid_sparse_table), h).
Proof.
  induction lines as [|line lines IH]; intros obj h Hne Hex.
  - inversion Hex.
  - cbn [Chan.Import_lines]. destruct (Fields line) as [|f fields] eqn:Hf.
    + simpl. apply IH; [exact Hne|].
      apply Exists_cons in Hex as [Hex|Hex]; [congruence|exact Hex].
    + cbn [length Nat.eqb].
      destruct (Nat.eqb_spec (size (Chan.entries obj)) 0) as [Hz|Hz]; [|reflexivity].
      apply map_size_empty_inv in Hz. contradiction.
Qed.

Lemma Chan_Import_lines_two (lines : list string) :
  forall obj h,
    all_new empty_heap obj ->
    (exists (i j : nat) l1 l2,
        (i < j)%nat /\ lines !! i = Some l1 /\ lines !! j = Some l2
        /\ Fields l1 <> [] /\ Fields l2 <> []) ->
    exists obj' h',
      Chan.Import_lines ParseInt ParseFloat lines obj h
      = Ret ((obj', Some invalid_sparse_table), h').
Proof.
  induction lines as [|line lines IH];
    intros obj h Hnew (i & j & l1 & l2 & Hij & Hi & Hj & Hf1 & Hf2).
  - rewrite lookup_nil in Hi. discriminate.
  - cbn [Chan.Import_lines]. destruct (Fields line) as [|f fields] eqn:Hf.
    + simpl. apply IH; [exact Hnew|].
      destruct i as [|i]; [simpl in Hi; congruence|].
      destruct j as [|j]; [lia|].
      exists i, j, l1, l2. simpl in Hi, Hj. repeat split; auto. lia.
    + cbn [length Nat.eqb].
      destruct (negb (size (Chan.entries obj) =? 0)%nat); [eauto|].
      destruct (Chan_Import_fields_result ParseInt ParseFloat empty_heap (f :: fields)
                  obj h Hnew)
        as (obj' & e & h' & Hrun & Hnew' & _ & He).
      { simpl. rewrite dom_empty_L. set_solver. }
      unfold bind at 1. rewrite Hrun. cbn [snd fst].
      destruct e as [e|].
      * destruct (existsb (bad_field ParseInt ParseFloat) (f :: fields));
          [|discriminate].
        injection He as ->. eauto.
      * assert (Hne : Chan.entries obj' <> ∅).
        { apply (Chan_Import_fields_grows _ _ _ _ _ Hrun). left. discriminate. }
        exists obj', h'. apply Chan_Import_lines_occupied; [exact Hne|].
        destruct j as [|j]; [lia|]. simpl in Hj.
        apply Exists_exists. exists l2. split; [|exact Hf2].
        apply list_elem_of_lookup. eauto.
Qed.

End ImportTables.

(** X14: Import of the iterator variant and the entries its target holds.  When
    the target holds an entry, every file with a line that is not blank is
    refused with the error of a malformed table, whatever it contains, and
    nothing is changed.  A file of blank lines only is accepted by any
    target, and leaves it the empty vector of dimension 0. *)
Theorem Import_needs_an_empty_target
  (ParseInt : string -> option Z) (ParseFloat : string -> option float)
  (h : Heap) (v : loc) (o : VECTOR_NAME) (lines : list string) :
  vectors h !! v = Some o ->
  (size (values o) <> 0%nat -> Exists (fun line => Fields line <> []) lines ->
   Import ParseInt ParseFloat (Some v) lines h = Ret (Some invalid_sparse_table, h))
  /\ (Forall (fun line => Fields line = []) lines ->
      exists h',
        Import ParseInt ParseFloat (Some v) lines h = Ret (None, h')
        /\ vectors h' !! v = Some (mkVector emptyIndex ∅ 0)
        /\ scalars h' = scalars h).
Proof.
  intros Hv. split.
  - intros Hsize Hex. unfold Import.
    rewrite (bind_Ret _ _ _ _ _
               (Import_lines_occupied ParseInt ParseFloat h v o Hv Hsize lines _ Hex)).
    reflexivity.
  - intros Hblank. unfold Import.
    rewrite (bind_Ret _ _ _ _ _
               (Import_lines_blank ParseInt ParseFloat (Some v) h lines _ Hblank)).
    cbn [imp_indices imp_values imp_n].
    set (r := fresh (dom (vectors h))).
    set (e := mkVector emptyIndex ∅ 0).
    set (h0 := mkHeap (scalars h) (<[r := e]> (vectors h))).
    assert (Hnew : NEW_VECTOR [] [] 0 h = Ret (Some r, h0)) by reflexivity.
    assert (Hne : r <> v).
    { intros Heq. apply (is_fresh (dom (vectors h))). fold r. rewrite Heq.
      apply elem_of_dom. eauto. }
    assert (Hr0 : vectors h0 !! r = Some e) by apply lookup_insert_eq.
    assert (Hv0 : vectors h0 !! v = Some o).
    { simpl. rewrite lookup_insert_ne by exact Hne. exact Hv. }
    rewrite (bind_Ret _ _ _ _ _ Hnew).
    rewrite (bind_Ret _ _ _ _ _ (loadVector_Some _ _ _ Hr0)).
    rewrite (bind_Ret _ _ _ _ _ (storeVector_Some _ _ _ _ Hv0)).
    eexists. split; [reflexivity|]. split; [apply lookup_insert_eq|reflexivity].
Qed.

Lemma Import_needs_an_empty_target_witness :
  (size (values zero_first_vector) <> 0%nat ->
   Exists (fun line => Fields line <> []) ["1:5"%string] ->
   Import decimal decimal_float (Some 1%positive) ["1:5"%string] zero_first
   = Ret (Some invalid_sparse_table, zero_first))
  /\ (Forall (fun line => Fields line = []) ["1:5"%string] ->
      exists h',
        Import decimal decimal_float (Some 1%positive) ["1:5"%string] zero_first
        = Ret (None, h')
        /\ vectors h' !! 1%positive = Some (mkVector emptyIndex ∅ 0)
        /\ scalars h' = scalars zero_first).
Proof.
  apply (Import_needs_an_empty_target decimal decimal_float zero_first 1%positive
           zero_first_vector ["1:5"%string]).
  reflexivity.
Defined.

(** X15: Import of the iterator variant into an empty target, for a file whose
    fields all parse, with indices that are ints below the largest int and
    are all different.  It returns no error.  The target then has as
    dimension one more than the largest index (0 when there is none that is
    not negative), stores exactly the values different from 0.0, each at its
    index, and its index structure lists exactly those indices. *)
Theorem Import_reads_a_table
  (ParseInt : string -> option Z) (ParseFloat : string -> option float)
  (h : Heap) (v : loc) (o : VECTOR_NAME) (lines : list string) (st : ImportState) :
  vectors h !! v = Some o -> values o = ∅ ->
  Import_fields ParseInt ParseFloat (flat_map Fields lines) (mkImport [] [] 0) = inl st ->
  NoDup (imp_indices st) ->
  Forall (fun k => - 2 ^ 63 <= k < 2 ^ 63 - 1) (imp_indices st) ->
  exists h' o',
    Import ParseInt ParseFloat (Some v) lines h = Ret (None, h')
    /\ vectors h' !! v = Some o'
    /\ scalars h ⊆ scalars h'
    /\ length (imp_indices st) = length (flat_map Fields lines)
    /\ length (imp_values st) = length (flat_map Fields lines)
    /\ 0 <= n o'
    /\ (forall k, k ∈ imp_indices st -> k < n o')
    /\ (n o' = 0 \/ n o' - 1 ∈ imp_indices st)
    /\ valid_vector h' (Some v)
    /\ index_mirrors o' /\ NoDup (indices (sparseIndex o'))
    /\ (forall k, k ∉ imp_indices st -> values o' !! k = None)
    /\ (forall k x, (k, x) ∈ zip (imp_indices st) (imp_values st) ->
          (is_Some (values o' !! k) <-> fnonzero x = true)
          /\ value_at h' o' k = if fnonzero x then x else fzero).
Proof.
  intros Hv Hempty Hparse Hnd Hint.
  destruct (Import_fields_collects ParseInt ParseFloat _ _ _ Hparse)
    as (ks & xs & Hks & Hxs & Hlk & Hlx & Hle & Hmax).
  simpl in Hks, Hxs, Hle. rewrite Hks in Hnd, Hint.
  destruct (Hmax Hint) as [Hlt Hlast]. simpl in Hlast.
  destruct (NEW_VECTOR_spec ks xs (imp_n st) h ltac:(lia) Hnd Hlt)
    as (r & h1 & o1 & Hrun & Hr & Hr1 & Hother & Hsub & Hn & Hvalid & Hm & Hnd1
        & Hout & Hin).
  assert (Hvr : v <> r) by (intros ->; congruence).
  assert (Hv1 : vectors h1 !! v = Some o) by (rewrite Hother by exact Hvr; exact Hv).
  exists (set_vector h1 v o1), o1. rewrite Hks, Hxs.
  split.
  { unfold Import.
    rewrite (bind_Ret _ _ _ _ _
               (Import_lines_empty_target ParseInt ParseFloat h v o Hv Hempty lines _)).
    rewrite Hparse, Hks, Hxs.
    rewrite (bind_Ret _ _ _ _ _ Hrun).
    rewrite (bind_Ret _ _ _ _ _ (loadVector_Some _ _ _ Hr1)).
    rewrite (bind_Ret _ _ _ _ _ (storeVector_Some _ _ _ _ Hv1)). reflexivity. }
  split; [apply set_vector_lookup|]. split; [exact Hsub|].
  split; [exact Hlk|]. split; [exact Hlx|]. split; [lia|].
  split.
  { intros k Hk. rewrite Hn. rewrite Forall_forall in Hlt. apply Hlt. exact Hk. }
  split; [rewrite Hn; exact Hlast|].
  split.
  { destruct Hvalid as (r0 & o0 & Heq & Hr0 & Hval).
    injection Heq as <-. rewrite Hr1 in Hr0. injection Hr0 as <-.
    exists v, o1. split; [reflexivity|]. split; [apply set_vector_lookup|exact Hval]. }
  split; [exact Hm|]. split; [exact Hnd1|]. split; [exact Hout|].
  intros k x Hx. destruct (Hin k x Hx) as (Hsome & _ & Hval).
  split; [exact Hsome|exact Hval].
Qed.

Lemma Import_reads_a_table_witness :
  exists h' o',
    Import decimal decimal_float (Some 2%positive) ["4:2 1:0"%string; "0:3"%string]
      zero_value_pair
    = Ret (None, h')
    /\ vectors h' !! 2%positive = Some o'
    /\ scalars zero_value_pair ⊆ scalars h'
    /\ length [4; 1; 0] = length (flat_map Fields ["4:2 1:0"%string; "0:3"%string])
    /\ length [2%float; fzero; 3%float]
       = length (flat_map Fields ["4:2 1:0"%string; "0:3"%string])
    /\ 0 <= n o'
    /\ (forall k, k ∈ [4; 1; 0] -> k < n o')
    /\ (n o' = 0 \/ n o' - 1 ∈ [4; 1; 0])
    /\ valid_vector h' (Some 2%positive)
    /\ index_mirrors o' /\ NoDup (indices (sparseIndex o'))
    /\ (forall k, k ∉ [4; 1; 0] -> values o' !! k = None)
    /\ (forall k x, (k, x) ∈ zip [4; 1; 0] [2%float; fzero; 3%float] ->
          (is_Some (values o' !! k) <-> fnonzero x = true)
          /\ value_at h' o' k = if fnonzero x then x else fzero).
Proof.
  apply (Import_reads_a_table decimal decimal_float zero_value_pair 2%positive
           (mkVector emptyIndex ∅ 3) ["4:2 1:0"%string; "0:3"%string]
           (mkImport [4; 1; 0] [2%float; fzero; 3%float] 5)).
  - reflexivity.
  - reflexivity.
  - vm_compute. reflexivity.
  - apply (bool_decide_eq_true_1 (NoDup [4; 1; 0])). vm_compute. reflexivity.
  - repeat constructor; lia.
Defined.

(** X16: Import of the channel variant takes its table from one line.  The test
    that refuses a target with entries is made at every line that is not
    blank, on the entries read so far; so every file that has two lines that
    are not blank is refused with the error of a malformed table, whatever
    the lines contain. *)
Theorem Chan_Import_reads_one_line
  (ParseInt : string -> option Z) (ParseFloat : string -> option float)
  (h : Heap) (obj : Chan.VECTOR_TYPE) (lines : list string)
  (i j : nat) (l1 l2 : string) :
  (i < j)%nat -> lines !! i = Some l1 -> lines !! j = Some l2 ->
  Fields l1 <> [] -> Fields l2 <> [] ->
  exists obj' h',
    Chan.Import ParseInt ParseFloat obj lines h
    = Ret ((obj', Some invalid_sparse_table), h').
Proof.
  intros Hij Hi Hj Hf1 Hf2. unfold Chan.Import.
  apply Chan_Import_lines_two.
  - intros k p Hk. simpl in Hk. rewrite lookup_empty in Hk. discriminate.
  - exists i, j, l1, l2. auto.
Qed.

Lemma Chan_Import_reads_one_line_witness :
  exists obj' h',
    Chan.Import decimal decimal_float chan_two ["0:1"%string; "1:2"%string] empty_heap
    = Ret ((obj', Some invalid_sparse_table), h').
Proof.
  apply (Chan_Import_reads_one_line decimal decimal_float empty_heap chan_two
           ["0:1"%string; "1:2"%string] 0 1 "0:1"%string "1:2"%string).
  - lia.
  - reflexivity.
  - reflexivity.
  - vm_compute. discriminate.
  - vm_compute. discriminate.
Defined.

(** The same two-line table read by both variants into empty vectors: the
    iterator variant accepts it, the channel variant refuses it. *)
Example Import_two_lines :
  result_of (Import decimal decimal_float (Some 2%positive)
               ["0:1"%string; "1:2"%string] zero_value_pair)
  = Ret None
  /\ result_of ((r <- Chan.Import decimal decimal_float (Chan.NIL_VECTOR 0)
                        ["0:1"%string; "1:2"%string] ;; ret (snd r)) empty_heap)
     = Ret (Some invalid_sparse_table).
Proof. split; vm_compute; reflexivity. Qed.

(** ** Writing and reading a matrix *)

Lemma ValueAt_ConstAt (obj : ptr) (i : Z) (h : Heap) :
  (c <- ConstAt obj i ;; ConstScalar_GetValue c) h = ValueAt obj i h.
Proof.
  unfold ConstAt, ValueAt, bind, Dim, ret, ConstScalar_GetValue, ConstScalar_load, bind.
  destruct (loadVector obj h) as [[o h1]| |]; try reflexivity.
  destruct (out_of_bounds i (n o)); [reflexivity|].
  destruct (loadVector obj h1) as [[o1 h2]| |]; try reflexivity.
  destruct (values o1 !! i) as [p|]; [|reflexivity].
  unfold ret. destruct (loadScalar p h2) as [[s h3]| |]; reflexivity.
Qed.

Lemma Matrix_ValueAt_index (m : MATRIX_NAME) (i j k : Z) (h : Heap) :
  index m i j = Ret k ->
  Matrix_ValueAt m i j h = ValueAt (mvalues m) k h
  /\ Matrix_AT m i j h = AT (mvalues m) k h.
Proof.
  intros Hk. unfold Matrix_ValueAt, Matrix_AT. unfold bind at 1 3, lift.
  rewrite Hk. cbn [rbind]. split; [apply ValueAt_ConstAt|reflexivity].
Qed.

Lemma Matrix_store_spec (h : Heap) (m : MATRIX_NAME) (v : loc) (o : VECTOR_NAME)
  (i j : Z) (s' : Scalar) :
  well_shaped m -> mvalues m = Some v ->
  vectors h !! v = Some o -> valid_vector h (Some v) ->
  n o = rowMax m * colMax m -> distinct_entries o ->
  0 <= i < rows m -> 0 <= j < cols m ->
  exists k l h2 o2,
    index m i j = Ret k /\ 0 <= k < n o
    /\ (p <- Matrix_AT m i j ;; storeScalar p s' ;;; ret p) h = Ret (Some l, h2)
    /\ vectors h2 !! v = Some o2
    /\ (forall u, u <> v -> vectors h2 !! u = vectors h !! u)
    /\ valid_vector h2 (Some v)
    /\ n o2 = n o /\ distinct_entries o2
    /\ value_at h2 o2 k = GetValue s'
    /\ forall k', k' <> k -> value_at h2 o2 k' = value_at h o k'.
Proof.
  intros Hm Hmv Hv Hvalid Hn Hdist Hi Hj.
  destruct (index_storage m i j i j Hm Hi Hj Hi Hj) as [(k & Hk & Hkr) _].
  destruct (AT_store_spec h v o k s' Hv Hvalid ltac:(lia))
    as (l & h2 & o2 & Hrun & Hv2 & Hother & Hn2 & Hvals & Hfresh & Hsame & Hscal & Hvalid2).
  pose proof Hvalid as (u & o0 & Heq & Hu & Hval).
  injection Heq as <-. rewrite Hv in Hu. injection Hu as <-.
  assert (Hnot : forall k', k' <> k -> values o !! k' <> Some (Some l)).
  { intros k' Hne Hk'. destruct (values o !! k) as [p|] eqn:Hp.
    - rewrite (Hsame p eq_refl) in Hp. apply Hne. exact (Hdist k' k l Hk' Hp).
    - specialize (Hfresh eq_refl). destruct (Hval k' _ Hk') as (l0 & Hl0 & [s0 Hs0]).
      injection Hl0 as <-. congruence. }
  destruct (value_at_after_store h h2 o o2 k l s' Hvals Hscal) as [Hread Hkeep].
  exists k, l, h2, o2. split; [exact Hk|]. split; [lia|].
  split.
  { unfold bind at 1. rewrite (proj2 (Matrix_ValueAt_index m i j k h Hk)), Hmv.
    exact Hrun. }
  split; [exact Hv2|]. split; [exact Hother|]. split; [exact Hvalid2|].
  split; [exact Hn2|]. split.
  { intros k1 k2 l0. rewrite Hvals. intros H1 H2.
    apply lookup_insert_Some in H1 as [[<- H1]|[Hne1 H1]];
      apply lookup_insert_Some in H2 as [[<- H2]|[Hne2 H2]].
    - reflexivity.
    - injection H1 as <-. exfalso. apply (Hnot k2); [congruence|exact H2].
    - injection H2 as <-. exfalso. apply (Hnot k1); [congruence|exact H1].
    - exact (Hdist k1 k2 l0 H1 H2). }
  split; [exact Hread|].
  intros k' Hne. apply Hkeep; [exact Hne|]. apply Hnot. exact Hne.
Qed.

(** X17: Writing an element of a matrix and reading it back.  For a well-shaped
    matrix, in either orientation and for any slice, over a backing vector
    as large as its storage whose entries are allocated scalars, no two of
    them the same: storing a scalar at the pointer AT(i, j) returns makes
    ValueAt(i, j) return the value stored, makes the transposed view return
    it at (j, i), and leaves the value read at every other position
    unchanged. *)
Theorem Matrix_write_then_read (h : Heap) (m : MATRIX_NAME) (v : loc) (o : VECTOR_NAME)
  (i j : Z) (s' : Scalar) :
  well_shaped m -> mvalues m = Some v ->
  vectors h !! v = Some o -> valid_vector h (Some v) ->
  n o = rowMax m * colMax m -> distinct_entries o ->
  0 <= i < rows m -> 0 <= j < cols m ->
  exists p h2,
    (p <- Matrix_AT m i j ;; storeScalar p s' ;;; ret p) h = Ret (p, h2)
    /\ Matrix_ValueAt m i j h2 = Ret (GetValue s', h2)
    /\ Matrix_ValueAt (T m) j i h2 = Ret (GetValue s', h2)
    /\ forall i' j', 0 <= i' < rows m -> 0 <= j' < cols m -> (i', j') <> (i, j) ->
         exists x, Matrix_ValueAt m i' j' h = Ret (x, h)
                   /\ Matrix_ValueAt m i' j' h2 = Ret (x, h2).
Proof.
  intros Hm Hmv Hv Hvalid Hn Hdist Hi Hj.
  destruct (Matrix_store_spec h m v o i j s' Hm Hmv Hv Hvalid Hn Hdist Hi Hj)
    as (k & l & h2 & o2 & Hk & Hkr & Hrun & Hv2 & _ & Hvalid2 & Hn2 & _ & Hread & Hkeep).
  assert (Hij : Matrix_ValueAt m i j h2 = Ret (GetValue s', h2)).
  { rewrite (proj1 (Matrix_ValueAt_index m i j k h2 Hk)), Hmv.
    rewrite (ValueAt_run h2 v o2 k Hv2 Hvalid2) by lia. rewrite Hread. reflexivity. }
  exists (Some l), h2. split; [exact Hrun|]. split; [exact Hij|].
  split.
  { unfold Matrix_ValueAt in *. rewrite index_T. exact Hij. }
  intros i' j' Hi' Hj' Hne.
  destruct (index_storage m i' j' i j Hm Hi' Hj' Hi Hj) as [(k' & Hk' & Hkr') Hinj].
  assert (Hkk : k' <> k).
  { intros ->. apply Hne. destruct Hinj as [-> ->]; [congruence|reflexivity]. }
  exists (value_at h o k'). split.
  - rewrite (proj1 (Matrix_ValueAt_index m i' j' k' h Hk')), Hmv.
    apply ValueAt_run; [exact Hv|exact Hvalid|lia].
  - rewrite (proj1 (Matrix_ValueAt_index m i' j' k' h2 Hk')), Hmv.
    rewrite (ValueAt_run h2 v o2 k' Hv2 Hvalid2) by lia.
    rewrite (Hkeep k' Hkk). reflexivity.
Qed.

Lemma distinct_entriesb_true (o : VECTOR_NAME) :
  distinct_entriesb o = true -> distinct_entries o.
Proof.
  unfold distinct_entriesb. intros Hb.
  assert (Hnd : NoDup (map snd (map_to_list (values o))))
    by (eapply bool_decide_eq_true_1; exact Hb).
  assert (Hinj : forall (l : list (Z * ptr)) a b,
            NoDup (map snd l) -> a ∈ l -> b ∈ l -> snd a = snd b -> a = b).
  { induction l as [|x l IH]; intros a b Hn Ha Hb' Heq; [inversion Ha|].
    simpl in Hn. apply NoDup_cons in Hn as [Hx Hn].
    apply elem_of_cons in Ha as [->|Ha]; apply elem_of_cons in Hb' as [->|Hb'].
    - reflexivity.
    - exfalso. apply Hx. rewrite Heq. apply list_elem_of_fmap. eauto.
    - exfalso. apply Hx. rewrite <- Heq. apply list_elem_of_fmap. eauto.
    - apply IH; assumption. }
  intros k k' l Hk Hk'.
  assert (Heq : (k, Some l) = (k', Some l)).
  { apply (Hinj (map_to_list (values o))); [exact Hnd| | |reflexivity];
      apply elem_of_map_to_list; assumption. }
  congruence.
Defined.

Lemma Matrix_write_then_read_witness :
  exists p h2,
    (p <- Matrix_AT (fst asymmetric_2x2) 1 1 ;; storeScalar p (NEW_SCALAR 9%float) ;;; ret p)
      (snd asymmetric_2x2)
    = Ret (p, h2)
    /\ Matrix_ValueAt (fst asymmetric_2x2) 1 1 h2 = Ret (GetValue (NEW_SCALAR 9%float), h2)
    /\ Matrix_ValueAt (T (fst asymmetric_2x2)) 1 1 h2
       = Ret (GetValue (NEW_SCALAR 9%float), h2)
    /\ forall i' j', 0 <= i' < rows (fst asymmetric_2x2) ->
         0 <= j' < cols (fst asymmetric_2x2) -> (i', j') <> (1, 1) ->
         exists x, Matrix_ValueAt (fst asymmetric_2x2) i' j' (snd asymmetric_2x2)
                   = Ret (x, snd asymmetric_2x2)
                   /\ Matrix_ValueAt (fst asymmetric_2x2) i' j' h2 = Ret (x, h2).
Proof.
  apply (Matrix_write_then_read (snd asymmetric_2x2) (fst asymmetric_2x2) 1%positive
           stored_2x2 1 1 (NEW_SCALAR 9%float)).
  - unfold well_shaped. simpl. lia.
  - reflexivity.
  - reflexivity.
  - apply valid_vectorb_true. vm_compute. reflexivity.
  - reflexivity.
  - apply distinct_entriesb_true. vm_compute. reflexivity.
  - simpl. lia.
  - simpl. lia.
Defined.

(** ** Slices of a matrix *)

Lemma Slice_loop_total (v r : loc) (o : VECTOR_NAME) (i j : Z) :
  r <> v ->
  forall it h ro,
    vectors h !! v = Some o ->
    vectors h !! r = Some ro ->
    exists ro', Slice_loop (Some v) (Some r) i j it h = Ret (tt, set_vector h r ro').
Proof.
  intros Hrv. induction it as [|k it IH]; intros h ro Hv Hr; simpl.
  - exists ro. rewrite set_vector_same by exact Hr. reflexivity.
  - destruct (j <=? k).
    + exists ro. rewrite set_vector_same by exact Hr. reflexivity.
    + rewrite (bind_Ret _ _ _ _ _ (loadVector_Some _ _ _ Hv)).
      rewrite (bind_Ret _ _ _ _ _
                 (set_values_run h r ro (int_sub k i) (map_read (values o) k) Hr)).
      rewrite (bind_Ret _ _ _ _ _
                 (vector_indexInsert_run _ r _ (int_sub k i) (set_vector_lookup _ _ _))).
      rewrite set_vector_twice. cbn [sparseIndex values n].
      set (ro1 := mkVector (indexInsert (sparseIndex ro) (int_sub k i))
                    (<[int_sub k i := map_read (values o) k]> (values ro)) (n ro)).
      destruct (IH (set_vector h r ro1) ro1) as [ro' Hrun].
      { rewrite set_vector_lookup_ne by congruence. exact Hv. }
      { apply set_vector_lookup. }
      exists ro'. rewrite Hrun, set_vector_twice. reflexivity.
Qed.

(** What a heap keeps of another: the scalars, and the entries and the
    dimension of every vector *)
Lemma Slice_frame (h : Heap) (v : loc) (o : VECTOR_NAME) (i j : Z) :
  vectors h !! v = Some o ->
  exists r h',
    Slice (Some v) i j h = Ret (Some r, h')
    /\ scalars h' = scalars h
    /\ forall u ou, vectors h !! u = Some ou ->
         exists ou', vectors h' !! u = Some ou' /\ values ou' = values ou /\ n ou' = n ou.
Proof.
  intros Hv.
  set (r := fresh (dom (vectors h))).
  assert (Hfresh : vectors h !! r = None).
  { apply not_elem_of_dom. apply is_fresh. }
  assert (Hrv : r <> v) by (intros ->; congruence).
  set (ro0 := mkVector emptyIndex ∅ (int_sub j i)).
  set (h1 := set_vector h r ro0).
  assert (Hv1 : vectors h1 !! v = Some o).
  { unfold h1. rewrite set_vector_lookup_ne by congruence. exact Hv. }
  set (o1 := mkVector (indexSort (sparseIndex o)) (values o) (n o)).
  set (h2 := set_vector h1 v o1).
  destruct (Slice_loop_total v r o1 i j Hrv
              (drop_below i (indices (indexSort (sparseIndex o)))) h2 ro0)
    as [ro' Hloop].
  { apply set_vector_lookup. }
  { unfold h2. rewrite set_vector_lookup_ne by congruence. apply set_vector_lookup. }
  exists r, (set_vector h2 r ro'). split.
  { unfold Slice. unfold bind at 1, NIL_VECTOR, newVector. fold r ro0.
    change (mkHeap (scalars h) (<[r := ro0]> (vectors h))) with h1.
    unfold vector_indexIteratorFrom, indexIteratorFrom.
    unfold bind at 1. unfold bind at 1.
    rewrite (loadVector_Some _ _ _ Hv1).
    unfold bind at 1. rewrite (storeVector_Some _ _ _ _ Hv1). fold o1.
    change (mkHeap (scalars h1) (<[v := o1]> (vectors h1))) with h2.
    unfold ret at 1. unfold bind at 1. rewrite Hloop. reflexivity. }
  split; [reflexivity|].
  intros u ou Hu.
  destruct (decide (u = r)) as [->|Hur]; [congruence|].
  rewrite set_vector_lookup_ne by exact Hur. unfold h2.
  destruct (decide (u = v)) as [->|Huv].
  - rewrite set_vector_lookup. rewrite Hv in Hu. injection Hu as <-.
    exists o1. auto.
  - rewrite set_vector_lookup_ne by exact Huv. unfold h1.
    rewrite set_vector_lookup_ne by exact Hur. exists ou. auto.
Qed.

Lemma initTmp_one_frame (h : Heap) (tmp : ptr) (k : Z) :
  (forall t, tmp = Some t -> is_Some (vectors h !! t)) ->
  exists t h',
    initTmp_one tmp k h = Ret (Some t, h')
    /\ scalars h' = scalars h
    /\ forall u ou, vectors h !! u = Some ou ->
         exists ou', vectors h' !! u = Some ou' /\ values ou' = values ou /\ n ou' = n ou.
Proof.
  intros Halloc.
  assert (Hnull : exists t h',
             NULL_VECTOR k h = Ret (Some t, h') /\ scalars h' = scalars h
             /\ forall u ou, vectors h !! u = Some ou ->
                  exists ou', vectors h' !! u = Some ou' /\ values ou' = values ou
                              /\ n ou' = n ou).
  { eexists _, _. split; [reflexivity|]. split; [reflexivity|].
    intros u ou Hu. exists ou. simpl. rewrite lookup_insert_ne; [auto|].
    intros <-. apply (is_fresh (dom (vectors h))). apply elem_of_dom. eauto. }
  destruct tmp as [t|]; [|exact Hnull].
  destruct (Halloc t eq_refl) as [ot Hot].
  unfold initTmp_one, Dim.
  rewrite (bind_Ret _ _ _ _ _ (bind_Ret _ _ _ _ _ (loadVector_Some _ _ _ Hot))).
  cbv beta. destruct (n ot <? k); [exact Hnull|].
  apply Slice_frame with (o := ot). exact Hot.
Qed.

Lemma ConstAt_frame (h h' : Heap) (v : ptr) (k : Z) :
  (forall u ou, vectors h !! u = Some ou ->
     exists ou', vectors h' !! u = Some ou' /\ values ou' = values ou /\ n ou' = n ou) ->
  (exists u, v = Some u /\ is_Some (vectors h !! u)) ->
  result_of (ConstAt v k h') = result_of (ConstAt v k h).
Proof.
  intros Hframe (u & -> & [ou Hu]).
  destruct (Hframe u ou Hu) as (ou' & Hu' & Hvals & Hn).
  unfold ConstAt, Dim.
  rewrite (bind_Ret _ _ _ _ _ (bind_Ret _ _ _ _ _ (loadVector_Some _ _ _ Hu))).
  rewrite (bind_Ret _ _ _ _ _ (bind_Ret _ _ _ _ _ (loadVector_Some _ _ _ Hu'))).
  cbv beta. rewrite Hn. destruct (out_of_bounds k (n ou)); [reflexivity|].
  rewrite (bind_Ret _ _ _ _ _ (loadVector_Some _ _ _ Hu)).
  rewrite (bind_Ret _ _ _ _ _ (loadVector_Some _ _ _ Hu')).
  rewrite Hvals. destruct (values ou !! k); reflexivity.
Qed.

(** X18: Slice of a matrix is a window on the same storage.  For a well-shaped
    matrix, in either orientation, and bounds inside its dimensions, the
    slice has the dimensions of the window, shares the backing vector and
    is well-shaped again; position (i, j) of the slice is position
    (rfrom+i, cfrom+j) of the matrix, for reads and for writes.  Making the
    slice changes no scalar and no entry of any vector; it only allocates
    scratch vectors. *)
Theorem Matrix_Slice_is_a_window (h : Heap) (m : MATRIX_NAME) (rfrom rto cfrom cto : Z) :
  well_shaped m -> scratch_allocated h m ->
  0 <= rfrom <= rto -> rto <= rows m ->
  0 <= cfrom <= cto -> cto <= cols m ->
  exists m' h',
    Matrix_Slice m rfrom rto cfrom cto h = Ret (m', h')
    /\ mvalues m' = mvalues m /\ transposed m' = transposed m
    /\ Dims m' = (rto - rfrom, cto - cfrom)
    /\ well_shaped m'
    /\ scalars h' = scalars h
    /\ (forall u ou, vectors h !! u = Some ou ->
          exists ou', vectors h' !! u = Some ou' /\ values ou' = values ou
                      /\ n ou' = n ou)
    /\ forall i j, 0 <= i < rto - rfrom -> 0 <= j < cto - cfrom ->
         index m' i j = index m (rfrom + i) (cfrom + j)
         /\ Matrix_ConstAt m' i j h' = Matrix_ConstAt m (rfrom + i) (cfrom + j) h'
         /\ Matrix_AT m' i j h' = Matrix_AT m (rfrom + i) (cfrom + j) h'.
Proof.
  intros Hm Hscratch Hr Hrto Hc Hcto.
  pose proof Hm as (Hro & Hrows & Hrm & Hco & Hcols & Hcm & Hrmax & Hcmax & Hsize).
  assert (E1 : int_sub rto rfrom = rto - rfrom)
    by (unfold int_sub; apply wrap_id; unfold in_int; lia).
  assert (E2 : int_sub cto cfrom = cto - cfrom)
    by (unfold int_sub; apply wrap_id; unfold in_int; lia).
  assert (E3 : int_add (rowOffset m) rfrom = rowOffset m + rfrom)
    by (unfold int_add; apply wrap_id; unfold in_int; lia).
  assert (E4 : int_add (colOffset m) cfrom = colOffset m + cfrom)
    by (unfold int_add; apply wrap_id; unfold in_int; lia).
  unfold Matrix_Slice. rewrite E1, E2, E3, E4. unfold initTmp.
  cbn [tmp1 tmp2 rows cols mvalues rowOffset rowMax colOffset colMax transposed].
  destruct (initTmp_one_frame h (tmp1 m) (rto - rfrom)) as (t1 & h1 & Ht1 & Hs1 & Hf1).
  { intros t Ht. apply Hscratch. left. exact Ht. }
  destruct (initTmp_one_frame h1 (tmp2 m) (cto - cfrom)) as (t2 & h2 & Ht2 & Hs2 & Hf2).
  { intros t Ht. destruct (Hscratch t ltac:(right; exact Ht)) as [ot Hot].
    destruct (Hf1 t ot Hot) as (ot' & Hot' & _). eauto. }
  rewrite (bind_Ret _ _ _ _ _ Ht1), (bind_Ret _ _ _ _ _ Ht2).
  eexists _, h2. split; [reflexivity|].
  set (m' := mkMatrix (mvalues m) (rto - rfrom) (cto - cfrom) (rowOffset m + rfrom)
               (rowMax m) (colOffset m + cfrom) (colMax m) (transposed m)
               (Some t1) (Some t2)).
  assert (Hm' : well_shaped m') by (unfold well_shaped, m'; simpl; lia).
  split; [reflexivity|]. split; [reflexivity|]. split; [reflexivity|].
  split; [exact Hm'|]. split; [congruence|].
  split.
  { intros u ou Hu. destruct (Hf1 u ou Hu) as (ou1 & Hu1 & Hv1 & Hn1).
    destruct (Hf2 u ou1 Hu1) as (ou2 & Hu2 & Hv2 & Hn2).
    exists ou2. split; [exact Hu2|]. split; congruence. }
  intros i j Hi Hj.
  assert (Hidx : index m' i j = index m (rfrom + i) (cfrom + j)).
  { destruct (index_position m' i j Hm') as (Hk' & _); [simpl; lia|simpl; lia|].
    destruct (index_position m (rfrom + i) (cfrom + j) Hm) as (Hk & _); [lia|lia|].
    rewrite Hk', Hk. unfold m'. simpl.
    destruct (transposed m); f_equal; lia. }
  split; [exact Hidx|].
  unfold Matrix_ConstAt, Matrix_AT. rewrite Hidx. split; reflexivity.
Qed.

Lemma Matrix_Slice_is_a_window_witness :
  exists m' h',
    Matrix_Slice (fst asymmetric_2x2) 1 2 0 2 (snd asymmetric_2x2) = Ret (m', h')
    /\ mvalues m' = mvalues (fst asymmetric_2x2)
    /\ transposed m' = transposed (fst asymmetric_2x2)
    /\ Dims m' = (2 - 1, 2 - 0)
    /\ well_shaped m'
    /\ scalars h' = scalars (snd asymmetric_2x2)
    /\ (forall u ou, vectors (snd asymmetric_2x2) !! u = Some ou ->
          exists ou', vectors h' !! u = Some ou' /\ values ou' = values ou
                      /\ n ou' = n ou)
    /\ forall i j, 0 <= i < 2 - 1 -> 0 <= j < 2 - 0 ->
         index m' i j = index (fst asymmetric_2x2) (1 + i) (0 + j)
         /\ Matrix_ConstAt m' i j h' = Matrix_ConstAt (fst asymmetric_2x2) (1 + i) (0 + j) h'
         /\ Matrix_AT m' i j h' = Matrix_AT (fst asymmetric_2x2) (1 + i) (0 + j) h'.
Proof.
  apply (Matrix_Slice_is_a_window (snd asymmetric_2x2) (fst asymmetric_2x2) 1 2 0 2).
  - unfold well_shaped. simpl. lia.
  - intros t [Ht|Ht]; simpl in Ht; injection Ht as <-; vm_compute; eauto.
  - lia.
  - simpl. lia.
  - lia.
  - simpl. lia.
Defined.

(** A run: the second row of the 2x2 matrix with 5.0 at (0,1) and 7.0 at
    (1,0), read through a slice. *)
Example Matrix_Slice_run :
  result_of ((s <- Matrix_Slice (fst asymmetric_2x2) 1 2 0 2 ;;
              x <- Matrix_ValueAt s 0 0 ;;
              y <- Matrix_ValueAt s 0 1 ;;
              ret (Dims s, x, y)) (snd asymmetric_2x2))
  = Ret ((1, 2), 7%float, fzero).
Proof. vm_compute. reflexivity. Qed.

(** ** The row and column permutations of a matrix *)

Lemma index_inside (m : MATRIX_NAME) (i j : Z) :
  0 <= i < rows m -> 0 <= j < cols m -> exists k, index m i j = Ret k.
Proof.
  intros Hi Hj. unfold index.
  destruct (Z.ltb_spec i 0); [lia|]. destruct (Z.ltb_spec j 0); [lia|].
  destruct (Z.leb_spec (rows m) i); [lia|]. destruct (Z.leb_spec (cols m) j); [lia|].
  cbn [orb]. destruct (transposed m); eauto.
Qed.

Lemma index_outside (m : MATRIX_NAME) (i j : Z) :
  rows m <= i \/ cols m <= j -> index m i j = Panic "index out of bounds for matrix".
Proof.
  intros Hout. unfold index.
  destruct (i <? 0); [reflexivity|]. destruct (j <? 0); [reflexivity|]. cbn [orb].
  destruct (Z.leb_spec (rows m) i); [reflexivity|].
  destruct (Z.leb_spec (cols m) j); [reflexivity|]. lia.
Qed.

Lemma upto_elem (n_ k : Z) : k ∈ upto n_ -> 0 <= k < n_.
Proof.
  unfold upto. intros Hk. apply list_elem_of_fmap in Hk as (i & -> & Hi).
  apply elem_of_seq in Hi. lia.
Qed.

Lemma Matrix_Swap_runs (h : Heap) (m : MATRIX_NAME) (v : loc) (i1 j1 i2 j2 : Z) :
  mvalues m = Some v -> is_Some (vectors h !! v) ->
  0 <= i1 < rows m -> 0 <= j1 < cols m -> 0 <= i2 < rows m -> 0 <= j2 < cols m ->
  exists h', Matrix_Swap m i1 j1 i2 j2 h = Ret (tt, h')
             /\ is_Some (vectors h' !! v).
Proof.
  intros Hmv [o Hv] Hi1 Hj1 Hi2 Hj2.
  destruct (index_inside m i1 j1 Hi1 Hj1) as [k1 Hk1].
  destruct (index_inside m i2 j2 Hi2 Hj2) as [k2 Hk2].
  unfold Matrix_Swap. unfold bind at 1, lift. rewrite Hk1. cbn [rbind].
  unfold bind at 1. rewrite Hk2. cbn [rbind]. rewrite Hmv.
  rewrite (Swap_run h v o k1 k2 Hv). eexists. split; [reflexivity|].
  rewrite set_vector_lookup. eauto.
Qed.

Lemma SwapRows_runs (h : Heap) (m : MATRIX_NAME) (v : loc) (i j : Z) :
  mvalues m = Some v -> is_Some (vectors h !! v) ->
  rows m = cols m -> 0 <= i < rows m -> 0 <= j < rows m ->
  (exists h', SwapRows m i j h = Ret (None, h') /\ is_Some (vectors h' !! v))
  /\ (exists h', SwapColumns m i j h = Ret (None, h') /\ is_Some (vectors h' !! v)).
Proof.
  intros Hmv Hv Hsq Hi Hj.
  assert (Hrows : forall ks h, is_Some (vectors h !! v) ->
            (forall k, k ∈ ks -> 0 <= k < cols m) ->
            exists h', SwapRows_loop m i j ks h = Ret (tt, h')
                       /\ is_Some (vectors h' !! v)).
  { induction ks as [|k ks IH]; intros h0 Hv0 Hks; [simpl; eauto|].
    destruct (Matrix_Swap_runs h0 m v i k j k Hmv Hv0 Hi
                ltac:(apply Hks; left) Hj ltac:(apply Hks; left)) as (h1 & Hrun & Hv1).
    destruct (IH h1 Hv1) as (h2 & Hrun2 & Hv2).
    { intros k' Hk'. apply Hks. right. exact Hk'. }
    exists h2. cbn [SwapRows_loop]. rewrite (bind_Ret _ _ _ _ _ Hrun). auto. }
  assert (Hcols : forall ks h, is_Some (vectors h !! v) ->
            (forall k, k ∈ ks -> 0 <= k < rows m) ->
            exists h', SwapColumns_loop m i j ks h = Ret (tt, h')
                       /\ is_Some (vectors h' !! v)).
  { induction ks as [|k ks IH]; intros h0 Hv0 Hks; [simpl; eauto|].
    destruct (Matrix_Swap_runs h0 m v k i k j Hmv Hv0 ltac:(apply Hks; left)
                ltac:(lia) ltac:(apply Hks; left) ltac:(lia)) as (h1 & Hrun & Hv1).
    destruct (IH h1 Hv1) as (h2 & Hrun2 & Hv2).
    { intros k' Hk'. apply Hks. right. exact Hk'. }
    exists h2. cbn [SwapColumns_loop]. rewrite (bind_Ret _ _ _ _ _ Hrun). auto. }
  unfold SwapRows, SwapColumns, Dims. cbn [fst snd].
  rewrite Hsq, Z.eqb_refl. cbn [negb]. split.
  - destruct (Hrows (upto (cols m)) h Hv) as (h' & Hrun & Hv').
    { intros k Hk. apply upto_elem. exact Hk. }
    exists h'. rewrite (bind_Ret _ _ _ _ _ Hrun). auto.
  - destruct (Hcols (upto (cols m)) h Hv) as (h' & Hrun & Hv').
    { intros k Hk. apply upto_elem in Hk. lia. }
    exists h'. rewrite (bind_Ret _ _ _ _ _ Hrun). auto.
Qed.

Lemma SwapRows_outside (h : Heap) (m : MATRIX_NAME) (v : loc) (i : Z) :
  mvalues m = Some v -> is_Some (vectors h !! v) ->
  rows m = cols m -> 0 <= i < rows m ->
  SwapRows m i (rows m) h = Panic "index out of bounds for matrix"
  /\ SwapColumns m i (rows m) h = Panic "index out of bounds for matrix".
Proof.
  intros Hmv Hv Hsq Hi.
  assert (Hup : upto (cols m) = 0 :: map Z.of_nat (seq 1 (Z.to_nat (cols m) - 1))).
  { unfold upto. destruct (Z.to_nat (cols m)) as [|c] eqn:Hc; [lia|].
    simpl. rewrite Nat.sub_0_r. reflexivity. }
  destruct (index_inside m i 0 Hi ltac:(lia)) as [k1 Hk1].
  destruct (index_inside m 0 i ltac:(lia) ltac:(lia)) as [k2 Hk2].
  unfold SwapRows, SwapColumns, Dims. cbn [fst snd].
  rewrite Hsq, Z.eqb_refl. cbn [negb]. rewrite <- Hsq at 2. rewrite Hsq at 1.
  rewrite Hup. cbn [SwapRows_loop SwapColumns_loop]. unfold Matrix_Swap.
  split.
  - unfold bind at 1. unfold bind at 1. unfold bind at 1. unfold lift at 1.
    rewrite Hk1. cbn [rbind]. unfold bind at 1. unfold lift.
    rewrite (index_outside m (cols m) 0) by lia. reflexivity.
  - unfold bind at 1. unfold bind at 1. unfold bind at 1. unfold lift at 1.
    rewrite Hk2. cbn [rbind]. unfold bind at 1. unfold lift.
    rewrite (index_outside m 0 (cols m)) by lia. reflexivity.
Qed.

Lemma Permute_matrix_loop_panics (test : Z -> Z -> bool) (swap : Z -> Z -> M unit)
  (n_ : Z) (pi : list Z) (P : Heap -> Prop) (msg : string) (i0 : nat) :
  (forall h i p, P h -> 0 <= i < n_ -> 0 <= p < n_ ->
     exists h', swap i p h = Ret (tt, h') /\ P h') ->
  (forall h, P h -> swap (Z.of_nat i0) n_ h = Panic msg) ->
  test (Z.of_nat i0) n_ = true ->
  pi !! i0 = Some n_ ->
  (forall i, (i < i0)%nat -> exists p, pi !! i = Some p /\ 0 <= p < n_) ->
  Z.of_nat i0 < n_ ->
  forall (cnt a : nat) (h : Heap),
    (a <= i0 < a + cnt)%nat -> P h ->
    Permute_matrix_loop test swap n_ pi (seq a cnt) h = Panic msg.
Proof.
  intros Hswap Hbad Htest Hi0 Hbefore Hn.
  induction cnt as [|cnt IH]; intros a h Ha HP; [lia|].
  cbn [seq Permute_matrix_loop].
  destruct (decide (a = i0)) as [->|Hne].
  - rewrite Hi0.
    destruct (Z.ltb_spec n_ 0); [lia|]. destruct (Z.ltb_spec n_ n_); [lia|].
    cbn [orb]. rewrite Htest. unfold bind at 1. rewrite (Hbad h HP). reflexivity.
  - destruct (Hbefore a ltac:(lia)) as (p & Hp & Hrange). rewrite Hp.
    destruct (Z.ltb_spec p 0); [lia|]. destruct (Z.ltb_spec n_ p); [lia|].
    cbn [orb].
    assert (Hstep : exists h',
               (if test (Z.of_nat a) p then swap (Z.of_nat a) p else ret tt) h
               = Ret (tt, h') /\ P h').
    { destruct (test (Z.of_nat a) p); [|eauto].
      apply Hswap; [exact HP|lia|exact Hrange]. }
    destruct Hstep as (h' & Hstep & HP').
    rewrite (bind_Ret _ _ _ _ _ Hstep). apply IH; [lia|exact HP'].
Qed.

(** X19: The range test of PermuteRows, PermuteColumns and SymmetricPermutation
    is [pi[i] < 0 || pi[i] > n]: the value n itself passes it.  On a square
    matrix of dimension n at least 1, a slice whose first entry outside
    [0, n) is n, at a position inside the dimension, is not refused with an
    error: the exchange of row (or column) i with row n is started and
    [index] panics. *)
Theorem matrix_permutations_accept_n
  (h : Heap) (m : MATRIX_NAME) (v : loc) (pi : list Z) (i0 : nat) :
  mvalues m = Some v -> is_Some (vectors h !! v) ->
  rows m = cols m ->
  Z.of_nat i0 < rows m ->
  pi !! i0 = Some (rows m) ->
  (forall i, (i < i0)%nat -> exists p, pi !! i = Some p /\ 0 <= p < rows m) ->
  PermuteRows m pi h = Panic "index out of bounds for matrix"
  /\ PermuteColumns m pi h = Panic "index out of bounds for matrix"
  /\ SymmetricPermutation m pi h = Panic "index out of bounds for matrix".
Proof.
  intros Hmv Hv Hsq Hi0 Hpi Hbefore.
  assert (Htest : (Z.of_nat i0 <? rows m) = true) by (apply Z.ltb_lt; exact Hi0).
  assert (Htest2 : negb (Z.of_nat i0 =? rows m) && (Z.of_nat i0 <? rows m) = true).
  { rewrite Htest. destruct (Z.eqb_spec (Z.of_nat i0) (rows m)); [lia|reflexivity]. }
  unfold PermuteRows, PermuteColumns, SymmetricPermutation, Dims. cbn [fst snd].
  rewrite Hsq, Z.eqb_refl. cbn [negb]. rewrite <- Hsq.
  split; [|split];
    apply (Permute_matrix_loop_panics _ _ (rows m) pi
             (fun h0 => is_Some (vectors h0 !! v)) _ i0);
    try assumption; try lia.
  - intros h0 i p HP Hi Hp.
    destruct (SwapRows_runs h0 m v i p Hmv HP Hsq Hi Hp) as [(h' & Hrun & HP') _].
    exists h'. rewrite (bind_Ret _ _ _ _ _ Hrun). auto.
  - intros h0 HP.
    destruct (SwapRows_outside h0 m v (Z.of_nat i0) Hmv HP Hsq ltac:(lia)) as [Hrun _].
    unfold bind. rewrite Hrun. reflexivity.
  - intros h0 i p HP Hi Hp.
    destruct (SwapRows_runs h0 m v i p Hmv HP Hsq Hi Hp) as [_ (h' & Hrun & HP')].
    exists h'. rewrite (bind_Ret _ _ _ _ _ Hrun). auto.
  - intros h0 HP.
    destruct (SwapRows_outside h0 m v (Z.of_nat i0) Hmv HP Hsq ltac:(lia)) as [_ Hrun].
    unfold bind. rewrite Hrun. reflexivity.
  - intros h0 i p HP Hi Hp.
    destruct (SwapRows_runs h0 m v i p Hmv HP Hsq Hi Hp) as [(h1 & Hrun1 & HP1) _].
    destruct (SwapRows_runs h1 m v i p Hmv HP1 Hsq Hi Hp) as [_ (h2 & Hrun2 & HP2)].
    exists h2. rewrite (bind_Ret _ _ _ _ _ Hrun1), (bind_Ret _ _ _ _ _ Hrun2). auto.
  - intros h0 HP.
    destruct (SwapRows_outside h0 m v (Z.of_nat i0) Hmv HP Hsq ltac:(lia)) as [Hrun _].
    unfold bind. rewrite Hrun. reflexivity.
Qed.

Lemma matrix_permutations_accept_n_witness :
  PermuteRows (fst asymmetric_2x2) [1; 2] (snd asymmetric_2x2)
  = Panic "index out of bounds for matrix"
  /\ PermuteColumns (fst asymmetric_2x2) [1; 2] (snd asymmetric_2x2)
     = Panic "index out of bounds for matrix"
  /\ SymmetricPermutation (fst asymmetric_2x2) [1; 2] (snd asymmetric_2x2)
     = Panic "index out of bounds for matrix".
Proof.
  apply (matrix_permutations_accept_n (snd asymmetric_2x2) (fst asymmetric_2x2)
           1%positive [1; 2] 1%nat).
  - reflexivity.
  - vm_compute. eauto.
  - reflexivity.
  - simpl. lia.
  - reflexivity.
  - intros i Hi. assert (i = 0%nat) as -> by lia. exists 1. simpl. split; [reflexivity|lia].
Defined.

(** ** The channel variant: RANGE, JOINT_RANGE, Append and Sort *)

Lemma Chan_Slice_indices (obj : Chan.VECTOR_TYPE) (i j : Z) :
  Chan.indices (Chan.Slice obj i j) = Chan.mkIndexSlice [] false.
Proof.
  unfold Chan.Slice.
  assert (Hgen : forall l r, Chan.indices (fold_left (Chan.Slice_step i j) l r)
                             = Chan.indices r).
  { induction l as [|kv l IH]; intros r; [reflexivity|].
    simpl. rewrite IH. unfold Chan.Slice_step.
    destruct ((i <=? fst kv) && (fst kv <? j)); reflexivity. }
  rewrite Hgen. reflexivity.
Qed.

Lemma Chan_RANGE_no_index (r : Chan.VECTOR_TYPE) :
  Chan.indices r = Chan.mkIndexSlice [] false -> Chan.RANGE r = (r, []).
Proof.
  intros Hr. unfold Chan.RANGE, Chan.sort. rewrite Hr. simpl.
  destruct r as [ix es n_]. simpl in Hr. rewrite Hr. reflexivity.
Qed.

Lemma Chan_sort_elem (ix : Chan.INDEX_SLICE) (k : Z) :
  k ∈ Chan.values (Chan.sort ix) <-> k ∈ Chan.values ix.
Proof.
  unfold Chan.sort. destruct (Chan.isSorted ix); simpl; [reflexivity|].
  rewrite merge_sort_Permutation. reflexivity.
Qed.

Lemma Chan_fold_first (l : list (Z * ptr)) :
  NoDup (map fst l) ->
  forall r,
    Chan.indices (fold_left (fun r kv => Chan.mkVector (Chan.indices r)
                                           (<[fst kv := snd kv]> (Chan.entries r))
                                           (Chan.n r)) l r) = Chan.indices r
    /\ Chan.n (fold_left (fun r kv => Chan.mkVector (Chan.indices r)
                                        (<[fst kv := snd kv]> (Chan.entries r))
                                        (Chan.n r)) l r) = Chan.n r
    /\ forall k,
         Chan.entries (fold_left (fun r kv => Chan.mkVector (Chan.indices r)
                                                (<[fst kv := snd kv]> (Chan.entries r))
                                                (Chan.n r)) l r) !! k
         = match (list_to_map l : gmap Z ptr) !! k with
           | Some p => Some p
           | None => Chan.entries r !! k
           end.
Proof.
  induction l as [|[k0 p0] l IH]; intros Hnd r.
  - repeat split; reflexivity.
  - simpl in Hnd. apply NoDup_cons in Hnd as [Hk0 Hnd].
    cbn [fold_left fst snd].
    destruct (IH Hnd (Chan.mkVector (Chan.indices r) (<[k0 := p0]> (Chan.entries r))
                        (Chan.n r))) as (Hi & Hn & He).
    split; [exact Hi|]. split; [exact Hn|].
    intros k. rewrite He. cbn [list_to_map foldr fst snd Chan.entries].
    destruct (decide (k = k0)) as [->|Hne].
    + rewrite !lookup_insert_eq, (not_elem_of_list_to_map_1 l k0 Hk0).
      reflexivity.
    + rewrite !(lookup_insert_ne _ k0) by congruence. reflexivity.
Qed.

Lemma Chan_fold_second (g : Z -> Z) (es : gmap Z ptr) (ixs : list Z) :
  forall r,
    Chan.indices (fold_left (fun r kv => Chan.mkVector (Chan.indices r)
                                           (<[g (fst kv) := snd kv]> (Chan.entries r))
                                           (Chan.n r))
                    (map (fun i => (i, map_read es i)) ixs) r) = Chan.indices r
    /\ Chan.n (fold_left (fun r kv => Chan.mkVector (Chan.indices r)
                                        (<[g (fst kv) := snd kv]> (Chan.entries r))
                                        (Chan.n r))
                 (map (fun i => (i, map_read es i)) ixs) r) = Chan.n r
    /\ forall k,
         if decide (k ∈ map g ixs)
         then exists i, i ∈ ixs /\ g i = k
                /\ Chan.entries
                     (fold_left (fun r kv => Chan.mkVector (Chan.indices r)
                                               (<[g (fst kv) := snd kv]> (Chan.entries r))
                                               (Chan.n r))
                        (map (fun i => (i, map_read es i)) ixs) r) !! k
                   = Some (map_read es i)
         else Chan.entries
                (fold_left (fun r kv => Chan.mkVector (Chan.indices r)
                                          (<[g (fst kv) := snd kv]> (Chan.entries r))
                                          (Chan.n r))
                   (map (fun i => (i, map_read es i)) ixs) r) !! k
              = Chan.entries r !! k.
Proof.
  induction ixs as [|i0 ixs IH]; intros r.
  - split; [reflexivity|]. split; [reflexivity|]. intros k.
    destruct (decide (k ∈ map g [])) as [Hin|_]; [inversion Hin|reflexivity].
  - cbn [map fold_left fst snd].
    destruct (IH (Chan.mkVector (Chan.indices r)
                    (<[g i0 := map_read es i0]> (Chan.entries r)) (Chan.n r)))
      as (Hi & Hn & He).
    split; [exact Hi|]. split; [exact Hn|].
    intros k. specialize (He k).
    destruct (decide (k ∈ map g ixs)) as [Hin|Hout].
    + destruct He as (i & Hi' & Hg & Hlook).
      rewrite decide_True by (right; exact Hin).
      exists i. split; [right; exact Hi'|]. auto.
    + cbn [Chan.entries] in He.
      destruct (decide (k = g i0)) as [->|Hne].
      * rewrite decide_True by left.
        exists i0. split; [left|]. split; [reflexivity|].
        rewrite He. apply lookup_insert_eq.
      * rewrite decide_False.
        -- rewrite He. apply lookup_insert_ne. congruence.
        -- intros Hk. apply elem_of_cons in Hk as [?|?]; contradiction.
Qed.

(** X20: Slice and Append of the channel variant return vectors without an
    index: the entries are stored in the entry map, but the index structure
    is left empty.  RANGE over such a vector sends nothing, and JOINT_RANGE
    over two of them closes its channel without sending, whatever they
    store.  Append copies no scalar of either operand: it stores the
    pointers of the first operand at their indices, and at each index of the
    second operand, shifted by the dimension of the first, a pointer that
    the second operand stores; its dimension is the sum. *)
Theorem Chan_Slice_and_Append_have_no_index (obj w : Chan.VECTOR_TYPE) (i j : Z) :
  (Chan.indices (Chan.Slice obj i j) = Chan.mkIndexSlice [] false
   /\ Chan.RANGE (Chan.Slice obj i j) = (Chan.Slice obj i j, []))
  /\ (Chan.indices (fst (Chan.Append obj w)) = Chan.mkIndexSlice [] false
      /\ Chan.RANGE (fst (Chan.Append obj w)) = (fst (Chan.Append obj w), [])
      /\ Chan.n (fst (Chan.Append obj w)) = int_add (Chan.n obj) (Chan.n w)
      /\ (forall k, k ∈ Chan.values (Chan.indices w) ->
            exists k', k' ∈ Chan.values (Chan.indices w)
              /\ int_add (Chan.n obj) k' = int_add (Chan.n obj) k
              /\ Chan.entries (fst (Chan.Append obj w)) !! int_add (Chan.n obj) k
                 = Some (map_read (Chan.entries w) k'))
      /\ (forall k, (forall k', k' ∈ Chan.values (Chan.indices w) ->
                       int_add (Chan.n obj) k' <> k) ->
            Chan.entries (fst (Chan.Append obj w)) !! k = Chan.entries obj !! k))
  /\ forall fuel,
       Chan.JOINT_RANGE (S fuel) (Chan.Slice obj i j) (fst (Chan.Append obj w)) = ([], true).
Proof.
  assert (Hs : Chan.indices (Chan.Slice obj i j) = Chan.mkIndexSlice [] false)
    by apply Chan_Slice_indices.
  set (r0 := Chan.NIL_VECTOR (int_add (Chan.n obj) (Chan.n w))).
  destruct (Chan_fold_first (map_to_list (Chan.entries obj)) (NoDup_fst_map_to_list _) r0)
    as (Hi1 & Hn1 & He1).
  set (r1 := fold_left (fun r kv => Chan.mkVector (Chan.indices r)
                                      (<[fst kv := snd kv]> (Chan.entries r)) (Chan.n r))
               (map_to_list (Chan.entries obj)) r0) in *.
  destruct (Chan_fold_second (int_add (Chan.n obj)) (Chan.entries w)
              (Chan.values (Chan.sort (Chan.indices w))) r1) as (Hi2 & Hn2 & He2).
  change (fold_left _ _ r1) with (fst (Chan.Append obj w)) in Hi2, Hn2, He2.
  assert (Ha : Chan.indices (fst (Chan.Append obj w)) = Chan.mkIndexSlice [] false).
  { rewrite Hi2, Hi1. reflexivity. }
  assert (Hr1 : forall k, Chan.entries r1 !! k = Chan.entries obj !! k).
  { intros k. rewrite He1, list_to_map_to_list. simpl. rewrite lookup_empty.
    destruct (Chan.entries obj !! k); reflexivity. }
  split; [split; [exact Hs|apply Chan_RANGE_no_index; exact Hs]|].
  split.
  - split; [exact Ha|]. split; [apply Chan_RANGE_no_index; exact Ha|].
    split; [rewrite Hn2, Hn1; reflexivity|]. split.
    + intros k Hk. specialize (He2 (int_add (Chan.n obj) k)).
      rewrite decide_True in He2.
      * destruct He2 as (k' & Hk' & Hg & Hlook). exists k'.
        split; [apply Chan_sort_elem; exact Hk'|]. auto.
      * apply list_elem_of_fmap. exists k. split; [reflexivity|].
        apply Chan_sort_elem. exact Hk.
    + intros k Hk. specialize (He2 k). rewrite decide_False in He2.
      * rewrite He2. apply Hr1.
      * intros Hin. apply list_elem_of_fmap in Hin as (k' & -> & Hk').
        apply (Hk k'); [apply Chan_sort_elem; exact Hk'|reflexivity].
  - intros fuel. unfold Chan.JOINT_RANGE.
    rewrite (Chan_RANGE_no_index _ Hs), (Chan_RANGE_no_index _ Ha). reflexivity.
Qed.

(** A run: the slice of [chan_two] stores both entries, and RANGE over it
    sends none of them. *)
Example Chan_Slice_run :
  Chan.entries (Chan.Slice chan_two 0 2) !! 0 = Some (Some 1%positive)
  /\ Chan.entries (Chan.Slice chan_two 0 2) !! 1 = Some (Some 2%positive)
  /\ snd (Chan.RANGE (Chan.Slice chan_two 0 2)) = []
  /\ snd (Chan.RANGE chan_two) = [(0, Some 1%positive); (1, Some 2%positive)].
Proof. repeat split; vm_compute; reflexivity. Qed.

Lemma JOINT_RANGE_loop_stuck (r1 r2 : option (Z * ptr)) :
  is_Some r1 \/ is_Some r2 ->
  forall fuel,
    Chan.JOINT_RANGE_loop fuel r1 r2
    = (replicate fuel (Chan.JOINT_RANGE_entry r1 r2), false).
Proof.
  intros Hsome. induction fuel as [|fuel IH]; [reflexivity|].
  cbn [Chan.JOINT_RANGE_loop]. rewrite IH. cbn [fst snd replicate].
  destruct Hsome as [H|H].
  - rewrite (bool_decide_eq_true_2 _ H). reflexivity.
  - rewrite (bool_decide_eq_true_2 _ H), orb_true_r. reflexivity.
Qed.

(** X21: JOINT_RANGE never closes its channel when one of the two vectors has an
    index that is not empty.  The loop [for ok1 || ok2] receives nothing
    from the two channels it reads, so its condition never changes: after
    any number of rounds it has sent that many copies of one and the same
    entry, built from the first entry of each side, and the channel is still
    open.  Only when both indices are empty is the channel closed, with
    nothing sent. *)
Theorem JOINT_RANGE_never_closes (obj b : Chan.VECTOR_TYPE) (fuel : nat) :
  (Chan.values (Chan.indices obj) <> [] \/ Chan.values (Chan.indices b) <> [] ->
   Chan.JOINT_RANGE fuel obj b
   = (replicate fuel (Chan.JOINT_RANGE_entry (head (snd (Chan.RANGE obj)))
                        (head (snd (Chan.RANGE b)))), false))
  /\ (Chan.values (Chan.indices obj) = [] -> Chan.values (Chan.indices b) = [] ->
      Chan.JOINT_RANGE (S fuel) obj b = ([], true)).
Proof.
  assert (Hhead : forall x, Chan.values (Chan.indices x) <> [] ->
            is_Some (head (snd (Chan.RANGE x)))).
  { intros x Hx. unfold Chan.RANGE. cbn [snd].
    destruct (Chan.values (Chan.sort (Chan.indices x))) as [|k l] eqn:Hs.
    - exfalso. destruct (Chan.values (Chan.indices x)) as [|k0 l0] eqn:Hv; [congruence|].
      assert (Hin : k0 ∈ Chan.values (Chan.sort (Chan.indices x))).
      { apply Chan_sort_elem. rewrite Hv. left. }
      rewrite Hs in Hin. inversion Hin.
    - simpl. eauto. }
  assert (Hempty : forall x, Chan.values (Chan.indices x) = [] ->
            head (snd (Chan.RANGE x)) = None).
  { intros x Hx. unfold Chan.RANGE, Chan.sort. cbn [snd].
    destruct (Chan.isSorted (Chan.indices x)); simpl; rewrite Hx; reflexivity. }
  split.
  - intros Hne. unfold Chan.JOINT_RANGE. apply JOINT_RANGE_loop_stuck.
    destruct Hne as [H|H]; [left|right]; apply Hhead; exact H.
  - intros H1 H2. unfold Chan.JOINT_RANGE.
    rewrite (Hempty obj H1), (Hempty b H2). reflexivity.
Qed.

Lemma JOINT_RANGE_never_closes_witness :
  Chan.JOINT_RANGE 3 chan_two (Chan.NIL_VECTOR 2)
  = (replicate 3 (Chan.JOINT_RANGE_entry (head (snd (Chan.RANGE chan_two)))
                    (head (snd (Chan.RANGE (Chan.NIL_VECTOR 2))))), false).
Proof.
  apply (proj1 (JOINT_RANGE_never_closes chan_two (Chan.NIL_VECTOR 2) 3)).
  left. simpl. discriminate.
Defined.

(** That run: three rounds send the entry of index 0 three times. *)
Example JOINT_RANGE_run :
  Chan.JOINT_RANGE 3 chan_two (Chan.NIL_VECTOR 2)
  = (replicate 3 (Chan.mkJointRange 0 (Some 1%positive) (CConst fzero)), false).
Proof. vm_compute. reflexivity. Qed.

(** X22: Sort of the channel variant.  The slice [r.Index] is never filled and
    Len() is its length, so nothing is sorted; the loop that rebuilds the
    vector reads [r.Index[0]] in its first round.  So Sort panics on every
    vector that stores an entry, and on a vector without entries it returns
    with the vector of the caller unchanged.  What sort.Sort does on no
    elements is the one thing assumed of it. *)
Theorem Chan_Sort_panics
  (sort_Sort : bool -> nat -> list ptr -> M (list ptr))
  (obj : Chan.VECTOR_TYPE) (reverse : bool) (h : Heap) :
  (forall rev l h0, sort_Sort rev 0%nat l h0 = Ret (l, h0)) ->
  (Chan.entries obj = ∅ ->
   Chan.Sort sort_Sort obj reverse h = Ret (Chan.NIL_VECTOR (Chan.n obj), h))
  /\ (Chan.entries obj <> ∅ ->
      (forall k p, Chan.entries obj !! k = Some p ->
         exists l, p = Some l /\ is_Some (scalars h !! l)) ->
      Chan.Sort sort_Sort obj reverse h = Panic "index out of range").
Proof.
  intros Hsort. unfold Chan.Sort. cbn [length].
  split.
  - intros Hempty. rewrite Hempty, map_to_list_empty. cbn [map].
    rewrite (bind_Ret _ _ _ _ _ (Hsort reverse [] h)). reflexivity.
  - intros Hne Hvalid.
    rewrite (bind_Ret _ _ _ _ _ (Hsort reverse _ h)).
    destruct (map_to_list (Chan.entries obj)) as [|[k p] l] eqn:Hl.
    { apply map_to_list_empty_iff in Hl. contradiction. }
    assert (Hk : Chan.entries obj !! k = Some p).
    { apply elem_of_map_to_list. rewrite Hl. left. }
    destruct (Hvalid k p Hk) as (l0 & -> & [s Hs]).
    cbn [map length seq Chan.Sort_loop lookup list_lookup snd].
    rewrite (bind_Ret _ _ _ _ _ (loadScalar_Some _ _ _ Hs)). reflexivity.
Qed.

Lemma Chan_Sort_panics_witness :
  (Chan.entries chan_two = ∅ ->
   Chan.Sort (fun _ _ l => ret l) chan_two false zero_first
   = Ret (Chan.NIL_VECTOR (Chan.n chan_two), zero_first))
  /\ (Chan.entries chan_two <> ∅ ->
      (forall k p, Chan.entries chan_two !! k = Some p ->
         exists l, p = Some l /\ is_Some (scalars zero_first !! l)) ->
      Chan.Sort (fun _ _ l => ret l) chan_two false zero_first
      = Panic "index out of range").
Proof.
  apply (Chan_Sort_panics (fun _ _ l => ret l) chan_two false zero_first).
  reflexivity.
Defined.

(** That run *)
Example Chan_Sort_run :
  Chan.Sort (fun _ _ l => ret l) chan_two false zero_first = Panic "index out of range".
Proof. vm_compute. reflexivity. Qed.

(** ** NEW_MATRIX *)

Lemma NULL_MATRIX_run (rows_ cols_ : Z) (h : Heap) :
  exists v t1 t2 h1,
    NULL_MATRIX rows_ cols_ h
    = Ret (mkMatrix (Some v) rows_ cols_ 0 rows_ 0 cols_ false (Some t1) (Some t2), h1)
    /\ vectors h !! v = None
    /\ vectors h1 !! v = Some (mkVector emptyIndex ∅ (int_mul rows_ cols_))
    /\ scalars h1 = scalars h
    /\ forall u, is_Some (vectors h !! u) -> vectors h1 !! u = vectors h !! u.
Proof.
  set (v := fresh (dom (vectors h))).
  set (o := mkVector emptyIndex ∅ (int_mul rows_ cols_)).
  set (h1 := mkHeap (scalars h) (<[v := o]> (vectors h))).
  set (t1 := fresh (dom (vectors h1))).
  set (h2 := mkHeap (scalars h) (<[t1 := mkVector emptyIndex ∅ rows_]> (vectors h1))).
  set (t2 := fresh (dom (vectors h2))).
  set (h3 := mkHeap (scalars h) (<[t2 := mkVector emptyIndex ∅ cols_]> (vectors h2))).
  assert (Hv : vectors h !! v = None) by apply not_elem_of_dom, is_fresh.
  assert (Ht1 : vectors h1 !! t1 = None) by apply not_elem_of_dom, is_fresh.
  assert (Ht2 : vectors h2 !! t2 = None) by apply not_elem_of_dom, is_fresh.
  assert (Hv1 : vectors h1 !! v = Some o) by apply lookup_insert_eq.
  assert (Hne1 : t1 <> v) by (intros ->; rewrite Hv1 in Ht1; discriminate).
  assert (Hv2 : vectors h2 !! v = Some o).
  { unfold h2. cbn [vectors]. rewrite lookup_insert_ne by exact Hne1. exact Hv1. }
  assert (Hne2 : t2 <> v) by (intros ->; rewrite Hv2 in Ht2; discriminate).
  exists v, t1, t2, h3. split; [reflexivity|]. split; [exact Hv|]. split.
  { unfold h3. cbn [vectors]. rewrite lookup_insert_ne by exact Hne2. exact Hv2. }
  split; [reflexivity|].
  intros u [ou Hu].
  assert (Hu1 : vectors h1 !! u = Some ou).
  { unfold h1. cbn [vectors]. rewrite lookup_insert_ne; [exact Hu|].
    intros ->. rewrite Hv in Hu. discriminate. }
  assert (Hu2 : vectors h2 !! u = Some ou).
  { unfold h2. cbn [vectors]. rewrite lookup_insert_ne; [exact Hu1|].
    intros ->. rewrite Ht1 in Hu1. discriminate. }
  unfold h3. cbn [vectors]. rewrite lookup_insert_ne; [rewrite Hu2, Hu; reflexivity|].
  intros ->. rewrite Ht2 in Hu2. discriminate.
Qed.

(** AT inside the dimension returns a pointer to an allocated scalar *)
Lemma AT_allocated (h : Heap) (v : loc) (o : VECTOR_NAME) (k : Z) :
  vectors h !! v = Some o -> valid_vector h (Some v) -> 0 <= k < n o ->
  exists l h1 s, AT (Some v) k h = Ret (Some l, h1) /\ scalars h1 !! l = Some s.
Proof.
  intros Hv (u & o0 & Heq & Hu & Hval) Hk.
  injection Heq as <-. rewrite Hv in Hu. injection Hu as <-.
  destruct (values o !! k) as [p|] eqn:Hp.
  - destruct (Hval k p Hp) as (l & -> & [s Hs]).
    exists l, h, s. split; [|exact Hs]. exact (AT_run_present h v o k _ Hv Hk Hp).
  - eexists _, _, NULL_SCALAR. split; [exact (AT_run_absent h v o k Hv Hk Hp)|].
    cbn [scalars]. apply lookup_insert_eq.
Qed.

(** One round of the loop of NEW_MATRIX on a value different from 0.0 *)
Lemma NEW_MATRIX_step (h h0 : Heap) (m : MATRIX_NAME) (v : loc) (o : VECTOR_NAME)
  (i j : Z) (x : float) :
  well_shaped m -> mvalues m = Some v ->
  vectors h !! v = Some o -> valid_vector h (Some v) ->
  n o = rowMax m * colMax m -> distinct_entries o ->
  (forall l, is_Some (scalars h0 !! l) -> scalars h !! l = scalars h0 !! l) ->
  (forall k l, values o !! k = Some (Some l) -> scalars h0 !! l = None) ->
  0 <= i < rows m -> 0 <= j < cols m ->
  exists k h2 o2,
    index m i j = Ret k
    /\ (p <- Matrix_AT m i j ;; s <- loadScalar p ;; storeScalar p (SetValue s x)) h
       = Ret (tt, h2)
    /\ vectors h2 !! v = Some o2
    /\ (forall u, u <> v -> vectors h2 !! u = vectors h !! u)
    /\ valid_vector h2 (Some v)
    /\ n o2 = n o /\ distinct_entries o2
    /\ (forall l, is_Some (scalars h0 !! l) -> scalars h2 !! l = scalars h0 !! l)
    /\ (forall k l, values o2 !! k = Some (Some l) -> scalars h0 !! l = None)
    /\ value_at h2 o2 k = x
    /\ forall k', k' <> k -> value_at h2 o2 k' = value_at h o k'.
Proof.
  intros Hm Hmv Hv Hvalid Hn Hdist Hold Hnew Hi Hj.
  destruct (index_storage m i j i j Hm Hi Hj Hi Hj) as [(k & Hk & Hkr) _].
  destruct (AT_allocated h v o k Hv Hvalid ltac:(lia)) as (l & h1 & s & Hat & Hs).
  destruct (Matrix_store_spec h m v o i j (SetValue s x) Hm Hmv Hv Hvalid Hn Hdist Hi Hj)
    as (k' & l' & h2 & o2 & Hk' & _ & Hrun & Hv2 & Hother & Hvalid2 & Hn2 & Hdist2
        & Hread & Hkeep).
  rewrite Hk in Hk'. injection Hk' as <-.
  destruct (AT_store_spec h v o k (SetValue s x) Hv Hvalid ltac:(lia))
    as (l2 & h2' & o2' & Hrun' & Hv2' & _ & _ & Hvals & Hfresh & Hsame & Hscal & _).
  assert (HAT : Matrix_AT m i j h = Ret (Some l, h1)).
  { rewrite (proj2 (Matrix_ValueAt_index m i j k h Hk)), Hmv. exact Hat. }
  assert (Hrun0 : (p <- Matrix_AT m i j ;; storeScalar p (SetValue s x) ;;; ret p) h
                  = Ret (Some l, mkHeap (<[l := SetValue s x]> (scalars h1)) (vectors h1))).
  { rewrite (bind_Ret _ _ _ _ _ HAT). unfold bind.
    rewrite (storeScalar_Some h1 l s _ Hs). reflexivity. }
  rewrite Hrun0 in Hrun. injection Hrun as <- <-.
  assert (Hrun1 : (p <- AT (Some v) k ;; storeScalar p (SetValue s x) ;;; ret p) h
                  = Ret (Some l, mkHeap (<[l := SetValue s x]> (scalars h1)) (vectors h1))).
  { rewrite (bind_Ret _ _ _ _ _ Hat). unfold bind.
    rewrite (storeScalar_Some h1 l s _ Hs). reflexivity. }
  rewrite Hrun1 in Hrun'. injection Hrun' as <- <-.
  rewrite Hv2 in Hv2'. injection Hv2' as <-.
  assert (Hl0 : scalars h0 !! l = None).
  { destruct (values o !! k) as [p|] eqn:Hp.
    - rewrite (Hsame p eq_refl) in Hp. exact (Hnew k l Hp).
    - specialize (Hfresh eq_refl).
      destruct (scalars h0 !! l) as [s0|] eqn:Hs0; [|reflexivity].
      pose proof (Hold l (ex_intro _ s0 Hs0)) as E. rewrite Hfresh, Hs0 in E.
      discriminate. }
  exists k, (mkHeap (<[l := SetValue s x]> (scalars h1)) (vectors h1)), o2.
  split; [exact Hk|]. split.
  { rewrite (bind_Ret _ _ _ _ _ HAT).
    unfold bind, loadScalar. rewrite Hs.
    rewrite (storeScalar_Some h1 l s _ Hs). reflexivity. }
  split; [exact Hv2|]. split; [exact Hother|]. split; [exact Hvalid2|].
  split; [exact Hn2|]. split; [exact Hdist2|]. split.
  { intros l3 Hl3. rewrite Hscal.
    rewrite lookup_insert_ne; [exact (Hold l3 Hl3)|].
    intros ->. rewrite Hl0 in Hl3. destruct Hl3; discriminate. }
  split.
  { intros k3 l3. rewrite Hvals. intros H3.
    apply lookup_insert_Some in H3 as [[_ H3]|[_ H3]].
    - injection H3 as <-. exact Hl0.
    - exact (Hnew k3 l3 H3). }
  split; [exact Hread|]. exact Hkeep.
Qed.

Lemma NEW_MATRIX_loop_spec (h0 : Heap) (m : MATRIX_NAME) (v : loc) :
  well_shaped m -> mvalues m = Some v ->
  forall (cis ris : list Z) (xs : list float) (h : Heap) (o : VECTOR_NAME),
  vectors h !! v = Some o -> valid_vector h (Some v) ->
  n o = rowMax m * colMax m -> distinct_entries o ->
  (forall l, is_Some (scalars h0 !! l) -> scalars h !! l = scalars h0 !! l) ->
  (forall k l, values o !! k = Some (Some l) -> scalars h0 !! l = None) ->
  length ris = length cis -> length cis = length xs ->
  (forall (k : nat) r c x, ris !! k = Some r -> cis !! k = Some c -> xs !! k = Some x ->
     fnonzero x = true -> 0 <= r < rows m /\ 0 <= c < cols m) ->
  exists h' o',
    NEW_MATRIX_loop m ris cis xs h = Ret (tt, h')
    /\ vectors h' !! v = Some o'
    /\ (forall u, u <> v -> vectors h' !! u = vectors h !! u)
    /\ valid_vector h' (Some v)
    /\ n o' = n o
    /\ (forall l, is_Some (scalars h0 !! l) -> scalars h' !! l = scalars h0 !! l)
    /\ forall i j k, 0 <= i < rows m -> 0 <= j < cols m -> index m i j = Ret k ->
         value_at h' o' k = given_at ris cis xs i j (value_at h o k).
Proof.
  intros Hm Hmv cis.
  induction cis as [|c cis IH]; intros ris xs h o Hv Hvalid Hn Hdist Hold Hnew Hl1 Hl2 Hin.
  - destruct ris as [|r ris]; [|discriminate].
    exists h, o. split; [reflexivity|]. split; [exact Hv|].
    split; [intros; reflexivity|].
    split; [exact Hvalid|]. split; [reflexivity|]. split; [exact Hold|].
    intros i j k _ _ _. reflexivity.
  - destruct ris as [|r ris]; [discriminate|]. destruct xs as [|x xs]; [discriminate|].
    cbn [length] in Hl1, Hl2. injection Hl1 as Hl1. injection Hl2 as Hl2.
    assert (Hin' : forall (k : nat) r c x, ris !! k = Some r -> cis !! k = Some c ->
              xs !! k = Some x -> fnonzero x = true -> 0 <= r < rows m /\ 0 <= c < cols m).
    { intros k r0 c0 x0 H1 H2 H3. exact (Hin (S k) r0 c0 x0 H1 H2 H3). }
    cbn [NEW_MATRIX_loop given_at].
    destruct (fnonzero x) eqn:Hx.
    + destruct (Hin 0%nat r c x eq_refl eq_refl eq_refl Hx) as [Hr Hc].
      destruct (NEW_MATRIX_step h h0 m v o r c x Hm Hmv Hv Hvalid Hn Hdist Hold Hnew Hr Hc)
        as (k0 & h2 & o2 & Hk0 & Hrun & Hv2 & Hother & Hvalid2 & Hn2 & Hdist2 & Hold2
            & Hnew2 & Hread & Hkeep).
      destruct (IH ris xs h2 o2 Hv2 Hvalid2 ltac:(lia) Hdist2 Hold2 Hnew2 Hl1 Hl2 Hin')
        as (h' & o' & Hrun' & Hv' & Hother' & Hvalid' & Hn' & Hold' & Hvals').
      exists h', o'. split.
      { rewrite (bind_Ret _ _ _ _ _ Hrun). exact Hrun'. }
      split; [exact Hv'|]. split.
      { intros u Hu. rewrite (Hother' u Hu). exact (Hother u Hu). }
      split; [exact Hvalid'|]. split; [lia|]. split; [exact Hold'|].
      intros i j k Hi Hj Hk. rewrite (Hvals' i j k Hi Hj Hk). f_equal.
      cbn [andb].
      destruct (r =? i) eqn:Hri; [destruct (c =? j) eqn:Hcj|]; cbn [andb].
      * apply Z.eqb_eq in Hri, Hcj. subst i j. rewrite Hk0 in Hk.
        injection Hk as <-. exact Hread.
      * apply Hkeep. intros ->. apply Z.eqb_neq in Hcj. apply Hcj.
        destruct (index_storage m r c i j Hm Hr Hc Hi Hj) as [_ Hinj].
        apply Hinj. rewrite Hk0, Hk. reflexivity.
      * apply Hkeep. intros ->. apply Z.eqb_neq in Hri. apply Hri.
        destruct (index_storage m r c i j Hm Hr Hc Hi Hj) as [_ Hinj].
        apply Hinj. rewrite Hk0, Hk. reflexivity.
    + destruct (IH ris xs h o Hv Hvalid Hn Hdist Hold Hnew Hl1 Hl2 Hin')
        as (h' & o' & Hrun' & Hrest).
      exists h', o'. split; [|exact Hrest].
      unfold bind at 1. unfold ret at 1. exact Hrun'.
Qed.

Lemma index_panics (m : MATRIX_NAME) (i j : Z) :
  ~ (0 <= i < rows m /\ 0 <= j < cols m) ->
  index m i j = Panic "index out of bounds for matrix".
Proof.
  intros Hout. unfold index.
  destruct ((i <? 0) || (j <? 0) || (rows m <=? i) || (cols m <=? j)) eqn:Ht;
    [reflexivity|].
  exfalso. apply Hout.
  apply orb_false_elim in Ht as [Ht H4]. apply orb_false_elim in Ht as [Ht H3].
  apply orb_false_elim in Ht as [H1 H2]. lia.
Qed.

Lemma NEW_MATRIX_loop_panics (h0 : Heap) (m : MATRIX_NAME) (v : loc) :
  well_shaped m -> mvalues m = Some v ->
  forall (cis ris : list Z) (xs : list float) (h : Heap) (o : VECTOR_NAME),
  vectors h !! v = Some o -> valid_vector h (Some v) ->
  n o = rowMax m * colMax m -> distinct_entries o ->
  (forall l, is_Some (scalars h0 !! l) -> scalars h !! l = scalars h0 !! l) ->
  (forall k l, values o !! k = Some (Some l) -> scalars h0 !! l = None) ->
  length ris = length cis -> length cis = length xs ->
  (exists (k : nat) r c x, ris !! k = Some r /\ cis !! k = Some c /\ xs !! k = Some x
     /\ fnonzero x = true /\ ~ (0 <= r < rows m /\ 0 <= c < cols m)) ->
  NEW_MATRIX_loop m ris cis xs h = Panic "index out of bounds for matrix".
Proof.
  intros Hm Hmv cis.
  induction cis as [|c cis IH]; intros ris xs h o Hv Hvalid Hn Hdist Hold Hnew Hl1 Hl2 Hbad.
  - destruct Hbad as (k & r & c & x & _ & Hc & _). rewrite lookup_nil in Hc. discriminate.
  - destruct ris as [|r ris]; [discriminate|]. destruct xs as [|x xs]; [discriminate|].
    cbn [length] in Hl1, Hl2. injection Hl1 as Hl1. injection Hl2 as Hl2.
    cbn [NEW_MATRIX_loop].
    destruct (fnonzero x) eqn:Hx.
    + destruct (decide (0 <= r < rows m /\ 0 <= c < cols m)) as [[Hr Hc]|Hout].
      * destruct (NEW_MATRIX_step h h0 m v o r c x Hm Hmv Hv Hvalid Hn Hdist Hold Hnew
                    Hr Hc)
          as (k0 & h2 & o2 & Hk0 & Hrun & Hv2 & Hother & Hvalid2 & Hn2 & Hdist2 & Hold2
              & Hnew2 & _).
        rewrite (bind_Ret _ _ _ _ _ Hrun).
        apply (IH ris xs h2 o2 Hv2 Hvalid2 ltac:(lia) Hdist2 Hold2 Hnew2 Hl1 Hl2).
        destruct Hbad as (k & r' & c' & x' & H1 & H2 & H3 & H4 & H5).
        destruct k as [|k].
        { cbn in H1, H2. injection H1 as <-. injection H2 as <-. exfalso. apply H5.
          split; assumption. }
        exists k, r', c', x'. repeat split; assumption.
      * unfold bind at 1. unfold bind at 1. unfold Matrix_AT. unfold bind at 1.
        rewrite (index_panics m r c Hout). reflexivity.
    + unfold bind at 1. unfold ret at 1.
      apply (IH ris xs h o Hv Hvalid Hn Hdist Hold Hnew Hl1 Hl2).
      destruct Hbad as (k & r' & c' & x' & H1 & H2 & H3 & H4 & H5).
      destruct k as [|k].
      { cbn in H3. injection H3 as <-. rewrite Hx in H4. discriminate. }
      exists k, r', c', x'. repeat split; assumption.
Qed.

(** The matrix NULL_MATRIX returns, as the loop of NEW_MATRIX needs it *)
Lemma NULL_MATRIX_shape (rows_ cols_ : Z) (h : Heap) :
  0 <= rows_ < 2 ^ 63 -> 0 <= cols_ < 2 ^ 63 -> rows_ * cols_ < 2 ^ 63 ->
  exists m v h1 o,
    NULL_MATRIX rows_ cols_ h = Ret (m, h1)
    /\ mvalues m = Some v /\ Dims m = (rows_, cols_) /\ transposed m = false
    /\ well_shaped m /\ unsliced m
    /\ vectors h1 !! v = Some o /\ values o = ∅ /\ n o = rowMax m * colMax m
    /\ scalars h1 = scalars h
    /\ vectors h !! v = None
    /\ forall u, is_Some (vectors h !! u) -> vectors h1 !! u = vectors h !! u.
Proof.
  intros Hr Hc Hrc.
  destruct (NULL_MATRIX_run rows_ cols_ h) as (v & t1 & t2 & h1 & Hrun & Hnew & Hv & Hs & Hk).
  eexists _, v, h1, _. split; [exact Hrun|].
  split; [reflexivity|]. split; [reflexivity|]. split; [reflexivity|].
  split; [unfold well_shaped; cbn; lia|]. split; [repeat split|].
  split; [exact Hv|]. split; [reflexivity|]. split.
  { cbn. unfold int_mul. apply wrap_small. nia. }
  split; [exact Hs|]. split; [exact Hnew|]. exact Hk.
Qed.

(** X23: NEW_MATRIX with positions inside the dimensions, for a matrix whose
    size is an int.  It returns an unsliced matrix of the dimensions given,
    not transposed, in which every position reads the last value different
    from 0.0 that was given for it, and 0.0 when there is none: a position
    may be given several times, and a value 0.0 neither overwrites an
    earlier value nor has its position tested.  Nothing that was allocated
    before is changed. *)
Theorem NEW_MATRIX_keeps_the_last_nonzero_value
  (rows_ cols_ : Z) (ris cis : list Z) (xs : list float) (h : Heap) :
  0 <= rows_ < 2 ^ 63 -> 0 <= cols_ < 2 ^ 63 -> rows_ * cols_ < 2 ^ 63 ->
  length ris = length cis -> length cis = length xs ->
  (forall (k : nat) r c x, ris !! k = Some r -> cis !! k = Some c -> xs !! k = Some x ->
     fnonzero x = true -> 0 <= r < rows_ /\ 0 <= c < cols_) ->
  exists m h',
    NEW_MATRIX rows_ cols_ ris cis xs h = Ret (m, h')
    /\ Dims m = (rows_, cols_) /\ transposed m = false /\ unsliced m
    /\ (forall l, is_Some (scalars h !! l) -> scalars h' !! l = scalars h !! l)
    /\ (forall u, is_Some (vectors h !! u) -> vectors h' !! u = vectors h !! u)
    /\ forall i j, 0 <= i < rows_ -> 0 <= j < cols_ ->
         Matrix_ValueAt m i j h' = Ret (given_at ris cis xs i j fzero, h').
Proof.
  intros Hr Hc Hrc Hl1 Hl2 Hin.
  destruct (NULL_MATRIX_shape rows_ cols_ h Hr Hc Hrc)
    as (m & v & h1 & o & Hrun & Hmv & Hdims & Htr & Hm & Hun & Hv & Hvals & Hn & Hs & Hnew & Hk).
  injection Hdims as Hrows Hcols.
  assert (Hvalid : valid_vector h1 (Some v)).
  { exists v, o. split; [reflexivity|]. split; [exact Hv|].
    intros k p Hp. rewrite Hvals, lookup_empty in Hp. discriminate. }
  assert (Hdist : distinct_entries o).
  { intros k k' l Hp. rewrite Hvals, lookup_empty in Hp. discriminate. }
  destruct (NEW_MATRIX_loop_spec h m v Hm Hmv cis ris xs h1 o Hv Hvalid Hn Hdist)
    as (h' & o' & Hloop & Hv' & Hother & Hvalid' & Hn' & Hold & Hread).
  { intros l _. rewrite Hs. reflexivity. }
  { intros k l Hp. rewrite Hvals, lookup_empty in Hp. discriminate. }
  { exact Hl1. }
  { exact Hl2. }
  { rewrite Hrows, Hcols. exact Hin. }
  exists m, h'. split.
  { unfold NEW_MATRIX. rewrite (bind_Ret _ _ _ _ _ Hrun).
    rewrite Hl1, Hl2, !Nat.eqb_refl. cbn [negb orb].
    rewrite (bind_Ret _ _ _ _ _ Hloop). reflexivity. }
  split; [rewrite <- Hrows, <- Hcols; reflexivity|]. split; [exact Htr|].
  split; [exact Hun|]. split; [exact Hold|]. split.
  { intros u Hu. rewrite Hother; [exact (Hk u Hu)|].
    intros ->. rewrite Hnew in Hu. destruct Hu; discriminate. }
  intros i j Hi Hj. rewrite <- Hrows in Hi. rewrite <- Hcols in Hj.
  destruct (index_storage m i j i j Hm Hi Hj Hi Hj) as [(k & Hidx & Hkr) _].
  rewrite (proj1 (Matrix_ValueAt_index m i j k h' Hidx)), Hmv.
  rewrite (ValueAt_run h' v o' k Hv' Hvalid' ltac:(lia)).
  rewrite (Hread i j k Hi Hj Hidx).
  unfold value_at. rewrite Hvals, lookup_empty. reflexivity.
Qed.

Lemma NEW_MATRIX_keeps_the_last_nonzero_value_witness :
  exists m h',
    NEW_MATRIX 2 2 [0; 1; 0; 1] [1; 0; 1; 0] [5%float; 7%float; 6%float; 0%float] empty_heap
    = Ret (m, h')
    /\ Dims m = (2, 2) /\ transposed m = false /\ unsliced m
    /\ (forall l, is_Some (scalars empty_heap !! l) ->
          scalars h' !! l = scalars empty_heap !! l)
    /\ (forall u, is_Some (vectors empty_heap !! u) ->
          vectors h' !! u = vectors empty_heap !! u)
    /\ forall i j, 0 <= i < 2 -> 0 <= j < 2 ->
         Matrix_ValueAt m i j h'
         = Ret (given_at [0; 1; 0; 1] [1; 0; 1; 0] [5%float; 7%float; 6%float; 0%float]
                  i j fzero, h').
Proof.
  apply (NEW_MATRIX_keeps_the_last_nonzero_value 2 2 [0; 1; 0; 1] [1; 0; 1; 0]
           [5%float; 7%float; 6%float; 0%float] empty_heap).
  - lia.
  - lia.
  - lia.
  - reflexivity.
  - reflexivity.
  - intros k r c x Hr Hc Hx _.
    destruct k as [|[|[|[|k]]]]; cbn in Hr, Hc; try discriminate;
      injection Hr as <-; injection Hc as <-; lia.
Defined.

(** A run: position (0,1) is given 5.0 and then 6.0, position (1,0) is given
    7.0 and then 0.0, and a value 0.0 is given for a position outside the
    matrix. *)
Example NEW_MATRIX_run :
  result_of
    ((m <- NEW_MATRIX 2 2 [0; 1; 0; 1; 9] [1; 0; 1; 0; 9]
            [5%float; 7%float; 6%float; 0%float; 0%float] ;;
      a <- Matrix_ValueAt m 0 1 ;;
      b <- Matrix_ValueAt m 1 0 ;;
      c <- Matrix_ValueAt m 0 0 ;;
      ret [a; b; c]) empty_heap)
  = Ret [6%float; 7%float; 0%float].
Proof.
  vm_compute. reflexivity.
Qed.

(** X24: When NEW_MATRIX panics: when the three slices do not have one length,
    and when a value different from 0.0 is given for a position outside the
    dimensions.  The matrix is allocated before the lengths are compared. *)
Theorem NEW_MATRIX_panics
  (rows_ cols_ : Z) (ris cis : list Z) (xs : list float) (h : Heap) :
  (length ris <> length cis \/ length cis <> length xs ->
   NEW_MATRIX rows_ cols_ ris cis xs h
   = Panic "number of row/col-indices does not match number of values")
  /\ (0 <= rows_ < 2 ^ 63 -> 0 <= cols_ < 2 ^ 63 -> rows_ * cols_ < 2 ^ 63 ->
      length ris = length cis -> length cis = length xs ->
      (exists (k : nat) r c x, ris !! k = Some r /\ cis !! k = Some c /\ xs !! k = Some x
         /\ fnonzero x = true /\ ~ (0 <= r < rows_ /\ 0 <= c < cols_)) ->
      NEW_MATRIX rows_ cols_ ris cis xs h = Panic "index out of bounds for matrix").
Proof.
  split.
  - intros Hlen.
    destruct (NULL_MATRIX_run rows_ cols_ h) as (v & t1 & t2 & h1 & Hrun & _).
    unfold NEW_MATRIX. rewrite (bind_Ret _ _ _ _ _ Hrun).
    destruct (negb (length ris =? length cis)%nat
              || negb (length cis =? length xs)%nat) eqn:Ht; [reflexivity|].
    apply orb_false_elim in Ht as [H1 H2].
    apply negb_false_iff, Nat.eqb_eq in H1. apply negb_false_iff, Nat.eqb_eq in H2.
    destruct Hlen as [Hlen|Hlen]; contradiction.
  - intros Hr Hc Hrc Hl1 Hl2 Hbad.
    destruct (NULL_MATRIX_shape rows_ cols_ h Hr Hc Hrc)
      as (m & v & h1 & o & Hrun & Hmv & Hdims & Htr & Hm & Hun & Hv & Hvals & Hn & Hs
          & Hnew & Hk).
    injection Hdims as Hrows Hcols.
    unfold NEW_MATRIX. rewrite (bind_Ret _ _ _ _ _ Hrun).
    rewrite Hl1, Hl2, !Nat.eqb_refl. cbn [negb orb].
    unfold bind at 1.
    rewrite (NEW_MATRIX_loop_panics h m v Hm Hmv cis ris xs h1 o Hv); try assumption;
      try reflexivity.
    + exists v, o. split; [reflexivity|]. split; [exact Hv|].
      intros k p Hp. rewrite Hvals, lookup_empty in Hp. discriminate.
    + intros k k' l Hp. rewrite Hvals, lookup_empty in Hp. discriminate.
    + intros l _. rewrite Hs. reflexivity.
    + intros k l Hp. rewrite Hvals, lookup_empty in Hp. discriminate.
    + rewrite Hrows, Hcols. exact Hbad.
Qed.

Lemma NEW_MATRIX_panics_witness :
  NEW_MATRIX 2 2 [0] [1; 0] [5%float; 7%float] empty_heap
  = Panic "number of row/col-indices does not match number of values"
  /\ NEW_MATRIX 2 2 [0; 2] [1; 0] [5%float; 7%float] empty_heap
     = Panic "index out of bounds for matrix".
Proof.
  split.
  - apply (proj1 (NEW_MATRIX_panics 2 2 [0] [1; 0] [5%float; 7%float] empty_heap)).
    left. discriminate.
  - apply (proj2 (NEW_MATRIX_panics 2 2 [0; 2] [1; 0] [5%float; 7%float] empty_heap));
      try lia; try reflexivity.
    exists 1%nat, 2, 0, 7%float.
    split; [reflexivity|]. split; [reflexivity|]. split; [reflexivity|].
    split; [reflexivity|]. lia.
Defined.

(** ** SwapRows and SwapColumns *)

Lemma position_index (m : MATRIX_NAME) (i j : Z) :
  0 <= i < rows m -> 0 <= j < cols m -> index m i j = Ret (position m i j).
Proof.
  intros Hi Hj. unfold position.
  destruct (index_inside m i j Hi Hj) as [k ->]. reflexivity.
Qed.

Lemma position_injective (m : MATRIX_NAME) (i j i' j' : Z) :
  well_shaped m ->
  0 <= i < rows m -> 0 <= j < cols m -> 0 <= i' < rows m -> 0 <= j' < cols m ->
  position m i j = position m i' j' -> i = i' /\ j = j'.
Proof.
  intros Hm Hi Hj Hi' Hj' Heq.
  apply (proj2 (index_storage m i j i' j' Hm Hi Hj Hi' Hj')).
  rewrite (position_index m i j Hi Hj), (position_index m i' j' Hi' Hj'), Heq.
  reflexivity.
Qed.

Lemma position_range (m : MATRIX_NAME) (i j : Z) :
  well_shaped m -> 0 <= i < rows m -> 0 <= j < cols m ->
  0 <= position m i j < rowMax m * colMax m.
Proof.
  intros Hm Hi Hj.
  destruct (proj1 (index_storage m i j i j Hm Hi Hj Hi Hj)) as (k & Hk & Hr).
  unfold position. rewrite Hk. exact Hr.
Qed.

Lemma Matrix_Swap_run (h : Heap) (m : MATRIX_NAME) (v : loc) (o : VECTOR_NAME)
  (i1 j1 i2 j2 : Z) :
  mvalues m = Some v -> vectors h !! v = Some o ->
  0 <= i1 < rows m -> 0 <= j1 < cols m -> 0 <= i2 < rows m -> 0 <= j2 < cols m ->
  Matrix_Swap m i1 j1 i2 j2 h
  = Ret (tt, set_vector h v
               (mkVector (sparseIndex o)
                  (<[position m i2 j2 := map_read (values o) (position m i1 j1)]>
                     (<[position m i1 j1 := map_read (values o) (position m i2 j2)]>
                        (values o)))
                  (n o))).
Proof.
  intros Hmv Hv Hi1 Hj1 Hi2 Hj2.
  unfold Matrix_Swap. unfold bind at 1, lift.
  rewrite (position_index m i1 j1 Hi1 Hj1). cbn [rbind].
  unfold bind at 1. rewrite (position_index m i2 j2 Hi2 Hj2). cbn [rbind].
  rewrite Hmv. exact (Swap_run h v o _ _ Hv).
Qed.

(** The loop of SwapRows over distinct columns *)
Lemma SwapRows_loop_spec (m : MATRIX_NAME) (v : loc) (i j : Z) :
  well_shaped m -> mvalues m = Some v ->
  0 <= i < rows m -> 0 <= j < rows m ->
  forall (ks : list Z) (h : Heap) (o : VECTOR_NAME),
  vectors h !! v = Some o ->
  NoDup ks -> (forall c, c ∈ ks -> 0 <= c < cols m) ->
  exists o',
    SwapRows_loop m i j ks h = Ret (tt, set_vector h v o')
    /\ sparseIndex o' = sparseIndex o /\ n o' = n o
    /\ (forall c, c ∈ ks ->
          values o' !! position m i c = Some (map_read (values o) (position m j c))
          /\ values o' !! position m j c = Some (map_read (values o) (position m i c)))
    /\ (forall k, (forall c, c ∈ ks -> k <> position m i c /\ k <> position m j c) ->
          values o' !! k = values o !! k).
Proof.
  intros Hm Hmv Hi Hj ks.
  induction ks as [|c ks IH]; intros h o Hv Hnd Hks.
  - exists o. cbn [SwapRows_loop]. rewrite (set_vector_same h v o Hv).
    split; [reflexivity|]. split; [reflexivity|]. split; [reflexivity|].
    split; [intros c Hc; apply elem_of_nil in Hc; contradiction|].
    intros k _. reflexivity.
  - apply NoDup_cons in Hnd as [Hc Hnd].
    assert (Hcr : 0 <= c < cols m) by (apply Hks; left).
    set (ki := position m i c). set (kj := position m j c).
    set (o1 := mkVector (sparseIndex o)
                 (<[kj := map_read (values o) ki]> (<[ki := map_read (values o) kj]> (values o)))
                 (n o)).
    pose proof (Matrix_Swap_run h m v o i c j c Hmv Hv Hi Hcr Hj Hcr) as Hswap.
    fold ki kj o1 in Hswap.
    destruct (IH (set_vector h v o1) o1 (set_vector_lookup h v o1) Hnd)
      as (o' & Hrun & Hsi & Hn & Hrows & Hrest).
    { intros c' Hc'. apply Hks. right. exact Hc'. }
    rewrite set_vector_twice in Hrun.
    assert (Hother : forall c' r r', c' ∈ ks -> 0 <= r < rows m -> 0 <= r' < rows m ->
              position m r c <> position m r' c').
    { intros c' r r' Hc' Hr Hr' Heq.
      assert (Hcr' : 0 <= c' < cols m) by (apply Hks; right; exact Hc').
      destruct (position_injective m r c r' c' Hm Hr Hcr Hr' Hcr' Heq) as [_ ->].
      contradiction. }
    assert (Hread1 : forall k, k <> ki -> k <> kj -> values o1 !! k = values o !! k).
    { intros k H1 H2. unfold o1. cbn [values].
      rewrite lookup_insert_ne by congruence. rewrite lookup_insert_ne by congruence.
      reflexivity. }
    assert (Hki : values o1 !! ki = Some (map_read (values o) kj)).
    { unfold o1. cbn [values]. destruct (decide (kj = ki)) as [E|E].
      - rewrite E. rewrite lookup_insert_eq. reflexivity.
      - rewrite lookup_insert_ne by exact E. rewrite lookup_insert_eq. reflexivity. }
    assert (Hkj : values o1 !! kj = Some (map_read (values o) ki)).
    { unfold o1. cbn [values]. rewrite lookup_insert_eq. reflexivity. }
    exists o'. split.
    { cbn [SwapRows_loop]. rewrite (bind_Ret _ _ _ _ _ Hswap). exact Hrun. }
    split; [rewrite Hsi; reflexivity|]. split; [rewrite Hn; reflexivity|]. split.
    + intros c' Hc'. apply elem_of_cons in Hc' as [->|Hc'].
      * fold ki kj. rewrite !Hrest.
        -- split; [exact Hki|exact Hkj].
        -- intros c' Hc'. split; apply (Hother c' j); assumption.
        -- intros c' Hc'. split; apply (Hother c' i); assumption.
      * destruct (Hrows c' Hc') as [H1 H2]. rewrite H1, H2.
        unfold map_read. rewrite !Hread1.
        -- split; reflexivity.
        -- intros E. symmetry in E. revert E. apply (Hother c' i i); assumption.
        -- intros E. symmetry in E. revert E. apply (Hother c' j i); assumption.
        -- intros E. symmetry in E. revert E. apply (Hother c' i j); assumption.
        -- intros E. symmetry in E. revert E. apply (Hother c' j j); assumption.
    + intros k Hk. rewrite Hrest.
      * apply Hread1; apply (Hk c); left.
      * intros c' Hc'. apply Hk. right. exact Hc'.
Qed.

Lemma upto_NoDup (n_ : Z) : NoDup (upto n_).
Proof.
  unfold upto. apply NoDup_fmap_2; [intros a b; lia|apply NoDup_seq].
Qed.

Lemma upto_elem_of (n_ k : Z) : 0 <= k < n_ -> k ∈ upto n_.
Proof.
  intros Hk. unfold upto. apply list_elem_of_fmap. exists (Z.to_nat k).
  split; [lia|]. apply elem_of_seq. lia.
Qed.

(** SwapColumns is SwapRows on the transposed view *)
Lemma SwapColumns_T (m : MATRIX_NAME) (i j : Z) (h : Heap) :
  SwapColumns m i j h = SwapRows (T m) i j h.
Proof.
  assert (Hloop : forall ks h0, SwapColumns_loop m i j ks h0 = SwapRows_loop (T m) i j ks h0).
  { induction ks as [|k ks IH]; intros h0; [reflexivity|].
    cbn [SwapColumns_loop SwapRows_loop].
    assert (Hs : Matrix_Swap (T m) i k j k h0 = Matrix_Swap m k i k j h0).
    { unfold Matrix_Swap. rewrite !index_T. reflexivity. }
    unfold bind. rewrite Hs.
    destruct (Matrix_Swap m k i k j h0) as [[[] h1]| |]; [apply IH|reflexivity|reflexivity]. }
  unfold SwapColumns, SwapRows, Dims, T.
  cbn [fst snd rows cols].
  rewrite (Z.eqb_sym (cols m) (rows m)).
  destruct (negb (rows m =? cols m)); [reflexivity|].
  unfold bind. rewrite Hloop. reflexivity.
Qed.

(** X25: SwapRows and SwapColumns on a sparse matrix.  On a well-shaped square
    matrix SwapRows(i, j) returns no error and exchanges the two rows entry
    by entry in the backing vector: afterwards every position of the two
    rows is a key of the entry map and holds what a map read of the position
    in the other row gave before, which is nil where that position was not
    occupied; no other entry and nothing of the index structure is touched.
    So a position of row i whose counterpart in row j was not occupied can
    no longer be read: ValueAt panics there.  SwapColumns is SwapRows on the
    transposed view. *)
Theorem SwapRows_exchanges_the_entries
  (h : Heap) (m : MATRIX_NAME) (v : loc) (o : VECTOR_NAME) (i j : Z) :
  well_shaped m -> mvalues m = Some v -> vectors h !! v = Some o ->
  n o = rowMax m * colMax m ->
  rows m = cols m -> 0 <= i < rows m -> 0 <= j < rows m ->
  (exists o',
     SwapRows m i j h = Ret (None, set_vector h v o')
     /\ sparseIndex o' = sparseIndex o /\ n o' = n o
     /\ (forall c, 0 <= c < cols m ->
           values o' !! position m i c = Some (map_read (values o) (position m j c))
           /\ values o' !! position m j c = Some (map_read (values o) (position m i c)))
     /\ (forall k, (forall c, 0 <= c < cols m ->
                      k <> position m i c /\ k <> position m j c) ->
           values o' !! k = values o !! k)
     /\ (forall c, 0 <= c < cols m -> values o !! position m j c = None ->
           Matrix_ValueAt m i c (set_vector h v o') = Panic "nil pointer dereference"))
  /\ SwapColumns m i j h = SwapRows (T m) i j h.
Proof.
  intros Hm Hmv Hv Hn Hsq Hi Hj. split; [|apply SwapColumns_T].
  destruct (SwapRows_loop_spec m v i j Hm Hmv Hi Hj (upto (cols m)) h o Hv
              (upto_NoDup _) (fun c => upto_elem (cols m) c))
    as (o' & Hrun & Hsi & Hn' & Hrows & Hrest).
  exists o'. split.
  { unfold SwapRows, Dims. cbn [fst snd]. rewrite Hsq, Z.eqb_refl. cbn [negb].
    rewrite (bind_Ret _ _ _ _ _ Hrun). reflexivity. }
  split; [exact Hsi|]. split; [exact Hn'|]. split.
  { intros c Hc. apply Hrows, upto_elem_of. exact Hc. }
  split.
  { intros k Hk. apply Hrest. intros c Hc. apply Hk, upto_elem. exact Hc. }
  intros c Hc Hnone.
  destruct (Hrows c (upto_elem_of _ _ Hc)) as [Hic _].
  unfold map_read in Hic. rewrite Hnone in Hic. cbn [default] in Hic.
  pose proof (position_range m i c Hm Hi Hc) as Hr.
  rewrite (proj1 (Matrix_ValueAt_index m i c _ _ (position_index m i c Hi Hc))), Hmv.
  unfold ValueAt, Dim.
  rewrite (bind_Ret _ _ _ _ _ (bind_Ret _ _ _ _ _
             (loadVector_Some _ _ _ (set_vector_lookup h v o')))).
  unfold ret at 1. unfold out_of_bounds.
  destruct (Z.ltb_spec (position m i c) 0); [lia|].
  destruct (Z.leb_spec (n o') (position m i c)); [lia|]. cbn [orb].
  rewrite (bind_Ret _ _ _ _ _ (loadVector_Some _ _ _ (set_vector_lookup h v o'))).
  rewrite Hic. reflexivity.
Qed.

Lemma SwapRows_exchanges_the_entries_witness :
  (exists o',
     SwapRows (fst asymmetric_2x2) 0 1 (snd asymmetric_2x2)
     = Ret (None, set_vector (snd asymmetric_2x2) 1%positive o')
     /\ sparseIndex o' = sparseIndex stored_2x2 /\ n o' = n stored_2x2
     /\ (forall c, 0 <= c < cols (fst asymmetric_2x2) ->
           values o' !! position (fst asymmetric_2x2) 0 c
           = Some (map_read (values stored_2x2) (position (fst asymmetric_2x2) 1 c))
           /\ values o' !! position (fst asymmetric_2x2) 1 c
              = Some (map_read (values stored_2x2) (position (fst asymmetric_2x2) 0 c)))
     /\ (forall k, (forall c, 0 <= c < cols (fst asymmetric_2x2) ->
                      k <> position (fst asymmetric_2x2) 0 c
                      /\ k <> position (fst asymmetric_2x2) 1 c) ->
           values o' !! k = values stored_2x2 !! k)
     /\ (forall c, 0 <= c < cols (fst asymmetric_2x2) ->
           values stored_2x2 !! position (fst asymmetric_2x2) 1 c = None ->
           Matrix_ValueAt (fst asymmetric_2x2) 0 c
             (set_vector (snd asymmetric_2x2) 1%positive o')
           = Panic "nil pointer dereference"))
  /\ SwapColumns (fst asymmetric_2x2) 0 1 (snd asymmetric_2x2)
     = SwapRows (T (fst asymmetric_2x2)) 0 1 (snd asymmetric_2x2).
Proof.
  apply (SwapRows_exchanges_the_entries (snd asymmetric_2x2) (fst asymmetric_2x2)
           1%positive stored_2x2 0 1).
  - unfold well_shaped. simpl. lia.
  - reflexivity.
  - reflexivity.
  - reflexivity.
  - reflexivity.
  - simpl. lia.
  - simpl. lia.
Defined.

(** A run on the matrix with 5.0 at (0,1) and 7.0 at (1,0) only: after
    SwapRows(0, 1) position (0,0) reads 7.0 and position (1,0), which took
    the place of the unoccupied (0,0), cannot be read. *)
Example SwapRows_run :
  result_of ((SwapRows (fst asymmetric_2x2) 0 1 ;;;
              Matrix_ValueAt (fst asymmetric_2x2) 0 0) (snd asymmetric_2x2))
  = Ret 7%float
  /\ result_of ((SwapRows (fst asymmetric_2x2) 0 1 ;;;
                 Matrix_ValueAt (fst asymmetric_2x2) 1 0) (snd asymmetric_2x2))
     = Panic "nil pointer dereference".
Proof.
  split; vm_compute; reflexivity.
Qed.

(** ** Loops over an iterator *)

Lemma null_at_scalars (h h' : Heap) (o : VECTOR_NAME) (k : Z) :
  scalars h' = scalars h -> null_at h' o k = null_at h o k.
Proof. intros Hs. unfold null_at. rewrite Hs. reflexivity. Qed.

Lemma stored_scalars (h h' : Heap) (o : VECTOR_NAME) (ks : list Z) :
  scalars h' = scalars h -> stored h o ks -> stored h' o ks.
Proof. intros Hs Hst k Hk. rewrite Hs. exact (Hst k Hk). Qed.

Lemma agrees_without (h : Heap) (o0 o : VECTOR_NAME) (P : list Z) :
  agrees h o0 o -> Forall (fun k => null_at h o k = true) P ->
  agrees h o0 (without o P).
Proof.
  intros [Hn Hag] HP. split; [exact Hn|].
  intros k. rewrite without_lookup.
  destruct (decide (k ∈ P)) as [Hk|Hk]; [|apply Hag].
  right. split; [reflexivity|].
  rewrite Forall_forall in HP. specialize (HP k Hk).
  destruct (Hag k) as [Heq|[Hnone _]].
  - unfold null_at in HP |- *. rewrite <- Heq. exact HP.
  - unfold null_at in HP. rewrite Hnone in HP. discriminate.
Qed.

Section ForIteratorSpec.

Context {St : Type}.
Variable body : VECTOR_ITERATOR -> St -> M St.
Variable v : loc.
Variable o0 : VECTOR_NAME.

(** What holds of the local variables and the store after the indices
    [vis] have been visited *)
Variable Inv : list Z -> St -> Heap -> Prop.

(** The body leaves the vector iterated over and all scalars as they are *)
Hypothesis body_ok : forall vis k rest s h o l sc,
  Inv vis s h -> vectors h !! v = Some o -> agrees h o0 o ->
  values o !! k = Some (Some l) -> scalars h !! l = Some sc ->
  exists s' h',
    body (mkIterator (k :: rest) (Some v)) s h = Ret (s', h')
    /\ vectors h' !! v = Some o /\ scalars h' = scalars h
    /\ Inv (vis ++ [k]) s' h'.

Hypothesis Inv_frame : forall vis s h o, Inv vis s h -> Inv vis s (set_vector h v o).

Lemma for_iterator_loop_spec :
  forall (N : nat) (it : list Z) (h : Heap) (o : VECTOR_NAME) (fuel : nat)
         (vis : list Z) (s : St),
    (length it <= N)%nat ->
    vectors h !! v = Some o -> agrees h o0 o ->
    stored h o it -> NoDup it ->
    (length it < fuel)%nat ->
    Inv vis s h ->
    exists s' h',
      for_iterator_loop body fuel (mkIterator it (Some v)) s h = Ret (s', h')
      /\ vectors h' !! v = Some (without o (List.filter (null_at h o) (tail it)))
      /\ scalars h' = scalars h
      /\ Inv (vis ++ visited h o it) s' h'.
Proof.
  induction N as [|N IH]; intros it h o fuel vis s Hlen Hv Hag Hst Hnd Hfuel HI.
  - destruct it; [|simpl in Hlen; lia].
    destruct fuel; [simpl in Hfuel; lia|].
    exists s, h. simpl. rewrite without_nil, app_nil_r. auto.
  - destruct it as [|x rest].
    + destruct fuel; [simpl in Hfuel; lia|].
      exists s, h. simpl. rewrite without_nil, app_nil_r. auto.
    + destruct fuel as [|fuel]; [simpl in Hfuel; lia|].
      apply NoDup_cons in Hnd as [Hx Hnd].
      destruct (Hst x (list_elem_of_here _ _)) as (l & sc & Hl & Hsc).
      destruct (body_ok vis x rest s h o l sc HI Hv Hag Hl Hsc)
        as (s1 & h1 & Hbody & Hv1 & Hs1 & HI1).
      destruct (Next_loop_spec v rest h1 o Hv1) as (P & rest' & Heq & HP & Hhead & Hrun).
      { apply (stored_scalars h h1 o rest Hs1).
        intros k Hk. apply Hst. right. exact Hk. }
      { exact Hnd. }
      assert (HndP : forall k, k ∈ rest' -> k ∉ P).
      { intros k Hk HkP. rewrite Heq in Hnd. apply NoDup_app in Hnd as (_ & Hdisj & _).
        exact (Hdisj k HkP Hk). }
      assert (HP' : Forall (fun k => null_at h o k = true) P).
      { rewrite Forall_forall in HP |- *. intros k Hk.
        rewrite <- (null_at_scalars h h1 o k Hs1). exact (HP k Hk). }
      set (h2 := set_vector h1 v (without o P)).
      assert (Hs2 : scalars h2 = scalars h) by exact Hs1.
      destruct (IH rest' h2 (without o P) fuel (vis ++ [x]) s1)
        as (s' & h' & Hloop & Hv' & Hs' & HI').
      { assert (length rest = length P + length rest')%nat
          by (rewrite Heq; apply length_app).
        simpl in Hlen. lia. }
      { apply set_vector_lookup. }
      { destruct (agrees_without h o0 o P Hag HP') as [Hn2 Hag2]. split; [exact Hn2|].
        intros k. destruct (Hag2 k) as [E|[E1 E2]]; [left; exact E|right].
        split; [exact E1|]. rewrite (null_at_scalars h h2 o0 k Hs2). exact E2. }
      { intros k Hk.
        destruct (Hst k) as (l' & s0 & Hl' & Hs0).
        { right. rewrite Heq. apply elem_of_app. right. exact Hk. }
        exists l', s0. split; [|rewrite Hs2; exact Hs0].
        rewrite without_lookup, decide_False by (apply HndP, Hk). exact Hl'. }
      { rewrite Heq in Hnd. apply NoDup_app in Hnd. tauto. }
      { assert (length rest = length P + length rest')%nat
          by (rewrite Heq; apply length_app).
        simpl in Hfuel. lia. }
      { apply Inv_frame. exact HI1. }
      assert (Hnull2 : forall k, k ∉ P -> null_at h2 (without o P) k = null_at h o k).
      { intros k Hk. rewrite (null_at_scalars h h2 _ k Hs2).
        unfold null_at. rewrite without_lookup, decide_False by exact Hk. reflexivity. }
      exists s', h'. split.
      { cbn [for_iterator_loop Iterator_Ok it_index].
        rewrite (bind_Ret _ _ _ _ _ Hbody).
        unfold Iterator_Next. cbn [it_index it_v tail].
        rewrite (bind_Ret _ _ _ _ _ (bind_Ret _ _ _ _ _ Hrun)).
        exact Hloop. }
      split.
      { rewrite Hv', without_app. cbn [tail]. f_equal. f_equal.
        rewrite Heq, List.filter_app, (filter_all _ P HP').
        rewrite (filter_skip_head (null_at h o) rest').
        - apply (f_equal (app P)).
          apply List.filter_ext_in. intros k Hk. apply Hnull2.
          apply HndP. apply list_elem_of_In in Hk.
          destruct rest' as [|y rest']; [inversion Hk|]. right. exact Hk.
        - destruct rest' as [|y rest']; [exact I|].
          rewrite <- (null_at_scalars h h1 o y Hs1). exact Hhead. }
      split; [rewrite Hs'; exact Hs2|].
      replace (vis ++ visited h o (x :: rest))
        with ((vis ++ [x]) ++ visited h2 (without o P) rest'); [exact HI'|].
      rewrite <- app_assoc. f_equal. cbn [visited app]. f_equal.
      rewrite Heq, List.filter_app.
      replace (List.filter (fun k => negb (null_at h o k)) P) with (@nil Z).
      2:{ symmetry. clear -HP'. induction P as [|y P IHP]; [reflexivity|].
          apply Forall_cons in HP' as [Hy HP']. simpl. rewrite Hy. simpl. auto. }
      cbn [app]. destruct rest' as [|y rest']; [reflexivity|].
      cbn [visited List.filter].
      rewrite <- (null_at_scalars h h1 o y Hs1), Hhead. cbn [negb]. f_equal.
      apply List.filter_ext_in. intros k Hk. f_equal. apply Hnull2.
      apply HndP. right. apply list_elem_of_In. exact Hk.
Qed.

End ForIteratorSpec.
(** ** Append *)

Lemma appended_snoc (on : Z) (ob ro : VECTOR_NAME) (vis : list Z) (k : Z) :
  appended on ob ro (vis ++ [k])
  = mkVector (indexInsert (sparseIndex (appended on ob ro vis)) (int_add on k))
      (<[int_add on k := map_read (values ob) k]> (values (appended on ob ro vis)))
      (n (appended on ob ro vis)).
Proof. unfold appended. rewrite fold_left_app. reflexivity. Qed.

Lemma appended_spec (on : Z) (ob : VECTOR_NAME) (vis : list Z) :
  forall ro,
    n (appended on ob ro vis) = n ro
    /\ indices (sparseIndex (appended on ob ro vis))
       = indices (sparseIndex ro) ++ map (int_add on) vis
    /\ (forall j, (forall k, k ∈ vis -> int_add on k <> j) ->
          values (appended on ob ro vis) !! j = values ro !! j)
    /\ (forall k, k ∈ vis ->
          (forall k', k' ∈ vis -> int_add on k' = int_add on k -> k' = k) ->
          values (appended on ob ro vis) !! int_add on k = Some (map_read (values ob) k)).
Proof.
  induction vis as [|x vis IH] using rev_ind; intros ro.
  - split; [reflexivity|]. split; [symmetry; apply app_nil_r|].
    split; [reflexivity|]. intros k Hk. apply elem_of_nil in Hk. contradiction.
  - rewrite appended_snoc. destruct (IH ro) as (Hn & Hix & Hout & Hin).
    cbn [n sparseIndex values indexInsert indices].
    split; [exact Hn|]. split.
    { rewrite Hix, map_app, <- app_assoc. reflexivity. }
    split.
    { intros j Hj. rewrite lookup_insert_ne.
      - apply Hout. intros k Hk. apply Hj. apply elem_of_app. left. exact Hk.
      - apply Hj. apply elem_of_app. right. left. }
    intros k Hk Hinj.
    destruct (decide (int_add on x = int_add on k)) as [E|E].
    + rewrite E, lookup_insert_eq. f_equal. f_equal. apply Hinj; [|exact E].
      apply elem_of_app. right. left.
    + rewrite lookup_insert_ne by exact E.
      apply elem_of_app in Hk as [Hk|Hk].
      * apply Hin; [exact Hk|]. intros k' Hk'. apply Hinj. apply elem_of_app. left. exact Hk'.
      * apply elem_of_cons in Hk as [->|Hk]; [contradiction|]. apply elem_of_nil in Hk. contradiction.
Qed.

Lemma Append_body_ok (hs : Heap) (a r b : loc) (on : Z) (ob ro1 : VECTOR_NAME) :
  r <> b -> a <> r ->
  (a = b /\ n ob = on) \/ (a <> b /\ exists oa, vectors hs !! a = Some oa /\ n oa = on) ->
  forall vis k rest (s : unit) h o l sc,
    Append_inv hs r b on ob ro1 vis s h -> vectors h !! b = Some o -> agrees h ob o ->
    values o !! k = Some (Some l) -> scalars h !! l = Some sc ->
    exists s' h',
      Append_body (Some a) (Some r) (mkIterator (k :: rest) (Some b)) s h = Ret (s', h')
      /\ vectors h' !! b = Some o /\ scalars h' = scalars h
      /\ Append_inv hs r b on ob ro1 (vis ++ [k]) s' h'.
Proof.
  intros Hrb Har Ha vis k rest s h o l sc [Hr Hframe] Hb [Hn Hag] Hl Hsc.
  assert (Hoa : exists oa, vectors h !! a = Some oa /\ n oa = on).
  { destruct Ha as [[-> Hon]|[Hab (oa & Hoa & Hon)]].
    - exists o. split; [exact Hb|]. rewrite Hn. exact Hon.
    - exists oa. split; [|exact Hon]. rewrite (Hframe a Har Hab). exact Hoa. }
  destruct Hoa as (oa & Hoa & Hon).
  assert (Hread : map_read (values ob) k = Some l).
  { unfold map_read. destruct (Hag k) as [E|[E _]].
    - rewrite <- E, Hl. reflexivity.
    - rewrite E in Hl. discriminate. }
  set (ro := appended on ob ro1 vis) in *.
  set (i := int_add on k).
  set (ro' := mkVector (sparseIndex ro) (<[i := Some l]> (values ro)) (n ro)).
  set (ro'' := mkVector (indexInsert (sparseIndex ro') i) (values ro') (n ro')).
  exists tt, (set_vector h r ro''). split.
  { unfold Append_body.
    rewrite (bind_Ret _ _ _ _ _ (loadVector_Some _ _ _ Hoa)).
    unfold Iterator_Index at 1. cbn [it_index]. unfold bind at 1. unfold ret at 1.
    rewrite (bind_Ret _ _ _ _ _ (Iterator_GET_run h b o k rest _ Hb Hl)).
    rewrite Hon. fold i.
    rewrite (bind_Ret _ _ _ _ _ (set_values_run h r ro i (Some l) Hr)).
    fold ro'.
    rewrite (vector_indexInsert_run _ r ro' i (set_vector_lookup _ _ _)).
    rewrite set_vector_twice. reflexivity. }
  split; [rewrite set_vector_lookup_ne by (intros E; apply Hrb; symmetry; exact E); exact Hb|].
  split; [reflexivity|]. split.
  - rewrite set_vector_lookup, appended_snoc. fold ro. fold i. rewrite Hread. reflexivity.
  - intros u Hur Hub. rewrite set_vector_lookup_ne by exact Hur. apply Hframe; assumption.
Qed.

Lemma Append_inv_frame (hs : Heap) (r b : loc) (on : Z) (ob ro1 : VECTOR_NAME) :
  r <> b ->
  forall vis (s : unit) h o,
    Append_inv hs r b on ob ro1 vis s h ->
    Append_inv hs r b on ob ro1 vis s (set_vector h b o).
Proof.
  intros Hrb vis s h o [Hr Hframe]. split.
  - rewrite set_vector_lookup_ne by exact Hrb. exact Hr.
  - intros u Hur Hub. rewrite set_vector_lookup_ne by exact Hub. apply Hframe; assumption.
Qed.

Lemma visited_elem (h : Heap) (o : VECTOR_NAME) (it : list Z) (k : Z) :
  NoDup it ->
  k ∈ visited h o it <-> k ∈ it /\ k ∉ List.filter (null_at h o) (tail it).
Proof.
  intros Hnd. destruct it as [|x rest]; cbn [visited tail].
  - rewrite elem_of_nil. tauto.
  - apply NoDup_cons in Hnd as [Hx _].
    rewrite !elem_of_cons, !list_elem_of_In, !List.filter_In, <- !list_elem_of_In.
    rewrite negb_true_iff. split.
    + intros [->|[Hk Hn]].
      * split; [left; reflexivity|]. intros [Hk _]. contradiction.
      * split; [right; exact Hk|]. intros [_ Hn']. congruence.
    + intros [[->|Hk] Hn]; [left; reflexivity|]. right. split; [exact Hk|].
      destruct (null_at h o k); [|reflexivity]. exfalso. apply Hn. auto.
Qed.

Lemma null_at_extends (h h' : Heap) (o o' : VECTOR_NAME) (k : Z) :
  values o' = values o -> scalars h ⊆ scalars h' ->
  (forall k p, values o !! k = Some p -> exists l, p = Some l /\ is_Some (scalars h !! l)) ->
  null_at h' o' k = null_at h o k.
Proof.
  intros Hvals Hsub Hvalid. unfold null_at. rewrite Hvals.
  destruct (values o !! k) as [[l|]|] eqn:Hk; [|reflexivity|reflexivity].
  destruct (Hvalid k _ Hk) as (l' & Hl' & [s Hs]). injection Hl' as <-.
  rewrite Hs, (lookup_weaken _ _ _ _ Hs Hsub). reflexivity.
Qed.

(** X26: Append(w) makes a deep copy of the vector and hands the entries of [w]
    over as they are.  For two vectors whose entries are allocated scalars
    at indices inside their dimensions, the sum of the dimensions being an
    int: the result is a new vector of the summed dimension; below the
    dimension of the first operand it holds copies, in new scalars, of what
    the first operand stores; above, shifted by that dimension, it holds
    the very pointers that [w] stores, so that a write through the result
    is a write to [w].  The traversal of [w] prunes it: its structural
    zeros, the one at its smallest index apart, are deleted from [w] and do
    not reach the result.  No scalar that existed is changed, and the first
    operand is left as it is when it is not [w] itself. *)
Theorem Append_shares_the_second_operand
  (h : Heap) (a b : loc) (oa ob : VECTOR_NAME) :
  vectors h !! a = Some oa -> vectors h !! b = Some ob ->
  valid_vector h (Some a) -> valid_vector h (Some b) ->
  index_mirrors ob -> NoDup (indices (sparseIndex ob)) ->
  keys_in_range oa -> keys_in_range ob ->
  0 <= n oa -> 0 <= n ob -> n oa + n ob < 2 ^ 63 ->
  exists r h' ro,
    Append (Some a) (Some b) h = Ret (Some r, h')
    /\ vectors h !! r = None /\ vectors h' !! r = Some ro
    /\ n ro = n oa + n ob
    /\ vectors h' !! b = Some (without (sorted_obj ob) (pruned h ob))
    /\ (a <> b -> vectors h' !! a = Some oa)
    /\ (forall l, is_Some (scalars h !! l) -> scalars h' !! l = scalars h !! l)
    /\ (forall k, 0 <= k < n oa ->
          deref h' <$> (values ro !! k) = deref h <$> (values oa !! k)
          /\ forall l, values ro !! k = Some (Some l) -> scalars h !! l = None)
    /\ (forall k, 0 <= k < n ob ->
          values ro !! (n oa + k)
          = if decide (k ∈ pruned h ob) then None else values ob !! k).
Proof.
  intros Hoa Hob Hva Hvb Hmir Hnd Hka Hkb Hna Hnb Hsum.
  destruct (Clone_vector_spec h (Some a) Hva)
    as (r & h1 & Hclone & Hrnew & [Hext_v Hext_s] & Hvr & Hcont & Hown).
  destruct Hvr as (r' & ro0 & Heq & Hr1 & Hvalr). injection Heq as <-.
  pose proof (lookup_weaken _ _ _ _ Hoa Hext_v) as Ha1.
  pose proof (lookup_weaken _ _ _ _ Hob Hext_v) as Hb1.
  assert (Har : a <> r) by (intros ->; rewrite Hrnew in Hoa; discriminate).
  assert (Hbr : b <> r) by (intros ->; rewrite Hrnew in Hob; discriminate).
  assert (Hrb : r <> b) by (intros E; apply Hbr; symmetry; exact E).
  unfold contents in Hcont. rewrite Hr1, Hoa in Hcont.
  injection Hcont as Hn0 Hix0 Hvals0.
  pose proof Hvb as (b' & ob' & Heq & Hob' & Hvalb). injection Heq as <-.
  rewrite Hob in Hob'. injection Hob' as <-.
  set (ro1 := mkVector (sparseIndex ro0) (values ro0) (int_add (n oa) (n ob))).
  set (h2 := set_vector h1 r ro1).
  set (h3 := set_vector h2 b (sorted_obj ob)).
  set (it := indices (indexSort (sparseIndex ob))).
  assert (Hb2 : vectors h2 !! b = Some ob).
  { unfold h2. rewrite set_vector_lookup_ne by exact Hbr. exact Hb1. }
  assert (Hs3 : scalars h3 = scalars h1) by reflexivity.
  destruct (indexSort_strict ob Hmir Hnd) as [Hsorted Hin].
  assert (Hndit : NoDup it).
  { unfold it, indexSort. destruct (isSorted (sparseIndex ob)); [exact Hnd|].
    simpl. rewrite merge_sort_Permutation. exact Hnd. }
  assert (Hnull : forall k, null_at h3 (sorted_obj ob) k = null_at h ob k).
  { intros k. apply null_at_extends; [reflexivity|exact Hext_s|exact Hvalb]. }
  assert (Hpruned : List.filter (null_at h3 (sorted_obj ob)) (tail it) = pruned h ob).
  { unfold pruned. fold it. apply List.filter_ext. exact Hnull. }
  assert (Ha' : (a = b /\ n ob = n oa)
                \/ (a <> b /\ exists oa', vectors h3 !! a = Some oa' /\ n oa' = n oa)).
  { destruct (decide (a = b)) as [->|Hab].
    - left. split; [reflexivity|]. rewrite Hoa in Hob. injection Hob as ->. reflexivity.
    - right. split; [exact Hab|]. exists oa. split; [|reflexivity].
      unfold h3, h2. rewrite !set_vector_lookup_ne by assumption. exact Ha1. }
  destruct (for_iterator_loop_spec (Append_body (Some a) (Some r)) b ob
              (Append_inv h3 r b (n oa) ob ro1)
              (Append_body_ok h3 a r b (n oa) ob ro1 Hrb Har Ha')
              (Append_inv_frame h3 r b (n oa) ob ro1 Hrb)
              (length it) it h3 (sorted_obj ob) (S (length it)) [] tt)
    as (s' & h' & Hloop & Hv' & Hs' & [Hr' Hframe]).
  { apply le_n. }
  { apply set_vector_lookup. }
  { split; [reflexivity|]. intros k. left. reflexivity. }
  { intros k Hk. apply Hin in Hk as [p Hp].
    destruct (Hvalb k p Hp) as (l & -> & [s Hs]). exists l, s.
    split; [exact Hp|]. rewrite Hs3. exact (lookup_weaken _ _ _ _ Hs Hext_s). }
  { exact Hndit. }
  { apply Nat.lt_succ_diag_r. }
  { split; [|intros; reflexivity].
    unfold h3, h2. rewrite set_vector_lookup_ne by exact Hrb. apply set_vector_lookup. }
  cbn [app] in Hr'. rewrite Hpruned in Hv'.
  set (vis := visited h3 (sorted_obj ob) it) in *.
  assert (Hvis : forall k, k ∈ vis <-> k ∈ it /\ k ∉ pruned h ob).
  { intros k. unfold vis. rewrite (visited_elem _ _ _ _ Hndit), Hpruned. reflexivity. }
  assert (Hrange : forall k, k ∈ it -> 0 <= k < n ob).
  { intros k Hk. apply Hkb, Hin. exact Hk. }
  assert (Hshift : forall k, 0 <= k < n ob -> int_add (n oa) k = n oa + k).
  { intros k Hk. unfold int_add. apply wrap_small. lia. }
  destruct (appended_spec (n oa) ob vis ro1) as (Hn' & _ & Hout & Hinside).
  exists r, h', (appended (n oa) ob ro1 vis). split.
  { unfold Append. rewrite (bind_Ret _ _ _ _ _ Hclone).
    rewrite (bind_Ret _ _ _ _ _ (loadVector_Some _ _ _ Ha1)).
    unfold Dim.
    rewrite (bind_Ret _ _ _ _ _ (bind_Ret _ _ _ _ _ (loadVector_Some _ _ _ Hb1))).
    unfold ret at 1.
    rewrite (bind_Ret _ _ _ _ _ (loadVector_Some _ _ _ Hr1)).
    rewrite (bind_Ret _ _ _ _ _ (storeVector_Some h1 r ro0 ro1 Hr1)).
    change (mkHeap (scalars h1) (<[r := ro1]> (vectors h1))) with h2.
    assert (Hfor : for_iterator (Append_body (Some a) (Some r)) (Some b) tt h2
                   = Ret (s', h')).
    { unfold for_iterator. rewrite (bind_Ret _ _ _ _ _ (ITERATOR_run h2 b ob Hb2)).
      cbn [it_index]. exact Hloop. }
    rewrite (bind_Ret _ _ _ _ _ Hfor). reflexivity. }
  split; [exact Hrnew|]. split; [exact Hr'|]. split.
  { rewrite Hn'. cbn [ro1 n]. unfold int_add. apply wrap_small. lia. }
  split; [exact Hv'|]. split.
  { intros Hab. rewrite (Hframe a Har Hab).
    unfold h3, h2. rewrite !set_vector_lookup_ne by assumption. exact Ha1. }
  split.
  { intros l [s Hs]. rewrite Hs', Hs3, Hs. exact (lookup_weaken _ _ _ _ Hs Hext_s). }
  split.
  - intros k Hk.
    assert (Hsame : values (appended (n oa) ob ro1 vis) !! k = values ro0 !! k).
    { rewrite Hout; [reflexivity|]. intros k' Hk' E.
      apply Hvis in Hk' as [Hk' _]. apply Hrange in Hk'.
      rewrite (Hshift k' Hk') in E. lia. }
    rewrite Hsame. split.
    + rewrite <- !lookup_fmap, <- Hvals0.
      rewrite !lookup_fmap. destruct (values ro0 !! k) as [p|]; [|reflexivity].
      cbn. f_equal. unfold deref. rewrite Hs', Hs3. reflexivity.
    + intros l Hl. apply Hown. exists r, ro0, k. auto.
  - intros k Hk. rewrite <- (Hshift k Hk).
    destruct (decide (k ∈ vis)) as [Hv|Hv].
    + rewrite Hinside; [|exact Hv|].
      * pose proof (proj1 (Hvis k) Hv) as [Hkit Hnp].
        rewrite decide_False by exact Hnp.
        apply Hin in Hkit as [p Hp]. unfold map_read. rewrite Hp. reflexivity.
      * intros k' Hk' E. apply Hvis in Hk' as [Hk' _]. apply Hrange in Hk'.
        rewrite (Hshift k' Hk'), (Hshift k Hk) in E. lia.
    + rewrite Hout.
      * assert (Hnone : values ro0 !! int_add (n oa) k = None).
        { destruct (values ro0 !! int_add (n oa) k) as [p|] eqn:Hp; [|reflexivity].
          exfalso.
          assert (Hsome : is_Some ((deref h <$> values oa) !! int_add (n oa) k)).
          { rewrite <- Hvals0, lookup_fmap, Hp. eauto. }
          rewrite lookup_fmap in Hsome. apply fmap_is_Some in Hsome.
          apply Hka in Hsome. rewrite (Hshift k Hk) in Hsome. lia. }
        cbn [ro1 values]. rewrite Hnone.
        destruct (decide (k ∈ pruned h ob)) as [Hp|Hp]; [reflexivity|].
        destruct (values ob !! k) as [p|] eqn:Hkp; [|reflexivity].
        exfalso. apply Hv, Hvis. split; [|exact Hp]. apply Hin. eauto.
      * intros k' Hk' E. apply Hv.
        pose proof (proj1 (Hvis k') Hk') as [Hk'' _]. apply Hrange in Hk''.
        rewrite (Hshift k' Hk''), (Hshift k Hk) in E.
        assert (k' = k) as <- by lia. exact Hk'.
Qed.

Lemma Append_shares_the_second_operand_witness :
  exists r h' ro,
    Append (Some 1%positive) (Some 2%positive) joint_heap = Ret (Some r, h')
    /\ vectors joint_heap !! r = None /\ vectors h' !! r = Some ro
    /\ n ro = n joint_first + n joint_second
    /\ vectors h' !! 2%positive
       = Some (without (sorted_obj joint_second) (pruned joint_heap joint_second))
    /\ (1%positive <> 2%positive -> vectors h' !! 1%positive = Some joint_first)
    /\ (forall l, is_Some (scalars joint_heap !! l) ->
          scalars h' !! l = scalars joint_heap !! l)
    /\ (forall k, 0 <= k < n joint_first ->
          deref h' <$> (values ro !! k) = deref joint_heap <$> (values joint_first !! k)
          /\ forall l, values ro !! k = Some (Some l) -> scalars joint_heap !! l = None)
    /\ (forall k, 0 <= k < n joint_second ->
          values ro !! (n joint_first + k)
          = if decide (k ∈ pruned joint_heap joint_second) then None
            else values joint_second !! k).
Proof.
  apply (Append_shares_the_second_operand joint_heap 1%positive 2%positive
           joint_first joint_second).
  - reflexivity.
  - reflexivity.
  - apply valid_vectorb_true. vm_compute. reflexivity.
  - apply valid_vectorb_true. vm_compute. reflexivity.
  - apply index_mirrorsb_true. vm_compute. reflexivity.
  - apply (bool_decide_eq_true_1 (NoDup (indices (sparseIndex joint_second)))).
    vm_compute. reflexivity.
  - apply keys_in_rangeb_true. vm_compute. reflexivity.
  - apply keys_in_rangeb_true. vm_compute. reflexivity.
  - simpl. lia.
  - simpl. lia.
  - simpl. lia.
Defined.

(** A run on two vectors of dimension 4: a write through the result at index
    5 reaches index 1 of the second operand, a write at index 0 does not
    reach the first. *)
Example Append_then_write :
  result_of
    ((r <- Append (Some 1%positive) (Some 2%positive) ;;
      p <- AT r 5 ;;
      storeScalar p (NEW_SCALAR 9%float) ;;;
      q <- AT r 0 ;;
      storeScalar q (NEW_SCALAR 8%float) ;;;
      x <- ValueAt (Some 2%positive) 1 ;;
      y <- ValueAt (Some 1%positive) 0 ;;
      d <- Dim r ;;
      ret (x, y, d)) joint_heap)
  = Ret (9%float, 2%float, 8).
Proof.
  vm_compute. reflexivity.
Qed.

(** A run of v.Append(v) on the vector that stores 3.0 and a structural
    zero: the zero is deleted from the vector and is not appended. *)
Example Append_prunes :
  result_of
    ((r <- Append (Some 1%positive) (Some 1%positive) ;;
      o <- loadVector (Some 1%positive) ;;
      ro <- loadVector r ;;
      ret (map fst (map_to_list (values o)),
           bool_decide (is_Some (values ro !! 1)),
           bool_decide (is_Some (values ro !! 3)))) zero_second)
  = Ret ([0], true, false).
Proof.
  vm_compute. reflexivity.
Qed.

(** ** GetValues of a matrix *)

Lemma ConstAt_GetValue_run (h : Heap) (v : loc) (o : VECTOR_NAME) (k : Z) :
  vectors h !! v = Some o -> valid_vector h (Some v) -> 0 <= k < n o ->
  exists c, ConstAt (Some v) k h = Ret (c, h)
            /\ ConstScalar_GetValue c h = Ret (value_at h o k, h).
Proof.
  intros Hv (u & o0 & Heq & Hu & Hval) Hk.
  injection Heq as <-. rewrite Hv in Hu. injection Hu as <-.
  unfold ConstAt, Dim.
  rewrite (bind_Ret _ _ _ _ _ (bind_Ret _ _ _ _ _ (loadVector_Some _ _ _ Hv))).
  unfold ret at 1. unfold out_of_bounds.
  destruct (Z.ltb_spec k 0); [lia|]. destruct (Z.leb_spec (n o) k); [lia|]. cbn [orb].
  rewrite (bind_Ret _ _ _ _ _ (loadVector_Some _ _ _ Hv)).
  unfold value_at.
  destruct (values o !! k) as [p|] eqn:Hp.
  - destruct (Hval k p Hp) as (l & -> & [s Hs]).
    exists (CPtr (Some l)). split; [reflexivity|].
    unfold ConstScalar_GetValue, ConstScalar_load.
    rewrite (bind_Ret _ _ _ _ _ (loadScalar_Some _ _ _ Hs)). rewrite Hs. reflexivity.
  - exists (CConst fzero). split; reflexivity.
Qed.

(** On a square unsliced matrix every storage index is the one of a
    position *)
Lemma storage_position (m : MATRIX_NAME) (k : Z) :
  unsliced m -> rows m = cols m -> 0 <= rows m -> rows m * rows m < 2 ^ 63 ->
  0 <= k < rows m * cols m ->
  exists i j, 0 <= i < rows m /\ 0 <= j < cols m /\ position m i j = k.
Proof.
  intros (Hro & Hco & Hrm & Hcm) Hsq Hrows Hsize Hk.
  rewrite <- Hsq in Hk, Hcm |- *.
  assert (Hpos : 0 < rows m) by nia.
  assert (Hm : well_shaped m) by (unfold well_shaped; nia).
  assert (Hdiv : 0 <= k / rows m < rows m).
  { split; [apply Z.div_pos; lia|]. apply Z.div_lt_upper_bound; [lia|]. nia. }
  assert (Hmod : 0 <= k mod rows m < rows m) by (apply Z.mod_pos_bound; lia).
  pose proof (Z.div_mod k (rows m) ltac:(lia)) as Hdm.
  destruct (transposed m) eqn:Ht.
  - exists (k mod rows m), (k / rows m).
    split; [exact Hmod|]. split; [lia|].
    unfold position.
    rewrite (proj1 (index_position m (k mod rows m) (k / rows m) Hm Hmod ltac:(lia))),
      Ht, Hro, Hco, Hrm. lia.
  - exists (k / rows m), (k mod rows m).
    split; [exact Hdiv|]. split; [lia|].
    unfold position.
    rewrite (proj1 (index_position m (k / rows m) (k mod rows m) Hm Hdiv ltac:(lia))),
      Ht, Hro, Hco, Hcm. lia.
Qed.

Lemma ij_position (m : MATRIX_NAME) (i j : Z) :
  unsliced m -> rows m = cols m -> rows m * rows m < 2 ^ 63 ->
  0 <= i < rows m -> 0 <= j < rows m ->
  ij m (position m i j) = Ret (if transposed m then (i, j) else (j, i)).
Proof.
  intros Hun Hsq Hsize Hi Hj.
  pose proof (ij_after_index m i j Hun Hsq Hsize Hi Hj) as H.
  rewrite (position_index m i j Hi ltac:(lia)) in H. exact H.
Qed.

Lemma slot_injective (a b a' b' c : Z) :
  0 <= b < c -> 0 <= b' < c -> a * c + b = a' * c + b' -> a = a' /\ b = b'.
Proof.
  intros Hb Hb' E.
  assert (Ha : a = a').
  { apply (f_equal (fun z => z / c)) in E.
    rewrite !Z.div_add_l, !Z.div_small in E by lia. lia. }
  subst a'. split; [reflexivity|lia].
Qed.

Section GetValuesBody.

Variables (hs : Heap) (m : MATRIX_NAME) (v : loc) (o : VECTOR_NAME).
Hypothesis Hun : unsliced m.
Hypothesis Hsq : rows m = cols m.
Hypothesis Hrows : 0 <= rows m.
Hypothesis Hsize : rows m * rows m < 2 ^ 63.
Hypothesis Hmv : mvalues m = Some v.
Hypothesis Hvalid : forall k p, values o !! k = Some p ->
                      exists l, p = Some l /\ is_Some (scalars hs !! l).
Hypothesis Hn : n o = rows m * cols m.
Hypothesis Hkeys : keys_in_range o.
Hypothesis Hnonull : forall k, null_at hs o k = false.

Lemma Matrix_GetValues_body_ok :
  forall vis k rest s h oc l sc,
    GetValues_inv hs m v o vis s h -> vectors h !! v = Some oc -> agrees h o oc ->
    values oc !! k = Some (Some l) -> scalars h !! l = Some sc ->
    exists s' h',
      Matrix_GetValues_body m (mkIterator (k :: rest) (Some v)) s h = Ret (s', h')
      /\ vectors h' !! v = Some oc /\ scalars h' = scalars h
      /\ GetValues_inv hs m v o (vis ++ [k]) s' h'.
Proof.
  intros vis k rest s h oc l sc ((ov & ->) & Hlen & Hs) Hoc [Hnoc Hag] Hl Hsc.
  assert (Hm : well_shaped m).
  { destruct Hun as (Hro & Hco & Hrm & Hcm). unfold well_shaped.
    nia. }
  assert (Hsame : forall k', values oc !! k' = values o !! k').
  { intros k'. destruct (Hag k') as [E|[_ E]]; [exact E|].
    rewrite (null_at_scalars hs (set_vector hs v ov) o k' eq_refl), Hnonull in E.
    discriminate. }
  assert (Hvoc : valid_vector (set_vector hs v ov) (Some v)).
  { exists v, oc. split; [reflexivity|]. split; [exact Hoc|].
    intros k' p Hp. rewrite Hsame in Hp. exact (Hvalid k' p Hp). }
  assert (Hkr : 0 <= k < rows m * cols m).
  { rewrite <- Hn. apply Hkeys. rewrite <- Hsame, Hl. eauto. }
  destruct (storage_position m k Hun Hsq Hrows Hsize Hkr) as (i & j & Hi & Hj & Hpos).
  set (a := if transposed m then i else j).
  set (b := if transposed m then j else i).
  assert (Ha : 0 <= a < rows m) by (unfold a; destruct (transposed m); lia).
  assert (Hb : 0 <= b < cols m) by (unfold b; destruct (transposed m); lia).
  assert (Hij : ij m k = Ret (a, b)).
  { rewrite <- Hpos, (ij_position m i j Hun Hsq Hsize Hi ltac:(lia)).
    unfold a, b. destruct (transposed m); reflexivity. }
  assert (Hsrc : source_of m a b = k).
  { unfold source_of, a, b. destruct (transposed m); exact Hpos. }
  pose proof (position_range m a b Hm Ha Hb) as Hk2.
  set (k2 := position m a b) in *.
  destruct (ConstAt_GetValue_run (set_vector hs v ov) v oc k2 Hoc Hvoc)
    as (c & Hc & Hget).
  { rewrite Hnoc, Hn. destruct Hun as (_ & _ & Hrm & Hcm).
    rewrite Hrm, Hcm in Hk2. exact Hk2. }
  assert (Hval : value_at (set_vector hs v ov) oc k2 = value_at hs o k2).
  { apply value_at_ext; [apply Hsame|]. intros; reflexivity. }
  assert (Hslot : int_add (int_mul a (cols m)) b = a * cols m + b).
  { unfold int_add, int_mul. rewrite (wrap_small (a * cols m)) by nia.
    apply wrap_small. nia. }
  assert (Hslotr : 0 <= a * cols m + b < rows m * cols m) by nia.
  exists (<[Z.to_nat (a * cols m + b) := value_at hs o k2]> s), (set_vector hs v ov).
  split.
  { unfold Matrix_GetValues_body, MatrixIterator_Index. cbn [vit it_m].
    unfold Iterator_Index at 1. cbn [it_index].
    unfold bind at 1. unfold bind at 1. unfold ret at 1. unfold lift at 1.
    rewrite Hij. cbn [rbind fst snd Dims].
    assert (HMC : Matrix_ConstAt m a b (set_vector hs v ov) = Ret (c, set_vector hs v ov)).
    { unfold Matrix_ConstAt. unfold bind at 1. unfold lift at 1.
      rewrite (position_index m a b Ha Hb). cbn [rbind]. fold k2. rewrite Hmv.
      exact Hc. }
    rewrite (bind_Ret _ _ _ _ _ HMC).
    rewrite (bind_Ret _ _ _ _ _ Hget). rewrite Hval, Hslot.
    destruct (Z.ltb_spec (a * cols m + b) 0); [lia|].
    destruct (Z.leb_spec (Z.of_nat (length s)) (a * cols m + b)); [lia|].
    reflexivity. }
  split; [exact Hoc|]. split; [reflexivity|].
  split; [exists ov; reflexivity|]. split; [rewrite length_insert; exact Hlen|].
  intros i0 j0 Hi0 Hj0.
  destruct (decide (i0 = a /\ j0 = b)) as [[-> ->]|Hne].
  - rewrite list_lookup_insert_eq by (rewrite Hlen; apply Z2Nat.inj_lt; lia).
    rewrite bool_decide_eq_true_2; [reflexivity|].
    rewrite Hsrc. apply elem_of_app. right. left.
  - rewrite list_lookup_insert_ne.
    2:{ intros E. apply Z2Nat.inj in E; [|lia|nia]. apply Hne.
        destruct (slot_injective a b i0 j0 (cols m) Hb Hj0 E) as [-> ->]. auto. }
    rewrite (Hs i0 j0 Hi0 Hj0). f_equal.
    rewrite (bool_decide_ext (source_of m i0 j0 ∈ vis ++ [k]) (source_of m i0 j0 ∈ vis));
      [reflexivity|].
    rewrite elem_of_app, elem_of_cons, elem_of_nil.
    split; [|tauto]. intros [H|[H|[]]]; [exact H|]. exfalso. apply Hne.
    rewrite <- Hsrc in H. unfold source_of in H.
    destruct (transposed m).
    + exact (position_injective m i0 j0 a b Hm Hi0 Hj0 Ha Hb H).
    + destruct (position_injective m j0 i0 b a Hm ltac:(lia) ltac:(lia) ltac:(lia)
                  ltac:(lia) H) as [-> ->]. auto.
Qed.

Lemma GetValues_inv_frame :
  forall vis s h ov, GetValues_inv hs m v o vis s h ->
                     GetValues_inv hs m v o vis s (set_vector h v ov).
Proof.
  intros vis s h ov ((ov' & ->) & Hrest). split; [|exact Hrest].
  exists ov. apply set_vector_twice.
Qed.

End GetValuesBody.

(** X27: GetValues of a square unsliced matrix that stores no structural zero.
    The slot of position (i, j) is written when the iterator visits the
    storage index that [ij] maps to (i, j), and it is written with the value
    at (i, j).  On a transposed matrix that is the index of (i, j) itself,
    and the slice holds the value of every position.  On a matrix that is
    not transposed it is the index of the mirrored position (j, i): the
    slice holds the value at (i, j) only where (j, i) is occupied, and 0.0
    elsewhere, whatever (i, j) stores.  The traversal sorts the index of the
    backing vector and changes nothing else. *)
Theorem Matrix_GetValues_reads_through_ij
  (h : Heap) (m : MATRIX_NAME) (v : loc) (o : VECTOR_NAME) :
  unsliced m -> rows m = cols m -> 0 <= rows m -> rows m * rows m < 2 ^ 63 ->
  mvalues m = Some v -> vectors h !! v = Some o -> valid_vector h (Some v) ->
  index_mirrors o -> NoDup (indices (sparseIndex o)) ->
  n o = rows m * cols m -> keys_in_range o ->
  (forall k, null_at h o k = false) ->
  exists r,
    Matrix_GetValues m h = Ret (r, set_vector h v (sorted_obj o))
    /\ length r = Z.to_nat (rows m * cols m)
    /\ forall i j, 0 <= i < rows m -> 0 <= j < cols m ->
         r !! Z.to_nat (i * cols m + j)
         = Some (if transposed m || bool_decide (is_Some (values o !! position m j i))
                 then value_at h o (position m i j) else fzero)
         /\ Matrix_ValueAt m i j h = Ret (value_at h o (position m i j), h).
Proof.
  intros Hun Hsq Hrows Hsize Hmv Hv Hvalid Hmir Hnd Hn Hkeys Hnonull.
  pose proof Hvalid as (u & o' & Heq & Hu & Hval). injection Heq as <-.
  rewrite Hv in Hu. injection Hu as <-.
  assert (Hm : well_shaped m).
  { destruct Hun as (Hro & Hco & Hrm & Hcm). unfold well_shaped. nia. }
  set (h3 := set_vector h v (sorted_obj o)).
  set (it := indices (indexSort (sparseIndex o))).
  destruct (indexSort_strict o Hmir Hnd) as [_ Hin].
  assert (Hndit : NoDup it).
  { unfold it, indexSort. destruct (isSorted (sparseIndex o)); [exact Hnd|].
    simpl. rewrite merge_sort_Permutation. exact Hnd. }
  assert (Hlen0 : int_mul (rows m) (cols m) = rows m * cols m).
  { unfold int_mul. apply wrap_small. nia. }
  destruct (for_iterator_loop_spec (Matrix_GetValues_body m) v o
              (GetValues_inv h m v o)
              (Matrix_GetValues_body_ok h m v o Hun Hsq Hrows Hsize Hmv Hval Hn Hkeys
                 Hnonull)
              (GetValues_inv_frame h m v o)
              (length it) it h3 (sorted_obj o) (S (length it)) []
              (replicate (Z.to_nat (rows m * cols m)) fzero))
    as (r & h' & Hloop & Hv' & Hs' & ((ov & Hh') & Hlen & Hslots)).
  { apply le_n. }
  { apply set_vector_lookup. }
  { split; [reflexivity|]. intros k. left. reflexivity. }
  { intros k Hk. apply Hin in Hk as [p Hp].
    destruct (Hval k p Hp) as (l & -> & [s Hs]). exists l, s. auto. }
  { exact Hndit. }
  { apply Nat.lt_succ_diag_r. }
  { split; [exists (sorted_obj o); reflexivity|].
    split; [apply length_replicate|].
    intros i j Hi Hj. rewrite lookup_replicate_2 by (apply Z2Nat.inj_lt; nia).
    rewrite bool_decide_eq_false_2 by apply not_elem_of_nil. reflexivity. }
  assert (Hnone : List.filter (null_at h3 (sorted_obj o)) (tail it) = []).
  { clear -Hnonull. induction (tail it) as [|y l IH]; [reflexivity|]. cbn [List.filter].
    replace (null_at h3 (sorted_obj o) y) with (null_at h o y) by reflexivity.
    rewrite Hnonull. exact IH. }
  rewrite Hnone, without_nil in Hv'.
  assert (Hfinal : h' = h3).
  { rewrite Hh', set_vector_lookup in Hv'. injection Hv' as ->. exact Hh'. }
  cbn [app] in Hslots.
  assert (Hvis : forall k, k ∈ visited h3 (sorted_obj o) it <-> is_Some (values o !! k)).
  { intros k. rewrite (visited_elem _ _ _ _ Hndit), Hnone, <- (Hin k).
    split; [tauto|]. intros Hk. split; [exact Hk|apply not_elem_of_nil]. }
  exists r. split.
  { unfold Matrix_GetValues, Dims. cbn [fst snd]. rewrite Hlen0.
    destruct (Z.ltb_spec (rows m * cols m) 0); [nia|].
    unfold for_iterator. rewrite Hmv.
    rewrite (bind_Ret _ _ _ _ _ (ITERATOR_run h v o Hv)). cbn [it_index].
    rewrite <- Hfinal. exact Hloop. }
  split; [exact Hlen|].
  intros i j Hi Hj. split.
  - rewrite (Hslots i j Hi Hj). f_equal. unfold source_of.
    destruct (transposed m); cbn [orb].
    + destruct (values o !! position m i j) as [p|] eqn:Hp.
      * rewrite bool_decide_eq_true_2; [reflexivity|]. apply Hvis. rewrite Hp. eauto.
      * rewrite bool_decide_eq_false_2.
        -- unfold value_at. rewrite Hp. reflexivity.
        -- rewrite Hvis, Hp. intros [? ?]. discriminate.
    + rewrite (bool_decide_ext _ _ (Hvis (position m j i))). reflexivity.
  - rewrite (proj1 (Matrix_ValueAt_index m i j _ h (position_index m i j Hi Hj))), Hmv.
    apply (ValueAt_run h v o _ Hv Hvalid).
    rewrite Hn. destruct Hun as (_ & _ & Hrm & Hcm).
    pose proof (position_range m i j Hm Hi Hj) as Hr. rewrite Hrm, Hcm in Hr. exact Hr.
Qed.

Lemma no_nullb_true (h : Heap) (o : VECTOR_NAME) :
  no_nullb h o = true -> forall k, null_at h o k = false.
Proof.
  intros Hb k. destruct (null_at h o k) eqn:Hk; [|reflexivity].
  unfold no_nullb in Hb. rewrite forallb_forall in Hb.
  assert (Hin : exists p, values o !! k = Some p).
  { unfold null_at in Hk. destruct (values o !! k) as [p|]; [eauto|discriminate]. }
  destruct Hin as [p Hp].
  specialize (Hb (k, p)). cbn [fst] in Hb. rewrite Hk in Hb.
  symmetry. apply Hb. apply list_elem_of_In, elem_of_map_to_list. exact Hp.
Defined.

Lemma Matrix_GetValues_reads_through_ij_witness :
  exists r,
    Matrix_GetValues (fst upper_2x2) (snd upper_2x2)
    = Ret (r, set_vector (snd upper_2x2) 1%positive (sorted_obj upper_stored))
    /\ length r = Z.to_nat (rows (fst upper_2x2) * cols (fst upper_2x2))
    /\ forall i j, 0 <= i < rows (fst upper_2x2) -> 0 <= j < cols (fst upper_2x2) ->
         r !! Z.to_nat (i * cols (fst upper_2x2) + j)
         = Some (if transposed (fst upper_2x2)
                    || bool_decide (is_Some (values upper_stored
                                               !! position (fst upper_2x2) j i))
                 then value_at (snd upper_2x2) upper_stored (position (fst upper_2x2) i j)
                 else fzero)
         /\ Matrix_ValueAt (fst upper_2x2) i j (snd upper_2x2)
            = Ret (value_at (snd upper_2x2) upper_stored (position (fst upper_2x2) i j),
                   snd upper_2x2).
Proof.
  apply (Matrix_GetValues_reads_through_ij (snd upper_2x2) (fst upper_2x2) 1%positive
           upper_stored).
  - repeat split.
  - reflexivity.
  - simpl. lia.
  - simpl. lia.
  - reflexivity.
  - reflexivity.
  - apply valid_vectorb_true. vm_compute. reflexivity.
  - apply index_mirrorsb_true. vm_compute. reflexivity.
  - apply (bool_decide_eq_true_1 (NoDup (indices (sparseIndex upper_stored)))).
    vm_compute. reflexivity.
  - reflexivity.
  - apply keys_in_rangeb_true. vm_compute. reflexivity.
  - apply no_nullb_true. vm_compute. reflexivity.
Defined.

(** A run on the matrix that stores 5.0 at (0,1) only: ValueAt(0, 1) reads
    5.0, GetValues returns four times 0.0, and GetValues of the transposed
    view returns the 5.0 at (1,0). *)
Example Matrix_GetValues_run :
  result_of (Matrix_ValueAt (fst upper_2x2) 0 1 (snd upper_2x2)) = Ret 5%float
  /\ result_of (Matrix_GetValues (fst upper_2x2) (snd upper_2x2))
     = Ret [0%float; 0%float; 0%float; 0%float]
  /\ result_of (Matrix_GetValues (T (fst upper_2x2)) (snd upper_2x2))
     = Ret [0%float; 0%float; 5%float; 0%float].
Proof.
  repeat split; vm_compute; reflexivity.
Qed.

(** ** Map on a matrix *)

Lemma AT_vivifies (h : Heap) (v : loc) (o : VECTOR_NAME) (k : Z) :
  vectors h !! v = Some o -> valid_vector h (Some v) -> 0 <= k < n o ->
  exists l h1 o1,
    AT (Some v) k h = Ret (Some l, h1)
    /\ vectors h1 !! v = Some o1 /\ grows o o1
    /\ values o1 !! k = Some (Some l)
    /\ valid_vector h1 (Some v) /\ is_Some (scalars h1 !! l).
Proof.
  intros Hv Hvalid Hk.
  pose proof Hvalid as (u & o0 & Heq & Hu & Hval).
  injection Heq as <-. rewrite Hv in Hu. injection Hu as <-.
  destruct (values o !! k) as [p|] eqn:Hp.
  - destruct (Hval k p Hp) as (l & -> & Hs).
    exists l, h, o. split; [exact (AT_run_present h v o k _ Hv Hk Hp)|].
    split; [exact Hv|]. split; [split; [reflexivity|auto]|].
    split; [exact Hp|]. split; [exact Hvalid|exact Hs].
  - pose proof (AT_run_absent h v o k Hv Hk Hp) as Hrun.
    assert (Hl : scalars h !! fresh (dom (scalars h)) = None)
      by apply not_elem_of_dom, is_fresh.
    revert Hrun Hl. generalize (fresh (dom (scalars h))). intros l Hrun Hl.
    eexists l, _, _. split; [exact Hrun|].
    cbn [vectors scalars]. split; [apply lookup_insert_eq|]. split.
    { split; [reflexivity|]. intros k' p Hk'. cbn [values].
      rewrite lookup_insert_ne; [exact Hk'|]. intros ->. rewrite Hp in Hk'. discriminate. }
    split; [cbn [values]; apply lookup_insert_eq|]. split.
    { eexists v, _. split; [reflexivity|]. split; [apply lookup_insert_eq|].
      cbn [values scalars]. intros k' p Hk'.
      apply lookup_insert_Some in Hk' as [[_ <-]|[_ Hk']].
      - exists l. split; [reflexivity|]. rewrite lookup_insert_eq. eauto.
      - destruct (Hval k' p Hk') as (l' & -> & [s Hs]). exists l'. split; [reflexivity|].
        rewrite lookup_insert_ne by (intros E; congruence).
        eauto. }
    rewrite lookup_insert_eq. eauto.
Qed.

Lemma grows_trans (o1 o2 o3 : VECTOR_NAME) : grows o1 o2 -> grows o2 o3 -> grows o1 o3.
Proof.
  intros [Hn1 H1] [Hn2 H2]. split; [congruence|]. intros k p Hk. apply H2, H1. exact Hk.
Qed.

Section MapSpec.

Variable f : ptr -> M unit.
Hypothesis Hf : keeps_vectors f.
Variables (m : MATRIX_NAME) (v : loc).
Hypothesis Hm : well_shaped m.
Hypothesis Hmv : mvalues m = Some v.

Lemma Map_row_spec (i : Z) :
  0 <= i < rows m ->
  forall (js : list Z) (h : Heap) (o : VECTOR_NAME),
    (forall j, j ∈ js -> 0 <= j < cols m) ->
    vectors h !! v = Some o -> valid_vector h (Some v) -> n o = rowMax m * colMax m ->
    exists h' o',
      Map_row f m i js h = Ret (tt, h')
      /\ vectors h' !! v = Some o' /\ valid_vector h' (Some v) /\ grows o o'
      /\ forall j, j ∈ js -> is_Some (values o' !! position m i j).
Proof.
  intros Hi js. induction js as [|j js IH]; intros h o Hjs Hv Hvalid Hn.
  - exists h, o. split; [reflexivity|]. split; [exact Hv|]. split; [exact Hvalid|].
    split; [split; [reflexivity|auto]|]. intros j Hj. apply elem_of_nil in Hj. contradiction.
  - assert (Hj : 0 <= j < cols m) by (apply Hjs; left).
    pose proof (position_range m i j Hm Hi Hj) as Hr.
    destruct (AT_vivifies h v o (position m i j) Hv Hvalid ltac:(lia))
      as (l & h1 & o1 & Hat & Hv1 & Hg1 & Hl & Hvalid1 & Hs1).
    destruct (Hf l h1 Hs1) as (h2 & Hrun & Hvec & Hkeep).
    assert (Hv2 : vectors h2 !! v = Some o1) by (rewrite Hvec; exact Hv1).
    assert (Hvalid2 : valid_vector h2 (Some v)).
    { destruct Hvalid1 as (u & o0 & Heq & Hu & Hval). injection Heq as <-.
      rewrite Hv1 in Hu. injection Hu as <-.
      exists v, o1. split; [reflexivity|]. split; [exact Hv2|].
      intros k p Hp. destruct (Hval k p Hp) as (l' & -> & Hs'). eauto. }
    destruct (IH h2 o1) as (h' & o' & Hrest & Hv' & Hvalid' & Hg' & Hocc).
    { intros j' Hj'. apply Hjs. right. exact Hj'. }
    { exact Hv2. }
    { exact Hvalid2. }
    { destruct Hg1 as [-> _]. exact Hn. }
    exists h', o'. split.
    { cbn [Map_row].
      assert (HAT : Matrix_AT m i j h = Ret (Some l, h1)).
      { rewrite (proj2 (Matrix_ValueAt_index m i j _ h (position_index m i j Hi Hj))), Hmv.
        exact Hat. }
      rewrite (bind_Ret _ _ _ _ _ HAT), (bind_Ret _ _ _ _ _ Hrun). exact Hrest. }
    split; [exact Hv'|]. split; [exact Hvalid'|].
    split; [exact (grows_trans _ _ _ Hg1 Hg')|].
    intros j' Hj'. apply elem_of_cons in Hj' as [->|Hj']; [|apply Hocc; exact Hj'].
    destruct Hg' as [_ Hg']. rewrite (Hg' _ _ Hl). eauto.
Qed.

Lemma Map_rows_spec (js : list Z) :
  (forall j, j ∈ js -> 0 <= j < cols m) ->
  forall (is_ : list Z) (h : Heap) (o : VECTOR_NAME),
    (forall i, i ∈ is_ -> 0 <= i < rows m) ->
    vectors h !! v = Some o -> valid_vector h (Some v) -> n o = rowMax m * colMax m ->
    exists h' o',
      Map_rows f m is_ js h = Ret (tt, h')
      /\ vectors h' !! v = Some o' /\ valid_vector h' (Some v) /\ grows o o'
      /\ forall i j, i ∈ is_ -> j ∈ js -> is_Some (values o' !! position m i j).
Proof.
  intros Hjs is_. induction is_ as [|i is_ IH]; intros h o His Hv Hvalid Hn.
  - exists h, o. split; [reflexivity|]. split; [exact Hv|]. split; [exact Hvalid|].
    split; [split; [reflexivity|auto]|].
    intros i j Hi. apply elem_of_nil in Hi. contradiction.
  - destruct (Map_row_spec i (His i (list_elem_of_here _ _)) js h o Hjs Hv Hvalid Hn)
      as (h1 & o1 & Hrow & Hv1 & Hvalid1 & Hg1 & Hocc1).
    destruct (IH h1 o1) as (h' & o' & Hrest & Hv' & Hvalid' & Hg' & Hocc).
    { intros i' Hi'. apply His. right. exact Hi'. }
    { exact Hv1. }
    { exact Hvalid1. }
    { destruct Hg1 as [-> _]. exact Hn. }
    exists h', o'. split.
    { cbn [Map_rows]. rewrite (bind_Ret _ _ _ _ _ Hrow). exact Hrest. }
    split; [exact Hv'|]. split; [exact Hvalid'|].
    split; [exact (grows_trans _ _ _ Hg1 Hg')|].
    intros i' j Hi' Hj. apply elem_of_cons in Hi' as [->|Hi']; [|apply Hocc; assumption].
    destruct (Hocc1 j Hj) as [p Hp]. destruct Hg' as [_ Hg']. rewrite (Hg' _ _ Hp). eauto.
Qed.

End MapSpec.

(** X28: Map makes a sparse matrix dense.  It calls At(i, j) at every position,
    and At stores a new structural zero wherever nothing is stored.  For a
    well-shaped matrix over a backing vector as large as its storage, and a
    function that leaves the vectors alone and frees no scalar: Map returns,
    and afterwards every position inside the dimensions is occupied; the
    entries that were stored are kept, with their pointers, and the
    dimension of the backing vector is kept. *)
Theorem Map_occupies_every_position
  (f : ptr -> M unit) (h : Heap) (m : MATRIX_NAME) (v : loc) (o : VECTOR_NAME) :
  keeps_vectors f ->
  well_shaped m -> mvalues m = Some v ->
  vectors h !! v = Some o -> valid_vector h (Some v) -> n o = rowMax m * colMax m ->
  exists h' o',
    Matrix_Map f m h = Ret (tt, h')
    /\ vectors h' !! v = Some o' /\ valid_vector h' (Some v) /\ grows o o'
    /\ forall i j, 0 <= i < rows m -> 0 <= j < cols m ->
         is_Some (values o' !! position m i j).
Proof.
  intros Hf Hm Hmv Hv Hvalid Hn.
  destruct (Map_rows_spec f Hf m v Hm Hmv (upto (cols m)) (upto_elem (cols m))
              (upto (rows m)) h o (upto_elem (rows m)) Hv Hvalid Hn)
    as (h' & o' & Hrun & Hv' & Hvalid' & Hg & Hocc).
  exists h', o'. split; [exact Hrun|]. split; [exact Hv'|]. split; [exact Hvalid'|].
  split; [exact Hg|].
  intros i j Hi Hj. apply Hocc; apply upto_elem_of; assumption.
Qed.

Lemma Map_occupies_every_position_witness :
  exists h' o',
    Matrix_Map (fun _ => ret tt) (fst upper_2x2) (snd upper_2x2) = Ret (tt, h')
    /\ vectors h' !! 1%positive = Some o' /\ valid_vector h' (Some 1%positive)
    /\ grows upper_stored o'
    /\ forall i j, 0 <= i < rows (fst upper_2x2) -> 0 <= j < cols (fst upper_2x2) ->
         is_Some (values o' !! position (fst upper_2x2) i j).
Proof.
  apply (Map_occupies_every_position (fun _ => ret tt) (snd upper_2x2) (fst upper_2x2)
           1%positive upper_stored).
  - intros l h Hl. exists h. split; [reflexivity|]. split; [reflexivity|]. auto.
  - unfold well_shaped. simpl. lia.
  - reflexivity.
  - reflexivity.
  - apply valid_vectorb_true. vm_compute. reflexivity.
  - reflexivity.
Defined.

(** A run on the matrix that stores 5.0 at (0,1) only: after Map with a
    function that does nothing the backing vector stores four entries. *)
Example Matrix_Map_run :
  result_of
    ((Matrix_Map (fun _ => ret tt) (fst upper_2x2) ;;;
      o <- loadVector (Some 1%positive) ;;
      x <- Matrix_ValueAt (fst upper_2x2) 0 1 ;;
      ret (size (values upper_stored), size (values o), x)) (snd upper_2x2))
  = Ret (1%nat, 4%nat, 5%float).
Proof.
  vm_compute. reflexivity.
Qed.
